(** * napkinXC: probabilistic label trees and their node classifiers

    A shallow embedding of [src/base.cpp], [src/pltree.cpp] and
    [src/main.cpp].

    Conventions of the embedding.
    - C++ [int] and [size_t] values are integers of [Z]; signed overflow is
      undefined behaviour in C++ and is outside the model.
    - C++ [double] values are exact rationals of [Q]; [==] on doubles is
      [Qeq_bool].
    - Heap objects reached through raw pointers live in an explicit store;
      a pointer is [option loc] ([None] is [nullptr]).  Dereferencing a null
      or freed pointer, and indexing a [std::vector] out of range, is the
      outcome [Undefined].
    - A C++ exception is the outcome [Throw], which keeps the state reached
      when it was raised. *)

From Stdlib Require Import ZArith QArith Qabs Qround List Lia Lqa String Permutation Sorted.
From stdpp Require Import base option list gmap strings.

Local Open Scope Z_scope.

(** ** Enumerations of [args.h] *)

Inductive LossType := logistic | squaredHinge | pwLogistic.
Inductive OptimizerType := liblinear | sgd | adagrad.

Module RepresentationType.
Inductive t := dense | map | sparse.

Definition eqb (a b : t) : bool :=
  match a, b with
  | dense, dense | map, map | sparse, sparse => true
  | _, _ => false
  end.
End RepresentationType.

Definition LossType_eqb (a b : LossType) : bool :=
  match a, b with
  | logistic, logistic | squaredHinge, squaredHinge
  | pwLogistic, pwLogistic => true
  | _, _ => false
  end.

(** A sparse feature row [Feature*]: the [(index, value)] pairs before the
    [-1] sentinel. *)
Definition Features := list (Z * Q).

(** ** Weight vectors *)

(** Modelled from the spec: the classes [Vector], [MapVector] and
    [SparseVector] deriving from [AbstractVector<Weight>] are declared in a
    header that is not part of the sources.  Section 3 of the specification
    gives the three representations and the meaning of [at], [dot],
    [invert], [prune] and of the converting constructors. *)
Inductive AbstractVector :=
| Vector (d : list Q)
| MapVector (n : Z) (m : gmap Z Q)
| SparseVector (n : Z) (s : list (Z * Q)).

Module Vec.

Definition representation (v : AbstractVector) : RepresentationType.t :=
  match v with
  | Vector _ => RepresentationType.dense
  | MapVector _ _ => RepresentationType.map
  | SparseVector _ _ => RepresentationType.sparse
  end.

Fixpoint assoc (s : list (Z * Q)) (i : Z) : option Q :=
  match s with
  | [] => None
  | (j, w) :: s' => if Z.eqb i j then Some w else assoc s' i
  end.

(** [at(i)]: logical lookup, [0] for an absent index. *)
Definition at_ (v : AbstractVector) (i : Z) : Q :=
  match v with
  | Vector d => if Z.ltb i 0 then 0%Q else nth (Z.to_nat i) d 0%Q
  | MapVector _ m => default 0%Q (m !! i)
  | SparseVector _ s => default 0%Q (assoc s i)
  end.

Definition size (v : AbstractVector) : Z :=
  match v with
  | Vector d => Z.of_nat (length d)
  | MapVector n _ => n
  | SparseVector n _ => n
  end.

(** [insertD(i, v)]: array store for dense, insert or overwrite for map,
    not defined for sparse. *)
Definition insertD (v : AbstractVector) (i : Z) (w : Q)
  : option AbstractVector :=
  match v with
  | Vector d =>
      if Z.ltb i 0 then None
      else if Z.ltb i (Z.of_nat (length d))
           then Some (Vector (<[Z.to_nat i := w]> d)) else None
  | MapVector n m => Some (MapVector n (<[i := w]> m))
  | SparseVector _ _ => None
  end.

(** [dot(features)]: the sum of [at(idx) * value] over the row. *)
Definition dot (v : AbstractVector) (f : Features) : Q :=
  fold_left (fun acc iv => (acc + at_ v (fst iv) * snd iv)%Q) f 0%Q.

Definition opp (w : Q) : Q := (- w)%Q.

Definition invert (v : AbstractVector) : AbstractVector :=
  match v with
  | Vector d => Vector (List.map opp d)
  | MapVector n m => MapVector n (opp <$> m)
  | SparseVector n s => SparseVector n (List.map (fun iw => (fst iw, opp (snd iw))) s)
  end.

Definition small (threshold w : Q) : bool :=
  match Qabs w ?= threshold with Lt => true | _ => false end%Q.

(** [prune(threshold)]: entries with [|w| < threshold] are removed, and
    zeroed in the dense form. *)
Definition prune (threshold : Q) (v : AbstractVector) : AbstractVector :=
  match v with
  | Vector d =>
      Vector (List.map (fun w => if small threshold w then 0%Q else w) d)
  | MapVector n m =>
      MapVector n (filter (fun kv => small threshold (snd kv) = false) m)
  | SparseVector n s =>
      SparseVector n
        (List.filter (fun iw => negb (small threshold (snd iw))) s)
  end.

(** The indices [0 .. n-1]. *)
Definition indices (n : Z) : list Z :=
  List.map Z.of_nat (seq 0 (Z.to_nat n)).

Definition nonzero (w : Q) : bool := negb (Qeq_bool w 0).

(** The stored non-zero pairs of a vector, by increasing index. *)
Definition pairs (v : AbstractVector) : list (Z * Q) :=
  List.filter (fun iw => nonzero (snd iw))
    (List.map (fun i => (i, at_ v i)) (indices (size v))).

Definition nonZero (v : AbstractVector) : Z :=
  Z.of_nat (length (pairs v)).

(** The converting constructors [Vector(const AbstractVector&)],
    [MapVector(const AbstractVector&)], [SparseVector(const
    AbstractVector&)]. *)
Definition toDense (v : AbstractVector) : AbstractVector :=
  Vector (List.map (at_ v) (indices (size v))).

Definition toMap (v : AbstractVector) : AbstractVector :=
  MapVector (size v) (list_to_map (pairs v)).

Definition toSparse (v : AbstractVector) : AbstractVector :=
  SparseVector (size v) (pairs v).

(** [new Vector<Weight>(n)] and friends: a zero vector of size [n]. *)
Definition zeros (r : RepresentationType.t) (n : Z) : AbstractVector :=
  match r with
  | RepresentationType.dense => Vector (repeat 0%Q (Z.to_nat n))
  | RepresentationType.map => MapVector n ∅
  | RepresentationType.sparse => SparseVector n []
  end.

End Vec.

(** ** The store, and the outcomes of a method call *)

Definition loc := nat.

(** Calls that leave the program: the solvers. *)
Inductive Event :=
| SolverCall (o : OptimizerType).

(** The fields of [class Base]. *)
Record Base := mkBase {
  lossType : LossType;
  classCount : Z;
  firstClass : Z;
  firstClassCount : Z;
  t : Z;
  W : option loc;
  G : option loc
}.

(** The object a method runs on, the heap of weight vectors and the calls
    made so far. *)
Record State := mkState {
  this : Base;
  heap : gmap loc AbstractVector;
  events : list Event
}.

Inductive Outcome (A : Type) :=
| Ret (a : A) (s : State)
| Throw (what : string) (s : State)
| Undefined.
Arguments Ret {A} a s.
Arguments Throw {A} what s.
Arguments Undefined {A}.

Definition M (A : Type) : Type := State -> Outcome A.

Definition ret {A} (a : A) : M A := fun s => Ret a s.

Definition bind {A B} (m : M A) (k : A -> M B) : M B :=
  fun s =>
    match m s with
    | Ret a s' => k a s'
    | Throw w s' => Throw w s'
    | Undefined => Undefined
    end.

Notation "'do' x <- m ; k" := (bind m (fun x => k))
  (at level 10, x name, m at level 100, k at level 200).
Notation "m ;; k" := (bind m (fun _ => k))
  (at level 100, k at level 200, right associativity).

Definition throw {A} (what : string) : M A := fun s => Throw what s.
Definition undefined {A} : M A := fun _ => Undefined.

Definition getThis : M Base := fun s => Ret (this s) s.
Definition setThis (f : Base -> Base) : M unit :=
  fun s => Ret tt (mkState (f (this s)) (heap s) (events s)).
Definition emit (e : Event) : M unit :=
  fun s => Ret tt (mkState (this s) (heap s) (events s ++ [e])).

(** [*p] *)
Definition deref (p : option loc) : M AbstractVector :=
  fun s =>
    match p with
    | None => Undefined
    | Some l => match heap s !! l with
                | Some v => Ret v s
                | None => Undefined
                end
    end.

(** [*p = v], for a live [p] *)
Definition assign (p : option loc) (v : AbstractVector) : M unit :=
  fun s =>
    match p with
    | None => Undefined
    | Some l => match heap s !! l with
                | Some _ => Ret tt (mkState (this s) (<[l := v]> (heap s)) (events s))
                | None => Undefined
                end
    end.

(** [new T(v)] *)
Definition new (v : AbstractVector) : M (option loc) :=
  fun s =>
    let l := fresh (dom (heap s)) in
    Ret (Some l) (mkState (this s) (<[l := v]> (heap s)) (events s)).

(** [delete p]; deleting [nullptr] does nothing *)
Definition delete_ (p : option loc) : M unit :=
  fun s =>
    match p with
    | None => Ret tt s
    | Some l => match heap s !! l with
                | Some _ => Ret tt (mkState (this s) (delete l (heap s)) (events s))
                | None => Undefined
                end
    end.

Definition set_lossType (x : LossType) (b : Base) : Base :=
  mkBase x (classCount b) (firstClass b) (firstClassCount b) (t b) (W b) (G b).
Definition set_classCount (x : Z) (b : Base) : Base :=
  mkBase (lossType b) x (firstClass b) (firstClassCount b) (t b) (W b) (G b).
Definition set_firstClass (x : Z) (b : Base) : Base :=
  mkBase (lossType b) (classCount b) x (firstClassCount b) (t b) (W b) (G b).
Definition set_firstClassCount (x : Z) (b : Base) : Base :=
  mkBase (lossType b) (classCount b) (firstClass b) x (t b) (W b) (G b).
Definition set_t (x : Z) (b : Base) : Base :=
  mkBase (lossType b) (classCount b) (firstClass b) (firstClassCount b) x (W b) (G b).
Definition set_W (x : option loc) (b : Base) : Base :=
  mkBase (lossType b) (classCount b) (firstClass b) (firstClassCount b) (t b) x (G b).
Definition set_G (x : option loc) (b : Base) : Base :=
  mkBase (lossType b) (classCount b) (firstClass b) (firstClassCount b) (t b) (W b) x.

(** [Base::Base()] *)
Definition Base_new : Base := mkBase logistic 0 0 0 0 None None.

(** ** Arguments and training problems *)

(** The solver types of LibLinear that [Base::trainLiblinear] tells apart. *)
Inductive SolverType :=
| L2R_LR | L2R_L2LOSS_SVC_DUAL | L2R_L2LOSS_SVC | L2R_L1LOSS_SVC_DUAL
| MCSVM_CS | L1R_L2LOSS_SVC | L1R_LR | L2R_LR_DUAL.

(** The fields of [Args] that [base.cpp] reads. *)
Module Args.
Record t := mk {
  optimizerType : OptimizerType;
  lossType : LossType;
  solverType : SolverType;
  tmax : Z;
  epochs : Z;
  cost : Q;
  autoCLog : bool;
  autoCLin : bool;
  inbalanceLabelsWeighting : bool;
  weightsThreshold : Q
}.
End Args.

Module ProblemData.
Record t := mk {
  binLabels : list Q;
  binFeatures : list Features;
  instancesWeights : list Q;
  n : Z;
  r : Z;
  invPs : Q;
  labelsCount : Z;
  labels : list Z;
  labelsWeights : list Q
}.

Definition set_weighting (lc : Z) (ls : list Z) (lw : list Q) (p : t) : t :=
  mk (binLabels p) (binFeatures p) (instancesWeights p) (n p) (r p) (invPs p)
     lc ls lw.
End ProblemData.

(** LibLinear's [struct model], as far as it is read back. *)
Record model := mkModel {
  nr_class : Z;
  nr_feature : Z;
  label : list Z;
  w : list Q
}.

(** [static_cast<int>(double)]: truncation towards zero. *)
Definition trunc (q : Q) : Z := Z.quot (Qnum q) (Zpos (Qden q)).

(** [static_cast<double>(int)] *)
Definition toDouble (z : Z) : Q := inject_Z z.

(** [assert(c)] *)
Definition assert (c : bool) : M unit :=
  if c then ret tt else throw "assert".

(** [std::count(first, last, value)] on doubles *)
Definition count (l : list Q) (value : Q) : Z :=
  Z.of_nat (length (List.filter (fun x => Qeq_bool x value) l)).

(** [v[i]] on a [std::vector] *)
Definition vector_at {A} (v : list A) (i : Z) : M A :=
  if Z.ltb i 0 then undefined
  else match v !! Z.to_nat i with
       | Some x => ret x
       | None => undefined
       end.

Section BaseMethods.

(** Functions of [<cmath>], of [online_optimization.h] and of LibLinear,
    and the memory estimates of the vector classes: they are called by
    [base.cpp] and defined elsewhere. *)
Variable exp ln : Q -> Q.
Variable logisticGrad squaredHingeGrad pwLogisticGrad : Q -> Q -> Q -> Q.
Variable updateSGD updateAdaGrad :
  AbstractVector -> option AbstractVector -> Features -> Q -> Z -> Args.t ->
  AbstractVector * option AbstractVector.
(** LibLinear's [check_parameter], given the problem, the arguments and
    the cost: [None] is [NULL], and otherwise the message. *)
Variable check_parameter : ProblemData.t -> Args.t -> Q -> option string.
Variable train_liblinear : ProblemData.t -> Args.t -> Q -> model.
Variable sparseMem denseMem : AbstractVector -> Z.

(** A reference bound to [*p]; the optimizers are handed [*G] also when
    [G] is null and then do not read it. *)
Definition derefOpt (p : option loc) : M (option AbstractVector) :=
  match p with
  | None => ret None
  | Some _ => do v <- deref p; ret (Some v)
  end.

(** [double Base::predictValue(Feature* features)] *)
Definition predictValue (features : Features) : M Q :=
  do b <- getThis;
  if Z.ltb (classCount b) 2
  then ret (toDouble ((1 - 2 * firstClass b) * -10))
  else
    do wv <- deref (W b);
    let val := Vec.dot wv features in
    ret (if Z.eqb (firstClass b) 0 then (val * -1)%Q else val).



(** A call of an optimizer on the references [W] and [G] dereferenced,
    with [features, grad, t, args]: it writes through both references. *)
Definition callUpdate
    (updateFunc : AbstractVector -> option AbstractVector -> Features -> Q ->
                  Z -> Args.t -> AbstractVector * option AbstractVector)
    (features : Features) (grad : Q) (args : Args.t) : M unit :=
  do b <- getThis;
  do wv <- deref (W b);
  do gv <- derefOpt (G b);
  let r := updateFunc wv gv features grad (t b) args in
  assign (W b) (fst r);;
  match snd r, G b with
  | Some gv', Some _ => assign (G b) gv'
  | _, _ => ret tt
  end.

(** [void Base::unsafeUpdate(double label, Feature* features, Args& args)] *)
Definition unsafeUpdate (label : Q) (features : Features) (args : Args.t)
  : M unit :=
  do b <- getThis;
  if negb (Z.eqb (Args.tmax args) (-1)) && Z.ltb (Args.tmax args) (t b)
  then ret tt
  else
    setThis (fun b => set_t (t b + 1) b);;
    (if Qeq_bool label (toDouble (firstClass b))
     then setThis (fun b => set_firstClassCount (firstClassCount b + 1) b)
     else ret tt);;
    do pred <- predictValue features;
    let grad :=
      if LossType_eqb (Args.lossType args) logistic
      then logisticGrad label pred 0%Q
      else squaredHingeGrad label pred 0%Q in
    match Args.optimizerType args with
    | sgd => callUpdate updateSGD features grad args
    | adagrad => callUpdate updateAdaGrad features grad args
    | liblinear => throw "Unknown optimizer type"
    end.

(** [void Base::update(double label, Feature* features, Args& args)]: the
    same call while holding [updateMtx]. *)
Definition update (label : Q) (features : Features) (args : Args.t)
  : M unit :=
  unsafeUpdate label features args.

(** [void Base::pruneWeights(double threshold)] *)
Definition pruneWeights (threshold : Q) : M unit :=
  do b <- getThis;
  do wv <- deref (W b);
  let bias := Vec.at_ wv 1 in
  match Vec.insertD (Vec.prune threshold wv) 1 bias with
  | Some wv' => assign (W b) wv'
  | None => undefined
  end.

Definition isSquaredHingeSolver (s : SolverType) : bool :=
  match s with
  | L2R_L2LOSS_SVC_DUAL | L2R_L2LOSS_SVC | L2R_L1LOSS_SVC_DUAL
  | L1R_L2LOSS_SVC => true
  | _ => false
  end.

(** The loop [for (i < n) W->insertD(i + 1, M->w[i])] *)
Fixpoint copyWeights (ws : list Q) (i : Z) (wv : AbstractVector)
  : option AbstractVector :=
  match ws with
  | [] => Some wv
  | x :: ws' =>
      match Vec.insertD wv (i + 1) x with
      | Some wv' => copyWeights ws' (i + 1) wv'
      | None => None
      end
  end.

(** [void Base::trainLiblinear(ProblemData& problemData, Args& args)] *)
Definition trainLiblinear (pd : ProblemData.t) (args : Args.t) : M unit :=
  let m := toDouble (Z.of_nat (length (ProblemData.binFeatures pd))) in
  let cost0 := Args.cost args in
  let cost1 :=
    if Args.autoCLog args
    then (cost0 * (1 + ln (toDouble (ProblemData.r pd) / m)))%Q else cost0 in
  let cost2 :=
    if Args.autoCLin args
    then (cost1 * (toDouble (ProblemData.r pd) / m))%Q else cost1 in
  let output := check_parameter pd args cost2 in
  assert (match output with None => true | Some _ => false end);;
  emit (SolverCall liblinear);;
  let Mo := train_liblinear pd args cost2 in
  assert (Z.leb (nr_class Mo) 2);;
  assert (Z.eqb (nr_feature Mo) (ProblemData.n pd));;
  do l0 <- vector_at (label Mo) 0;
  setThis (set_firstClass l0);;
  setThis (set_classCount (nr_class Mo));;
  (if Z.ltb (Z.of_nat (length (w Mo))) (ProblemData.n pd)
   then undefined else ret tt);;
  match copyWeights (firstn (Z.to_nat (ProblemData.n pd)) (w Mo)) 0
          (Vec.zeros RepresentationType.dense (ProblemData.n pd + 1)) with
  | None => undefined
  | Some wv =>
      do p <- new wv;
      setThis (set_W p);;
      if isSquaredHingeSolver (Args.solverType args)
      then setThis (set_lossType squaredHinge) else ret tt
  end.

(** The locals of the loop of [Base::trainOnline]. *)
Record OnlineState := mkOnline {
  o_t : Z;
  o_firstClassCount : Z;
  o_W : AbstractVector;
  o_G : option AbstractVector
}.

(** The inner loop [for (r < examples)] of [Base::trainOnline], from row
    [r] on; [None] is an access out of range. *)
Fixpoint onlineRows (pd : ProblemData.t) (args : Args.t) (fc : Z)
    (gradFunc : Q -> Q -> Q -> Q)
    (updateFunc : AbstractVector -> option AbstractVector -> Features -> Q ->
                  Z -> Args.t -> AbstractVector * option AbstractVector)
    (rows : list Features) (r : nat) (st : OnlineState) : option OnlineState :=
  match rows with
  | [] => Some st
  | features :: rows' =>
      match ProblemData.binLabels pd !! r with
      | None => None
      | Some label =>
          if negb (Z.eqb (Args.tmax args) (-1))
             && Z.ltb (Args.tmax args) (o_t st)
          then Some st
          else
            let t' := o_t st + 1 in
            let c' := if Qeq_bool label (toDouble fc)
                      then o_firstClassCount st + 1
                      else o_firstClassCount st in
            let pred := Vec.dot (o_W st) features in
            match ProblemData.instancesWeights pd !! r with
            | None => None
            | Some iw =>
                let grad :=
                  (gradFunc label pred (ProblemData.invPs pd) * iw)%Q in
                let u := updateFunc (o_W st) (o_G st) features grad t' args in
                onlineRows pd args fc gradFunc updateFunc rows' (S r)
                  (mkOnline t' c' (fst u)
                     (match snd u with Some g => Some g | None => o_G st end))
            end
      end
  end.

(** The outer loop [for (e < args.epochs)]. *)
Fixpoint onlineEpochs (pd : ProblemData.t) (args : Args.t) (fc : Z)
    (gradFunc : Q -> Q -> Q -> Q)
    (updateFunc : AbstractVector -> option AbstractVector -> Features -> Q ->
                  Z -> Args.t -> AbstractVector * option AbstractVector)
    (e : nat) (st : OnlineState) : option OnlineState :=
  match e with
  | O => Some st
  | S e' =>
      match onlineRows pd args fc gradFunc updateFunc
              (ProblemData.binFeatures pd) 0 st with
      | None => None
      | Some st' => onlineEpochs pd args fc gradFunc updateFunc e' st'
      end
  end.

(** [void Base::trainOnline(ProblemData& problemData, Args& args)].  The
    vectors [_W] and [_G] are locals until the end, so they are allocated
    in the store when they are assigned to the fields. *)
Definition trainOnline (pd : ProblemData.t) (args : Args.t) : M unit :=
  do b <- getThis;
  delete_ (W b);;
  delete_ (G b);;
  setThis (set_classCount 2);;
  setThis (set_firstClass 1);;
  setThis (set_t 0);;
  let W0 := Vec.zeros RepresentationType.dense (ProblemData.n pd) in
  setThis (set_lossType (Args.lossType args));;
  let gradFunc :=
    match Args.lossType args with
    | logistic => logisticGrad
    | squaredHinge => squaredHingeGrad
    | pwLogistic => pwLogisticGrad
    end in
  do uf <-
    match Args.optimizerType args with
    | sgd => ret (updateSGD, None)
    | adagrad =>
        ret (updateAdaGrad,
             Some (Vec.zeros RepresentationType.dense (ProblemData.n pd)))
    | liblinear => throw "Unknown online update function type"
    end;
  emit (SolverCall (Args.optimizerType args));;
  do b1 <- getThis;
  match onlineEpochs pd args (firstClass b1) gradFunc (fst uf)
          (Z.to_nat (Args.epochs args))
          (mkOnline (t b1) (firstClassCount b1) W0 (snd uf)) with
  | None => undefined
  | Some st =>
      setThis (set_t (o_t st));;
      setThis (set_firstClassCount (o_firstClassCount st));;
      do pW <- new (o_W st);
      do pG <- match o_G st with
               | Some g => new g
               | None => ret None
               end;
      setThis (set_W pW);;
      setThis (set_G pG)
  end.

(** The class weights that [Base::train] sets for unbalanced data. *)
Definition weighting (pd : ProblemData.t) (positiveLabels : Z)
  : ProblemData.t :=
  let negativeLabels :=
    Z.of_nat (length (ProblemData.binLabels pd)) - positiveLabels in
  let lw :=
    if Z.ltb positiveLabels negativeLabels
    then [1%Q;
          (1 + ln (toDouble negativeLabels / toDouble positiveLabels))%Q]
    else [(1 + ln (toDouble positiveLabels / toDouble negativeLabels))%Q;
          1%Q] in
  ProblemData.set_weighting 2 [0; 1] lw pd.

(** [void Base::train(ProblemData& problemData, Args& args)].  The arrays
    [labels] and [labelsWeights] of the problem are not heap objects of the
    model, so their [delete[]] at the end has no counterpart. *)
Definition train (pd : ProblemData.t) (args : Args.t) : M unit :=
  match ProblemData.binLabels pd with
  | [] =>
      setThis (set_firstClass 0);;
      setThis (set_classCount 0)
  | label0 :: _ =>
      let size := Z.of_nat (length (ProblemData.binLabels pd)) in
      assert (Z.eqb size (Z.of_nat (length (ProblemData.binFeatures pd))));;
      assert (Z.leb size
                (Z.of_nat (length (ProblemData.instancesWeights pd))));;
      let positiveLabels := count (ProblemData.binLabels pd) 1%Q in
      if Z.eqb positiveLabels 0 || Z.eqb positiveLabels size
      then
        setThis (set_firstClass (trunc label0));;
        setThis (set_classCount 1)
      else
        let pd' := if Args.inbalanceLabelsWeighting args
                   then weighting pd positiveLabels else pd in
        (match Args.optimizerType args with
         | liblinear => trainLiblinear pd' args
         | _ => trainOnline pd' args
         end);;
        pruneWeights (Args.weightsThreshold args);;
        do b <- getThis;
        do wv <- deref (W b);
        if Z.ltb (sparseMem wv) (denseMem wv)
        then
          do newW <- new (Vec.toSparse wv);
          delete_ (W b);;
          setThis (set_W newW)
        else ret tt
  end.

End BaseMethods.

(** ** Serialization of a [Base] *)

(** What [saveVar] writes and [loadVar] reads: the bytes of one variable of
    the given type.  A stream is the sequence of the variables written. *)
Inductive Var :=
| VInt (z : Z)
| VLoss (l : LossType)
| VSize (n : Z)
| VBool (b : bool)
| VWeight (q : Q).

Definition loadInt (inp : list Var) : M (Z * list Var) :=
  match inp with
  | VInt z :: rest => ret (z, rest)
  | _ => undefined
  end.

Definition loadLoss (inp : list Var) : M (LossType * list Var) :=
  match inp with
  | VLoss l :: rest => ret (l, rest)
  | _ => undefined
  end.

Definition loadSize (inp : list Var) : M (Z * list Var) :=
  match inp with
  | VSize n :: rest => ret (n, rest)
  | _ => undefined
  end.

Definition loadBool (inp : list Var) : M (bool * list Var) :=
  match inp with
  | VBool b :: rest => ret (b, rest)
  | _ => undefined
  end.

Section BaseSerialization.

(** The virtual [save], [load] and [skipLoad] of the vector classes and the
    static [estimateMem] of [Vector] and [MapVector]; [vload v inp] is
    [v->load(in)] and gives the vector read and the rest of the stream. *)
Variable vsave : AbstractVector -> list Var.
Variable vload : AbstractVector -> list Var -> option (AbstractVector * list Var).
Variable vskip : AbstractVector -> list Var -> option (list Var).
Variable denseEstimateMem mapEstimateMem : Z -> Z -> Z.

(** [void Base::save(std::ostream& out, bool saveGrads)]: the variables
    appended to [out]. *)
Definition save (saveGrads : bool) : M (list Var) :=
  do b <- getThis;
  let header :=
    [VInt (classCount b); VInt (firstClass b); VLoss (lossType b)] in
  if Z.ltb 1 (classCount b)
  then
    do wv <- deref (W b);
    let s := Vec.size wv in
    let n0 := Vec.nonZero wv in
    let grads := saveGrads && bool_decide (G b <> None) in
    do gout <- (if grads then do gv <- deref (G b); ret (vsave gv)
                else ret []);
    ret (header ++ [VSize s; VSize n0] ++ vsave wv ++ [VBool grads] ++ gout)
  else ret header.

(** The representation that [Base::load] allocates. *)
Definition loadRepresentation (s n0 : Z) (loadAs : RepresentationType.t)
  : RepresentationType.t :=
  let denseSize := denseEstimateMem s n0 in
  let mapSize := mapEstimateMem s n0 in
  let loadSparse := Z.ltb mapSize denseSize || Z.eqb s 0 in
  if loadSparse && RepresentationType.eqb loadAs RepresentationType.map
  then RepresentationType.map
  else if RepresentationType.eqb loadAs RepresentationType.sparse
       then RepresentationType.sparse
       else RepresentationType.dense.

(** [p->load(in)] *)
Definition loadInto (p : option loc) (inp : list Var) : M (list Var) :=
  do v <- deref p;
  match vload v inp with
  | Some (v', rest) => assign p v';; ret rest
  | None => undefined
  end.

(** [void Base::load(std::istream& in, bool loadGrads,
    RepresentationType loadAs)]: the rest of the stream. *)
Definition load (inp : list Var) (loadGrads : bool)
    (loadAs : RepresentationType.t) : M (list Var) :=
  do x <- loadInt inp;
  setThis (set_classCount (fst x));;
  do x <- loadInt (snd x);
  setThis (set_firstClass (fst x));;
  do x <- loadLoss (snd x);
  setThis (set_lossType (fst x));;
  do b <- getThis;
  if Z.ltb 1 (classCount b)
  then
    do s <- loadSize (snd x);
    do n0 <- loadSize (snd s);
    let rep := loadRepresentation (fst s) (fst n0) loadAs in
    do pW <- new (Vec.zeros rep 0);
    setThis (set_W pW);;
    do pG <- new (Vec.zeros rep 0);
    setThis (set_G pG);;
    do in1 <- loadInto pW (snd n0);
    do grads <- loadBool in1;
    if fst grads
    then
      if loadGrads then loadInto pG (snd grads)
      else
        do gv <- deref pG;
        match vskip gv (snd grads) with
        | Some rest => delete_ pG;; ret rest
        | None => undefined
        end
    else ret (snd grads)
  else ret (snd x).

End BaseSerialization.

(** ** Change of representation *)

Definition isVector (v : AbstractVector) : bool :=
  match v with Vector _ => true | _ => false end.
Definition isMapVector (v : AbstractVector) : bool :=
  match v with MapVector _ _ => true | _ => false end.
Definition isSparseVector (v : AbstractVector) : bool :=
  match v with SparseVector _ _ => true | _ => false end.

(** [void Base::vecTo(AbstractVector<Weight>* vec, RepresentationType type)].
    [vec] is a parameter passed by value: the final [vec = newVec] changes
    the parameter only, so nothing of it is returned. *)
Definition vecTo (vec : option loc) (type : RepresentationType.t) : M unit :=
  match vec with
  | None => ret tt
  | Some _ =>
      do v <- deref vec;
      do newVec <-
        (if RepresentationType.eqb type RepresentationType.dense
            && negb (isVector v)
         then new (Vec.toDense v)
         else if RepresentationType.eqb type RepresentationType.map
                 && negb (isMapVector v)
         then new (Vec.toMap v)
         else if RepresentationType.eqb type RepresentationType.sparse
                 && negb (isSparseVector v)
         then new (Vec.toSparse v)
         else throw "Unknown representation type");
      match newVec with
      | Some _ => delete_ vec
      | None => ret tt
      end
  end.

(** [void Base::to(RepresentationType type)] *)
Definition to (type : RepresentationType.t) : M unit :=
  do b <- getThis;
  vecTo (W b) type;;
  do b <- getThis;
  vecTo (G b) type.


(** ** Class swap, copies and clean-up of a [Base] *)

(** [p->invert()] *)
Definition invertAt (p : option loc) : M unit :=
  do v <- deref p;
  assign p (Vec.invert v).

(** [void Base::setFirstClass(int first)] *)
Definition setFirstClass (first : Z) : M unit :=
  do b <- getThis;
  if negb (Z.eqb (firstClass b) first)
  then
    invertAt (W b);;
    (if bool_decide (G b <> None) then invertAt (G b) else ret tt);;
    setThis (set_firstClass first)
  else ret tt.

(** Modelled from the spec: [p->copy()] is a deep copy that keeps the
    representation. *)
Definition copyAt (p : option loc) : M (option loc) :=
  do v <- deref p;
  new v.

(** [Base* Base::copy()]: the fields of the object made by [new Base()]. *)
Definition copy : M Base :=
  do b <- getThis;
  let c := Base_new in
  do pW <- (if bool_decide (W b <> None) then copyAt (W b) else ret (W c));
  do pG <- (if bool_decide (G b <> None) then copyAt (G b) else ret (G c));
  ret (set_lossType (lossType b)
         (set_classCount (classCount b)
            (set_firstClass (firstClass b) (set_G pG (set_W pW c))))).

(** [Base* Base::copyInverted()] *)
Definition copyInverted : M Base :=
  do c <- copy;
  invertAt (W c);;
  (if bool_decide (G c <> None) then invertAt (G c) else ret tt);;
  ret c.

(** [void Base::clear()], which is also what the destructor runs. *)
Definition clear : M unit :=
  setThis (set_classCount 0);;
  setThis (set_firstClass 0);;
  setThis (set_firstClassCount 0);;
  setThis (set_t 0);;
  do b <- getThis;
  delete_ (W b);;
  setThis (set_W None);;
  do b <- getThis;
  delete_ (G b);;
  setThis (set_G None).

(** [void Base::setupOnlineTraining(Args& args, int n, bool
    startWithDenseW)] *)
Definition setupOnlineTraining (args : Args.t) (n : Z)
    (startWithDenseW : bool) : M unit :=
  setThis (set_lossType (Args.lossType args));;
  (if negb (Z.eqb n 0) && startWithDenseW
   then
     do pW <- new (Vec.zeros RepresentationType.dense n);
     setThis (set_W pW);;
     match Args.optimizerType args with
     | adagrad =>
         do pG <- new (Vec.zeros RepresentationType.dense n);
         setThis (set_G pG)
     | _ => ret tt
     end
   else
     do pW <- new (Vec.zeros RepresentationType.map n);
     setThis (set_W pW);;
     match Args.optimizerType args with
     | adagrad =>
         do pG <- new (Vec.zeros RepresentationType.map n);
         setThis (set_G pG)
     | _ => ret tt
     end);;
  setThis (set_classCount 2);;
  setThis (set_firstClass 1);;
  setThis (set_t 0).

(** [void Base::finalizeOnlineTraining(Args& args)] *)
Definition finalizeOnlineTraining (args : Args.t) : M unit :=
  pruneWeights (Args.weightsThreshold args).

(** [Base::Base(Args& args)].  The call [setupOnlineTraining(args)] takes
    its second and third argument from the defaults that the header
    declares; they are [n] and [startWithDenseW] here. *)
Definition Base_of (args : Args.t) (n : Z) (startWithDenseW : bool)
  : M unit :=
  setThis (fun _ => Base_new);;
  match Args.optimizerType args with
  | liblinear => ret tt
  | _ => setupOnlineTraining args n startWithDenseW
  end.
(** ** The [predict] command of [main.cpp] *)

Module Prediction.
Record t := mk { label : Z; value : Q }.
End Prediction.

(** What is inserted into [std::cout]; a [double] is printed with the
    precision that [std::setprecision(5)] has set. *)
Inductive Out :=
| OInt (z : Z)
| OStr (s : string)
| ODouble (q : Q)
| OEndl.

(** [labels.row(r)[0]]: a row of labels ends with the sentinel [-1], which
    is what an empty row starts with. *)
Definition firstLabel (row : list Z) : Z := hd (-1) row.

(** The body of the loop over rows: the line printed for one row. *)
Definition printRow (trueLabel : Z) (prediction : list Prediction.t)
  : list Out :=
  OInt trueLabel
  :: flat_map (fun p => [OStr " "; OInt (Prediction.label p); OStr ":";
                         ODouble (Prediction.value p)]) prediction
  ++ [OEndl].

(** The loop [for (int r = 0; r < 5000; ++r)], from row [r] on with [count]
    rows to go; [None] is a row read outside of the matrices. *)
Fixpoint predictRows (model_predict : Features -> list Prediction.t)
    (labels : list (list Z)) (features : list Features) (r count : nat)
  : option (list Out) :=
  match count with
  | O => Some []
  | S count' =>
      match features !! r, labels !! r with
      | Some f, Some l =>
          match predictRows model_predict labels features (S r) count' with
          | Some out => Some (printRow (firstLabel l) (model_predict f) ++ out)
          | None => None
          end
      | _, _ => None
      end
  end.

(** [void predict(Args &args)]: what is written to [std::cout] for the
    dataset that [readData] gives for [args.input]. *)
Definition predict (input : string)
    (model_predict : Features -> list Prediction.t)
    (labels : list (list Z)) (features : list Features) : option (list Out) :=
  if String.eqb input "-" then Some []
  else predictRows model_predict labels features 0 (Z.to_nat 5000).

(** The number of lines of an output. *)
Definition lines (out : list Out) : Z :=
  Z.of_nat
    (length (List.filter
               (fun o => match o with OEndl => true | _ => false end) out)).

(** ** The label tree of [pltree.cpp] *)

Module PLT.

(** [struct TreeNode].  Every node is made by [new TreeNode()] and pushed
    to [tree] at once, so a [TreeNode*] is the position of the node in
    [tree]; [None] is [nullptr]. *)
Record TreeNode := mkNode {
  index : Z;
  label : Z;
  parent : option nat;
  children : list nat
}.

(** The fields of [class PLTree]. *)
Record PLTree := mkTree {
  k : Z;
  t : Z;
  tree : list TreeNode;
  treeRoot : option nat;
  treeLeaves : gmap Z nat
}.

(** [PLTree::PLTree()] *)
Definition PLTree_new : PLTree := mkTree 0 0 [] None ∅.

Definition setChildren (cs : list nat) (n : TreeNode) : TreeNode :=
  mkNode (index n) (label n) (parent n) cs.
Definition setParent (q : option nat) (n : TreeNode) : TreeNode :=
  mkNode (index n) (label n) q (children n).
Definition set_k (x : Z) (T : PLTree) : PLTree :=
  mkTree x (t T) (tree T) (treeRoot T) (treeLeaves T).
Definition set_t (x : Z) (T : PLTree) : PLTree :=
  mkTree (k T) x (tree T) (treeRoot T) (treeLeaves T).
Definition set_tree (x : list TreeNode) (T : PLTree) : PLTree :=
  mkTree (k T) (t T) x (treeRoot T) (treeLeaves T).
Definition set_treeRoot (x : option nat) (T : PLTree) : PLTree :=
  mkTree (k T) (t T) (tree T) x (treeLeaves T).
Definition set_treeLeaves (x : gmap Z nat) (T : PLTree) : PLTree :=
  mkTree (k T) (t T) (tree T) (treeRoot T) x.

(** *** [PLTree::buildCompleteTree] *)

(** [floor(log(k) / log(arity))], taken exactly: the largest [m] with
    [arity ^ m <= k]. *)
Fixpoint floorLogFuel (fuel : nat) (a n : Z) : Z :=
  match fuel with
  | O => 0
  | S fuel' => if Z.leb a n then 1 + floorLogFuel fuel' a (n / a) else 0
  end.

Definition floorLog (a n : Z) : Z := floorLogFuel (Z.to_nat n) a n.

(** The number of nodes [t] that [buildCompleteTree] computes. *)
Definition completeTreeSize (labelCount arity : Z) : Z :=
  if Z.ltb 2 arity
  then
    let a := inject_Z (arity ^ floorLog arity labelCount) in
    let b := (inject_Z labelCount - a)%Q in
    let c := inject_Z (Qceiling (b / (inject_Z arity - 1))) in
    let d := ((inject_Z arity * a - 1) / (inject_Z arity - 1))%Q in
    let e := (inject_Z labelCount - (a - c))%Q in
    trunc (e + d)
  else 2 * labelCount - 1.

(** One round of the loop [for (size_t i = 0; i < t; ++i)].  The test
    [i >= ti] compares a [size_t] with an [int], which is false for every
    [i] when [ti] is negative. *)
Definition addNode (arity ti : Z) (labelsOrder : option (list Z))
    (acc : option PLTree) (i : nat) : option PLTree :=
  match acc with
  | None => None
  | Some T =>
      let iz := Z.of_nat i in
      let self := length (tree T) in
      let leaf := Z.leb 0 ti && Z.leb ti iz in
      let lbl :=
        if leaf
        then match labelsOrder with
             | Some order => order !! Z.to_nat (iz - ti)
             | None => Some (iz - ti)
             end
        else Some (-1) in
      match lbl with
      | None => None
      | Some l =>
          let leaves :=
            if leaf
            then match treeLeaves T !! l with
                 | Some _ => treeLeaves T
                 | None => <[l := self]> (treeLeaves T)
                 end
            else treeLeaves T in
          if Z.ltb 0 iz
          then
            let q := Z.to_nat ((iz - 1) / arity) in
            match tree T !! q with
            | Some pn =>
                Some (mkTree (k T) (t T)
                        (<[q := setChildren (children pn ++ [self]) pn]> (tree T)
                         ++ [mkNode iz l (Some q) []])
                        (treeRoot T) leaves)
            | None => None
            end
          else
            Some (mkTree (k T) (t T) (tree T ++ [mkNode iz l None []])
                    (treeRoot T) leaves)
      end
  end.

(** The labels [0 .. k-1] that are shuffled for a random tree. *)
Definition labelRange (n : Z) : list Z :=
  List.map Z.of_nat (seq 0 (Z.to_nat n)).

(** [void PLTree::buildCompleteTree(int labelCount, int arity, bool
    randomizeTree)], where [shuffle] is what [std::random_shuffle] does to
    [labelsOrder].  A negative [t] is outside the model: the loop bound is
    converted to [size_t]. *)
Definition buildCompleteTree (shuffle : list Z -> list Z) (T : PLTree)
    (labelCount arity : Z) (randomizeTree : bool) : option PLTree :=
  let T1 := set_t (completeTreeSize labelCount arity) (set_k labelCount T) in
  let arity' := if Z.ltb 2 arity then arity else 2 in
  let ti := t T1 - k T1 in
  let labelsOrder :=
    if randomizeTree then Some (shuffle (labelRange (k T1))) else None in
  if Z.ltb (t T1) 0 then None
  else
    match fold_left (addNode arity' ti labelsOrder)
            (seq 0 (Z.to_nat (t T1))) (Some T1) with
    | None => None
    | Some T2 =>
        match tree T2 !! 0%nat with
        | Some n0 =>
            Some (set_tree (<[0%nat := setParent None n0]> (tree T2))
                    (set_treeRoot (Some 0%nat) T2))
        | None => None
        end
    end.

(** *** [PLTree::save] and [PLTree::load] *)

(** The [int] that [save] writes for the parent of a node. *)
Definition parentIndex (T : PLTree) (n : TreeNode) : option Z :=
  match parent n with
  | Some q => index <$> tree T !! q
  | None => Some (-1)
  end.

(** [void PLTree::save(std::ostream& out)]: the [int]s written, and the
    tree with [t] set to [tree.size()]. *)
Definition save (T : PLTree) : option (list Z * PLTree) :=
  let T1 := set_t (Z.of_nat (length (tree T))) T in
  match treeRoot T1 with
  | None => None
  | Some r =>
      match tree T1 !! r, mapM (parentIndex T1) (tree T1) with
      | Some rn, Some parents =>
          Some ([k T1; t T1]
                ++ flat_map (fun n => [index n; label n]) (tree T1)
                ++ [index rn] ++ parents, T1)
      | _, _ => None
      end
  end.

(** The first loop of [load]: [count] nodes are read and pushed. *)
Fixpoint loadNodes (count : nat) (inp : list Z) (T : PLTree)
  : option (list Z * PLTree) :=
  match count with
  | O => Some (inp, T)
  | S count' =>
      match inp with
      | idx :: lbl :: rest =>
          let self := length (tree T) in
          loadNodes count' rest
            (mkTree (k T) (t T) (tree T ++ [mkNode idx lbl None []])
               (treeRoot T)
               (if Z.leb 0 lbl then <[lbl := self]> (treeLeaves T)
                else treeLeaves T))
      | _ => None
      end
  end.

(** The second loop of [load], from node [i] on. *)
Fixpoint loadParents (count i : nat) (inp : list Z) (T : PLTree)
  : option (list Z * PLTree) :=
  match count with
  | O => Some (inp, T)
  | S count' =>
      match inp with
      | parentN :: rest =>
          if Z.leb 0 parentN
          then
            let q := Z.to_nat parentN in
            match tree T !! q with
            | Some pn =>
                let tree1 :=
                  <[q := setChildren (children pn ++ [i]) pn]> (tree T) in
                match tree1 !! i with
                | Some n =>
                    loadParents count' (S i) rest
                      (set_tree (<[i := setParent (Some q) n]> tree1) T)
                | None => None
                end
            | None => None
            end
          else loadParents count' (S i) rest T
      | _ => None
      end
  end.

(** [void PLTree::load(std::istream& in)]: the rest of the stream and the
    tree read. *)
Definition load (inp : list Z) (T : PLTree) : option (list Z * PLTree) :=
  match inp with
  | kN :: tN :: rest =>
      if Z.ltb tN 0 then None
      else
        match loadNodes (Z.to_nat tN) rest (set_t tN (set_k kN T)) with
        | Some (rootN :: rest1, T1) =>
            if Z.ltb rootN 0 then None
            else
              match tree T1 !! Z.to_nat rootN with
              | Some _ =>
                  loadParents (Z.to_nat tN) 0 rest1
                    (set_treeRoot (Some (Z.to_nat rootN)) T1)
              | None => None
              end
        | _ => None
        end
  | _ => None
  end.

(** *** The assignment of a row to nodes, in [PLTree::train] *)

(** The loop [while (n->parent) { n = n->parent; nPositive.insert(n); }];
    [None] when a pointer leads out of [tree] or the fuel runs out. *)
Fixpoint walkUp (fuel : nat) (T : PLTree) (n : nat) (nPositive : gset nat)
  : option (gset nat) :=
  match fuel with
  | O => None
  | S fuel' =>
      match tree T !! n with
      | None => None
      | Some nd =>
          match parent nd with
          | None => Some nPositive
          | Some q => walkUp fuel' T q ({[q]} ∪ nPositive)
          end
      end
  end.

(** The loop over the labels of the row.  [treeLeaves[y]] on a label that
    is not in the map makes a null entry, which is dereferenced next. *)
Fixpoint positiveNodes (fuel : nat) (T : PLTree) (rLabels : list Z)
    (nPositive : gset nat) : option (gset nat) :=
  match rLabels with
  | [] => Some nPositive
  | y :: rLabels' =>
      match treeLeaves T !! y with
      | None => None
      | Some n =>
          match walkUp fuel T n ({[n]} ∪ nPositive) with
          | None => None
          | Some nPositive' => positiveNodes fuel T rLabels' nPositive'
          end
      end
  end.

(** The loop [while (!nQueue.empty())]: the front node is popped, its
    positive children are pushed to the back and the other children become
    negative. *)
Fixpoint negativeNodes (fuel : nat) (T : PLTree) (nPositive : gset nat)
    (nQueue : list nat) (nNegative : gset nat) : option (gset nat) :=
  match nQueue with
  | [] => Some nNegative
  | n :: nQueue' =>
      match fuel with
      | O => None
      | S fuel' =>
          match tree T !! n with
          | None => None
          | Some nd =>
              negativeNodes fuel' T nPositive
                (nQueue' ++ List.filter (fun c => bool_decide (c ∈ nPositive))
                                        (children nd))
                (list_to_set
                   (List.filter (fun c => negb (bool_decide (c ∈ nPositive)))
                      (children nd))
                 ∪ nNegative)
          end
      end
  end.

(** The sets [nPositive] and [nNegative] of a row with labels [rLabels]. *)
Definition assignRow (fuel : nat) (T : PLTree) (rLabels : list Z)
  : option (gset nat * gset nat) :=
  match treeRoot T with
  | None => None
  | Some root =>
      match rLabels with
      | [] => Some (∅, {[root]})
      | _ :: _ =>
          match positiveNodes fuel T rLabels ∅ with
          | None => None
          | Some nPositive =>
              match negativeNodes fuel T nPositive [root] ∅ with
              | None => None
              | Some nNegative => Some (nPositive, nNegative)
              end
          end
      end
  end.

(** The examples gathered for the nodes: [binLabels] and [binFeatures]. *)
Record Bins := mkBins {
  binLabels : list (list Q);
  binFeatures : list (list Features)
}.

(** [binLabels[i].push_back(l); binFeatures[i].push_back(f)] *)
Definition pushExample (i : Z) (l : Q) (f : Features) (b : Bins)
  : option Bins :=
  if Z.ltb i 0 then None
  else
    match binLabels b !! Z.to_nat i, binFeatures b !! Z.to_nat i with
    | Some ls, Some fs =>
        Some (mkBins (<[Z.to_nat i := ls ++ [l]]> (binLabels b))
                (<[Z.to_nat i := fs ++ [f]]> (binFeatures b)))
    | _, _ => None
    end.

(** [for (auto &n : nodes) { ... push_back ... }] *)
Fixpoint pushExamples (T : PLTree) (nodes : list nat) (l : Q) (f : Features)
    (b : Bins) : option Bins :=
  match nodes with
  | [] => Some b
  | n :: nodes' =>
      match tree T !! n with
      | None => None
      | Some nd =>
          match pushExample (index nd) l f b with
          | None => None
          | Some b' => pushExamples T nodes' l f b'
          end
      end
  end.

(** The body of the loop [for (int r = 0; r < rows; ++r)]. *)
Definition assignPoint (fuel : nat) (T : PLTree) (rLabels : list Z)
    (f : Features) (b : Bins) : option Bins :=
  match assignRow fuel T rLabels with
  | None => None
  | Some (nPositive, nNegative) =>
      match pushExamples T (elements nPositive) 1%Q f b with
      | None => None
      | Some b' => pushExamples T (elements nNegative) 0%Q f b'
      end
  end.

(** The loop over the rows, on [std::vector<...> binLabels(rows)] and
    [binFeatures(rows)]. *)
Fixpoint assignRows (fuel : nat) (T : PLTree) (labels : list (list Z))
    (features : list Features) (b : Bins) : option Bins :=
  match features, labels with
  | [], _ => Some b
  | f :: features', rLabels :: labels' =>
      match assignPoint fuel T rLabels f b with
      | None => None
      | Some b' => assignRows fuel T labels' features' b'
      end
  | _ :: _, [] => None
  end.

Definition assignPoints (fuel : nat) (T : PLTree) (labels : list (list Z))
    (features : list Features) : option Bins :=
  let rows := length features in
  assignRows fuel T labels features
    (mkBins (repeat [] rows) (repeat [] rows)).

(** *** [PLTree::predict] *)

(** [struct TreeNodeProb], ordered by [p]. *)
Record TreeNodeProb := mkProb {
  node : nat;
  p : Q
}.

(** [std::priority_queue<TreeNodeProb>]: [pq_pop] is [top()] followed by
    [pop()].  The standard fixes that the top is a greatest element and
    leaves open which one among equals. *)
Class PriorityQueue := {
  pq : Type;
  pq_empty : pq;
  pq_push : TreeNodeProb -> pq -> pq;
  pq_pop : pq -> option (TreeNodeProb * pq);
  pq_elements : pq -> list TreeNodeProb;
  pq_empty_elements : pq_elements pq_empty = [];
  pq_push_elements :
    forall x q, Permutation (pq_elements (pq_push x q)) (x :: pq_elements q);
  pq_pop_None : forall q, pq_pop q = None <-> pq_elements q = [];
  pq_pop_Some :
    forall q x q', pq_pop q = Some (x, q') ->
      Permutation (pq_elements q) (x :: pq_elements q')
      /\ Forall (fun y => (p y <= p x)%Q) (pq_elements q)
}.

(** A priority queue kept as a list, which pops its first greatest
    element. *)
Fixpoint popMax (q : list TreeNodeProb)
  : option (TreeNodeProb * list TreeNodeProb) :=
  match q with
  | [] => None
  | x :: q' =>
      match popMax q' with
      | None => Some (x, [])
      | Some (y, r) =>
          if Qle_bool (p y) (p x) then Some (x, q') else Some (y, x :: r)
      end
  end.

Section Predict.

Context {PQ : PriorityQueue}.

(** [bases[i]->predict(features)], for the node index [i] *)
Definition basePredict (bases : list (Features -> Q)) (features : Features)
    (i : Z) : option Q :=
  if Z.ltb i 0 then None
  else match bases !! Z.to_nat i with
       | Some b => Some (b features)
       | None => None
       end.

(** [for (auto child : np.node->children) nQueue.push({child, p})] *)
Fixpoint pushChildren (T : PLTree) (bases : list (Features -> Q))
    (features : Features) (np_p : Q) (cs : list nat) (nQueue : pq)
  : option pq :=
  match cs with
  | [] => Some nQueue
  | child :: cs' =>
      match tree T !! child with
      | None => None
      | Some cn =>
          match basePredict bases features (index cn) with
          | None => None
          | Some pc =>
              pushChildren T bases features np_p cs'
                (pq_push (mkProb child (np_p * pc)%Q) nQueue)
          end
      end
  end.

(** [prediction.size() >= k], a [size_t] against an [int] *)
Definition sizeAtLeast (prediction : list TreeNodeProb) (k_ : Z) : bool :=
  Z.leb 0 k_ && Z.leb k_ (Z.of_nat (length prediction)).

(** The loop [while (!nQueue.empty())]: the predictions and the queue when
    it ends; [None] when a pointer or an index leads out of range or the
    fuel runs out. *)
Fixpoint predictLoop (fuel : nat) (T : PLTree) (bases : list (Features -> Q))
    (features : Features) (k_ : Z) (nQueue : pq)
    (prediction : list TreeNodeProb) : option (list TreeNodeProb * pq) :=
  match fuel with
  | O => None
  | S fuel' =>
      match pq_pop nQueue with
      | None => Some (prediction, nQueue)
      | Some (np, nQueue') =>
          match tree T !! node np with
          | None => None
          | Some nd =>
              if Z.leb 0 (label nd)
              then
                let prediction' := prediction ++ [np] in
                if sizeAtLeast prediction' k_
                then Some (prediction', nQueue')
                else predictLoop fuel' T bases features k_ nQueue' prediction'
              else
                match pushChildren T bases features (p np) (children nd)
                        nQueue' with
                | None => None
                | Some nQueue'' =>
                    predictLoop fuel' T bases features k_ nQueue'' prediction
                end
          end
      end
  end.

(** The queue before the loop: the root with its probability. *)
Definition predictStart (T : PLTree) (bases : list (Features -> Q))
    (features : Features) : option pq :=
  match treeRoot T with
  | None => None
  | Some root =>
      match tree T !! root with
      | None => None
      | Some rn =>
          match basePredict bases features (index rn) with
          | None => None
          | Some pr => Some (pq_push (mkProb root pr) pq_empty)
          end
      end
  end.

(** [void PLTree::predict(std::vector<TreeNodeProb>& prediction, Feature*
    features, std::vector<Base*>& bases, int k)]: the vector [prediction]
    afterwards. *)
Definition predict (fuel : nat) (T : PLTree) (prediction : list TreeNodeProb)
    (features : Features) (bases : list (Features -> Q)) (k_ : Z)
  : option (list TreeNodeProb) :=
  match predictStart T bases features with
  | None => None
  | Some nQueue =>
      fst <$> predictLoop fuel T bases features k_ nQueue prediction
  end.

End Predict.


(** *** [PLTree::test] *)

Section Test.

Context {PQ : PriorityQueue}.

(** [prediction[i].node->label]: nothing when [i] lies past the end of
    [prediction]. *)
Definition predictedLabel (T : PLTree) (prediction : list TreeNodeProb)
    (i : nat) : option Z :=
  match prediction !! i with
  | None => None
  | Some np => label <$> tree T !! node np
  end.

(** [for (int j = 0; j < labels.sizes()[r]; ++j)
       if (prediction[i].node->label == labels.data()[r][j]) ++precision[i];]
    over the labels [rLabels] of the row. *)
Fixpoint countLabels (T : PLTree) (prediction : list TreeNodeProb) (i : nat)
    (rLabels : list Z) (precision : list Z) : option (list Z) :=
  match rLabels with
  | [] => Some precision
  | l :: rLabels' =>
      match predictedLabel T prediction i with
      | None => None
      | Some pl =>
          if Z.eqb pl l
          then
            match precision !! i with
            | None => None
            | Some c =>
                countLabels T prediction i rLabels' (<[i := c + 1]> precision)
            end
          else countLabels T prediction i rLabels' precision
      end
  end.

(** [for (int i = 0; i < args.topK; ++i)], with [count] rounds left from
    [i] on. *)
Fixpoint countRow (T : PLTree) (prediction : list TreeNodeProb)
    (rLabels : list Z) (count i : nat) (precision : list Z)
  : option (list Z) :=
  match count with
  | O => Some precision
  | S count' =>
      match countLabels T prediction i rLabels precision with
      | None => None
      | Some precision' =>
          countRow T prediction rLabels count' (S i) precision'
      end
  end.

(** [for (int r = 0; r < rows; ++r)] of the branch taken when
    [args.threads <= 1]. *)
Fixpoint testRows (fuel : nat) (T : PLTree) (labels : list (list Z))
    (features : list Features) (bases : list (Features -> Q)) (topK : Z)
    (precision : list Z) : option (list Z) :=
  match labels, features with
  | rLabels :: labels', f :: features' =>
      match predict fuel T [] f bases topK with
      | None => None
      | Some prediction =>
          match countRow T prediction rLabels (Z.to_nat topK) 0 precision with
          | None => None
          | Some precision' =>
              testRows fuel T labels' features' bases topK precision'
          end
      end
  | _, _ => Some precision
  end.

(** The last loop: [correct += precision[i]] and the quotient
    [correct / (rows * (i + 1))] that is printed after [P@i+1], given by
    its numerator and its denominator. *)
Fixpoint precisionAt (rows : Z) (precision : list Z) (count i : nat)
    (correct : Z) : option (list (Z * Z)) :=
  match count with
  | O => Some []
  | S count' =>
      match precision !! i with
      | None => None
      | Some c =>
          cons (correct + c, rows * (Z.of_nat i + 1))
            <$> precisionAt rows precision count' (S i) (correct + c)
      end
  end.

(** [void PLTree::test(SRMatrix<Label>& labels, SRMatrix<Feature>&
    features, std::vector<Base*>& bases, Args& args)] for
    [args.threads <= 1]: the counters [precision] and the quotients
    printed.  Nothing when [precision] cannot be made ([args.topK < 0]),
    when the assertion on the rows fails, or when a pointer or an index
    leads out of range. *)
Definition test (fuel : nat) (T : PLTree) (labels : list (list Z))
    (features : list Features) (bases : list (Features -> Q)) (topK : Z)
  : option (list Z * list (Z * Z)) :=
  if Z.ltb topK 0 then None
  else if negb (Nat.eqb (length features) (length labels)) then None
  else
    match testRows fuel T labels features bases topK
            (repeat 0 (Z.to_nat topK)) with
    | None => None
    | Some precision =>
        match precisionAt (Z.of_nat (length features)) precision
                (Z.to_nat topK) 0 0 with
        | None => None
        | Some printed => Some (precision, printed)
        end
    end.

(** [int l = -1; while (labels[++l] > -1) if (prediction[i].node->label ==
    labels[l]) ++precision[i];] over the array [labels], read from its
    start: nothing when the reading runs past the end of the array. *)
Fixpoint countUntilSentinel (T : PLTree) (prediction : list TreeNodeProb)
    (i : nat) (labels : list Z) (precision : list Z) : option (list Z) :=
  match labels with
  | [] => None
  | l :: labels' =>
      if Z.ltb (-1) l
      then
        match predictedLabel T prediction i with
        | None => None
        | Some pl =>
            if Z.eqb pl l
            then
              match precision !! i with
              | None => None
              | Some c =>
                  countUntilSentinel T prediction i labels'
                    (<[i := c + 1]> precision)
              end
            else countUntilSentinel T prediction i labels' precision
        end
      else Some precision
  end.

(** [for (int i = 0; i < k; ++i)] of [pointTestThread], with [count]
    rounds left from [i] on. *)
Fixpoint countPoint (T : PLTree) (prediction : list TreeNodeProb)
    (labels : list Z) (count i : nat) (precision : list Z)
  : option (list Z) :=
  match count with
  | O => Some precision
  | S count' =>
      match countUntilSentinel T prediction i labels precision with
      | None => None
      | Some precision' =>
          countPoint T prediction labels count' (S i) precision'
      end
  end.

(** [int pointTestThread(PLTree* tree, Label* labels, Feature* features,
    std::vector<Base*>& bases, int k, std::vector<int>& precision)]: the
    counters [precision] afterwards. *)
Definition pointTestThread (fuel : nat) (T : PLTree) (labels : list Z)
    (features : Features) (bases : list (Features -> Q)) (k_ : Z)
    (precision : list Z) : option (list Z) :=
  match predict fuel T [] features bases k_ with
  | None => None
  | Some prediction =>
      countPoint T prediction labels (Z.to_nat k_) 0 precision
  end.

End Test.

(** *** [PLTree::loadTreeStructure] *)

Definition setLabel (l : Z) (n : TreeNode) : TreeNode :=
  mkNode (index n) l (parent n) (children n).

(** [tree[z]] for an [int] [z]: the position, when there is a node. *)
Definition position (T : PLTree) (z : Z) : option nat :=
  if Z.ltb z 0 then None
  else (fun _ => Z.to_nat z) <$> tree T !! Z.to_nat z.

(** The loop [for (auto i = 0; i < t - 1; ++i)] with [count] rounds left,
    over the numbers [inp] that the stream still holds.  A line whose
    parent is [-1] names the root and takes no round.  Nothing when the
    stream runs out or an index leads out of [tree]. *)
Fixpoint loadEdges (inp : list Z) (count : nat) (T : PLTree) {struct inp}
  : option (list Z * PLTree) :=
  match count with
  | O => Some (inp, T)
  | S count' =>
      match inp with
      | parentN :: childN :: lbl :: rest =>
          if Z.eqb parentN (-1)
          then
            match position T childN with
            | Some c => loadEdges rest count (set_treeRoot (Some c) T)
            | None => None
            end
          else
            match position T parentN, position T childN with
            | Some q, Some c =>
                match tree T !! q with
                | Some pn =>
                    let tree1 :=
                      <[q := setChildren (children pn ++ [c]) pn]> (tree T) in
                    match tree1 !! c with
                    | Some cn =>
                        let cn1 := setParent (Some q) cn in
                        if Z.leb 0 lbl
                        then
                          loadEdges rest count'
                            (mkTree (k T) (t T)
                               (<[c := setLabel lbl cn1]> tree1) (treeRoot T)
                               (match treeLeaves T !! lbl with
                                | Some _ => treeLeaves T
                                | None => <[lbl := c]> (treeLeaves T)
                                end))
                        else
                          loadEdges rest count' (set_tree (<[c := cn1]> tree1) T)
                    | None => None
                    end
                | None => None
                end
            | _, _ => None
            end
      | _ => None
      end
  end.

(** [void PLTree::loadTreeStructure(std::string file)] on the numbers
    [inp] of the file: the numbers left and the tree read.  [newLabel] is
    the label that the constructor [TreeNode()] leaves in a new node; the
    constructor is not part of the sources.  Nothing when the file is too
    short, when an index leads out of [tree], or when one of the two
    assertions at the end fails. *)
Definition loadTreeStructure (newLabel : Z) (inp : list Z) (T : PLTree)
  : option (list Z * PLTree) :=
  match inp with
  | kN :: tN :: rest =>
      let tree1 :=
        tree T ++ ((fun i => mkNode (Z.of_nat i) newLabel None [])
                     <$> seq 0 (Z.to_nat tN)) in
      match tree1 with
      | [] => None
      | _ :: _ =>
          match loadEdges rest (Z.to_nat (tN - 1))
                  (mkTree kN tN tree1 (Some 0%nat) (treeLeaves T)) with
          | Some (rest', T') =>
              if Z.eqb (Z.of_nat (length (tree T'))) (t T')
                 && Z.eqb (Z.of_nat (size (treeLeaves T'))) (k T')
              then Some (rest', T')
              else None
          | None => None
          end
      end
  | _ => None
  end.
End PLT.

(** * Properties of [Base] *)

(** Example inputs. *)
Definition zeroFun1 (_ : Q) : Q := 0%Q.
Definition zeroGrad (_ _ _ : Q) : Q := 0%Q.
Definition idUpdate (wv : AbstractVector) (gv : option AbstractVector)
    (_ : Features) (_ : Q) (_ : Z) (_ : Args.t)
  : AbstractVector * option AbstractVector := (wv, gv).
Definition paramsOk (_ : ProblemData.t) (_ : Args.t) (_ : Q) : option string :=
  None.
Definition noModel (_ : ProblemData.t) (_ : Args.t) (_ : Q) : model :=
  mkModel 0 0 [] [].
Definition zeroMem (_ : AbstractVector) : Z := 0.

Definition exampleArgs : Args.t :=
  Args.mk sgd logistic L2R_LR (-1) 1 1%Q false false false 0%Q.

Definition emptyProblem : ProblemData.t :=
  ProblemData.mk [] [] [] 3 0 1%Q 0 [] [].

Definition onesProblem : ProblemData.t :=
  ProblemData.mk [1%Q; 1%Q] [[(1, 1%Q)]; [(1, 1%Q); (2, 3%Q)]] [1%Q; 1%Q]
    3 2 1%Q 0 [] [].

Definition freshState : State := mkState Base_new ∅ [].

Section BaseTheorems.

Variable exp ln : Q -> Q.
Variable logisticGrad squaredHingeGrad pwLogisticGrad : Q -> Q -> Q -> Q.
Variable updateSGD updateAdaGrad :
  AbstractVector -> option AbstractVector -> Features -> Q -> Z -> Args.t ->
  AbstractVector * option AbstractVector.
Variable check_parameter : ProblemData.t -> Args.t -> Q -> option string.
Variable train_liblinear : ProblemData.t -> Args.t -> Q -> model.
Variable sparseMem denseMem : AbstractVector -> Z.

Local Abbreviation train_ :=
  (train ln logisticGrad squaredHingeGrad pwLogisticGrad updateSGD
     updateAdaGrad check_parameter train_liblinear sparseMem denseMem).

(** The state a degenerate call of [Base::train] leaves: the two fields are
    set and nothing else has happened. *)
Definition collapsed (fc cc : Z) (s : State) : State :=
  mkState (set_classCount cc (set_firstClass fc (this s))) (heap s) (events s).

Lemma trunc_integer (q : Q) (c : Z) : (q == toDouble c)%Q -> trunc q = c.
Proof.
  unfold Qeq, toDouble, inject_Z, trunc. cbn [Qnum Qden].
  intros H. rewrite Z.mul_1_r in H. rewrite H.
  apply Z.quot_mul. discriminate.
Qed.

Lemma count_all (l : list Q) (v : Q) :
  Forall (fun x => (x == v)%Q) l -> count l v = Z.of_nat (length l).
Proof.
  unfold count. intros H. f_equal. f_equal.
  induction H as [|x l Hx _ IH]; cbn; [reflexivity|].
  apply Qeq_bool_iff in Hx. rewrite Hx. cbn. f_equal. exact IH.
Qed.

Lemma count_none (l : list Q) (v : Q) :
  Forall (fun x => ~ (x == v)%Q) l -> count l v = 0.
Proof.
  unfold count. intros H.
  induction H as [|x l Hx _ IH]; cbn; [reflexivity|].
  destruct (Qeq_bool x v) eqn:E; [|exact IH].
  apply Qeq_bool_iff in E. contradiction.
Qed.

Lemma train_single_class (pd : ProblemData.t) (args : Args.t) (s : State)
    (c : Z) :
  c = 0 \/ c = 1 ->
  ProblemData.binLabels pd <> [] ->
  Forall (fun l => (l == toDouble c)%Q) (ProblemData.binLabels pd) ->
  length (ProblemData.binFeatures pd) = length (ProblemData.binLabels pd) ->
  (length (ProblemData.binLabels pd)
   <= length (ProblemData.instancesWeights pd))%nat ->
  train_ pd args s = Ret tt (collapsed c 1 s).
Proof.
  intros Hc Hne Hall Hf Hw. unfold train.
  destruct (ProblemData.binLabels pd) as [|l0 ls] eqn:El; [congruence|].
  rewrite Hf.
  assert (Hdeg :
    (count (l0 :: ls) 1 =? 0) || (count (l0 :: ls) 1 =? Z.of_nat (length (l0 :: ls)))
    = true).
  { destruct Hc as [-> | ->].
    - rewrite count_none; [reflexivity|].
      eapply Forall_impl; [exact Hall|]. cbn. intros x Hx Hx1.
      rewrite Hx in Hx1. discriminate.
    - rewrite count_all; [|exact Hall]. rewrite Z.eqb_refl. apply orb_true_r. }
  unfold bind, assert. rewrite Z.eqb_refl. cbn [ret].
  replace (Z.of_nat (length (l0 :: ls)) <=? Z.of_nat (length (ProblemData.instancesWeights pd)))
    with true by (symmetry; apply Z.leb_le; lia).
  cbn [ret]. rewrite Hdeg.
  inversion Hall as [|? ? H0 _]; subst.
  rewrite (trunc_integer _ _ H0). reflexivity.
Qed.

(** C9. [Base::train] on an empty label list sets [firstClass = 0] and
    [classCount = 0] and returns; on a list whose labels are all [0] or all
    [1] it sets [firstClass] to that label and [classCount = 1] and returns.
    In both cases the weight pointers, the heap of weight vectors and the
    list of solver calls are left as they were: no problem is built, no
    solver runs and no weight vector is made. *)
Theorem train_degenerate_returns_early
    (pd : ProblemData.t) (args : Args.t) (s : State) :
  (ProblemData.binLabels pd = [] ->
   exists s', train_ pd args s = Ret tt s'
     /\ firstClass (this s') = 0 /\ classCount (this s') = 0
     /\ W (this s') = W (this s) /\ G (this s') = G (this s)
     /\ heap s' = heap s /\ events s' = events s)
  /\
  (forall c : Z,
     c = 0 \/ c = 1 ->
     ProblemData.binLabels pd <> [] ->
     Forall (fun l => (l == toDouble c)%Q) (ProblemData.binLabels pd) ->
     length (ProblemData.binFeatures pd) = length (ProblemData.binLabels pd) ->
     (length (ProblemData.binLabels pd)
      <= length (ProblemData.instancesWeights pd))%nat ->
     exists s', train_ pd args s = Ret tt s'
       /\ firstClass (this s') = c /\ classCount (this s') = 1
       /\ W (this s') = W (this s) /\ G (this s') = G (this s)
       /\ heap s' = heap s /\ events s' = events s).
Proof.
  split.
  - intros He. exists (collapsed 0 0 s). unfold train. rewrite He.
    repeat split.
  - intros c Hc Hne Hall Hf Hw. exists (collapsed c 1 s).
    rewrite (train_single_class pd args s c Hc Hne Hall Hf Hw).
    repeat split.
Qed.


(** C2, as amended.  After [Base::train] on an empty dataset [classCount]
    is [0], [firstClass] is [0] and [predictValue] returns [-10] for every
    feature vector; after [Base::train] on a dataset whose labels are all
    [1], [classCount] is [1], [firstClass] is [1] and [predictValue] returns
    [+10] for every feature vector. *)
Theorem degenerate_base_prediction
    (pd : ProblemData.t) (args : Args.t) (s : State) :
  (ProblemData.binLabels pd = [] ->
   exists s', train_ pd args s = Ret tt s'
     /\ classCount (this s') = 0 /\ firstClass (this s') = 0
     /\ forall features, predictValue features s' = Ret (toDouble (-10)) s')
  /\
  (ProblemData.binLabels pd <> [] ->
   Forall (fun l => (l == 1)%Q) (ProblemData.binLabels pd) ->
   length (ProblemData.binFeatures pd) = length (ProblemData.binLabels pd) ->
   (length (ProblemData.binLabels pd)
    <= length (ProblemData.instancesWeights pd))%nat ->
   exists s', train_ pd args s = Ret tt s'
     /\ classCount (this s') = 1 /\ firstClass (this s') = 1
     /\ forall features, predictValue features s' = Ret (toDouble 10) s').
Proof.
  split.
  - intros He. exists (collapsed 0 0 s). unfold train. rewrite He.
    repeat split.
  - intros Hne Hall Hf Hw. exists (collapsed 1 1 s).
    rewrite (train_single_class pd args s 1 (or_intror eq_refl) Hne Hall Hf Hw).
    repeat split.
Qed.

(** ** Online updates *)

(** The counters after the first two statements of [Base::unsafeUpdate]. *)
Definition bumped (label : Q) (s : State) : State :=
  let b := set_t (t (this s) + 1) (this s) in
  mkState
    (if Qeq_bool label (toDouble (firstClass (this s)))
     then set_firstClassCount (firstClassCount b + 1) b else b)
    (heap s) (events s).

Lemma predictValue_bumped (label : Q) (features : Features) (s : State)
    (pred : Q) :
  predictValue features s = Ret pred s ->
  predictValue features (bumped label s) = Ret pred (bumped label s).
Proof.
  unfold predictValue, bind, getThis, bumped, deref, ret.
  destruct s as [b h ev]. cbn [this heap events].
  destruct (Qeq_bool label (toDouble (firstClass b))); cbn;
    (destruct (classCount b <? 2); cbn;
     [ intros H; inversion H; reflexivity
     | destruct (W b) as [l|]; [|discriminate];
       destruct (h !! l); [|discriminate];
       intros H; inversion H; reflexivity ]).
Qed.

(** What a call of an optimizer leaves in the cell of [W]. *)
Lemma callUpdate_writes_W
    (upd : AbstractVector -> option AbstractVector -> Features -> Q -> Z ->
           Args.t -> AbstractVector * option AbstractVector)
    (features : Features) (grad : Q) (args : Args.t) (s : State)
    (l : loc) (wv : AbstractVector) (gv : option AbstractVector) :
  W (this s) = Some l ->
  heap s !! l = Some wv ->
  G (this s) <> Some l ->
  derefOpt (G (this s)) s = Ret gv s ->
  exists s', callUpdate upd features grad args s = Ret tt s'
    /\ this s' = this s
    /\ heap s' !! l = Some (fst (upd wv gv features grad (t (this s)) args)).
Proof.
  intros HW Hl HG Hg. destruct s as [b h ev].
  cbn [this heap events] in *.
  unfold callUpdate, bind, getThis. cbn [this heap events].
  rewrite HW. unfold deref at 1. cbn [heap]. rewrite Hl. rewrite Hg.
  unfold assign at 1. cbn [this heap events]. rewrite Hl.
  destruct (snd (upd wv gv features grad (t b) args)) as [g'|].
  - destruct (G b) as [lg|] eqn:EG.
    + unfold assign. cbn [this heap events].
      assert (lg <> l) by congruence.
      unfold derefOpt, bind, deref in Hg. cbn [heap] in Hg.
      destruct (h !! lg) eqn:Elg; [|discriminate].
      rewrite lookup_insert_ne by congruence. rewrite Elg.
      eexists; repeat split. cbn [heap].
      rewrite lookup_insert_ne by congruence. apply lookup_insert_eq.
    + eexists; repeat split. cbn [heap]. apply lookup_insert_eq.
  - eexists; repeat split. cbn [heap]. apply lookup_insert_eq.
Qed.

(** C10.  [Base::update] and [Base::unsafeUpdate] return at once, leaving
    the whole state (so [t], [firstClassCount], [W] and [G]) as it was, when
    [args.tmax] is not [-1] and is below [t].  Otherwise the counters are
    advanced and the optimizer named by [args.optimizerType] is called with
    the logistic gradient when [args.lossType] is [logistic] and with the
    squared-hinge gradient for [squaredHinge] and for [pwLogistic]; the
    weight vector that the optimizer computes from that gradient is what
    [W] holds afterwards. *)
Theorem update_gradient_by_loss
    (label : Q) (features : Features) (args : Args.t) (s : State) :
  (Args.tmax args <> -1 /\ Args.tmax args < t (this s) ->
   update logisticGrad squaredHingeGrad updateSGD updateAdaGrad
     label features args s = Ret tt s
   /\ unsafeUpdate logisticGrad squaredHingeGrad updateSGD updateAdaGrad
        label features args s = Ret tt s)
  /\
  (~ (Args.tmax args <> -1 /\ Args.tmax args < t (this s)) ->
   forall pred : Q,
     predictValue features s = Ret pred s ->
     let grad :=
       match Args.lossType args with
       | logistic => logisticGrad label pred 0%Q
       | squaredHinge => squaredHingeGrad label pred 0%Q
       | pwLogistic => squaredHingeGrad label pred 0%Q
       end in
     let upd :=
       match Args.optimizerType args with
       | adagrad => updateAdaGrad
       | _ => updateSGD
       end in
     update logisticGrad squaredHingeGrad updateSGD updateAdaGrad
       label features args s
     = unsafeUpdate logisticGrad squaredHingeGrad updateSGD updateAdaGrad
         label features args s
     /\ unsafeUpdate logisticGrad squaredHingeGrad updateSGD updateAdaGrad
          label features args s
        = match Args.optimizerType args with
          | liblinear => Throw "Unknown optimizer type" (bumped label s)
          | _ => callUpdate upd features grad args (bumped label s)
          end
     /\ forall (l : loc) (wv : AbstractVector) (gv : option AbstractVector),
          Args.optimizerType args <> liblinear ->
          W (this s) = Some l ->
          heap s !! l = Some wv ->
          G (this s) <> Some l ->
          derefOpt (G (this s)) s = Ret gv s ->
          exists s',
            unsafeUpdate logisticGrad squaredHingeGrad updateSGD updateAdaGrad
              label features args s = Ret tt s'
            /\ t (this s') = t (this s) + 1
            /\ heap s' !! l
               = Some (fst (upd wv gv features grad (t (this s) + 1) args))).
Proof.
  assert (Hrun : ~ (Args.tmax args <> -1 /\ Args.tmax args < t (this s)) ->
    forall pred, predictValue features s = Ret pred s ->
    unsafeUpdate logisticGrad squaredHingeGrad updateSGD updateAdaGrad
      label features args s
    = match Args.optimizerType args with
      | liblinear => Throw "Unknown optimizer type" (bumped label s)
      | sgd =>
          callUpdate updateSGD features
            (match Args.lossType args with
             | logistic => logisticGrad label pred 0%Q
             | _ => squaredHingeGrad label pred 0%Q
             end) args (bumped label s)
      | adagrad =>
          callUpdate updateAdaGrad features
            (match Args.lossType args with
             | logistic => logisticGrad label pred 0%Q
             | _ => squaredHingeGrad label pred 0%Q
             end) args (bumped label s)
      end).
  { intros Hgo pred Hpred.
    unfold unsafeUpdate. unfold bind at 1. unfold getThis at 1.
    replace (negb (Args.tmax args =? -1) && (Args.tmax args <? t (this s)))
      with false.
    2:{ symmetry. apply andb_false_iff.
        destruct (Z.eqb_spec (Args.tmax args) (-1)) as [E|E]; [left; reflexivity|].
        right. apply Z.ltb_ge. lia. }
    assert (Hb : forall k : M unit,
      bind (setThis (fun b => set_t (t b + 1) b))
        (fun _ => bind
           (if Qeq_bool label (toDouble (firstClass (this s)))
            then setThis (fun b => set_firstClassCount (firstClassCount b + 1) b)
            else ret tt)
           (fun _ => k)) s = k (bumped label s)).
    { intros k. unfold bind, setThis, bumped, ret.
      destruct s as [b h ev]. cbn [this heap events].
      destruct (Qeq_bool label (toDouble (firstClass b))); reflexivity. }
    rewrite Hb. unfold bind at 1.
    rewrite (predictValue_bumped label features s pred Hpred).
    destruct (Args.lossType args), (Args.optimizerType args); reflexivity. }
  split.
  - intros [Hne Hlt]. unfold update, unsafeUpdate, bind, getThis.
    replace (negb (Args.tmax args =? -1) && (Args.tmax args <? t (this s)))
      with true; [split; reflexivity|].
    symmetry. apply andb_true_iff. split.
    + apply negb_true_iff, Z.eqb_neq, Hne.
    + apply Z.ltb_lt, Hlt.
  - intros Hgo pred Hpred. cbn zeta. split; [reflexivity|]. split.
    + rewrite (Hrun Hgo pred Hpred).
      destruct (Args.lossType args), (Args.optimizerType args); reflexivity.
    + intros l wv gv Hopt HW Hl HG Hg.
      rewrite (Hrun Hgo pred Hpred).
      assert (HbW : W (this (bumped label s)) = Some l).
      { unfold bumped. cbn [this].
        destruct (Qeq_bool _ _); cbn; exact HW. }
      assert (HbG : G (this (bumped label s)) = G (this s)).
      { unfold bumped. cbn [this]. destruct (Qeq_bool _ _); reflexivity. }
      assert (Hbt : t (this (bumped label s)) = t (this s) + 1).
      { unfold bumped. cbn [this]. destruct (Qeq_bool _ _); reflexivity. }
      assert (Hbg : derefOpt (G (this (bumped label s))) (bumped label s)
                    = Ret gv (bumped label s)).
      { rewrite HbG. revert Hg. unfold derefOpt, bind, deref, ret, bumped.
        destruct (G (this s)) as [lg|]; cbn [heap].
        - destruct (heap s !! lg); [|discriminate].
          intros H; inversion H; reflexivity.
        - intros H; inversion H; reflexivity. }
      assert (HbG' : G (this (bumped label s)) <> Some l) by (rewrite HbG; exact HG).
      destruct (Args.optimizerType args) eqn:Eo; [congruence| |].
      * destruct (callUpdate_writes_W updateSGD features
                    (match Args.lossType args with
                     | logistic => logisticGrad label pred 0%Q
                     | _ => squaredHingeGrad label pred 0%Q
                     end) args (bumped label s) l wv gv HbW Hl HbG' Hbg)
          as (s' & Hs' & Hthis & Hheap).
        exists s'. rewrite Hthis, Hbt in *. split; [exact Hs'|]. split; [reflexivity|].
        rewrite Hheap. destruct (Args.lossType args); reflexivity.
      * destruct (callUpdate_writes_W updateAdaGrad features
                    (match Args.lossType args with
                     | logistic => logisticGrad label pred 0%Q
                     | _ => squaredHingeGrad label pred 0%Q
                     end) args (bumped label s) l wv gv HbW Hl HbG' Hbg)
          as (s' & Hs' & Hthis & Hheap).
        exists s'. rewrite Hthis, Hbt in *. split; [exact Hs'|]. split; [reflexivity|].
        rewrite Hheap. destruct (Args.lossType args); reflexivity.
Qed.

End BaseTheorems.

(** ** Change of representation *)

Definition denseBase : State :=
  mkState (mkBase logistic 2 1 0 0 (Some 0%nat) None)
    {[ 0%nat := Vector [1%Q; 2%Q] ]} [].

Definition mapBase : State :=
  mkState (mkBase logistic 2 1 0 0 (Some 0%nat) None)
    {[ 0%nat := MapVector 2 {[ 0 := 1%Q ]} ]} [].

(** Asked for the representation a vector already has, [Base::vecTo]
    reaches the final [else] and throws. *)
Lemma vecTo_same_representation (s : State) (l : loc) (v : AbstractVector) :
  heap s !! l = Some v ->
  vecTo (Some l) (Vec.representation v) s
  = Throw "Unknown representation type" s.
Proof.
  intros Hl. unfold vecTo, bind, deref. rewrite Hl.
  destruct v; reflexivity.
Qed.

(** Asked for another representation, [Base::vecTo] frees the vector it was
    given; no field of the [Base] is written, so a field that pointed to the
    vector points to a freed cell afterwards. *)
Lemma vecTo_other_representation
    (s : State) (l : loc) (v : AbstractVector) (type : RepresentationType.t) :
  heap s !! l = Some v ->
  type <> Vec.representation v ->
  exists s', vecTo (Some l) type s = Ret tt s'
    /\ this s' = this s /\ heap s' !! l = None.
Proof.
  intros Hl Hne.
  assert (Hfresh : fresh (dom (heap s)) <> l).
  { intros E. apply (is_fresh (dom (heap s))). rewrite E.
    apply elem_of_dom. eauto. }
  unfold vecTo, bind, deref. rewrite Hl.
  destruct v, type; cbn in Hne |- *; try congruence;
    unfold new, delete_; cbn [heap this events];
    rewrite lookup_insert_ne by exact Hfresh; rewrite Hl;
    (eexists; split; [reflexivity|]; split; [reflexivity|]);
    cbn [heap]; apply lookup_delete_eq.
Qed.

(** C3, on the code.  For a [Base] whose [W] is dense, [to(dense)] throws
    "Unknown representation type" instead of doing nothing; for a [Base]
    whose [W] is a map vector, [to(dense)] returns with the field [W] still
    holding the old pointer, whose cell has been freed. *)
Theorem to_throws_or_leaves_dangling :
  to RepresentationType.dense denseBase
  = Throw "Unknown representation type" denseBase
  /\ exists s', to RepresentationType.dense mapBase = Ret tt s'
       /\ W (this s') = Some 0%nat /\ heap s' !! 0%nat = None.
Proof.
  split.
  - cbv beta iota delta [to bind getThis].
    change (W (this denseBase)) with (@Some loc 0%nat).
    change RepresentationType.dense with (Vec.representation (Vector [1%Q; 2%Q])).
    rewrite (vecTo_same_representation _ 0%nat (Vector [1%Q; 2%Q])); [reflexivity|].
    apply lookup_singleton_eq.
  - destruct (vecTo_other_representation mapBase 0%nat
                (MapVector 2 {[ 0 := 1%Q ]}) RepresentationType.dense)
      as (s' & Hs' & Hthis & Hheap).
    { apply lookup_singleton_eq. }
    { discriminate. }
    exists s'. cbv beta iota delta [to bind getThis].
    change (W (this mapBase)) with (@Some loc 0%nat). rewrite Hs'.
    rewrite Hthis. change (G (this mapBase)) with (@None loc).
    split; [reflexivity|]. split; [reflexivity | exact Hheap].
Qed.

(** ** Saving and loading a [Base] *)

Section BaseSerializationTheorems.

Variable vsave : AbstractVector -> list Var.
Variable vload : AbstractVector -> list Var -> option (AbstractVector * list Var).
Variable vskip : AbstractVector -> list Var -> option (list Var).
Variable denseEstimateMem mapEstimateMem : Z -> Z -> Z.

(** What is asked of the vector classes: an empty vector of any
    representation reads back what [save] wrote, with the same weight at
    every index, and [skipLoad] steps over it. *)
Hypothesis vload_vsave :
  forall (r : RepresentationType.t) (v : AbstractVector) (rest : list Var),
    exists v', vload (Vec.zeros r 0) (vsave v ++ rest) = Some (v', rest)
      /\ forall i, Vec.at_ v' i = Vec.at_ v i.
Hypothesis vskip_vsave :
  forall (r : RepresentationType.t) (v : AbstractVector) (rest : list Var),
    vskip (Vec.zeros r 0) (vsave v ++ rest) = Some rest.

Local Abbreviation load_ := (load vload vskip denseEstimateMem mapEstimateMem).

Lemma save_state (saveGrads : bool) (s s' : State) (out : list Var) :
  save vsave saveGrads s = Ret out s' -> s' = s.
Proof.
  unfold save, bind, getThis, deref, ret.
  destruct (1 <? classCount (this s)); [|intros H; inversion H; reflexivity].
  destruct (W (this s)) as [lw|]; [|discriminate].
  destruct (heap s !! lw); [|discriminate].
  destruct (saveGrads && bool_decide (G (this s) <> None)).
  - destruct (G (this s)) as [lg|]; [|discriminate].
    destruct (heap s !! lg); [|discriminate].
    intros H; inversion H; reflexivity.
  - intros H; inversion H; reflexivity.
Qed.

Lemma save_degenerate (saveGrads : bool) (s : State) :
  classCount (this s) <= 1 ->
  save vsave saveGrads s
  = Ret [VInt (classCount (this s)); VInt (firstClass (this s));
         VLoss (lossType (this s))] s.
Proof.
  intros Hc. unfold save, bind, getThis.
  replace (1 <? classCount (this s)) with false; [reflexivity|].
  symmetry. apply Z.ltb_ge. exact Hc.
Qed.

Lemma load_degenerate (cc fc : Z) (lt : LossType) (rest : list Var)
    (loadGrads : bool) (loadAs : RepresentationType.t) (s0 : State) :
  cc <= 1 ->
  load_ (VInt cc :: VInt fc :: VLoss lt :: rest) loadGrads loadAs s0
  = Ret rest
      (mkState (mkBase lt cc fc (firstClassCount (this s0)) (t (this s0))
                  (W (this s0)) (G (this s0)))
         (heap s0) (events s0)).
Proof.
  intros Hc. unfold load, bind, loadInt, loadLoss, setThis, getThis, ret.
  cbn [fst snd this heap events classCount set_classCount set_firstClass
       set_lossType lossType firstClass firstClassCount t W G].
  replace (1 <? cc) with false; [reflexivity|].
  symmetry. apply Z.ltb_ge. exact Hc.
Qed.

Lemma load_trained (cc fc : Z) (lt : LossType) (sz n0 : Z)
    (wv : AbstractVector) (grads : bool) (gout rest : list Var)
    (loadGrads : bool) (loadAs : RepresentationType.t) (s0 : State) :
  1 < cc ->
  (grads = false /\ gout = []) \/ (grads = true /\ exists gv, gout = vsave gv) ->
  exists s1 lW wv',
    load_ (VInt cc :: VInt fc :: VLoss lt :: VSize sz :: VSize n0
             :: vsave wv ++ VBool grads :: gout ++ rest)
      loadGrads loadAs s0 = Ret rest s1
    /\ classCount (this s1) = cc /\ firstClass (this s1) = fc
    /\ lossType (this s1) = lt
    /\ W (this s1) = Some lW /\ heap s1 !! lW = Some wv'
    /\ (forall i, Vec.at_ wv' i = Vec.at_ wv i)
    /\ (grads = true -> loadGrads = true ->
        forall gv, gout = vsave gv ->
        exists lG gv', G (this s1) = Some lG /\ heap s1 !! lG = Some gv'
          /\ forall i, Vec.at_ gv' i = Vec.at_ gv i).
Proof.
  intros Hc Hg. destruct s0 as [b0 h0 e0].
  set (rep := loadRepresentation denseEstimateMem mapEstimateMem sz n0 loadAs).
  set (lW := fresh (dom h0)).
  set (h1 := <[lW := Vec.zeros rep 0]> h0).
  set (lG := fresh (dom h1)).
  set (h2 := <[lG := Vec.zeros rep 0]> h1).
  assert (HlG : lG <> lW).
  { intros E. apply (is_fresh (dom h1)). fold lG. rewrite E.
    apply elem_of_dom. unfold h1. rewrite lookup_insert_eq. eauto. }
  assert (HW2 : h2 !! lW = Some (Vec.zeros rep 0)).
  { unfold h2. rewrite lookup_insert_ne by exact HlG.
    unfold h1. apply lookup_insert_eq. }
  destruct (vload_vsave rep wv (VBool grads :: gout ++ rest))
    as (wv' & Hload & Hat).
  cbv beta iota zeta delta
    [load bind loadInt loadLoss loadSize loadBool setThis getThis ret new
     loadInto deref assign delete_ undefined
     fst snd this heap events classCount set_classCount set_firstClass
     set_lossType set_W set_G lossType firstClass firstClassCount t W G].
  replace (1 <? cc) with true by (symmetry; apply Z.ltb_lt; exact Hc).
  fold rep. fold lW. fold h1. fold lG. fold h2.
  rewrite HW2. rewrite Hload.
  cbv beta iota. rewrite HW2.
  assert (HG3 : (<[lW := wv']> h2) !! lG = Some (Vec.zeros rep 0)).
  { rewrite lookup_insert_ne by congruence. unfold h2. apply lookup_insert_eq. }
  destruct Hg as [[-> ->] | [-> [gv ->]]].
  - cbv beta iota. eexists _, lW, wv'. split; [reflexivity|].
    cbn [this heap classCount firstClass lossType W G].
    repeat split; try assumption.
    + apply lookup_insert_eq.
    + intros; discriminate.
  - destruct loadGrads.
    + destruct (vload_vsave rep gv rest) as (gv' & Hgl & Hgat).
      cbv beta iota. rewrite HG3. rewrite Hgl. cbv beta iota. rewrite HG3.
      eexists _, lW, wv'. split; [reflexivity|].
      cbn [this heap classCount firstClass lossType W G].
      repeat split; try assumption.
      * rewrite lookup_insert_ne by exact HlG. apply lookup_insert_eq.
      * intros _ _ gv0 Hgv0. exists lG, gv'. split; [reflexivity|].
        split; [apply lookup_insert_eq|].
        destruct (vload_vsave rep gv0 rest) as (gv'' & Hgl0 & Hgat0).
        rewrite <- Hgv0, Hgl in Hgl0. inversion Hgl0; subst. exact Hgat0.
    + cbv beta iota. rewrite HG3. rewrite (vskip_vsave rep gv rest).
      cbv beta iota. rewrite HG3.
      eexists _, lW, wv'. split; [reflexivity|].
      cbn [this heap classCount firstClass lossType W G].
      repeat split; try assumption.
      * rewrite lookup_delete_ne by exact HlG. apply lookup_insert_eq.
      * intros _ Hf; discriminate.
Qed.

(** C8.  Loading what [Base::save] wrote gives a [Base] with the same
    [classCount], [firstClass] and [lossType]; when [classCount > 1] the
    loaded [W] holds the same weight at every index as the saved one, and so
    does the loaded [G] when gradients were saved and are asked for; when
    [classCount <= 1] the three header variables are all that is written,
    and loading them touches neither the heap nor the fields [W] and [G]. *)
Theorem save_load_roundtrip
    (s s' s0 : State) (saveGrads loadGrads : bool)
    (loadAs : RepresentationType.t) (out rest : list Var) :
  save vsave saveGrads s = Ret out s' ->
  exists s1,
    load_ (out ++ rest) loadGrads loadAs s0 = Ret rest s1
    /\ classCount (this s1) = classCount (this s)
    /\ firstClass (this s1) = firstClass (this s)
    /\ lossType (this s1) = lossType (this s)
    /\ (1 < classCount (this s) ->
        exists wv wv',
          deref (W (this s)) s = Ret wv s
          /\ deref (W (this s1)) s1 = Ret wv' s1
          /\ forall i, Vec.at_ wv' i = Vec.at_ wv i)
    /\ (1 < classCount (this s) ->
        saveGrads = true -> G (this s) <> None -> loadGrads = true ->
        exists gv gv',
          deref (G (this s)) s = Ret gv s
          /\ deref (G (this s1)) s1 = Ret gv' s1
          /\ forall i, Vec.at_ gv' i = Vec.at_ gv i)
    /\ (classCount (this s) <= 1 ->
        out = [VInt (classCount (this s)); VInt (firstClass (this s));
               VLoss (lossType (this s))]
        /\ heap s1 = heap s0
        /\ W (this s1) = W (this s0) /\ G (this s1) = G (this s0)).
Proof.
  intros Hsave.
  destruct (Z.ltb_spec 1 (classCount (this s))) as [Hc | Hc].
  - (* a real classifier: the weights follow the header *)
    revert Hsave. unfold save, bind, getThis, ret.
    replace (1 <? classCount (this s)) with true
      by (symmetry; apply Z.ltb_lt; exact Hc).
    destruct (deref (W (this s)) s) as [wv sw | |] eqn:EW; try discriminate.
    assert (sw = s) as ->.
    { revert EW. unfold deref. destruct (W (this s)); [|discriminate].
      destruct (heap s !! l); [|discriminate]. intros H; inversion H; reflexivity. }
    destruct (saveGrads && bool_decide (G (this s) <> None)) eqn:Eg.
    + destruct (deref (G (this s)) s) as [gv sg | |] eqn:EG; try discriminate.
      assert (sg = s) as ->.
      { revert EG. unfold deref. destruct (G (this s)); [|discriminate].
        destruct (heap s !! l); [|discriminate]. intros H; inversion H; reflexivity. }
      intros H; inversion H; subst out s'. clear H.
      destruct (load_trained (classCount (this s)) (firstClass (this s))
                  (lossType (this s)) (Vec.size wv) (Vec.nonZero wv) wv true
                  (vsave gv) rest loadGrads loadAs s0 Hc)
        as (s1 & lW & wv' & Hl & Hcc & Hfc & Hlt & HW & HhW & Hat & HG).
      { right. split; [reflexivity|]. exists gv. reflexivity. }
      exists s1. split.
      { rewrite <- Hl. f_equal. cbn [app]. rewrite <- !app_assoc. reflexivity. }
      repeat split; try assumption.
      * intros _. exists wv, wv'. split; [reflexivity|]. split; [|exact Hat].
        unfold deref. rewrite HW, HhW. reflexivity.
      * intros _ _ _ ->. destruct (HG eq_refl eq_refl gv eq_refl)
          as (lG & gv' & HGf & HhG & Hgat).
        exists gv, gv'. split; [reflexivity|]. split; [|exact Hgat].
        unfold deref. rewrite HGf, HhG. reflexivity.
      * lia.
      * lia.
      * lia.
      * lia.
    + intros H; inversion H; subst out s'. clear H.
      destruct (load_trained (classCount (this s)) (firstClass (this s))
                  (lossType (this s)) (Vec.size wv) (Vec.nonZero wv) wv false
                  [] rest loadGrads loadAs s0 Hc)
        as (s1 & lW & wv' & Hl & Hcc & Hfc & Hlt & HW & HhW & Hat & HG).
      { left. split; reflexivity. }
      exists s1. split.
      { rewrite <- Hl. f_equal. cbn [app]. rewrite <- !app_assoc. reflexivity. }
      repeat split; try assumption.
      * intros _. exists wv, wv'. split; [reflexivity|]. split; [|exact Hat].
        unfold deref. rewrite HW, HhW. reflexivity.
      * intros _ Hs HGn _. exfalso. subst saveGrads. cbn in Eg.
        apply bool_decide_eq_false in Eg. contradiction.
      * lia.
      * lia.
      * lia.
      * lia.
  - (* a collapsed classifier: the header only *)
    rewrite (save_degenerate saveGrads s Hc) in Hsave.
    inversion Hsave; subst out s'. clear Hsave.
    eexists. split.
    { cbn [app]. apply load_degenerate. exact Hc. }
    cbn [this heap classCount firstClass lossType W G].
    repeat split; intros; lia.
Qed.

End BaseSerializationTheorems.

(** * The [predict] command *)

Definition oneLabelPredictor (_ : Features) : list Prediction.t :=
  [Prediction.mk 0 1%Q].

Definition rows5001 : nat := Z.to_nat 5001.

Lemma lines_app (a b : list Out) : lines (a ++ b) = lines a + lines b.
Proof. unfold lines. rewrite List.filter_app, length_app. lia. Qed.

Lemma lines_printRow (l : Z) (prediction : list Prediction.t) :
  lines (printRow l prediction) = 1.
Proof.
  unfold printRow, lines. cbn [List.filter]. rewrite List.filter_app.
  rewrite length_app. cbn [List.filter length].
  assert (H : List.filter (fun o => match o with OEndl => true | _ => false end)
            (flat_map (fun p => [OStr " "; OInt (Prediction.label p); OStr ":";
                                 ODouble (Prediction.value p)]) prediction) = []).
  { induction prediction as [|p ps IH]; [reflexivity|]. cbn. exact IH. }
  rewrite H. reflexivity.
Qed.

(** The loop writes one line for each of the [count] rows it visits. *)
Lemma predictRows_lines (model_predict : Features -> list Prediction.t)
    (labels : list (list Z)) (features : list Features) (count r : nat)
    (out : list Out) :
  predictRows model_predict labels features r count = Some out ->
  lines out = Z.of_nat count.
Proof.
  revert r out. induction count as [|c IH]; intros r out; cbn [predictRows].
  - intros H; inversion H; reflexivity.
  - destruct (features !! r) as [f|]; [|discriminate].
    destruct (labels !! r) as [l|]; [|discriminate].
    destruct (predictRows model_predict labels features (S r) c) as [o|] eqn:E;
      [|discriminate].
    intros H.
    assert (Hout : out = printRow (firstLabel l) (model_predict f) ++ o)
      by congruence.
    rewrite Hout, lines_app, lines_printRow, (IH _ _ E). lia.
Qed.

(** It reads outside of a dataset that has fewer rows than it visits. *)
Lemma predictRows_short (model_predict : Features -> list Prediction.t)
    (labels : list (list Z)) (features : list Features) (count r : nat) :
  (0 < count)%nat ->
  (length features < r + count)%nat ->
  predictRows model_predict labels features r count = None.
Proof.
  revert r. induction count as [|c IH]; intros r Hpos Hlen; [lia|].
  cbn [predictRows].
  destruct (features !! r) as [f|] eqn:Ef; [|reflexivity].
  destruct (labels !! r); [|reflexivity].
  apply lookup_lt_Some in Ef.
  rewrite IH; [reflexivity| lia | lia].
Qed.

(** It runs to the end on a dataset that has the rows it visits. *)
Lemma predictRows_enough (model_predict : Features -> list Prediction.t)
    (labels : list (list Z)) (features : list Features) (count r : nat) :
  (r + count <= length features)%nat ->
  length labels = length features ->
  exists out, predictRows model_predict labels features r count = Some out.
Proof.
  revert r. induction count as [|c IH]; intros r Hlen Hl; cbn [predictRows].
  - eexists; reflexivity.
  - destruct (lookup_lt_is_Some_2 features r) as [f Hf]; [lia|].
    destruct (lookup_lt_is_Some_2 labels r) as [l Hl']; [lia|].
    rewrite Hf, Hl'. destruct (IH (S r)) as [o Ho]; [lia|exact Hl|].
    rewrite Ho. eexists; reflexivity.
Qed.

Lemma predict_file (input : string)
    (model_predict : Features -> list Prediction.t)
    (labels : list (list Z)) (features : list Features) :
  input <> "-"%string ->
  predict input model_predict labels features
  = predictRows model_predict labels features 0 (Z.to_nat 5000).
Proof.
  intros Hin. unfold predict.
  destruct (String.eqb_spec input "-"); [contradiction|reflexivity].
Qed.

(** Whatever the dataset, an output of the command has 5000 lines, and a
    dataset of fewer rows is read out of range. *)
Lemma predict_lines (input : string)
    (model_predict : Features -> list Prediction.t)
    (labels : list (list Z)) (features : list Features) :
  input <> "-"%string ->
  (forall out, predict input model_predict labels features = Some out ->
   lines out = 5000)
  /\ (Z.of_nat (length features) < 5000 ->
      predict input model_predict labels features = None).
Proof.
  intros Hin. unfold predict.
  destruct (String.eqb_spec input "-"); [contradiction|]. split.
  - intros out H. rewrite (predictRows_lines _ _ _ _ _ _ H). apply Z2Nat.id. lia.
  - intros Hlen. apply predictRows_short; lia.
Qed.

(** C4, on the code.  For a dataset of 5001 rows the command writes 5000
    lines, not one line per row; for a dataset of one row it reads rows that
    the dataset does not have. *)
Theorem predict_writes_5000_lines :
  (exists out,
     predict "data.txt" oneLabelPredictor
       (repeat [0] rows5001) (repeat [(1, 1%Q)] rows5001) = Some out
     /\ lines out = 5000
     /\ lines out <> Z.of_nat (length (repeat [(1, 1%Q)] rows5001)))
  /\ predict "data.txt" oneLabelPredictor [[0]] [[(1, 1%Q)]] = None.
Proof.
  assert (Hrows : Z.of_nat rows5001 = 5001).
  { unfold rows5001. apply Z2Nat.id. lia. }
  split.
  - destruct (predictRows_enough oneLabelPredictor
                (repeat [0] rows5001) (repeat [(1, 1%Q)] rows5001)
                (Z.to_nat 5000) 0) as [out Hout].
    { rewrite repeat_length. lia. }
    { rewrite !repeat_length. reflexivity. }
    rewrite <- (predict_file "data.txt") in Hout by discriminate.
    exists out. split; [exact Hout|].
    assert (H : lines out = 5000).
    { eapply predict_lines; [|exact Hout]. discriminate. }
    split; [exact H|]. rewrite H, repeat_length, Hrows. discriminate.
  - eapply predict_lines; [discriminate | cbn [length]; lia].
Qed.

(** * Instances for [Base] *)

(** C9 at a problem of two rows, both labelled [1]. *)
Lemma train_degenerate_returns_early_witness :
  ProblemData.binLabels onesProblem <> []
  /\ exists s',
       train zeroFun1 zeroGrad zeroGrad zeroGrad idUpdate idUpdate paramsOk
         noModel zeroMem zeroMem onesProblem exampleArgs freshState = Ret tt s'
       /\ firstClass (this s') = 1 /\ classCount (this s') = 1
       /\ heap s' = heap freshState /\ events s' = events freshState.
Proof.
  split; [discriminate|].
  destruct (train_degenerate_returns_early zeroFun1 zeroGrad zeroGrad zeroGrad
              idUpdate idUpdate paramsOk noModel zeroMem zeroMem
              onesProblem exampleArgs freshState) as [_ H].
  destruct (H 1) as (s' & Hs' & Hfc & Hcc & _ & _ & Hh & He).
  - right. reflexivity.
  - discriminate.
  - repeat constructor.
  - reflexivity.
  - cbn. lia.
  - exists s'. repeat split; assumption.
Defined.

(** C2 as the specification states it fails on the empty dataset: the collapsed
    [Base] has [firstClass = 0], for which [predictValue] returns [-10]. *)
Lemma empty_dataset_counterexample :
  ~ (exists s',
       train zeroFun1 zeroGrad zeroGrad zeroGrad idUpdate idUpdate paramsOk
         noModel zeroMem zeroMem emptyProblem exampleArgs freshState = Ret tt s'
       /\ classCount (this s') = 0
       /\ forall features, exists v s'',
            predictValue features s' = Ret v s'' /\ (v == 10)%Q).
Proof.
  intros (s' & Ht & _ & Hp). cbn in Ht. inversion Ht; subst s'. clear Ht.
  destruct (Hp []) as (v & s'' & Hv & Heq). cbn in Hv.
  inversion Hv; subst v. revert Heq. unfold Qeq. cbn. discriminate.
Qed.

(** C2 as amended, at the same two problems. *)
Lemma degenerate_base_prediction_witness :
  Forall (fun l => (l == 1)%Q) (ProblemData.binLabels onesProblem)
  /\ exists s',
       train zeroFun1 zeroGrad zeroGrad zeroGrad idUpdate idUpdate paramsOk
         noModel zeroMem zeroMem onesProblem exampleArgs freshState = Ret tt s'
       /\ classCount (this s') = 1 /\ firstClass (this s') = 1
       /\ predictValue [(1, 1%Q)] s' = Ret (toDouble 10) s'.
Proof.
  assert (Hall : Forall (fun l => (l == 1)%Q) (ProblemData.binLabels onesProblem)).
  { repeat constructor. }
  split; [exact Hall|].
  destruct (degenerate_base_prediction zeroFun1 zeroGrad zeroGrad zeroGrad
              idUpdate idUpdate paramsOk noModel zeroMem zeroMem
              onesProblem exampleArgs freshState) as [_ H].
  destruct H as (s' & Hs' & Hcc & Hfc & Hp).
  - discriminate.
  - exact Hall.
  - reflexivity.
  - cbn. lia.
  - exists s'. repeat split; try assumption. apply Hp.
Defined.

(** C10 at a [Base] that has taken seven steps, with [tmax = 5]. *)
Definition stoppedArgs : Args.t :=
  Args.mk sgd pwLogistic L2R_LR 5 1 1%Q false false false 0%Q.

Definition sevenSteps : State :=
  mkState (mkBase logistic 2 1 3 7 (Some 0%nat) None)
    {[ 0%nat := Vector [0%Q; 1%Q] ]} [].

Lemma update_gradient_by_loss_witness :
  (Args.tmax stoppedArgs <> -1 /\ Args.tmax stoppedArgs < t (this sevenSteps))
  /\ update zeroGrad zeroGrad idUpdate idUpdate 1%Q [(1, 1%Q)] stoppedArgs
       sevenSteps = Ret tt sevenSteps.
Proof.
  assert (H : Args.tmax stoppedArgs <> -1
              /\ Args.tmax stoppedArgs < t (this sevenSteps)).
  { split; [discriminate|reflexivity]. }
  split; [exact H|].
  exact (proj1 (proj1 (update_gradient_by_loss zeroGrad zeroGrad idUpdate
                         idUpdate 1%Q [(1, 1%Q)] stoppedArgs sevenSteps) H)).
Defined.

(** ** An example of vector serialization *)

(** The stored entries of a vector are written after a tag for the
    representation, the size and the number of entries; a vector is read
    back in the representation it was written in. *)
Definition savePairs (s : list (Z * Q)) : list Var :=
  flat_map (fun iw => [VInt (fst iw); VWeight (snd iw)]) s.

Definition exampleSave (v : AbstractVector) : list Var :=
  match v with
  | Vector d =>
      VInt 0 :: VSize (Z.of_nat (length d)) :: List.map VWeight d
  | MapVector n m =>
      VInt 1 :: VSize n :: VSize (Z.of_nat (length (map_to_list m)))
      :: savePairs (map_to_list m)
  | SparseVector n s =>
      VInt 2 :: VSize n :: VSize (Z.of_nat (length s)) :: savePairs s
  end.

Fixpoint loadWeights (count : nat) (inp : list Var)
  : option (list Q * list Var) :=
  match count with
  | O => Some ([], inp)
  | S count' =>
      match inp with
      | VWeight q :: rest =>
          match loadWeights count' rest with
          | Some (d, rest') => Some (q :: d, rest')
          | None => None
          end
      | _ => None
      end
  end.

Fixpoint loadPairs (count : nat) (inp : list Var)
  : option (list (Z * Q) * list Var) :=
  match count with
  | O => Some ([], inp)
  | S count' =>
      match inp with
      | VInt i :: VWeight q :: rest =>
          match loadPairs count' rest with
          | Some (s, rest') => Some ((i, q) :: s, rest')
          | None => None
          end
      | _ => None
      end
  end.

Definition exampleLoad (target : AbstractVector) (inp : list Var)
  : option (AbstractVector * list Var) :=
  match inp with
  | VInt 0 :: VSize n :: rest =>
      match loadWeights (Z.to_nat n) rest with
      | Some (d, rest') => Some (Vector d, rest')
      | None => None
      end
  | VInt 1 :: VSize n :: VSize c :: rest =>
      match loadPairs (Z.to_nat c) rest with
      | Some (s, rest') => Some (MapVector n (list_to_map s), rest')
      | None => None
      end
  | VInt 2 :: VSize n :: VSize c :: rest =>
      match loadPairs (Z.to_nat c) rest with
      | Some (s, rest') => Some (SparseVector n s, rest')
      | None => None
      end
  | _ => None
  end.

Definition exampleSkip (target : AbstractVector) (inp : list Var)
  : option (list Var) :=
  snd <$> exampleLoad target inp.

Definition exampleMem (s n0 : Z) : Z := s.

Lemma loadWeights_save (d : list Q) (rest : list Var) :
  loadWeights (length d) (List.map VWeight d ++ rest) = Some (d, rest).
Proof.
  induction d as [|q d IH]; [reflexivity|]. cbn. rewrite IH. reflexivity.
Qed.

Lemma loadPairs_save (s : list (Z * Q)) (rest : list Var) :
  loadPairs (length s) (savePairs s ++ rest) = Some (s, rest).
Proof.
  induction s as [|[i q] s IH]; [reflexivity|]. cbn.
  unfold savePairs in IH. rewrite IH. reflexivity.
Qed.

Lemma exampleLoad_save (target v : AbstractVector) (rest : list Var) :
  exampleLoad target (exampleSave v ++ rest) = Some (v, rest).
Proof.
  destruct v as [d|n m|n s]; cbn [exampleSave app exampleLoad].
  - rewrite Nat2Z.id, loadWeights_save. reflexivity.
  - rewrite Nat2Z.id, loadPairs_save, list_to_map_to_list. reflexivity.
  - rewrite Nat2Z.id, loadPairs_save. reflexivity.
Qed.

(** A trained [Base] with gradients. *)
Definition trainedBase : State :=
  mkState (mkBase squaredHinge 2 1 3 7 (Some 0%nat) (Some 1%nat))
    {[ 0%nat := Vector [0%Q; 1%Q; (-2)%Q];
       1%nat := MapVector 3 {[ 1 := 4%Q ]} ]} [].

(** C8 at this [Base], saved with its gradients and loaded with them into
    a new [Base]. *)
Lemma save_load_roundtrip_witness :
  exists out s1,
    save exampleSave true trainedBase = Ret out trainedBase
    /\ load exampleLoad exampleSkip exampleMem exampleMem out true
         RepresentationType.map freshState = Ret [] s1
    /\ classCount (this s1) = 2 /\ firstClass (this s1) = 1
    /\ lossType (this s1) = squaredHinge
    /\ exists wv', deref (W (this s1)) s1 = Ret wv' s1
         /\ forall i, Vec.at_ wv' i = Vec.at_ (Vector [0%Q; 1%Q; (-2)%Q]) i.
Proof.
  assert (Hload : forall (r : RepresentationType.t) (v : AbstractVector)
                         (rest : list Var),
            exists v', exampleLoad (Vec.zeros r 0) (exampleSave v ++ rest)
                       = Some (v', rest)
              /\ forall i, Vec.at_ v' i = Vec.at_ v i).
  { intros r v rest. exists v. split; [apply exampleLoad_save|reflexivity]. }
  assert (Hskip : forall (r : RepresentationType.t) (v : AbstractVector)
                         (rest : list Var),
            exampleSkip (Vec.zeros r 0) (exampleSave v ++ rest) = Some rest).
  { intros r v rest. unfold exampleSkip. rewrite exampleLoad_save. reflexivity. }
  destruct (save exampleSave true trainedBase) as [out s| |] eqn:Hsave;
    [|exfalso; revert Hsave; vm_compute; discriminate
     |exfalso; revert Hsave; vm_compute; discriminate].
  assert (s = trainedBase) by (eapply save_state; exact Hsave). subst s.
  destruct (save_load_roundtrip exampleSave exampleLoad exampleSkip
              exampleMem exampleMem Hload Hskip
              trainedBase trainedBase freshState true true
              RepresentationType.map out [] Hsave)
    as (s1 & Hl & Hcc & Hfc & Hlt & HW & _).
  rewrite app_nil_r in Hl.
  exists out, s1. split; [reflexivity|]. split; [exact Hl|].
  split; [exact Hcc|]. split; [exact Hfc|]. split; [exact Hlt|].
  destruct HW as (wv & wv' & Hwv & Hwv' & Hat); [reflexivity|].
  exists wv'. split; [exact Hwv'|].
  assert (wv = Vector [0%Q; 1%Q; (-2)%Q]).
  { revert Hwv. vm_compute. intros H; inversion H; reflexivity. }
  subst wv. exact Hat.
Defined.

(** * Further properties of [Base] *)

(** ** The range of [predictProbability] *)

Section ProbabilityRange.

Variable exp : Q -> Q.

(** What is used of [std::exp]: it is never negative, and at most one on
    arguments that are not positive.  It may be zero, as [std::exp] is on
    a [double] when it underflows. *)
Hypothesis exp_nonnegative : forall x, (0 <= exp x)%Q.
Hypothesis exp_nonpositive : forall x, (x <= 0)%Q -> (exp x <= 1)%Q.



End ProbabilityRange.



(** ** Swapping the classes *)

Lemma assoc_invert (s : list (Z * Q)) (i : Z) :
  Vec.assoc (List.map (fun iw => (fst iw, Vec.opp (snd iw))) s) i
  = Vec.opp <$> Vec.assoc s i.
Proof.
  induction s as [|[j w] s IH]; [reflexivity|].
  cbn. destruct (i =? j); [reflexivity | exact IH].
Qed.

Lemma at_invert (v : AbstractVector) (i : Z) :
  Vec.at_ (Vec.invert v) i = Vec.opp (Vec.at_ v i).
Proof.
  destruct v as [d | n m | n s]; cbn.
  - destruct (i <? 0); [reflexivity|].
    change 0%Q with (Vec.opp 0%Q) at 1. apply map_nth.
  - rewrite lookup_fmap. destruct (m !! i); reflexivity.
  - rewrite assoc_invert. destruct (Vec.assoc s i); reflexivity.
Qed.

Lemma dot_invert_from (v : AbstractVector) (f : Features) (a b : Q) :
  (a == - b)%Q ->
  (fold_left (fun acc iv => acc + Vec.at_ (Vec.invert v) (fst iv) * snd iv) f a
   == - fold_left (fun acc iv => acc + Vec.at_ v (fst iv) * snd iv) f b)%Q.
Proof.
  revert a b. induction f as [|[i x] f IH]; intros a b Hab; [exact Hab|].
  cbn. apply IH. rewrite at_invert. unfold Vec.opp. rewrite Hab. ring.
Qed.

Lemma dot_invert (v : AbstractVector) (f : Features) :
  (Vec.dot (Vec.invert v) f == - Vec.dot v f)%Q.
Proof. apply dot_invert_from. reflexivity. Qed.

(** X2.  On a trained classifier, [setFirstClass] with another class
    negates [W] (and [G]) in place and records the class.  The value
    predicted afterwards is the one predicted before when exactly one of the
    two classes is class [0], and its negation otherwise. *)
Theorem setFirstClass_prediction
    (first : Z) (features : Features) (s : State) (lw : loc)
    (wv : AbstractVector) :
  W (this s) = Some lw -> heap s !! lw = Some wv ->
  (forall lg, G (this s) = Some lg -> lg <> lw /\ is_Some (heap s !! lg)) ->
  2 <= classCount (this s) ->
  firstClass (this s) <> first ->
  exists s' v v',
    setFirstClass first s = Ret tt s'
    /\ this s' = set_firstClass first (this s)
    /\ heap s' !! lw = Some (Vec.invert wv)
    /\ (forall lg gv, G (this s) = Some lg -> heap s !! lg = Some gv ->
          heap s' !! lg = Some (Vec.invert gv))
    /\ predictValue features s = Ret v s
    /\ predictValue features s' = Ret v' s'
    /\ (v' == if Bool.eqb (firstClass (this s) =? 0) (first =? 0)
              then - v else v)%Q.
Proof.
  intros HW Hw HG Hcc Hne. destruct s as [b h e].
  cbn [this heap events] in *.
  assert (Hcc2 : (classCount b <? 2) = false) by (apply Z.ltb_ge; lia).
  assert (Hpv : predictValue features (mkState b h e)
                = Ret (if firstClass b =? 0 then Vec.dot wv features * -1
                       else Vec.dot wv features)%Q (mkState b h e)).
  { unfold predictValue, bind, getThis, deref, ret. cbn [this heap].
    rewrite Hcc2, HW. cbv beta iota. cbn [this heap events]. rewrite Hw.
    reflexivity. }
  assert (Hinv : forall h',
            h' !! lw = Some (Vec.invert wv) ->
            predictValue features
              (mkState (set_firstClass first b) h' e)
            = Ret (if first =? 0 then Vec.dot (Vec.invert wv) features * -1
                   else Vec.dot (Vec.invert wv) features)%Q
                (mkState (set_firstClass first b) h' e)).
  { intros h' Hh'.
    unfold predictValue, bind, getThis, deref, ret.
    cbn [this heap set_firstClass classCount firstClass W].
    rewrite Hcc2, HW. cbv beta iota. cbn [this heap events]. rewrite Hh'.
    reflexivity. }
  assert (Hval :
    ((if first =? 0 then Vec.dot (Vec.invert wv) features * -1
      else Vec.dot (Vec.invert wv) features)
     == if Bool.eqb (firstClass b =? 0) (first =? 0)
        then - (if firstClass b =? 0 then Vec.dot wv features * -1
                else Vec.dot wv features)
        else (if firstClass b =? 0 then Vec.dot wv features * -1
              else Vec.dot wv features))%Q).
  { pose proof (dot_invert wv features) as Hd.
    destruct (first =? 0), (firstClass b =? 0); cbn [Bool.eqb];
      rewrite Hd; ring. }
  cbv beta iota delta
    [setFirstClass bind getThis invertAt deref assign setThis ret
     this heap events].
  replace (negb (firstClass b =? first)) with true
    by (symmetry; apply negb_true_iff, Z.eqb_neq; exact Hne).
  rewrite HW. cbv beta iota delta [this heap events]. rewrite Hw.
  cbv beta iota delta [this heap events]. rewrite Hw.
  cbv beta iota delta [this heap events].
  destruct (G b) as [lg|] eqn:EG.
  - destruct (HG lg eq_refl) as [Hlg [gv Hgv]].
    rewrite bool_decide_eq_true_2 by discriminate.
    cbn [this heap events].
    rewrite lookup_insert_ne by congruence. rewrite Hgv.
    cbn [this heap events].
    rewrite lookup_insert_ne by congruence. rewrite Hgv.
    eexists _, _, _. split; [reflexivity|].
    cbn [this heap events].
    assert (Hlw' : <[lg := Vec.invert gv]> (<[lw := Vec.invert wv]> h) !! lw
                   = Some (Vec.invert wv)).
    { rewrite lookup_insert_ne by congruence. apply lookup_insert_eq. }
    split; [reflexivity|]. split; [exact Hlw'|]. split.
    { intros lg' gv' E Hg'. inversion E; subst lg'.
      rewrite Hgv in Hg'. inversion Hg'; subst gv'. apply lookup_insert_eq. }
    split; [exact Hpv|]. split; [|exact Hval].
    apply Hinv. exact Hlw'.
  - rewrite bool_decide_eq_false_2 by (intros H; apply H; reflexivity).
    eexists _, _, _. split; [reflexivity|].
    cbn [this heap events].
    split; [reflexivity|]. split; [apply lookup_insert_eq|]. split.
    { intros lg' gv' E. discriminate. }
    split; [exact Hpv|]. split; [|exact Hval].
    apply Hinv. apply lookup_insert_eq.
Qed.

Lemma setFirstClass_prediction_witness :
  exists s' v v',
    setFirstClass 0 denseBase = Ret tt s'
    /\ this s' = set_firstClass 0 (this denseBase)
    /\ heap s' !! 0%nat = Some (Vec.invert (Vector [1%Q; 2%Q]))
    /\ predictValue [(1, 1%Q)] denseBase = Ret v denseBase
    /\ predictValue [(1, 1%Q)] s' = Ret v' s'
    /\ (v' == v)%Q.
Proof.
  destruct (setFirstClass_prediction 0 [(1, 1%Q)] denseBase 0%nat
              (Vector [1%Q; 2%Q]))
    as (s' & v & v' & H1 & H2 & H3 & _ & H5 & H6 & H7).
  - reflexivity.
  - reflexivity.
  - intros lg H. discriminate H.
  - cbn. lia.
  - cbn. lia.
  - exists s', v, v'. repeat (split; [assumption|]). exact H7.
Defined.

Section CollapsedBase.

Variable ln : Q -> Q.
Variable logisticGrad squaredHingeGrad pwLogisticGrad : Q -> Q -> Q -> Q.
Variable updateSGD updateAdaGrad :
  AbstractVector -> option AbstractVector -> Features -> Q -> Z -> Args.t ->
  AbstractVector * option AbstractVector.
Variable check_parameter : ProblemData.t -> Args.t -> Q -> option string.
Variable train_liblinear : ProblemData.t -> Args.t -> Q -> model.
Variable sparseMem denseMem : AbstractVector -> Z.

Local Abbreviation train_ :=
  (train ln logisticGrad squaredHingeGrad pwLogisticGrad updateSGD
     updateAdaGrad check_parameter train_liblinear sparseMem denseMem).

(** X3.  A [Base] without weights that [train] has collapsed to the single
    class [c] of its examples keeps [W] null, so [setFirstClass] on it is
    harmless only for the class it already has: for any other class the
    null [W] is dereferenced. *)
Theorem setFirstClass_after_collapse
    (pd : ProblemData.t) (args : Args.t) (s : State) (c first : Z) :
  c = 0 \/ c = 1 ->
  ProblemData.binLabels pd <> [] ->
  Forall (fun l => (l == toDouble c)%Q) (ProblemData.binLabels pd) ->
  length (ProblemData.binFeatures pd) = length (ProblemData.binLabels pd) ->
  (length (ProblemData.binLabels pd)
   <= length (ProblemData.instancesWeights pd))%nat ->
  W (this s) = None ->
  bind (train_ pd args) (fun _ => setFirstClass first) s
  = if Z.eqb first c then Ret tt (collapsed c 1 s) else Undefined.
Proof.
  intros Hc Hne Hall Hlen Hw HW.
  unfold bind at 1.
  rewrite (train_single_class ln logisticGrad squaredHingeGrad pwLogisticGrad
             updateSGD updateAdaGrad check_parameter train_liblinear sparseMem denseMem
             pd args s c Hc Hne Hall Hlen Hw).
  cbv beta iota delta
    [setFirstClass bind getThis invertAt deref assign setThis ret collapsed].
  cbn [this heap events set_classCount set_firstClass firstClass W].
  rewrite (Z.eqb_sym c first).
  destruct (first =? c); cbn [negb]; [reflexivity|].
  rewrite HW. reflexivity.
Qed.

End CollapsedBase.

Lemma setFirstClass_after_collapse_witness :
  bind (train zeroFun1 zeroGrad zeroGrad zeroGrad idUpdate idUpdate paramsOk
          noModel zeroMem zeroMem onesProblem exampleArgs)
    (fun _ => setFirstClass 0) freshState = Undefined.
Proof.
  apply (setFirstClass_after_collapse zeroFun1 zeroGrad zeroGrad zeroGrad
           idUpdate idUpdate paramsOk noModel zeroMem zeroMem onesProblem exampleArgs
           freshState 1 0).
  - right. reflexivity.
  - discriminate.
  - repeat constructor.
  - reflexivity.
  - cbn. lia.
  - reflexivity.
Defined.

(** ** Copies *)

(** The state in which a method runs on the object [c] instead. *)
Definition onObject (c : Base) (s : State) : State :=
  mkState c (heap s) (events s).

Lemma fresh_unused (h : gmap loc AbstractVector) : h !! fresh (dom h) = None.
Proof. apply not_elem_of_dom. apply is_fresh. Qed.

Lemma predictValue_same_weights
    (features : Features) (b c : Base) (h h' : gmap loc AbstractVector)
    (e e' : list Event) (v : Q) :
  classCount c = classCount b -> firstClass c = firstClass b ->
  (2 <= classCount b ->
   exists lw lw' wv, W b = Some lw /\ W c = Some lw'
     /\ h !! lw = Some wv /\ h' !! lw' = Some wv) ->
  predictValue features (mkState b h e) = Ret v (mkState b h e) ->
  predictValue features (mkState c h' e') = Ret v (mkState c h' e').
Proof.
  intros Hcc Hfc Hw.
  unfold predictValue, bind, getThis, deref, ret. cbn [this heap events].
  rewrite Hcc, Hfc.
  destruct (Z.ltb_spec (classCount b) 2) as [Hlt | Hge].
  - intros H. inversion H. reflexivity.
  - destruct (Hw Hge) as (lw & lw' & wv & HWb & HWc & Hh & Hh').
    rewrite HWb, HWc. cbv beta iota. cbn [this heap events].
    rewrite Hh, Hh'. intros H. inversion H. reflexivity.
Qed.

Lemma predictValue_weights (features : Features) (s : State) (v : Q) :
  predictValue features s = Ret v s -> 2 <= classCount (this s) ->
  exists lw wv, W (this s) = Some lw /\ heap s !! lw = Some wv.
Proof.
  unfold predictValue, bind, getThis, deref, ret. intros Hv Hcc.
  replace (classCount (this s) <? 2) with false in Hv
    by (symmetry; apply Z.ltb_ge; lia).
  destruct (W (this s)) as [lw|]; [|discriminate].
  destruct (heap s !! lw) as [wv|] eqn:E; [|discriminate].
  exists lw, wv. split; [reflexivity | exact E].
Qed.

(** What [copy] returns and what it leaves in the heap. *)
Lemma copy_returns (s : State) :
  (forall l, W (this s) = Some l -> is_Some (heap s !! l)) ->
  (forall l, G (this s) = Some l -> is_Some (heap s !! l)) ->
  exists c s',
    copy s = Ret c s'
    /\ this s' = this s /\ events s' = events s
    /\ (forall l v, heap s !! l = Some v -> heap s' !! l = Some v)
    /\ (forall lw wv, W (this s) = Some lw -> heap s !! lw = Some wv ->
          exists lw', W c = Some lw' /\ heap s !! lw' = None
                      /\ heap s' !! lw' = Some wv)
    /\ (forall lg gv, G (this s) = Some lg -> heap s !! lg = Some gv ->
          exists lg', G c = Some lg' /\ heap s !! lg' = None
                      /\ heap s' !! lg' = Some gv /\ W c <> Some lg')
    /\ (W (this s) = None -> W c = None)
    /\ (G (this s) = None -> G c = None)
    /\ firstClass c = firstClass (this s)
    /\ classCount c = classCount (this s)
    /\ lossType c = lossType (this s)
    /\ t c = 0 /\ firstClassCount c = 0.
Proof.
  intros HW HG. destruct s as [b h e]. cbn [this heap events] in *.
  unfold copy, copyAt, bind, getThis, deref, new, ret.
  cbv beta iota zeta. cbn [this heap events].
  destruct (W b) as [lw|] eqn:EW; destruct (G b) as [lg|] eqn:EG;
    rewrite ?(bool_decide_eq_true_2 (Some lw <> None)) by discriminate;
    rewrite ?(bool_decide_eq_true_2 (Some lg <> None)) by discriminate;
    rewrite ?(bool_decide_eq_false_2 (@None loc <> None))
      by (intros H; apply H; reflexivity);
    cbv beta iota; cbn [this heap events].
  - destruct (HW lw eq_refl) as [wv Hwv]. destruct (HG lg eq_refl) as [gv Hgv].
    rewrite Hwv. cbv beta iota. cbn [this heap events].
    set (lw' := fresh (dom h)). set (h1 := <[lw' := wv]> h).
    assert (Hlw' : h !! lw' = None) by apply fresh_unused.
    assert (Hg1 : h1 !! lg = Some gv).
    { unfold h1. rewrite lookup_insert_ne by congruence. exact Hgv. }
    rewrite Hg1. cbv beta iota. cbn [this heap events].
    set (lg' := fresh (dom h1)).
    assert (Hlg' : h1 !! lg' = None) by apply fresh_unused.
    assert (Hne : lg' <> lw').
    { intros E. rewrite E in Hlg'. unfold h1 in Hlg'.
      rewrite lookup_insert_eq in Hlg'. discriminate. }
    assert (Hlg0 : h !! lg' = None).
    { unfold h1 in Hlg'. rewrite lookup_insert_ne in Hlg' by congruence.
      exact Hlg'. }
    eexists _, _. split; [reflexivity|].
    cbn [this heap events set_lossType set_classCount set_firstClass set_G
         set_W Base_new lossType classCount firstClass firstClassCount t W G].
    assert (Hkeep : forall l v, h !! l = Some v ->
              <[lg' := gv]> h1 !! l = Some v).
    { intros l v Hl. rewrite lookup_insert_ne by congruence.
      unfold h1. rewrite lookup_insert_ne by congruence. exact Hl. }
    assert (Hw2 : <[lg' := gv]> h1 !! lw' = Some wv).
    { rewrite lookup_insert_ne by congruence. apply lookup_insert_eq. }
    split; [reflexivity|]. split; [reflexivity|]. split; [exact Hkeep|].
    split.
    { intros lw0 wv0 E Hl. inversion E; subst lw0.
      rewrite Hwv in Hl. inversion Hl; subst wv0.
      exists lw'. split; [reflexivity|]. split; [exact Hlw' | exact Hw2]. }
    split.
    { intros lg0 gv0 E Hl. inversion E; subst lg0.
      rewrite Hgv in Hl. inversion Hl; subst gv0.
      exists lg'. split; [reflexivity|]. split; [exact Hlg0|].
      split; [apply lookup_insert_eq | congruence]. }
    split; [discriminate|]. split; [discriminate|].
    repeat (split; [reflexivity|]). reflexivity.
  - destruct (HW lw eq_refl) as [wv Hwv].
    rewrite Hwv. cbv beta iota. cbn [this heap events].
    set (lw' := fresh (dom h)).
    assert (Hlw' : h !! lw' = None) by apply fresh_unused.
    eexists _, _. split; [reflexivity|].
    cbn [this heap events set_lossType set_classCount set_firstClass set_G
         set_W Base_new lossType classCount firstClass firstClassCount t W G].
    assert (Hkeep : forall l v, h !! l = Some v ->
              <[lw' := wv]> h !! l = Some v).
    { intros l v Hl. rewrite lookup_insert_ne by congruence. exact Hl. }
    split; [reflexivity|]. split; [reflexivity|]. split; [exact Hkeep|].
    split.
    { intros lw0 wv0 E Hl. inversion E; subst lw0.
      rewrite Hwv in Hl. inversion Hl; subst wv0.
      exists lw'. split; [reflexivity|]. split; [exact Hlw'|].
      apply lookup_insert_eq. }
    split; [discriminate|]. split; [discriminate|].
    repeat (split; [reflexivity|]). reflexivity.
  - destruct (HG lg eq_refl) as [gv Hgv].
    rewrite Hgv. cbv beta iota. cbn [this heap events].
    set (lg' := fresh (dom h)).
    assert (Hlg' : h !! lg' = None) by apply fresh_unused.
    eexists _, _. split; [reflexivity|].
    cbn [this heap events set_lossType set_classCount set_firstClass set_G
         set_W Base_new lossType classCount firstClass firstClassCount t W G].
    assert (Hkeep : forall l v, h !! l = Some v ->
              <[lg' := gv]> h !! l = Some v).
    { intros l v Hl. rewrite lookup_insert_ne by congruence. exact Hl. }
    split; [reflexivity|]. split; [reflexivity|]. split; [exact Hkeep|].
    split; [discriminate|].
    split.
    { intros lg0 gv0 E Hl. inversion E; subst lg0.
      rewrite Hgv in Hl. inversion Hl; subst gv0.
      exists lg'. split; [reflexivity|]. split; [exact Hlg'|].
      split; [apply lookup_insert_eq | discriminate]. }
    split; [reflexivity|]. split; [discriminate|].
    repeat (split; [reflexivity|]). reflexivity.
  - eexists _, _. split; [reflexivity|].
    cbn [this heap events set_lossType set_classCount set_firstClass set_G
         set_W Base_new lossType classCount firstClass firstClassCount t W G].
    split; [reflexivity|]. split; [reflexivity|].
    split; [intros l v Hl; exact Hl|].
    split; [discriminate|]. split; [discriminate|].
    repeat (split; [reflexivity|]). reflexivity.
Qed.

(** X4.  [copy] is a deep copy: the new object has the class, the class
    count and the loss of the original and its own vectors, held in cells
    that were free before and filled with the weights of the original; the
    original and its vectors are untouched, and the copy predicts the same
    value.  The counters [t] and [firstClassCount] are not copied: they are
    zero in the copy. *)
Theorem copy_is_deep (s : State) :
  (forall l, W (this s) = Some l -> is_Some (heap s !! l)) ->
  (forall l, G (this s) = Some l -> is_Some (heap s !! l)) ->
  exists c s',
    copy s = Ret c s'
    /\ this s' = this s /\ events s' = events s
    /\ (forall l v, heap s !! l = Some v -> heap s' !! l = Some v)
    /\ (forall lw wv, W (this s) = Some lw -> heap s !! lw = Some wv ->
          exists lw', W c = Some lw' /\ heap s !! lw' = None
                      /\ heap s' !! lw' = Some wv)
    /\ (forall lg gv, G (this s) = Some lg -> heap s !! lg = Some gv ->
          exists lg', G c = Some lg' /\ heap s !! lg' = None
                      /\ heap s' !! lg' = Some gv /\ W c <> Some lg')
    /\ (W (this s) = None -> W c = None)
    /\ (G (this s) = None -> G c = None)
    /\ firstClass c = firstClass (this s)
    /\ classCount c = classCount (this s)
    /\ lossType c = lossType (this s)
    /\ t c = 0 /\ firstClassCount c = 0
    /\ (forall features v,
          predictValue features s = Ret v s ->
          predictValue features (onObject c s') = Ret v (onObject c s')).
Proof.
  intros HW HG.
  destruct (copy_returns s HW HG)
    as (c & s' & Hc & Hthis & Hev & Hkeep & HcW & HcG & HnW & HnG
        & Hfc & Hcc & Hlt & Ht & Hfcc).
  exists c, s'. do 13 (split; [assumption|]).
  intros features v Hv. destruct s as [b h e]. destruct s' as [b' h' e'].
  unfold onObject. cbn [this heap events] in *.
  apply (predictValue_same_weights features b c h h' e e' v);
    [exact Hcc | exact Hfc | | exact Hv].
  intros H2. destruct (predictValue_weights _ _ _ Hv H2) as (lw & wv & E1 & E2).
  cbn [this heap] in E1, E2.
  destruct (HcW lw wv E1 E2) as (lw' & E3 & _ & E4).
  exists lw, lw', wv. repeat split; assumption.
Qed.

Lemma copy_is_deep_witness :
  exists c s',
    copy trainedBase = Ret c s'
    /\ this s' = this trainedBase
    /\ classCount c = 2 /\ t c = 0 /\ firstClassCount c = 0
    /\ predictValue [(1, 1%Q)] (onObject c s') = Ret 1%Q (onObject c s').
Proof.
  destruct (copy_is_deep trainedBase)
    as (c & s' & H1 & H2 & _ & _ & _ & _ & _ & _ & _ & H10 & _ & H12 & H13
        & H14).
  - intros l H. inversion H. subst l. eexists. reflexivity.
  - intros l H. inversion H. subst l. eexists. reflexivity.
  - exists c, s'. repeat (split; [assumption|]). apply H14. reflexivity.
Defined.

Lemma predictValue_trained (features : Features) (b : Base)
    (h : gmap loc AbstractVector) (e : list Event) (lw : loc)
    (wv : AbstractVector) :
  2 <= classCount b -> W b = Some lw -> h !! lw = Some wv ->
  predictValue features (mkState b h e)
  = Ret (if firstClass b =? 0 then Vec.dot wv features * -1
         else Vec.dot wv features)%Q (mkState b h e).
Proof.
  intros Hcc HW Hw. unfold predictValue, bind, getThis, deref, ret.
  cbn [this heap events].
  replace (classCount b <? 2) with false by (symmetry; apply Z.ltb_ge; lia).
  rewrite HW. cbv beta iota. cbn [this heap events]. rewrite Hw. reflexivity.
Qed.

(** X5.  [copyInverted] gives a copy whose [W] holds the negated weights
    while the original keeps its own, so that a trained copy predicts the
    negated value; the class of the copy is the class of the original.  On
    an object without weights - what [train] leaves when it collapses - the
    null [W] of the copy is dereferenced. *)
Theorem copyInverted_negates (s : State) :
  (forall l, G (this s) = Some l -> is_Some (heap s !! l)) ->
  (W (this s) = None -> copyInverted s = Undefined)
  /\ (forall lw wv,
        W (this s) = Some lw -> heap s !! lw = Some wv ->
        exists c s' lw',
          copyInverted s = Ret c s'
          /\ this s' = this s
          /\ heap s' !! lw = Some wv
          /\ W c = Some lw' /\ heap s' !! lw' = Some (Vec.invert wv)
          /\ firstClass c = firstClass (this s)
          /\ classCount c = classCount (this s)
          /\ (2 <= classCount (this s) ->
              forall features v,
                predictValue features s = Ret v s ->
                exists v',
                  predictValue features (onObject c s')
                  = Ret v' (onObject c s')
                  /\ (v' == - v)%Q)).
Proof.
  intros HG. split.
  - intros HW.
    destruct (copy_returns s) as (c & s' & Hc & _ & _ & _ & _ & _ & HnW & _).
    { intros l E. rewrite HW in E. discriminate. }
    { exact HG. }
    unfold copyInverted, bind at 1. rewrite Hc.
    unfold invertAt, bind, deref. rewrite (HnW HW). reflexivity.
  - intros lw wv HW Hwv.
    destruct (copy_returns s)
      as (c & s' & Hc & Hthis & Hev & Hkeep & HcW & HcG & _ & HnG
          & Hfc & Hcc & _).
    { intros l E. rewrite HW in E. inversion E; subst l. eauto. }
    { exact HG. }
    destruct (HcW lw wv HW Hwv) as (lw' & EW & Hfree & Hcopy).
    assert (Hlw : lw' <> lw) by congruence.
    unfold copyInverted, bind at 1. rewrite Hc.
    destruct s' as [b' h' e']. cbn [this heap events] in *.
    unfold invertAt, bind, deref, assign, ret.
    rewrite EW. cbv beta iota. cbn [this heap events].
    rewrite Hcopy. cbv beta iota. cbn [this heap events]. rewrite Hcopy.
    cbv beta iota. cbn [this heap events].
    assert (Hpred : forall hx ex,
              hx !! lw' = Some (Vec.invert wv) ->
              2 <= classCount (this s) ->
              forall features v,
                predictValue features s = Ret v s ->
                exists v',
                  predictValue features (onObject c (mkState b' hx ex))
                  = Ret v' (onObject c (mkState b' hx ex))
                  /\ (v' == - v)%Q).
    { intros hx ex Hx H2 features v. unfold onObject. cbn [heap events].
      rewrite (predictValue_trained features c hx ex lw' (Vec.invert wv))
        by (try exact EW; try exact Hx; lia).
      destruct s as [b h e]. cbn [this heap events] in *.
      rewrite (predictValue_trained features b h e lw wv H2 HW Hwv).
      intros H. inversion H. eexists. split; [reflexivity|].
      rewrite Hfc. pose proof (dot_invert wv features) as Hd.
      destruct (firstClass b =? 0); rewrite Hd; ring. }
    destruct (G (this s)) as [lg|] eqn:EG.
    + destruct (HG lg eq_refl) as [gv Hgv].
      destruct (HcG lg gv eq_refl Hgv) as (lg' & EG' & Hgfree & Hgcopy & Hne).
      rewrite EG'. rewrite bool_decide_eq_true_2 by discriminate.
      assert (Hlg : lg' <> lw') by congruence.
      assert (Hlg2 : lg' <> lw) by congruence.
      cbv beta iota. cbn [this heap events].
      rewrite lookup_insert_ne by congruence. rewrite Hgcopy.
      cbv beta iota. cbn [this heap events].
      rewrite lookup_insert_ne by congruence. rewrite Hgcopy.
      eexists c, _, lw'. split; [reflexivity|]. cbn [this heap events].
      assert (Hx : <[lg' := Vec.invert gv]> (<[lw' := Vec.invert wv]> h') !! lw'
                   = Some (Vec.invert wv)).
      { rewrite lookup_insert_ne by congruence. apply lookup_insert_eq. }
      split; [exact Hthis|]. split.
      { rewrite !lookup_insert_ne by congruence. apply Hkeep. exact Hwv. }
      split; [exact EW|]. split; [exact Hx|].
      split; [exact Hfc|]. split; [exact Hcc|].
      apply Hpred. exact Hx.
    + rewrite (HnG eq_refl).
      rewrite bool_decide_eq_false_2 by (intros H; apply H; reflexivity).
      eexists c, _, lw'. split; [reflexivity|]. cbn [this heap events].
      split; [exact Hthis|]. split.
      { rewrite lookup_insert_ne by congruence. apply Hkeep. exact Hwv. }
      split; [exact EW|]. split; [apply lookup_insert_eq|].
      split; [exact Hfc|]. split; [exact Hcc|].
      apply Hpred. apply lookup_insert_eq.
Qed.

Lemma copyInverted_negates_witness :
  copyInverted freshState = Undefined
  /\ exists c s' v',
       copyInverted trainedBase = Ret c s'
       /\ predictValue [(1, 1%Q)] trainedBase = Ret 1%Q trainedBase
       /\ predictValue [(1, 1%Q)] (onObject c s') = Ret v' (onObject c s')
       /\ (v' == - 1)%Q.
Proof.
  split.
  - apply (copyInverted_negates freshState).
    + intros l H. discriminate H.
    + reflexivity.
  - destruct (copyInverted_negates trainedBase) as [_ H].
    + intros l H. inversion H. subst l. eexists. reflexivity.
    + destruct (H 0%nat (Vector [0%Q; 1%Q; (-2)%Q]) eq_refl eq_refl)
        as (c & s' & lw' & H1 & _ & _ & _ & _ & _ & _ & H8).
      destruct (H8 ltac:(cbn; lia) [(1, 1%Q)] 1%Q eq_refl) as (v' & H9 & H10).
      exists c, s', v'. repeat (split; [assumption || reflexivity|]).
      exact H10.
Defined.

(** ** Clean-up *)

(** One step of a method: the fields of the records are projected. *)
Ltac run_base :=
  cbv beta iota;
  cbn [this heap events set_classCount set_firstClass set_firstClassCount
       set_t set_W set_G set_lossType lossType classCount firstClass
       firstClassCount t W G].

(** The heap after [delete p]. *)
Definition freed (p : option loc) (h : gmap loc AbstractVector)
  : gmap loc AbstractVector :=
  match p with
  | Some l => delete l h
  | None => h
  end.

(** X6.  On an object whose [W] and [G] are null or live and distinct,
    [clear] frees both vectors, nulls both pointers and zeroes the class,
    the class count and the counters, but keeps [lossType]; nothing else in
    the heap changes, and a second [clear] - the destructor's - changes
    nothing. *)
Theorem clear_resets (s : State) :
  (forall l, W (this s) = Some l -> is_Some (heap s !! l)) ->
  (forall l, G (this s) = Some l ->
     is_Some (heap s !! l) /\ W (this s) <> Some l) ->
  let s' := mkState (set_lossType (lossType (this s)) Base_new)
              (freed (G (this s)) (freed (W (this s)) (heap s)))
              (events s) in
  clear s = Ret tt s' /\ clear s' = Ret tt s'.
Proof.
  intros HW HG. destruct s as [b h e]. cbn [this heap events] in *.
  split; [|reflexivity].
  unfold clear, bind, setThis, getThis, delete_, ret. run_base.
  destruct (W b) as [lw|] eqn:EW; destruct (G b) as [lg|] eqn:EG;
    cbn [freed].
  - destruct (HW lw eq_refl) as [wv Hwv].
    destruct (HG lg eq_refl) as [[gv Hgv] Hne].
    rewrite Hwv. run_base. rewrite EG.
    rewrite lookup_delete_ne by congruence. rewrite Hgv. reflexivity.
  - destruct (HW lw eq_refl) as [wv Hwv].
    rewrite Hwv. run_base. rewrite EG. reflexivity.
  - destruct (HG lg eq_refl) as [[gv Hgv] Hne].
    run_base. rewrite EG, Hgv. reflexivity.
  - run_base. rewrite EG. reflexivity.
Qed.

Lemma clear_resets_witness :
  clear trainedBase
  = Ret tt (mkState (mkBase squaredHinge 0 0 0 0 None None) ∅ []).
Proof.
  destruct (clear_resets trainedBase) as [H _].
  - intros l E. inversion E. subst l. eexists. reflexivity.
  - intros l E. inversion E. subst l. split; [eexists; reflexivity|].
    discriminate.
  - rewrite H. f_equal.
Defined.

Section SkippedGradients.

Variable vsave : AbstractVector -> list Var.
Variable vload : AbstractVector -> list Var -> option (AbstractVector * list Var).
Variable vskip : AbstractVector -> list Var -> option (list Var).
Variable denseEstimateMem mapEstimateMem : Z -> Z -> Z.

Hypothesis vload_vsave :
  forall (r : RepresentationType.t) (v : AbstractVector) (rest : list Var),
    exists v', vload (Vec.zeros r 0) (vsave v ++ rest) = Some (v', rest)
      /\ forall i, Vec.at_ v' i = Vec.at_ v i.
Hypothesis vskip_vsave :
  forall (r : RepresentationType.t) (v : AbstractVector) (rest : list Var),
    vskip (Vec.zeros r 0) (vsave v ++ rest) = Some rest.

Local Abbreviation load_ := (load vload vskip denseEstimateMem mapEstimateMem).

(** Loading a stream with gradients while asking for none: [G] is
    allocated, skipped over and deleted, and the field keeps the pointer. *)
Lemma load_skipped (cc fc : Z) (lt : LossType) (sz n0 : Z)
    (wv gv : AbstractVector) (rest : list Var)
    (loadAs : RepresentationType.t) (s0 : State) :
  1 < cc ->
  exists s1 lW lG wv',
    load_ (VInt cc :: VInt fc :: VLoss lt :: VSize sz :: VSize n0
             :: vsave wv ++ VBool true :: vsave gv ++ rest)
      false loadAs s0 = Ret rest s1
    /\ classCount (this s1) = cc
    /\ W (this s1) = Some lW /\ heap s1 !! lW = Some wv'
    /\ G (this s1) = Some lG /\ heap s1 !! lG = None
    /\ heap s0 !! lG = None.
Proof.
  intros Hc. destruct s0 as [b0 h0 e0].
  set (rep := loadRepresentation denseEstimateMem mapEstimateMem sz n0 loadAs).
  set (lW := fresh (dom h0)).
  set (h1 := <[lW := Vec.zeros rep 0]> h0).
  set (lG := fresh (dom h1)).
  set (h2 := <[lG := Vec.zeros rep 0]> h1).
  assert (HlG1 : h1 !! lG = None) by apply fresh_unused.
  assert (HlG : lG <> lW).
  { intros E. rewrite E in HlG1. unfold h1 in HlG1.
    rewrite lookup_insert_eq in HlG1. discriminate. }
  assert (HlG0 : h0 !! lG = None).
  { unfold h1 in HlG1. rewrite lookup_insert_ne in HlG1 by congruence.
    exact HlG1. }
  assert (HW2 : h2 !! lW = Some (Vec.zeros rep 0)).
  { unfold h2. rewrite lookup_insert_ne by exact HlG.
    unfold h1. apply lookup_insert_eq. }
  destruct (vload_vsave rep wv (VBool true :: vsave gv ++ rest))
    as (wv' & Hload & Hat).
  cbv beta iota zeta delta
    [load bind loadInt loadLoss loadSize loadBool setThis getThis ret new
     loadInto deref assign delete_ undefined
     fst snd this heap events classCount set_classCount set_firstClass
     set_lossType set_W set_G lossType firstClass firstClassCount t W G].
  replace (1 <? cc) with true by (symmetry; apply Z.ltb_lt; exact Hc).
  fold rep. fold lW. fold h1. fold lG. fold h2.
  rewrite HW2. rewrite Hload.
  cbv beta iota. rewrite HW2.
  assert (HG3 : (<[lW := wv']> h2) !! lG = Some (Vec.zeros rep 0)).
  { rewrite lookup_insert_ne by congruence. unfold h2. apply lookup_insert_eq. }
  cbv beta iota. rewrite HG3. rewrite (vskip_vsave rep gv rest).
  cbv beta iota. rewrite HG3.
  eexists _, lW, lG, wv'. split; [reflexivity|].
  cbn [this heap classCount firstClass lossType W G].
  split; [reflexivity|]. split; [reflexivity|]. split.
  { rewrite lookup_delete_ne by exact HlG. apply lookup_insert_eq. }
  split; [reflexivity|]. split; [apply lookup_delete_eq | exact HlG0].
Qed.

(** X7.  When a classifier saved with its gradients is loaded with
    [loadGrads = false], [load] deletes the vector it made for [G] but
    leaves the pointer in the field.  The loaded object predicts as usual,
    but its [G] dangles: [clear], which the destructor runs, deletes it a
    second time, and saving it with gradients reads it after the free. *)
Theorem load_without_gradients_dangles
    (s s0 : State) (loadAs : RepresentationType.t) (out rest : list Var) :
  1 < classCount (this s) ->
  G (this s) <> None ->
  save vsave true s = Ret out s ->
  exists s1 lG,
    load_ (out ++ rest) false loadAs s0 = Ret rest s1
    /\ G (this s1) = Some lG /\ heap s1 !! lG = None
    /\ clear s1 = Undefined
    /\ save vsave true s1 = Undefined
    /\ exists out', save vsave false s1 = Ret out' s1.
Proof.
  intros Hc HG. unfold save, bind, getThis, ret.
  replace (1 <? classCount (this s)) with true
    by (symmetry; apply Z.ltb_lt; exact Hc).
  destruct (deref (W (this s)) s) as [wv sw | |] eqn:EW; try discriminate.
  rewrite bool_decide_eq_true_2 by exact HG. cbn [andb].
  destruct (deref (G (this s)) sw) as [gv sg | |] eqn:EG; try discriminate.
  intros H. inversion H as [[Hout Hs]]. clear H.
  destruct (load_skipped (classCount (this s)) (firstClass (this s))
              (lossType (this s)) (Vec.size wv) (Vec.nonZero wv) wv gv rest
              loadAs s0 Hc)
    as (s1 & lW & lG & wv' & Hl & Hcc & HW1 & HhW & HG1 & HhG & _).
  exists s1, lG. split.
  { rewrite <- Hl. f_equal. cbn [app]. rewrite <- !app_assoc. reflexivity. }
  split; [exact HG1|]. split; [exact HhG|].
  assert (Hne : lG <> lW) by congruence.
  destruct s1 as [b1 h1 e1]. cbn [this heap events] in *.
  assert (Hc1 : (1 <? classCount b1) = true) by (apply Z.ltb_lt; lia).
  split; [|split].
  - unfold clear, bind, setThis, getThis, delete_, ret. run_base.
    rewrite HW1. run_base. rewrite HhW. run_base. rewrite HG1.
    rewrite lookup_delete_ne by congruence. rewrite HhG. reflexivity.
  - unfold save, bind, getThis, deref, ret. run_base.
    rewrite Hc1, HW1. run_base. rewrite HhW. run_base.
    rewrite HG1. rewrite bool_decide_eq_true_2 by discriminate.
    cbn [andb]. run_base. rewrite HhG. reflexivity.
  - unfold save, bind, getThis, deref, ret. run_base.
    rewrite Hc1, HW1. run_base. rewrite HhW. run_base.
    eexists. reflexivity.
Qed.

End SkippedGradients.

Lemma load_without_gradients_dangles_witness :
  exists out s1 lG,
    save exampleSave true trainedBase = Ret out trainedBase
    /\ load exampleLoad exampleSkip exampleMem exampleMem out false
         RepresentationType.dense freshState = Ret [] s1
    /\ G (this s1) = Some lG /\ heap s1 !! lG = None
    /\ clear s1 = Undefined.
Proof.
  destruct (load_without_gradients_dangles exampleSave exampleLoad exampleSkip
              exampleMem exampleMem) with
    (s := trainedBase) (s0 := freshState) (loadAs := RepresentationType.dense)
    (out := [VInt 2; VInt 1; VLoss squaredHinge; VSize 3; VSize 2;
             VInt 0; VSize 3; VWeight 0%Q; VWeight 1%Q; VWeight (-2)%Q;
             VBool true; VInt 1; VSize 3; VSize 1; VInt 1; VWeight 4%Q])
    (rest := @nil Var)
    as (s1 & lG & H1 & H2 & H3 & H4 & _).
  - intros r v rest. exists v. split; [apply exampleLoad_save | reflexivity].
  - intros r v rest. unfold exampleSkip. rewrite exampleLoad_save. reflexivity.
  - cbn. lia.
  - discriminate.
  - vm_compute. reflexivity.
  - eexists _, s1, lG. split; [vm_compute; reflexivity|].
    rewrite app_nil_r in H1. repeat (split; [assumption|]). exact H4.
Defined.

(** ** Online updates *)

Section OnlineUpdates.

Variable logisticGrad squaredHingeGrad : Q -> Q -> Q -> Q.
Variable updateSGD updateAdaGrad :
  AbstractVector -> option AbstractVector -> Features -> Q -> Z -> Args.t ->
  AbstractVector * option AbstractVector.

Local Abbreviation update_ :=
  (update logisticGrad squaredHingeGrad updateSGD updateAdaGrad).

(** A run of calls of [update], one for each example. *)
Fixpoint updates (rows : list (Q * Features)) (args : Args.t) : M unit :=
  match rows with
  | [] => ret tt
  | (label, features) :: rows' =>
      update_ label features args;;
      updates rows' args
  end.

(** An object on which [update] can run: two classes, a live [W], and a
    [G] that is null or live and not [W]. *)
Record onlineReady (s : State) : Prop := mkOnlineReady {
  ready_classes : classCount (this s) = 2;
  ready_W : exists lw wv, W (this s) = Some lw /\ heap s !! lw = Some wv;
  ready_G : forall lg, G (this s) = Some lg ->
              is_Some (heap s !! lg) /\ W (this s) <> Some lg
}.

(** Whether [unsafeUpdate] returns at once. *)
Definition stopped (args : Args.t) (s : State) : bool :=
  negb (Z.eqb (Args.tmax args) (-1)) && Z.ltb (Args.tmax args) (t (this s)).

Lemma callUpdate_ready
    (upd : AbstractVector -> option AbstractVector -> Features -> Q -> Z ->
           Args.t -> AbstractVector * option AbstractVector)
    (features : Features) (grad : Q) (args : Args.t) (s : State) :
  onlineReady s ->
  exists s', callUpdate upd features grad args s = Ret tt s'
    /\ this s' = this s /\ events s' = events s /\ onlineReady s'.
Proof.
  intros [Hcc (lw & wv & HW & Hwv) HG]. destruct s as [b h e].
  cbn [this heap events] in *.
  unfold callUpdate, bind, getThis, deref, derefOpt, assign, ret.
  run_base. rewrite HW. run_base. rewrite Hwv. run_base.
  destruct (G b) as [lg|] eqn:EG.
  - destruct (HG lg eq_refl) as [[gv Hgv] Hne].
    unfold bind, deref. run_base. rewrite Hgv. run_base. rewrite Hwv.
    run_base.
    destruct (snd (upd wv (Some gv) features grad (t b) args)) as [gv'|].
    + run_base.
      rewrite lookup_insert_ne by congruence. rewrite Hgv.
      eexists. split; [reflexivity|]. run_base.
      split; [reflexivity|]. split; [reflexivity|].
      constructor; run_base.
      * exact Hcc.
      * rewrite HW. eexists lw, _. split; [reflexivity|].
        rewrite lookup_insert_ne by congruence. apply lookup_insert_eq.
      * intros lg' E. rewrite EG in E. inversion E; subst lg'.
        split; [|exact Hne].
        rewrite lookup_insert_eq. eauto.
    + eexists. split; [reflexivity|]. run_base.
      split; [reflexivity|]. split; [reflexivity|].
      constructor; run_base.
      * exact Hcc.
      * rewrite HW. eexists lw, _. split; [reflexivity|].
        apply lookup_insert_eq.
      * intros lg' E. rewrite EG in E. inversion E; subst lg'.
        split; [|exact Hne].
        rewrite lookup_insert_ne by congruence. eauto.
  - unfold ret. run_base. rewrite Hwv. run_base.
    destruct (snd (upd wv None features grad (t b) args)); run_base;
      (eexists; split; [reflexivity|]; run_base;
       split; [reflexivity|]; split; [reflexivity|];
       constructor; run_base;
       [ exact Hcc
       | rewrite HW; eexists lw, _; split; [reflexivity|];
         apply lookup_insert_eq
       | intros lg' E; rewrite EG in E; discriminate ]).
Qed.

Lemma unsafeUpdate_ready (label : Q) (features : Features) (args : Args.t)
    (s : State) :
  Args.optimizerType args <> liblinear ->
  onlineReady s ->
  exists s',
    unsafeUpdate logisticGrad squaredHingeGrad updateSGD updateAdaGrad
      label features args s = Ret tt s'
    /\ onlineReady s'
    /\ firstClass (this s') = firstClass (this s)
    /\ events s' = events s
    /\ (stopped args s = true -> s' = s)
    /\ (stopped args s = false ->
        t (this s') = t (this s) + 1
        /\ firstClassCount (this s')
           = firstClassCount (this s)
             + (if Qeq_bool label (toDouble (firstClass (this s)))
                then 1 else 0)).
Proof.
  intros Hopt Hready. unfold unsafeUpdate, bind at 1, getThis.
  fold (stopped args s). destruct (stopped args s) eqn:Estop.
  - exists s. unfold ret. split; [reflexivity|]. split; [exact Hready|].
    split; [reflexivity|]. split; [reflexivity|].
    split; [reflexivity | discriminate].
  - set (s1 := bumped label s).
    assert (Hs1 : onlineReady s1).
    { destruct Hready as [Hcc HW HG]. unfold s1, bumped.
      destruct (Qeq_bool label (toDouble (firstClass (this s))));
        constructor; run_base; assumption. }
    destruct Hs1 as [Hcc1 (lw & wv & HW1 & Hwv1) HG1].
    assert (Hpv : exists pred, predictValue features s1 = Ret pred s1).
    { destruct s1 as [b1 h1 e1]. cbn [this heap events] in *.
      eexists. apply (predictValue_trained features b1 h1 e1 lw wv);
        [lia | exact HW1 | exact Hwv1]. }
    destruct Hpv as [pred Hpv].
    assert (Hb : (do _ <- setThis (fun b => set_t (t b + 1) b);
                  (if Qeq_bool label (toDouble (firstClass (this s)))
                   then setThis
                          (fun b => set_firstClassCount (firstClassCount b + 1) b)
                   else ret tt)) s = Ret tt s1).
    { unfold s1, bumped, bind, setThis, ret.
      destruct (Qeq_bool label (toDouble (firstClass (this s))));
        reflexivity. }
    assert (Hfinish : forall upd grad,
              exists s',
                callUpdate upd features grad args s1 = Ret tt s'
                /\ onlineReady s'
                /\ firstClass (this s') = firstClass (this s)
                /\ events s' = events s
                /\ (false = true -> s' = s)
                /\ (false = false ->
                    t (this s') = t (this s) + 1
                    /\ firstClassCount (this s')
                       = firstClassCount (this s)
                         + (if Qeq_bool label (toDouble (firstClass (this s)))
                            then 1 else 0))).
    { intros upd grad.
      destruct (callUpdate_ready upd features grad args s1)
        as (s' & Hc & Hthis & Hev & Hr').
      { constructor; [exact Hcc1 | eauto | exact HG1]. }
      exists s'. split; [exact Hc|]. split; [exact Hr'|].
      rewrite Hthis, Hev. unfold s1, bumped.
      destruct (Qeq_bool label (toDouble (firstClass (this s)))); run_base;
        (split; [reflexivity|]); (split; [reflexivity|]);
        (split; [discriminate|]); intros _; split; lia. }
    unfold bind.
    change (setThis (fun b => set_t (t b + 1) b) s)
      with (Ret tt (mkState (set_t (t (this s) + 1) (this s)) (heap s)
                      (events s))).
    cbv beta iota.
    assert (Hb2 :
      (if Qeq_bool label (toDouble (firstClass (this s)))
       then setThis (fun b => set_firstClassCount (firstClassCount b + 1) b)
       else ret tt)
        (mkState (set_t (t (this s) + 1) (this s)) (heap s) (events s))
      = Ret tt s1).
    { unfold s1, bumped, setThis, ret.
      destruct (Qeq_bool label (toDouble (firstClass (this s))));
        reflexivity. }
    rewrite Hb2. cbv beta iota. rewrite Hpv. cbv beta iota.
    destruct (Args.optimizerType args) eqn:Eopt.
    + contradiction.
    + apply Hfinish.
    + apply Hfinish.
Qed.

(** The value of [t] after [n] calls of [update] that start at [t0]. *)
Definition performed (tmax t0 n : Z) : Z :=
  if Z.eqb tmax (-1) then t0 + n
  else if Z.ltb tmax t0 then t0
  else Z.min (t0 + n) (tmax + 1).

Lemma count_cons (x : Q) (l : list Q) (v : Q) :
  count (x :: l) v = (if Qeq_bool x v then 1 else 0) + count l v.
Proof.
  unfold count. cbn [List.filter]. destruct (Qeq_bool x v); cbn [length]; lia.
Qed.

Lemma updates_count (args : Args.t) (rows : list (Q * Features)) :
  Args.optimizerType args <> liblinear ->
  forall s : State,
    onlineReady s -> firstClass (this s) = 1 ->
    exists s',
      updates rows args s = Ret tt s'
      /\ onlineReady s' /\ firstClass (this s') = 1
      /\ events s' = events s
      /\ t (this s')
         = performed (Args.tmax args) (t (this s)) (Z.of_nat (length rows))
      /\ firstClassCount (this s')
         = firstClassCount (this s)
           + count (List.map fst
                      (take (Z.to_nat (t (this s') - t (this s))) rows)) 1.
Proof.
  intros Hopt. induction rows as [|[label features] rows IH]; intros s Hr Hfc.
  - exists s. split; [reflexivity|]. split; [exact Hr|]. split; [exact Hfc|].
    split; [reflexivity|]. split.
    + unfold performed. cbn [length].
      destruct (Z.eqb_spec (Args.tmax args) (-1)); [lia|].
      destruct (Z.ltb_spec (Args.tmax args) (t (this s))); lia.
    + rewrite take_nil. cbn. unfold count. cbn. lia.
  - destruct (unsafeUpdate_ready label features args s Hopt Hr)
      as (s1 & Hu & Hr1 & Hfc1 & Hev1 & Hstop & Hgo).
    destruct (IH s1 Hr1 ltac:(congruence))
      as (s' & Hus & Hr' & Hfc' & Hev' & Ht' & Hcnt').
    exists s'. cbn [updates]. unfold bind at 1, update. rewrite Hu.
    split; [exact Hus|]. split; [exact Hr'|]. split; [exact Hfc'|].
    split; [congruence|].
    assert (Hlen : Z.of_nat (length ((label, features) :: rows))
                   = Z.of_nat (length rows) + 1) by (cbn [length]; lia).
    rewrite Hlen. clear Hlen.
    unfold stopped in Hstop, Hgo.
    unfold performed in *.
    destruct (Z.eqb_spec (Args.tmax args) (-1)) as [Em | Em];
      cbn [negb andb] in Hstop, Hgo.
    + destruct (Hgo eq_refl) as [Ht1 Hc1].
      split; [lia|].
      replace (Z.to_nat (t (this s') - t (this s)))
        with (S (Z.to_nat (t (this s') - t (this s1)))) by lia.
      cbn [take List.map fst]. rewrite count_cons.
      rewrite Hcnt', Hc1, Hfc. change (toDouble 1) with 1%Q. lia.
    + destruct (Z.ltb_spec (Args.tmax args) (t (this s))) as [Hlt | Hge].
      * rewrite (Hstop eq_refl) in *.
        destruct (Z.ltb_spec (Args.tmax args) (t (this s))); [|lia].
        split; [lia|]. rewrite Hcnt'. rewrite Ht'.
        replace (t (this s) - t (this s)) with 0 by lia. reflexivity.
      * destruct (Hgo eq_refl) as [Ht1 Hc1].
        assert (Ht'' : t (this s')
                       = Z.min (t (this s) + (Z.of_nat (length rows) + 1))
                           (Args.tmax args + 1)).
        { rewrite Ht'.
          destruct (Z.ltb_spec (Args.tmax args) (t (this s1))); lia. }
        split; [exact Ht''|].
        replace (Z.to_nat (t (this s') - t (this s)))
          with (S (Z.to_nat (t (this s') - t (this s1)))) by lia.
        cbn [take List.map fst]. rewrite count_cons.
        rewrite Hcnt', Hc1, Hfc. change (toDouble 1) with 1%Q. lia.
Qed.

Lemma insert_fresh_keep (h : gmap loc AbstractVector) (v x : AbstractVector)
    (l : loc) :
  h !! l = Some x -> <[fresh (dom h) := v]> h !! l = Some x.
Proof.
  intros Hl. rewrite lookup_insert_ne; [exact Hl|].
  intros E. subst l. rewrite fresh_unused in Hl. discriminate.
Qed.

Lemma ready_after_setup (b : Base) (h : gmap loc AbstractVector)
    (e : list Event) (lw : loc) (v : AbstractVector) (lt : LossType) :
  G b = None ->
  onlineReady
    (mkState (set_t 0 (set_firstClass 1 (set_classCount 2
                (set_W (Some lw) (set_lossType lt b)))))
       (<[lw := v]> h) e).
Proof.
  intros HG. constructor; run_base.
  - reflexivity.
  - exists lw, v. split; [reflexivity | apply lookup_insert_eq].
  - intros lg E. rewrite HG in E. discriminate.
Qed.

Lemma ready_after_setup_G (b : Base) (h : gmap loc AbstractVector)
    (e : list Event) (lw lg : loc) (v vg : AbstractVector) (lt : LossType) :
  <[lw := v]> h !! lg = None ->
  onlineReady
    (mkState (set_t 0 (set_firstClass 1 (set_classCount 2
                (set_G (Some lg) (set_W (Some lw) (set_lossType lt b))))))
       (<[lg := vg]> (<[lw := v]> h)) e).
Proof.
  intros Hlg.
  assert (Hne : lg <> lw).
  { intros E. subst lg. rewrite lookup_insert_eq in Hlg. discriminate. }
  constructor; run_base.
  - reflexivity.
  - exists lw, v. split; [reflexivity|].
    rewrite lookup_insert_ne by congruence. apply lookup_insert_eq.
  - intros lg' E. inversion E; subst lg'. split.
    + rewrite lookup_insert_eq. eauto.
    + congruence.
Qed.

Lemma setup_ready (args : Args.t) (n : Z) (startWithDenseW : bool)
    (s : State) :
  Args.optimizerType args <> liblinear ->
  G (this s) = None ->
  exists s',
    setupOnlineTraining args n startWithDenseW s = Ret tt s'
    /\ onlineReady s' /\ firstClass (this s') = 1 /\ t (this s') = 0
    /\ firstClassCount (this s') = firstClassCount (this s)
    /\ lossType (this s') = Args.lossType args
    /\ events s' = events s
    /\ (forall l v, heap s !! l = Some v -> heap s' !! l = Some v).
Proof.
  intros Hopt HG. destruct s as [b h e]. cbn [this heap events] in *.
  unfold setupOnlineTraining, bind, setThis, new, ret. run_base.
  destruct (negb (n =? 0) && startWithDenseW);
    destruct (Args.optimizerType args) eqn:Eopt; try contradiction;
    run_base;
    (eexists; split; [reflexivity|]; run_base;
     split;
     [ first [ apply ready_after_setup; exact HG
             | apply ready_after_setup_G; apply fresh_unused ]
     | repeat (split; [reflexivity|]); intros l v Hl;
       repeat apply insert_fresh_keep; exact Hl ]).
Qed.

(** X8.  An object made by [Base(args)] for an online optimizer takes any
    run of [update] calls without a fault.  With [tmax = -1] every call
    counts; otherwise the calls count while [t <= tmax], so that [tmax + 1]
    of them are performed, and none when [tmax < -1].  [firstClassCount] is
    the number of performed calls whose label is one. *)
Theorem online_updates_count
    (args : Args.t) (n : Z) (startWithDenseW : bool)
    (rows : list (Q * Features)) (s : State) :
  Args.optimizerType args <> liblinear ->
  exists s',
    bind (Base_of args n startWithDenseW) (fun _ => updates rows args) s
    = Ret tt s'
    /\ t (this s')
       = (if Z.eqb (Args.tmax args) (-1) then Z.of_nat (length rows)
          else Z.min (Z.of_nat (length rows)) (Z.max 0 (Args.tmax args + 1)))
    /\ firstClassCount (this s')
       = count (List.map fst (take (Z.to_nat (t (this s'))) rows)) 1
    /\ classCount (this s') = 2 /\ firstClass (this s') = 1
    /\ events s' = events s.
Proof.
  intros Hopt.
  destruct (setup_ready args n startWithDenseW
              (mkState Base_new (heap s) (events s)) Hopt eq_refl)
    as (s1 & Hs & Hr1 & Hfc1 & Ht1 & Hc1 & _ & Hev1 & _).
  destruct (updates_count args rows Hopt s1 Hr1 Hfc1)
    as (s' & Hu & Hr' & Hfc' & Hev' & Ht' & Hcnt').
  exists s'. split.
  { unfold bind at 1, Base_of, bind at 1, setThis.
    destruct (Args.optimizerType args) eqn:Eopt; [contradiction| |];
      rewrite Hs; exact Hu. }
  rewrite Ht1 in *. cbn [this firstClassCount Base_new] in Hc1.
  split.
  { rewrite Ht'. unfold performed.
    destruct (Z.eqb_spec (Args.tmax args) (-1)); [lia|].
    destruct (Z.ltb_spec (Args.tmax args) 0); lia. }
  split.
  { rewrite Hcnt', Hc1. replace (t (this s') - 0) with (t (this s')) by lia.
    lia. }
  split; [apply Hr'|]. split; [exact Hfc'|].
  rewrite Hev', Hev1. reflexivity.
Qed.

End OnlineUpdates.

Lemma online_updates_count_witness :
  exists s',
    bind (Base_of stoppedArgs 3 true)
      (fun _ => updates zeroGrad zeroGrad idUpdate idUpdate
                  (repeat (1%Q, [(1, 1%Q)]) 9) stoppedArgs) freshState
    = Ret tt s'
    /\ t (this s') = 6 /\ firstClassCount (this s') = 6.
Proof.
  destruct (online_updates_count zeroGrad zeroGrad idUpdate idUpdate
              stoppedArgs 3 true (repeat (1%Q, [(1, 1%Q)]) 9) freshState)
    as (s' & H1 & H2 & H3 & _).
  - discriminate.
  - exists s'. split; [exact H1|]. split; [exact H2|].
    rewrite H3, H2. reflexivity.
Defined.

(** ** Online training *)

Lemma performed_add (tmax t0 n m : Z) :
  0 <= n -> 0 <= m ->
  performed tmax (performed tmax t0 n) m = performed tmax t0 (n + m).
Proof.
  intros Hn Hm. unfold performed.
  destruct (Z.eqb_spec tmax (-1)); [lia|].
  destruct (Z.ltb_spec tmax t0).
  - destruct (Z.ltb_spec tmax t0); lia.
  - destruct (Z.ltb_spec tmax (Z.min (t0 + n) (tmax + 1))); lia.
Qed.

Lemma performed_0 (tmax t0 : Z) : performed tmax t0 0 = t0.
Proof.
  unfold performed. destruct (Z.eqb_spec tmax (-1)); [lia|].
  destruct (Z.ltb_spec tmax t0); lia.
Qed.

Lemma performed_ge (tmax t0 n : Z) : 0 <= n -> t0 <= performed tmax t0 n.
Proof.
  intros Hn. unfold performed. destruct (Z.eqb_spec tmax (-1)); [lia|].
  destruct (Z.ltb_spec tmax t0); lia.
Qed.

(** Both vectors of an object can be deleted: each is null or live, and
    they are not the same. *)
Definition deletable (s : State) : Prop :=
  (forall l, W (this s) = Some l -> is_Some (heap s !! l))
  /\ (forall l, G (this s) = Some l ->
        is_Some (heap s !! l) /\ W (this s) <> Some l).

Lemma delete_both {A} (k : unit -> M A) (s : State) :
  deletable s ->
  bind (delete_ (W (this s))) (fun _ => bind (delete_ (G (this s))) k) s
  = k tt (mkState (this s)
            (freed (G (this s)) (freed (W (this s)) (heap s))) (events s)).
Proof.
  intros [HW HG]. destruct s as [b h e]. cbn [this heap events] in *.
  unfold bind, delete_.
  destruct (W b) as [lw|] eqn:EW; destruct (G b) as [lg|] eqn:EG;
    cbn [freed]; run_base.
  - destruct (HW lw eq_refl) as [wv Hwv].
    destruct (HG lg eq_refl) as [[gv Hgv] Hne].
    rewrite Hwv. run_base.
    rewrite lookup_delete_ne by congruence. rewrite Hgv. reflexivity.
  - destruct (HW lw eq_refl) as [wv Hwv]. rewrite Hwv. reflexivity.
  - destruct (HG lg eq_refl) as [[gv Hgv] Hne]. rewrite Hgv. reflexivity.
  - reflexivity.
Qed.

Section OnlineLoop.

Variable pd : ProblemData.t.
Variable args : Args.t.
Variable fc : Z.
Variable gradFunc : Q -> Q -> Q -> Q.
Variable updateFunc :
  AbstractVector -> option AbstractVector -> Features -> Q -> Z -> Args.t ->
  AbstractVector * option AbstractVector.

(** A property of the weights that the optimizer keeps. *)
Variable P : AbstractVector -> Prop.
Hypothesis P_kept :
  forall w g f gr ti a, P w -> P (fst (updateFunc w g f gr ti a)).

Lemma onlineRows_count (rows : list Features) :
  forall (r : nat) (st : OnlineState),
    (r + length rows <= length (ProblemData.binLabels pd))%nat ->
    (r + length rows <= length (ProblemData.instancesWeights pd))%nat ->
    P (o_W st) ->
    exists st',
      onlineRows pd args fc gradFunc updateFunc rows r st = Some st'
      /\ o_t st'
         = performed (Args.tmax args) (o_t st) (Z.of_nat (length rows))
      /\ o_firstClassCount st <= o_firstClassCount st'
         <= o_firstClassCount st + (o_t st' - o_t st)
      /\ P (o_W st').
Proof.
  induction rows as [|features rows IH]; intros r st Hl Hw HP.
  - exists st. split; [reflexivity|]. cbn [length].
    rewrite performed_0. repeat split; try lia. exact HP.
  - cbn [length] in Hl, Hw. cbn [onlineRows].
    destruct (lookup_lt_is_Some_2 (ProblemData.binLabels pd) r ltac:(lia))
      as [label ->].
    destruct (negb (Args.tmax args =? -1) && (Args.tmax args <? o_t st))
      eqn:Estop.
    + exists st. split; [reflexivity|].
      apply andb_true_iff in Estop. destruct Estop as [E1 E2].
      apply negb_true_iff, Z.eqb_neq in E1. apply Z.ltb_lt in E2.
      split.
      { unfold performed.
        destruct (Z.eqb_spec (Args.tmax args) (-1)); [lia|].
        destruct (Z.ltb_spec (Args.tmax args) (o_t st)); lia. }
      split; [lia | exact HP].
    + destruct (lookup_lt_is_Some_2 (ProblemData.instancesWeights pd) r
                  ltac:(lia)) as [iw ->].
      match goal with
      | |- context [onlineRows _ _ _ _ _ rows (S r) ?x] => set (st1 := x)
      end.
      destruct (IH (S r) st1 ltac:(lia) ltac:(lia)) as (st' & Hr & Ht & Hc & HP').
      { unfold st1. cbn [o_W]. apply P_kept. exact HP. }
      exists st'. split; [exact Hr|].
      unfold st1 in Ht, Hc. cbn [o_t o_firstClassCount] in Ht, Hc.
      assert (Hstep : performed (Args.tmax args) (o_t st + 1)
                        (Z.of_nat (length rows))
                      = performed (Args.tmax args) (o_t st)
                          (Z.of_nat (S (length rows)))).
      { unfold performed.
        destruct (Z.eqb_spec (Args.tmax args) (-1)) as [E | E]; [lia|].
        cbn [negb andb] in Estop. apply Z.ltb_ge in Estop.
        destruct (Z.ltb_spec (Args.tmax args) (o_t st)); [lia|].
        destruct (Z.ltb_spec (Args.tmax args) (o_t st + 1)); lia. }
      split; [rewrite Ht; exact Hstep|].
      split; [|exact HP'].
      pose proof (performed_ge (Args.tmax args) (o_t st + 1)
                    (Z.of_nat (length rows)) ltac:(lia)) as Hge.
      destruct (Qeq_bool label (toDouble fc)); lia.
Qed.

Lemma onlineEpochs_count (e : nat) :
  forall st : OnlineState,
    (length (ProblemData.binFeatures pd)
     <= length (ProblemData.binLabels pd))%nat ->
    (length (ProblemData.binFeatures pd)
     <= length (ProblemData.instancesWeights pd))%nat ->
    P (o_W st) ->
    exists st',
      onlineEpochs pd args fc gradFunc updateFunc e st = Some st'
      /\ o_t st'
         = performed (Args.tmax args) (o_t st)
             (Z.of_nat e * Z.of_nat (length (ProblemData.binFeatures pd)))
      /\ o_firstClassCount st <= o_firstClassCount st'
         <= o_firstClassCount st + (o_t st' - o_t st)
      /\ P (o_W st').
Proof.
  induction e as [|e IH]; intros st Hl Hw HP.
  - exists st. split; [reflexivity|].
    replace (Z.of_nat 0 * _) with 0 by lia. rewrite performed_0.
    repeat split; try lia. exact HP.
  - cbn [onlineEpochs].
    destruct (onlineRows_count (ProblemData.binFeatures pd) 0 st
                ltac:(lia) ltac:(lia) HP) as (st1 & -> & Ht1 & Hc1 & HP1).
    destruct (IH st1 Hl Hw HP1) as (st' & Hr & Ht & Hc & HP').
    exists st'. split; [exact Hr|]. split.
    + rewrite Ht, Ht1. rewrite performed_add by lia. f_equal. lia.
    + split; [|exact HP'].
      pose proof (performed_ge (Args.tmax args) (o_t st1)
                    (Z.of_nat e * Z.of_nat (length (ProblemData.binFeatures pd)))
                    ltac:(lia)) as Hge.
      lia.
Qed.

End OnlineLoop.

Lemma two_fresh (h : gmap loc AbstractVector) (v g : AbstractVector) :
  fresh (dom (<[fresh (dom h) := v]> h)) <> fresh (dom h)
  /\ <[fresh (dom (<[fresh (dom h) := v]> h)) := g]> (<[fresh (dom h) := v]> h)
     !! fresh (dom h) = Some v.
Proof.
  assert (Hne : fresh (dom (<[fresh (dom h) := v]> h)) <> fresh (dom h)).
  { intros E. pose proof (fresh_unused (<[fresh (dom h) := v]> h)) as Hf.
    rewrite E in Hf. rewrite lookup_insert_eq in Hf. discriminate. }
  split; [exact Hne|].
  rewrite lookup_insert_ne by exact Hne. apply lookup_insert_eq.
Qed.

Section OnlineTraining.

Variable ln : Q -> Q.
Variable logisticGrad squaredHingeGrad pwLogisticGrad : Q -> Q -> Q -> Q.
Variable updateSGD updateAdaGrad :
  AbstractVector -> option AbstractVector -> Features -> Q -> Z -> Args.t ->
  AbstractVector * option AbstractVector.
Variable check_parameter : ProblemData.t -> Args.t -> Q -> option string.
Variable train_liblinear : ProblemData.t -> Args.t -> Q -> model.
Variable sparseMem denseMem : AbstractVector -> Z.

Local Abbreviation trainOnline_ :=
  (trainOnline logisticGrad squaredHingeGrad pwLogisticGrad updateSGD
     updateAdaGrad).
Local Abbreviation train_ :=
  (train ln logisticGrad squaredHingeGrad pwLogisticGrad updateSGD
     updateAdaGrad check_parameter train_liblinear sparseMem denseMem).

(** The number of rows that the loops of [trainOnline] visit. *)
Definition onlineSteps (pd : ProblemData.t) (args : Args.t) : Z :=
  Z.of_nat (Z.to_nat (Args.epochs args))
  * Z.of_nat (length (ProblemData.binFeatures pd)).

Lemma trainOnline_returns (P : AbstractVector -> Prop)
    (pd : ProblemData.t) (args : Args.t) (s : State) :
  (forall w g f gr ti a, P w -> P (fst (updateSGD w g f gr ti a))) ->
  (forall w g f gr ti a, P w -> P (fst (updateAdaGrad w g f gr ti a))) ->
  P (Vec.zeros RepresentationType.dense (ProblemData.n pd)) ->
  Args.optimizerType args <> liblinear ->
  (length (ProblemData.binFeatures pd)
   <= length (ProblemData.binLabels pd))%nat ->
  (length (ProblemData.binFeatures pd)
   <= length (ProblemData.instancesWeights pd))%nat ->
  deletable s ->
  exists s' lw wv,
    trainOnline_ pd args s = Ret tt s'
    /\ classCount (this s') = 2 /\ firstClass (this s') = 1
    /\ lossType (this s') = Args.lossType args
    /\ t (this s') = performed (Args.tmax args) 0 (onlineSteps pd args)
    /\ firstClassCount (this s) <= firstClassCount (this s')
       <= firstClassCount (this s) + t (this s')
    /\ events s' = events s ++ [SolverCall (Args.optimizerType args)]
    /\ W (this s') = Some lw /\ heap s' !! lw = Some wv /\ P wv
    /\ (forall lg, G (this s') = Some lg ->
          is_Some (heap s' !! lg) /\ W (this s') <> Some lg).
Proof.
  intros HPs HPa HP0 Hopt Hl Hw Hdel.
  unfold trainOnline, bind at 1, getThis.
  rewrite (delete_both _ s Hdel).
  destruct s as [b h e]. cbn [this heap events].
  set (h0 := freed (G b) (freed (W b) h)).
  set (gradFunc := match Args.lossType args with
                   | logistic => logisticGrad
                   | squaredHinge => squaredHingeGrad
                   | pwLogistic => pwLogisticGrad
                   end).
  unfold bind, setThis, emit, ret, throw, new. run_base.
  destruct (Args.optimizerType args) eqn:Eopt; [contradiction | |];
    run_base; cbn [fst snd].
  - destruct (onlineEpochs_count pd args 1 gradFunc updateSGD P HPs
                (Z.to_nat (Args.epochs args))
                (mkOnline 0 (firstClassCount b)
                   (Vec.zeros RepresentationType.dense (ProblemData.n pd))
                   None) Hl Hw HP0)
      as (st' & -> & Ht & Hc & HP').
    cbn [o_t o_firstClassCount] in Ht, Hc. run_base.
    destruct (o_G st') as [g|]; run_base.
    + destruct (two_fresh h0 (o_W st') g) as [Hne Hlw].
      eexists _, _, _. split; [reflexivity|]. run_base.
      repeat (split; [first [reflexivity | exact Ht | lia]|]).
      split; [exact Hlw|]. split; [exact HP'|].
      intros lg E. inversion E; subst lg. split; [|congruence].
      rewrite lookup_insert_eq. eauto.
    + eexists _, _, _. split; [reflexivity|]. run_base.
      repeat (split; [first [reflexivity | exact Ht | lia]|]).
      split; [apply lookup_insert_eq|]. split; [exact HP'|].
      intros lg E. discriminate.
  - destruct (onlineEpochs_count pd args 1 gradFunc updateAdaGrad P HPa
                (Z.to_nat (Args.epochs args))
                (mkOnline 0 (firstClassCount b)
                   (Vec.zeros RepresentationType.dense (ProblemData.n pd))
                   (Some (Vec.zeros RepresentationType.dense
                            (ProblemData.n pd)))) Hl Hw HP0)
      as (st' & -> & Ht & Hc & HP').
    cbn [o_t o_firstClassCount] in Ht, Hc. run_base.
    destruct (o_G st') as [g|]; run_base.
    + destruct (two_fresh h0 (o_W st') g) as [Hne Hlw].
      eexists _, _, _. split; [reflexivity|]. run_base.
      repeat (split; [first [reflexivity | exact Ht | lia]|]).
      split; [exact Hlw|]. split; [exact HP'|].
      intros lg E. inversion E; subst lg. split; [|congruence].
      rewrite lookup_insert_eq. eauto.
    + eexists _, _, _. split; [reflexivity|]. run_base.
      repeat (split; [first [reflexivity | exact Ht | lia]|]).
      split; [apply lookup_insert_eq|]. split; [exact HP'|].
      intros lg E. discriminate.
Qed.

(** X9.  [trainOnline] with an online optimizer, on a problem with a label
    and an instance weight for every row, returns with two classes, first
    class one and the loss of the arguments, after one call of the
    optimizer's event.  [t] is reset and counts the visited rows: all
    [epochs * examples] of them when [tmax = -1], and otherwise [tmax + 1]
    at most (none when [tmax < -1]).  [firstClassCount] is not reset: it
    grows from its old value by at most [t]. *)
Theorem trainOnline_counts (pd : ProblemData.t) (args : Args.t) (s : State) :
  Args.optimizerType args <> liblinear ->
  (length (ProblemData.binFeatures pd)
   <= length (ProblemData.binLabels pd))%nat ->
  (length (ProblemData.binFeatures pd)
   <= length (ProblemData.instancesWeights pd))%nat ->
  deletable s ->
  exists s',
    trainOnline_ pd args s = Ret tt s'
    /\ classCount (this s') = 2 /\ firstClass (this s') = 1
    /\ lossType (this s') = Args.lossType args
    /\ t (this s')
       = (if Z.eqb (Args.tmax args) (-1) then onlineSteps pd args
          else Z.min (onlineSteps pd args) (Z.max 0 (Args.tmax args + 1)))
    /\ firstClassCount (this s) <= firstClassCount (this s')
       <= firstClassCount (this s) + t (this s')
    /\ events s' = events s ++ [SolverCall (Args.optimizerType args)]
    /\ (exists lw, W (this s') = Some lw /\ is_Some (heap s' !! lw))
    /\ (forall lg, G (this s') = Some lg ->
          is_Some (heap s' !! lg) /\ W (this s') <> Some lg).
Proof.
  intros Hopt Hl Hw Hdel.
  destruct (trainOnline_returns (fun _ => True) pd args s)
    as (s' & lw & wv & Hr & Hcc & Hfc & Hlt & Ht & Hc & Hev & HW & Hwv & _ & HG);
    try assumption; try (intros; exact I).
  exists s'. split; [exact Hr|]. split; [exact Hcc|]. split; [exact Hfc|].
  split; [exact Hlt|]. split.
  { rewrite Ht. unfold performed, onlineSteps.
    destruct (Z.eqb_spec (Args.tmax args) (-1)); [lia|].
    destruct (Z.ltb_spec (Args.tmax args) 0); lia. }
  split; [exact Hc|]. split; [exact Hev|]. split; [|exact HG].
  exists lw. split; [exact HW | eauto].
Qed.

(** A dense vector of [n] weights. *)
Definition denseOf (n : Z) (w : AbstractVector) : Prop :=
  isVector w = true /\ Vec.size w = n.

Lemma weighting_rows (pd : ProblemData.t) (positiveLabels : Z) :
  ProblemData.binLabels (weighting ln pd positiveLabels)
  = ProblemData.binLabels pd
  /\ ProblemData.binFeatures (weighting ln pd positiveLabels)
     = ProblemData.binFeatures pd
  /\ ProblemData.instancesWeights (weighting ln pd positiveLabels)
     = ProblemData.instancesWeights pd
  /\ ProblemData.n (weighting ln pd positiveLabels) = ProblemData.n pd.
Proof. repeat split. Qed.

Lemma pruneWeights_dense (threshold : Q) (b : Base)
    (h : gmap loc AbstractVector) (e : list Event) (lw : loc)
    (wv : AbstractVector) (n : Z) :
  W b = Some lw -> h !! lw = Some wv -> denseOf n wv -> 2 <= n ->
  exists wv',
    pruneWeights threshold (mkState b h e)
    = Ret tt (mkState b (<[lw := wv']> h) e)
    /\ denseOf n wv' /\ Vec.at_ wv' 1 = Vec.at_ wv 1.
Proof.
  intros HW Hwv [Hd Hn] H2. destruct wv as [d | |]; try discriminate.
  cbn [Vec.size] in Hn.
  unfold pruneWeights, bind, getThis, deref, assign, undefined. run_base.
  rewrite HW. run_base. rewrite Hwv. run_base.
  cbn [Vec.prune Vec.insertD]. rewrite length_map.
  replace (1 <? 0) with false by reflexivity.
  replace (1 <? Z.of_nat (length d)) with true
    by (symmetry; apply Z.ltb_lt; lia).
  run_base. rewrite Hwv.
  eexists. split; [reflexivity|]. split.
  - split; [reflexivity|]. cbn [Vec.size].
    rewrite length_insert, length_map. exact Hn.
  - cbn [Vec.at_]. replace (1 <? 0) with false by reflexivity.
    apply nth_lookup_Some with (d := 0%Q).
    rewrite list_lookup_insert_eq; [reflexivity|].
    rewrite length_map. lia.
Qed.

(** X10.  [train] on a problem that has both classes among its labels,
    with an online optimizer that keeps [W] a dense vector of [n >= 2]
    weights, returns a classifier with two classes and first class one
    after one run of the optimizer; its [W] is live, has [n] weights and is
    dense or sparse, never a map. *)
Theorem train_online_path (pd : ProblemData.t) (args : Args.t) (s : State) :
  (forall w g f gr ti a,
     denseOf (ProblemData.n pd) w ->
     denseOf (ProblemData.n pd) (fst (updateSGD w g f gr ti a))) ->
  (forall w g f gr ti a,
     denseOf (ProblemData.n pd) w ->
     denseOf (ProblemData.n pd) (fst (updateAdaGrad w g f gr ti a))) ->
  Args.optimizerType args <> liblinear ->
  2 <= ProblemData.n pd ->
  length (ProblemData.binFeatures pd) = length (ProblemData.binLabels pd) ->
  (length (ProblemData.binLabels pd)
   <= length (ProblemData.instancesWeights pd))%nat ->
  0 < count (ProblemData.binLabels pd) 1
    < Z.of_nat (length (ProblemData.binLabels pd)) ->
  deletable s ->
  exists s' lw wv,
    train_ pd args s = Ret tt s'
    /\ classCount (this s') = 2 /\ firstClass (this s') = 1
    /\ lossType (this s') = Args.lossType args
    /\ t (this s') = performed (Args.tmax args) 0 (onlineSteps pd args)
    /\ events s' = events s ++ [SolverCall (Args.optimizerType args)]
    /\ W (this s') = Some lw /\ heap s' !! lw = Some wv
    /\ Vec.size wv = ProblemData.n pd
    /\ Vec.representation wv <> RepresentationType.map.
Proof.
  intros HPs HPa Hopt Hn Hlen Hw Hcount Hdel.
  set (pd' := if Args.inbalanceLabelsWeighting args
              then weighting ln pd (count (ProblemData.binLabels pd) 1)
              else pd).
  assert (Hpd' : ProblemData.binLabels pd' = ProblemData.binLabels pd
                 /\ ProblemData.binFeatures pd' = ProblemData.binFeatures pd
                 /\ ProblemData.instancesWeights pd'
                    = ProblemData.instancesWeights pd
                 /\ ProblemData.n pd' = ProblemData.n pd).
  { unfold pd'. destruct (Args.inbalanceLabelsWeighting args);
      [apply weighting_rows | repeat split]. }
  destruct Hpd' as (E1 & E2 & E3 & E4).
  destruct (trainOnline_returns (denseOf (ProblemData.n pd)) pd' args s)
    as (s1 & lw & wv & Hr & Hcc & Hfc & Hlt & Ht & _ & Hev & HW & Hwv & HP & HG);
    try assumption.
  { rewrite E4. split; [reflexivity|]. cbn [Vec.zeros Vec.size].
    rewrite repeat_length. lia. }
  { rewrite E1, E2. lia. }
  { rewrite E2, E3. lia. }
  assert (Hsteps : onlineSteps pd' args = onlineSteps pd args).
  { unfold onlineSteps. rewrite E2. reflexivity. }
  rewrite Hsteps in Ht. clear Hsteps.
  destruct s1 as [b1 h1 e1]. cbn [this heap events] in *.
  destruct (pruneWeights_dense (Args.weightsThreshold args) b1 h1 e1 lw wv
              (ProblemData.n pd) HW Hwv HP Hn)
    as (wv2 & Hprune & [Hd2 Hn2] & _).
  unfold train.
  destruct (ProblemData.binLabels pd) as [|label0 labels] eqn:Eb.
  { cbn in Hcount. lia. }
  unfold bind at 1, assert.
  replace (Z.of_nat (length (label0 :: labels))
           =? Z.of_nat (length (ProblemData.binFeatures pd)))
    with true by (symmetry; apply Z.eqb_eq; lia).
  unfold ret at 1. unfold bind at 1.
  replace (Z.of_nat (length (label0 :: labels))
           <=? Z.of_nat (length (ProblemData.instancesWeights pd)))
    with true by (symmetry; apply Z.leb_le; lia).
  unfold ret at 1.
  replace (count (label0 :: labels) 1 =? 0) with false
    by (symmetry; apply Z.eqb_neq; lia).
  replace (count (label0 :: labels) 1 =? Z.of_nat (length (label0 :: labels)))
    with false by (symmetry; apply Z.eqb_neq; lia).
  cbn [orb]. fold pd'.
  unfold bind at 1.
  assert (Htr :
    match Args.optimizerType args with
    | liblinear => trainLiblinear ln check_parameter train_liblinear pd' args
    | _ => trainOnline_ pd' args
    end s = Ret tt (mkState b1 h1 e1)).
  { destruct (Args.optimizerType args); [contradiction| |]; exact Hr. }
  rewrite Htr. cbv beta iota.
  unfold bind at 1. rewrite Hprune. cbv beta iota.
  unfold bind, getThis, deref, new, delete_, setThis, ret. run_base.
  rewrite HW. run_base. rewrite lookup_insert_eq. run_base.
  destruct (sparseMem wv2 <? denseMem wv2).
  - run_base.
    set (l2 := fresh (dom (<[lw := wv2]> h1))).
    assert (Hl2 : <[lw := wv2]> h1 !! l2 = None) by apply fresh_unused.
    assert (Hne : l2 <> lw).
    { intros E. rewrite E in Hl2. rewrite lookup_insert_eq in Hl2.
      discriminate. }
    rewrite lookup_insert_ne by congruence. rewrite lookup_insert_eq.
    eexists _, l2, _. split; [reflexivity|]. run_base.
    repeat (split; [first [assumption | reflexivity]|]).
    split.
    { rewrite lookup_delete_ne by congruence. apply lookup_insert_eq. }
    split; [exact Hn2 | discriminate].
  - eexists _, lw, wv2. split; [reflexivity|]. run_base.
    repeat (split; [first [assumption | reflexivity]|]).
    split; [apply lookup_insert_eq|]. split; [exact Hn2|].
    destruct wv2; discriminate.
Qed.

End OnlineTraining.

(** A problem with one example of each class. *)
Definition mixedProblem : ProblemData.t :=
  ProblemData.mk [1%Q; 0%Q] [[(1, 1%Q)]; [(1, 1%Q); (2, 3%Q)]] [1%Q; 1%Q]
    3 2 1%Q 0 [] [].

Lemma freshState_deletable : deletable freshState.
Proof. split; intros l E; discriminate E. Qed.

Lemma trainOnline_counts_witness :
  exists s',
    trainOnline zeroGrad zeroGrad zeroGrad idUpdate idUpdate mixedProblem
      exampleArgs freshState = Ret tt s'
    /\ classCount (this s') = 2 /\ firstClass (this s') = 1
    /\ t (this s') = 2.
Proof.
  destruct (trainOnline_counts zeroGrad zeroGrad zeroGrad idUpdate idUpdate
              mixedProblem exampleArgs freshState)
    as (s' & H1 & H2 & H3 & _ & H5 & _).
  - discriminate.
  - cbn. lia.
  - cbn. lia.
  - exact freshState_deletable.
  - exists s'. repeat (split; [assumption|]). exact H5.
Defined.

Lemma train_online_path_witness :
  exists s' lw wv,
    train zeroFun1 zeroGrad zeroGrad zeroGrad idUpdate idUpdate paramsOk
      noModel zeroMem zeroMem mixedProblem exampleArgs freshState = Ret tt s'
    /\ classCount (this s') = 2 /\ firstClass (this s') = 1
    /\ events s' = [SolverCall sgd]
    /\ W (this s') = Some lw /\ heap s' !! lw = Some wv
    /\ Vec.size wv = 3.
Proof.
  destruct (train_online_path zeroFun1 zeroGrad zeroGrad zeroGrad idUpdate
              idUpdate paramsOk noModel zeroMem zeroMem mixedProblem exampleArgs
              freshState)
    as (s' & lw & wv & H1 & H2 & H3 & _ & _ & H6 & H7 & H8 & H9 & _).
  - intros w g f gr ti a H. exact H.
  - intros w g f gr ti a H. exact H.
  - discriminate.
  - cbn. lia.
  - reflexivity.
  - cbn. lia.
  - vm_compute. split; reflexivity.
  - exact freshState_deletable.
  - exists s', lw, wv. repeat (split; [assumption|]). exact H9.
Defined.

(** ** Training with LibLinear *)








Section LiblinearTraining.

Variable ln : Q -> Q.
Variable logisticGrad squaredHingeGrad pwLogisticGrad : Q -> Q -> Q -> Q.
Variable updateSGD updateAdaGrad :
  AbstractVector -> option AbstractVector -> Features -> Q -> Z -> Args.t ->
  AbstractVector * option AbstractVector.
Variable check_parameter : ProblemData.t -> Args.t -> Q -> option string.
Variable train_liblinear : ProblemData.t -> Args.t -> Q -> model.
Variable sparseMem denseMem : AbstractVector -> Z.

Local Abbreviation train_ :=
  (train ln logisticGrad squaredHingeGrad pwLogisticGrad updateSGD
     updateAdaGrad check_parameter train_liblinear sparseMem denseMem).





End LiblinearTraining.






(** * The lines that the [predict] command prints *)

(** The line for a row of the dataset. *)
Definition rowLine (model_predict : Features -> list Prediction.t)
    (row : list Z * Features) : list Out :=
  printRow (firstLabel (fst row)) (model_predict (snd row)).

Lemma predictRows_spec (model_predict : Features -> list Prediction.t)
    (labels : list (list Z)) (features : list Features) (count : nat) :
  forall r : nat,
    (r + count <= length features)%nat ->
    (r + count <= length labels)%nat ->
    predictRows model_predict labels features r count
    = Some (flat_map (rowLine model_predict)
              (take count (drop r (zip labels features)))).
Proof.
  induction count as [|count IH]; intros r Hf Hl.
  - reflexivity.
  - cbn [predictRows].
    destruct (lookup_lt_is_Some_2 features r ltac:(lia)) as [f Ef].
    destruct (lookup_lt_is_Some_2 labels r ltac:(lia)) as [l El].
    rewrite Ef, El. rewrite (IH (S r)) by lia.
    assert (Hz : zip labels features !! r = Some (l, f)).
    { apply lookup_zip_with_Some. exists l, f. repeat split; assumption. }
    rewrite (drop_S _ _ _ Hz). cbn [take flat_map]. reflexivity.
Qed.

(** X12.  For a file with at least 5000 rows, [predict] prints one line for
    each of the first 5000 rows, in order: the first label of the row, then
    " label:value" for each prediction of the model.  No row after these is
    read, so two datasets that agree on their first 5000 rows give the same
    output. *)
Theorem predict_first_rows
    (input : string) (model_predict : Features -> list Prediction.t)
    (labels : list (list Z)) (features : list Features) :
  input <> "-"%string ->
  (Z.to_nat 5000 <= length features)%nat ->
  (Z.to_nat 5000 <= length labels)%nat ->
  predict input model_predict labels features
  = Some (flat_map (rowLine model_predict)
            (take (Z.to_nat 5000) (zip labels features)))
  /\ forall labels' features',
       take (Z.to_nat 5000) labels' = take (Z.to_nat 5000) labels ->
       take (Z.to_nat 5000) features' = take (Z.to_nat 5000) features ->
       predict input model_predict labels' features'
       = predict input model_predict labels features.
Proof.
  intros Hin Hf Hl.
  assert (Hp : forall ls fs,
            (Z.to_nat 5000 <= length fs)%nat ->
            (Z.to_nat 5000 <= length ls)%nat ->
            predict input model_predict ls fs
            = Some (flat_map (rowLine model_predict)
                      (zip (take (Z.to_nat 5000) ls)
                         (take (Z.to_nat 5000) fs)))).
  { intros ls fs Hfs Hls. rewrite (predict_file _ _ _ _ Hin).
    rewrite predictRows_spec by lia. rewrite drop_0.
    do 2 f_equal. apply zip_with_take. }
  split.
  - rewrite (Hp labels features Hf Hl). do 2 f_equal. symmetry.
    apply zip_with_take.
  - intros labels' features' El Ef.
    assert (Hlen : forall {A} (a a' : list A) (n : nat),
              take n a' = take n a -> (n <= length a)%nat ->
              (n <= length a')%nat).
    { intros A a a' n E Hn. apply (f_equal length) in E.
      rewrite !length_take in E. lia. }
    rewrite (Hp labels features Hf Hl).
    rewrite (Hp labels' features'
               (Hlen _ features features' _ Ef Hf)
               (Hlen _ labels labels' _ El Hl)).
    rewrite El, Ef. reflexivity.
Qed.

Lemma predict_first_rows_witness :
  predict "data.txt" oneLabelPredictor
    (repeat [0] rows5001) (repeat [(1, 1%Q)] rows5001)
  = Some (flat_map (rowLine oneLabelPredictor)
            (take (Z.to_nat 5000)
               (zip (repeat [0] rows5001) (repeat [(1, 1%Q)] rows5001)))).
Proof.
  destruct (predict_first_rows "data.txt" oneLabelPredictor
              (repeat [0] rows5001) (repeat [(1, 1%Q)] rows5001)) as [H _].
  - discriminate.
  - rewrite repeat_length. unfold rows5001. lia.
  - rewrite repeat_length. unfold rows5001. lia.
  - exact H.
Defined.

(** * Properties of the label tree *)

Module PLTProofs.
Import PLT.

(** ** The size of a complete tree *)

Lemma floorLogFuel_lower (fuel : nat) (a n : Z) :
  2 <= a -> 1 <= n ->
  0 <= floorLogFuel fuel a n /\ a ^ floorLogFuel fuel a n <= n.
Proof.
  intros Ha. revert n. induction fuel as [|f IH]; intros n Hn; cbn [floorLogFuel].
  - split; [lia|]. rewrite Z.pow_0_r. exact Hn.
  - destruct (Z.leb_spec a n) as [Hle|Hlt].
    + assert (Hq : 1 <= n / a).
      { apply Z.div_le_lower_bound; lia. }
      destruct (IH (n / a) Hq) as [H0 Hp]. split; [lia|].
      rewrite Z.pow_add_r by lia. rewrite Z.pow_1_r.
      pose proof (Z.mul_div_le n a ltac:(lia)). nia.
    + split; [lia|]. rewrite Z.pow_0_r. exact Hn.
Qed.

Lemma floorLogFuel_upper (fuel : nat) (a n : Z) :
  2 <= a -> 1 <= n -> n <= Z.of_nat fuel ->
  n < a ^ (1 + floorLogFuel fuel a n).
Proof.
  intros Ha. revert n. induction fuel as [|f IH]; intros n Hn Hf; [lia|].
  cbn [floorLogFuel].
  destruct (Z.leb_spec a n) as [Hle|Hlt].
  - assert (Hq : 1 <= n / a) by (apply Z.div_le_lower_bound; lia).
    assert (Hqf : n / a <= Z.of_nat f).
    { assert (n / a < n) by (apply Z.div_lt; lia). lia. }
    specialize (IH (n / a) Hq Hqf).
    pose proof (floorLogFuel_lower f a (n / a) Ha Hq) as [H0 _].
    rewrite Z.pow_add_r by lia. rewrite Z.pow_1_r.
    pose proof (Z.div_mod n a ltac:(lia)).
    pose proof (Z.mod_pos_bound n a ltac:(lia)).
    set (X := a ^ (1 + floorLogFuel f a (n / a))) in *. nia.
  - rewrite Z.add_0_r, Z.pow_1_r. exact Hlt.
Qed.

(** [floorLog a n] is the integer part of the logarithm of [n] in base
    [a]. *)
Lemma floorLog_spec (a n : Z) :
  2 <= a -> 1 <= n ->
  0 <= floorLog a n
  /\ a ^ floorLog a n <= n < a ^ (1 + floorLog a n).
Proof.
  intros Ha Hn. unfold floorLog.
  destruct (floorLogFuel_lower (Z.to_nat n) a n Ha Hn) as [H0 H1].
  repeat split; try assumption.
  apply floorLogFuel_upper; lia.
Qed.

Lemma inject_Z_sub (x y : Z) : (inject_Z x - inject_Z y)%Q = inject_Z (x - y).
Proof.
  unfold Qminus, Qplus, Qopp, inject_Z. cbn. f_equal. lia.
Qed.

Lemma inject_Z_mul (x y : Z) : (inject_Z x * inject_Z y)%Q = inject_Z (x * y).
Proof. reflexivity. Qed.

Lemma trunc_nonneg (q : Q) : (0 <= q)%Q -> trunc q = Qfloor q.
Proof.
  destruct q as [n d]. unfold Qle, trunc, Qfloor. cbn.
  intros H. apply Z.quot_div_nonneg; lia.
Qed.

(** The size as the specification words it: [2k - 1] for an arity of at most [2],
    and [floor (E + D)] otherwise. *)
Definition formulaSize (k_ a : Z) : Z :=
  if Z.leb a 2 then 2 * k_ - 1
  else
    let A := a ^ floorLog a k_ in
    let B := k_ - A in
    let C := Qceiling (inject_Z B / inject_Z (a - 1)) in
    let D := (inject_Z (a * A - 1) / inject_Z (a - 1))%Q in
    let E := k_ - (A - C) in
    Qfloor (inject_Z E + D).

Lemma completeTreeSize_formula (k_ a : Z) :
  1 <= k_ ->
  completeTreeSize k_ a = formulaSize k_ a /\ k_ <= completeTreeSize k_ a.
Proof.
  intros Hk. unfold completeTreeSize, formulaSize.
  destruct (Z.ltb_spec 2 a) as [Ha|Ha].
  2:{ replace (a <=? 2) with true by (symmetry; apply Z.leb_le; lia).
      split; lia. }
  replace (a <=? 2) with false by (symmetry; apply Z.leb_gt; lia).
  destruct (floorLog_spec a k_ ltac:(lia) Hk) as (Hm & HA & _).
  set (A := a ^ floorLog a k_) in *.
  assert (HA1 : 1 <= A).
  { unfold A. pose proof (Z.pow_pos_nonneg a (floorLog a k_)). lia. }
  assert (Ha1 : (0 < inject_Z a - 1)%Q).
  { unfold Qlt. cbn. lia. }
  assert (HAq : (1 <= inject_Z A)%Q).
  { change 1%Q with (inject_Z 1). rewrite <- Zle_Qle. exact HA1. }
  assert (HkA : (inject_Z A <= inject_Z k_)%Q) by (rewrite <- Zle_Qle; exact HA).
  assert (Hd : (inject_Z A <= (inject_Z a * inject_Z A - 1) / (inject_Z a - 1))%Q).
  { apply Qle_shift_div_l; [exact Ha1|]. nra. }
  assert (HC : (0 <= inject_Z (Qceiling ((inject_Z k_ - inject_Z A)
                                          / (inject_Z a - 1))))%Q).
  { change 0%Q with (inject_Z 0). rewrite <- Zle_Qle.
    change 0 with (Qceiling 0). apply Qceiling_resp_le.
    apply Qle_shift_div_l; [exact Ha1|]. lra. }
  set (x := (inject_Z k_ -
     (inject_Z A -
      inject_Z (Qceiling ((inject_Z k_ - inject_Z A) / (inject_Z a - 1)))) +
     (inject_Z a * inject_Z A - 1) / (inject_Z a - 1))%Q) in *.
  assert (Hx : (inject_Z k_ <= x)%Q) by (unfold x; lra).
  assert (Hx0 : (0 <= x)%Q).
  { assert ((0 <= inject_Z k_)%Q); [|lra].
    change 0%Q with (inject_Z 0). rewrite <- Zle_Qle. lia. }
  rewrite (trunc_nonneg x Hx0). split.
  - f_equal. unfold x. change 1%Q with (inject_Z 1).
    rewrite inject_Z_mul, !inject_Z_sub. reflexivity.
  - rewrite <- (Qfloor_Z k_). apply Qfloor_resp_le. exact Hx.
Qed.

(** ** The nodes of a complete tree *)

(** The label and the parent that the loop gives to the node at position
    [i], for the labels [order] of the leaves. *)
Definition expectedLabel (ti : Z) (order : list Z) (i : nat) : option Z :=
  if Z.leb ti (Z.of_nat i)
  then order !! Z.to_nat (Z.of_nat i - ti) else Some (-1).

Definition expectedParent (a' : Z) (i : nat) : option nat :=
  if Z.ltb 0 (Z.of_nat i)
  then Some (Z.to_nat ((Z.of_nat i - 1) / a')) else None.

(** The state of the loop after [m] rounds. *)
Definition built (a' ti : Z) (order : list Z) (T0 : PLTree) (m : nat)
    (T : PLTree) : Prop :=
  k T = k T0 /\ t T = t T0 /\ treeRoot T = treeRoot T0
  /\ length (tree T) = m
  /\ (forall i nd, tree T !! i = Some nd ->
        index nd = Z.of_nat i
        /\ Some (label nd) = expectedLabel ti order i
        /\ parent nd = expectedParent a' i)
  /\ (forall l i, treeLeaves T !! l = Some i <->
        (ti <= Z.of_nat i /\ (i < m)%nat
         /\ order !! Z.to_nat (Z.of_nat i - ti) = Some l)).

Lemma labelRange_lookup (n : Z) (j : nat) :
  (Z.of_nat j < n) -> labelRange n !! j = Some (Z.of_nat j).
Proof.
  intros Hj. unfold labelRange. rewrite list_lookup_fmap.
  rewrite lookup_seq_lt by lia. reflexivity.
Qed.

Lemma labelRange_length (n : Z) : length (labelRange n) = Z.to_nat n.
Proof. unfold labelRange. rewrite length_map, length_seq. reflexivity. Qed.

Lemma labelRange_NoDup (n : Z) : NoDup (labelRange n).
Proof.
  unfold labelRange. apply NoDup_fmap_2; [intros x y; lia|]. apply NoDup_seq.
Qed.

Lemma addNode_step (a' ti : Z) (labelsOrder : option (list Z))
    (order : list Z) (T0 T : PLTree) (m : nat) :
  2 <= a' -> 0 <= ti ->
  Z.of_nat m < ti + Z.of_nat (length order) ->
  NoDup order ->
  (labelsOrder = Some order
   \/ (labelsOrder = None
       /\ order = labelRange (Z.of_nat (length order)))) ->
  built a' ti order T0 m T ->
  exists T', addNode a' ti labelsOrder (Some T) m = Some T'
    /\ built a' ti order T0 (S m) T'.
Proof.
  intros Ha Hti Hm Hnd Hord (Hk & Ht & Hr & Hlen & Hnodes & Hleaves).
  unfold addNode. rewrite Hlen.
  replace (0 <=? ti) with true by (symmetry; apply Z.leb_le; exact Hti).
  cbn [andb].
  (* the label of the new node *)
  assert (Hlbl : exists l,
    (if ti <=? Z.of_nat m
     then match labelsOrder with
          | Some order0 => order0 !! Z.to_nat (Z.of_nat m - ti)
          | None => Some (Z.of_nat m - ti)
          end
     else Some (-1)) = Some l
    /\ expectedLabel ti order m = Some l).
  { unfold expectedLabel. destruct (Z.leb_spec ti (Z.of_nat m)) as [Hle|Hlt].
    - destruct Hord as [-> | [-> Ho]].
      + destruct (lookup_lt_is_Some_2 order (Z.to_nat (Z.of_nat m - ti)))
          as [l Hl]; [lia|]. exists l. split; exact Hl.
      + exists (Z.of_nat m - ti). split; [reflexivity|]. rewrite Ho.
        rewrite labelRange_lookup by lia. f_equal. lia.
    - exists (-1). split; reflexivity. }
  destruct Hlbl as (l & -> & Hexp).
  (* the map of the leaves *)
  set (leaves := if ti <=? Z.of_nat m
                 then match treeLeaves T !! l with
                      | Some _ => treeLeaves T
                      | None => <[l := m]> (treeLeaves T)
                      end
                 else treeLeaves T).
  assert (Hleaves' : forall l' i, leaves !! l' = Some i <->
            (ti <= Z.of_nat i /\ (i < S m)%nat
             /\ order !! Z.to_nat (Z.of_nat i - ti) = Some l')).
  { intros l' i. unfold leaves, expectedLabel in *.
    destruct (Z.leb_spec ti (Z.of_nat m)) as [Hle|Hlt].
    - assert (Hfree : treeLeaves T !! l = None).
      { destruct (treeLeaves T !! l) as [j|] eqn:Ej; [|reflexivity].
        apply Hleaves in Ej. destruct Ej as (Hj1 & Hj2 & Hj3).
        exfalso.
        assert (Z.to_nat (Z.of_nat j - ti) = Z.to_nat (Z.of_nat m - ti)).
        { eapply NoDup_lookup; eauto. }
        lia. }
      rewrite Hfree. rewrite lookup_insert. destruct (decide (l = l')) as [<-|Hne].
      + split.
        * intros H. inversion H; subst i. repeat split; [lia|lia|exact Hexp].
        * intros (Hi1 & Hi2 & Hi3). f_equal.
          assert (Z.to_nat (Z.of_nat i - ti) = Z.to_nat (Z.of_nat m - ti)).
          { eapply NoDup_lookup; eauto. }
          lia.
      + rewrite Hleaves. split.
        * intros (H1 & H2 & H3). repeat split; [lia|lia|exact H3].
        * intros (H1 & H2 & H3). repeat split; [lia| |exact H3].
          destruct (decide (i = m)) as [->|]; [|lia]. congruence.
    - rewrite Hleaves. split.
      + intros (H1 & H2 & H3). repeat split; [lia|lia|exact H3].
      + intros (H1 & H2 & H3). lia. }
  clearbody leaves.
  destruct (Z.ltb_spec 0 (Z.of_nat m)) as [Hpos|Hzero].
  - (* a node with a parent *)
    set (q := Z.to_nat ((Z.of_nat m - 1) / a')).
    assert (Hq : (q < m)%nat).
    { unfold q. assert ((Z.of_nat m - 1) / a' <= Z.of_nat m - 1).
      { apply Z.div_le_upper_bound; nia. }
      assert (0 <= (Z.of_nat m - 1) / a') by (apply Z.div_pos; lia). lia. }
    destruct (lookup_lt_is_Some_2 (tree T) q) as [pn Hpn]; [lia|].
    rewrite Hpn. eexists. split; [reflexivity|].
    unfold built. cbn [k t treeRoot tree treeLeaves].
    split; [exact Hk|]. split; [exact Ht|]. split; [exact Hr|].
    split; [rewrite length_app, length_insert; cbn; lia|].
    split; [|exact Hleaves'].
    intros i nd Hlk. destruct (decide (i = m)) as [->|Hne].
    + rewrite lookup_app_r in Hlk by (rewrite length_insert; lia).
      rewrite length_insert, Hlen, Nat.sub_diag in Hlk.
      inversion Hlk; subst nd. cbn [index label parent].
      split; [reflexivity|]. split; [symmetry; exact Hexp|].
      unfold expectedParent.
      replace (0 <? Z.of_nat m) with true by (symmetry; apply Z.ltb_lt; lia).
      reflexivity.
    + assert (Him : (i < m)%nat).
      { apply lookup_lt_Some in Hlk. rewrite length_app, length_insert in Hlk.
        cbn in Hlk. lia. }
      rewrite lookup_app_l in Hlk by (rewrite length_insert; lia).
      destruct (decide (i = q)) as [->|Hq'].
      * rewrite list_lookup_insert_eq in Hlk by lia. inversion Hlk; subst nd.
        cbn [index label parent setChildren]. apply (Hnodes q pn Hpn).
      * rewrite list_lookup_insert_ne in Hlk by congruence.
        apply (Hnodes i nd Hlk).
  - (* the first node *)
    assert (m = 0%nat) by lia. subst m.
    eexists. split; [reflexivity|].
    unfold built. cbn [k t treeRoot tree treeLeaves].
    destruct (tree T) as [|x xs] eqn:Etree; [|discriminate].
    split; [exact Hk|]. split; [exact Ht|]. split; [exact Hr|].
    split; [reflexivity|]. split; [|exact Hleaves'].
    intros i nd Hlk. destruct i; [|discriminate]. inversion Hlk; subst nd.
    cbn [index label parent].
    split; [reflexivity|]. split; [symmetry; exact Hexp|reflexivity].
Qed.

Lemma build_loop (a' ti : Z) (labelsOrder : option (list Z))
    (order : list Z) (T0 : PLTree) (m : nat) :
  2 <= a' -> 0 <= ti ->
  NoDup order ->
  (labelsOrder = Some order
   \/ (labelsOrder = None
       /\ order = labelRange (Z.of_nat (length order)))) ->
  tree T0 = [] -> treeLeaves T0 = ∅ ->
  Z.of_nat m <= ti + Z.of_nat (length order) ->
  exists T, fold_left (addNode a' ti labelsOrder) (seq 0 m) (Some T0) = Some T
    /\ built a' ti order T0 m T.
Proof.
  intros Ha Hti Hnd Hord Htree Hleaves.
  induction m as [|m IH]; intros Hm.
  - exists T0. split; [reflexivity|]. unfold built.
    rewrite Htree, Hleaves. repeat split; try reflexivity.
    + rewrite lookup_nil in H. discriminate.
    + rewrite lookup_nil in H. discriminate.
    + rewrite lookup_nil in H. discriminate.
    + rewrite lookup_empty in H. discriminate.
    + rewrite lookup_empty in H. discriminate.
    + rewrite lookup_empty in H. discriminate.
    + intros (_ & Hi & _). lia.
  - destruct IH as (T & Hfold & Hbuilt); [lia|].
    rewrite seq_S, fold_left_app, Hfold. cbn [fold_left Nat.add].
    apply (addNode_step a' ti labelsOrder order T0 T m); try assumption. lia.
Qed.

Lemma setParent_same (n : TreeNode) : setParent (parent n) n = n.
Proof. destruct n; reflexivity. Qed.

(** C6, as amended.  For [k >= 1] labels and any arity [a],
    [buildCompleteTree] makes a tree of [t] nodes, [t = 2k - 1] when
    [a <= 2] and [t = floor (E + D)] otherwise; with [ti = t - k], the
    nodes [0 .. ti-1] carry the label [-1], the nodes [ti .. t-1] carry the
    [k] labels (in order, or shuffled for a random tree) and are what
    [treeLeaves] maps these labels to; node [0] is the root and has no
    parent, and node [i > 0] has the parent [floor ((i - 1) / a')], where
    [a'] is [a] when [a > 2] and [2] otherwise. *)
Theorem buildCompleteTree_shape
    (shuffle : list Z -> list Z) (labelCount arity : Z)
    (randomizeTree : bool) :
  1 <= labelCount ->
  (forall l, Permutation (shuffle l) l) ->
  let tN := formulaSize labelCount arity in
  let ti := tN - labelCount in
  let a' := if Z.ltb 2 arity then arity else 2 in
  let order := if randomizeTree then shuffle (labelRange labelCount)
               else labelRange labelCount in
  exists T,
    buildCompleteTree shuffle PLTree_new labelCount arity randomizeTree = Some T
    /\ k T = labelCount /\ t T = tN /\ Z.of_nat (length (tree T)) = tN
    /\ 0 <= ti
    /\ Permutation order (labelRange labelCount)
    /\ treeRoot T = Some 0%nat
    /\ forall (i : nat) (nd : TreeNode),
         tree T !! i = Some nd ->
         index nd = Z.of_nat i
         /\ (Z.of_nat i < ti -> label nd = -1)
         /\ (ti <= Z.of_nat i ->
             order !! Z.to_nat (Z.of_nat i - ti) = Some (label nd)
             /\ 0 <= label nd < labelCount
             /\ treeLeaves T !! label nd = Some i)
         /\ (i = 0%nat -> parent nd = None)
         /\ (0 < Z.of_nat i ->
             parent nd = Some (Z.to_nat ((Z.of_nat i - 1) / a'))).
Proof.
  intros Hk Hshuffle tN ti a' order.
  destruct (completeTreeSize_formula labelCount arity Hk) as [Hsize Hge].
  fold tN in Hsize.
  assert (Hperm : Permutation order (labelRange labelCount)).
  { unfold order. destruct randomizeTree; [apply Hshuffle|reflexivity]. }
  assert (Hlen : length order = Z.to_nat labelCount).
  { rewrite (Permutation_length Hperm). apply labelRange_length. }
  assert (Hnd : NoDup order).
  { rewrite Hperm. apply labelRange_NoDup. }
  assert (Hti : 0 <= ti) by (unfold ti; lia).
  unfold buildCompleteTree.
  cbn [k t set_t set_k PLTree_new].
  rewrite Hsize. fold ti. fold a'.
  replace (tN <? 0) with false by (symmetry; apply Z.ltb_ge; lia).
  set (T1 := set_t tN (set_k labelCount PLTree_new)).
  destruct (build_loop a' ti
              (if randomizeTree then Some (shuffle (labelRange labelCount))
               else None) order T1 (Z.to_nat tN))
    as (T2 & Hfold & Hk2 & Ht2 & Hr2 & Hlen2 & Hnodes & Hleaves).
  { unfold a'. destruct (2 <? arity) eqn:E; [apply Z.ltb_lt in E|]; lia. }
  { exact Hti. }
  { exact Hnd. }
  { unfold order. destruct randomizeTree; [left; reflexivity|].
    right. split; [reflexivity|]. rewrite labelRange_length. f_equal. lia. }
  { reflexivity. }
  { reflexivity. }
  { unfold ti. lia. }
  rewrite Hfold.
  destruct (lookup_lt_is_Some_2 (tree T2) 0) as [n0 Hn0]; [lia|].
  rewrite Hn0.
  assert (Hp0 : parent n0 = None).
  { destruct (Hnodes 0%nat n0 Hn0) as (_ & _ & Hp). exact Hp. }
  replace (setParent None n0) with n0
    by (rewrite <- Hp0; symmetry; apply setParent_same).
  rewrite list_insert_id by exact Hn0.
  eexists. split; [reflexivity|].
  cbn [k t tree treeRoot treeLeaves set_tree set_treeRoot].
  split; [exact Hk2|]. split; [exact Ht2|]. split; [lia|].
  split; [exact Hti|]. split; [exact Hperm|]. split; [reflexivity|].
  intros i nd Hi. destruct (Hnodes i nd Hi) as (Hidx & Hlbl & Hpar).
  assert (Hilt : (i < Z.to_nat tN)%nat).
  { apply lookup_lt_Some in Hi. lia. }
  unfold expectedLabel in Hlbl. unfold expectedParent in Hpar.
  split; [exact Hidx|]. split; [|split; [|split]].
  - intros Hlt. replace (ti <=? Z.of_nat i) with false in Hlbl
      by (symmetry; apply Z.leb_gt; lia). congruence.
  - intros Hle. replace (ti <=? Z.of_nat i) with true in Hlbl
      by (symmetry; apply Z.leb_le; lia).
    split; [symmetry; exact Hlbl|]. split.
    + assert (Hin : label nd ∈ labelRange labelCount).
      { rewrite <- Hperm. apply list_elem_of_lookup. eauto. }
      unfold labelRange in Hin. apply list_elem_of_fmap in Hin.
      destruct Hin as (j & -> & Hj). apply elem_of_seq in Hj. lia.
    + apply Hleaves. repeat split; [lia|lia|]. symmetry. exact Hlbl.
  - intros ->. rewrite Hpar. reflexivity.
  - intros Hpos. replace (0 <? Z.of_nat i) with true in Hpar
      by (symmetry; apply Z.ltb_lt; lia). exact Hpar.
Qed.

(** ** Saving and loading a tree *)

(** A node as the first loop of [load] makes it. *)
Definition blank (n : TreeNode) : TreeNode :=
  mkNode (index n) (label n) None [].

(** The map [treeLeaves] after the first loop of [load] has read [nodes],
    the first of them being pushed at position [base]. *)
Fixpoint leavesAfter (base : nat) (nodes : list TreeNode) (m : gmap Z nat)
  : gmap Z nat :=
  match nodes with
  | [] => m
  | n :: nodes' =>
      leavesAfter (S base) nodes'
        (if Z.leb 0 (label n) then <[label n := base]> m else m)
  end.

Lemma loadNodes_spec (nodes : list TreeNode) (inp : list Z) (T0 : PLTree) :
  loadNodes (length nodes)
    (flat_map (fun n => [index n; label n]) nodes ++ inp) T0
  = Some (inp,
          mkTree (k T0) (t T0) (tree T0 ++ List.map blank nodes) (treeRoot T0)
            (leavesAfter (length (tree T0)) nodes (treeLeaves T0))).
Proof.
  revert T0. induction nodes as [|n ns IH]; intros T0.
  - cbn. rewrite app_nil_r. destruct T0; reflexivity.
  - cbn [length flat_map app loadNodes]. rewrite IH.
    cbn [k t tree treeRoot treeLeaves leavesAfter List.map].
    rewrite length_app. cbn [length]. rewrite Nat.add_1_r.
    rewrite <- app_assoc. reflexivity.
Qed.

Lemma leavesAfter_inv (nodes : list TreeNode) (base : nat) (m : gmap Z nat)
    (l : Z) (i : nat) :
  leavesAfter base nodes m !! l = Some i ->
  m !! l = Some i
  \/ ((base <= i)%nat
      /\ exists n, nodes !! (i - base)%nat = Some n /\ label n = l /\ 0 <= l).
Proof.
  revert base m. induction nodes as [|n ns IH]; intros base m H; cbn in H.
  - left. exact H.
  - apply IH in H. destruct H as [H | (Hle & n' & Hn' & Hl & H0)].
    + destruct (Z.leb_spec 0 (label n)) as [Hpos|Hneg]; [|left; exact H].
      rewrite lookup_insert in H. destruct (decide (label n = l)) as [<-|Hne].
      * inversion H; subst i. right. split; [lia|]. exists n.
        rewrite Nat.sub_diag. split; [reflexivity|]. split; [reflexivity|exact Hpos].
      * left. exact H.
    + right. split; [lia|]. exists n'. split; [|split; assumption].
      replace (i - base)%nat with (S (i - S base)) by lia. exact Hn'.
Qed.

Lemma leavesAfter_keep (nodes : list TreeNode) (base : nat) (m : gmap Z nat)
    (l : Z) :
  (forall n, n ∈ nodes -> label n <> l) ->
  leavesAfter base nodes m !! l = m !! l.
Proof.
  revert base m. induction nodes as [|n ns IH]; intros base m H; cbn.
  - reflexivity.
  - rewrite IH by (intros n' Hn'; apply H; right; exact Hn').
    destruct (0 <=? label n); [|reflexivity].
    apply lookup_insert_ne. apply H. left.
Qed.

Lemma leavesAfter_last (nodes : list TreeNode) (base : nat) (m : gmap Z nat)
    (j : nat) (n : TreeNode) :
  nodes !! j = Some n -> 0 <= label n ->
  (forall j' n', (j < j')%nat -> nodes !! j' = Some n' -> label n' <> label n) ->
  leavesAfter base nodes m !! label n = Some (base + j)%nat.
Proof.
  revert base m j. induction nodes as [|x ns IH]; intros base m j Hj Hpos Hlater.
  - discriminate.
  - destruct j as [|j]; cbn in Hj |- *.
    + inversion Hj; subst x.
      rewrite leavesAfter_keep.
      * replace (0 <=? label n) with true by (symmetry; apply Z.leb_le; lia).
        rewrite lookup_insert_eq. f_equal. lia.
      * intros n' Hn'. apply list_elem_of_lookup in Hn' as [j' Hj'].
        apply (Hlater (S j') n'); [lia|exact Hj'].
    + rewrite (IH (S base) _ j Hj Hpos).
      * f_equal. lia.
      * intros j' n' Hlt Hn'. apply (Hlater (S j') n'); [lia|exact Hn'].
Qed.

(** The parent that [tree] records for the node at position [c]. *)
Definition parentOf (T : PLTree) (c : nat) : option nat :=
  tree T !! c ≫= parent.

(** The nodes below [i] whose parent is [j], by increasing position. *)
Definition childrenUpTo (T : PLTree) (i j : nat) : list nat :=
  List.filter (fun c => bool_decide (parentOf T c = Some j)) (seq 0 i).

(** The node at position [j] when the second loop of [load] has handled
    the nodes below [i]. *)
Definition partialNode (T : PLTree) (i j : nat) (n : TreeNode) : TreeNode :=
  mkNode (index n) (label n)
    (if decide (j < i)%nat then parent n else None)
    (childrenUpTo T i j).

Definition partialTree (T : PLTree) (i : nat) : list TreeNode :=
  imap (partialNode T i) (tree T).

Lemma childrenUpTo_S (T : PLTree) (i j : nat) :
  childrenUpTo T (S i) j
  = childrenUpTo T i j ++ (if decide (parentOf T i = Some j) then [i] else []).
Proof.
  unfold childrenUpTo. rewrite seq_S, List.filter_app. cbn [List.filter Nat.add].
  destruct (decide (parentOf T i = Some j)) as [E|E].
  - rewrite bool_decide_eq_true_2 by exact E. reflexivity.
  - rewrite bool_decide_eq_false_2 by exact E. reflexivity.
Qed.

Lemma partialTree_0 (T : PLTree) : partialTree T 0 = List.map blank (tree T).
Proof.
  unfold partialTree. apply list_eq. intros j.
  rewrite list_lookup_imap. change (List.map blank (tree T)) with (blank <$> tree T).
  rewrite list_lookup_fmap. destruct (tree T !! j) as [n|]; reflexivity.
Qed.

Lemma partialTree_length (T : PLTree) (i : nat) :
  length (partialTree T i) = length (tree T).
Proof. apply length_imap. Qed.

Lemma partialTree_lookup (T : PLTree) (i j : nat) (n : TreeNode) :
  tree T !! j = Some n ->
  partialTree T i !! j = Some (partialNode T i j n).
Proof.
  intros H. unfold partialTree. rewrite list_lookup_imap, H. reflexivity.
Qed.

(** One round of the second loop of [load], for a node with a parent. *)
Lemma partialTree_step_parent (T : PLTree) (i q : nat) (ni nq n' : TreeNode) :
  tree T !! i = Some ni -> parent ni = Some q -> tree T !! q = Some nq ->
  <[q := setChildren (children (partialNode T i q nq) ++ [i])
           (partialNode T i q nq)]> (partialTree T i) !! i = Some n' ->
  <[i := setParent (Some q) n']>
    (<[q := setChildren (children (partialNode T i q nq) ++ [i])
             (partialNode T i q nq)]> (partialTree T i))
  = partialTree T (S i).
Proof.
  intros Hi Hp Hq Hn'.
  assert (Hpi : parentOf T i = Some q).
  { unfold parentOf. rewrite Hi. exact Hp. }
  assert (Hli : (i < length (tree T))%nat) by (eapply lookup_lt_Some; eauto).
  assert (Hlq : (q < length (tree T))%nat) by (eapply lookup_lt_Some; eauto).
  apply list_eq. intros j.
  destruct (tree T !! j) as [nj|] eqn:Ej.
  2:{ apply lookup_ge_None in Ej.
      rewrite !(proj2 (lookup_ge_None _ _));
        rewrite ?length_insert, ?partialTree_length; try lia. reflexivity. }
  rewrite (partialTree_lookup T (S i) j nj Ej).
  destruct (decide (j = i)) as [->|Hji].
  - rewrite list_lookup_insert_eq
      by (rewrite length_insert, partialTree_length; lia).
    f_equal. assert (nj = ni) by congruence. subst nj.
    destruct (decide (i = q)) as [->|Hiq].
    + rewrite list_lookup_insert_eq in Hn' by (rewrite partialTree_length; lia).
      inversion Hn'; subst n'. assert (nq = ni) by congruence. subst nq.
      unfold partialNode, setParent, setChildren. cbn [index label parent children].
      rewrite childrenUpTo_S.
      repeat case_decide; try lia; try congruence;
        try (rewrite ?Hp, ?app_nil_r; reflexivity).
    + rewrite list_lookup_insert_ne in Hn' by congruence.
      rewrite (partialTree_lookup T i i ni Hi) in Hn'.
      inversion Hn'; subst n'.
      unfold partialNode, setParent. cbn [index label parent children].
      rewrite childrenUpTo_S.
      repeat case_decide; try lia; try congruence;
        try (rewrite ?Hp, ?app_nil_r; reflexivity).
  - rewrite list_lookup_insert_ne by congruence.
    destruct (decide (j = q)) as [->|Hjq].
    + rewrite list_lookup_insert_eq by (rewrite partialTree_length; lia).
      f_equal. assert (nj = nq) by congruence. subst nj.
      unfold partialNode, setChildren. cbn [index label parent children].
      rewrite childrenUpTo_S.
      repeat case_decide; try lia; try congruence;
        try (rewrite ?Hp, ?app_nil_r; reflexivity).
    + rewrite list_lookup_insert_ne by congruence.
      rewrite (partialTree_lookup T i j nj Ej). f_equal.
      unfold partialNode. rewrite childrenUpTo_S.
      repeat case_decide; try lia; try congruence;
        try (rewrite ?Hp, ?app_nil_r; reflexivity).
Qed.

(** One round of the second loop of [load], for a node without parent. *)
Lemma partialTree_step_root (T : PLTree) (i : nat) (ni : TreeNode) :
  tree T !! i = Some ni -> parent ni = None ->
  partialTree T i = partialTree T (S i).
Proof.
  intros Hi Hp.
  assert (Hpi : parentOf T i = None).
  { unfold parentOf. rewrite Hi. exact Hp. }
  apply list_eq. intros j. unfold partialTree. rewrite !list_lookup_imap.
  destruct (tree T !! j) as [nj|] eqn:Ej; [|reflexivity]. cbn. f_equal.
  unfold partialNode. rewrite childrenUpTo_S.
  repeat case_decide; try lia; try congruence;
    rewrite app_nil_r; try reflexivity.
  assert (j = i) by lia. subst j. assert (nj = ni) by congruence. subst nj.
  rewrite Hp. reflexivity.
Qed.

Lemma loadParents_spec (T : PLTree) (ps rest : list Z) (count : nat) :
  (forall j n, tree T !! j = Some n -> index n = Z.of_nat j) ->
  Forall2 (fun n z => parentIndex T n = Some z) (tree T) ps ->
  forall (i : nat) (Tx : PLTree),
    (i + count)%nat = length (tree T) ->
    tree Tx = partialTree T i ->
    loadParents count i (drop i ps ++ rest) Tx
    = Some (rest, set_tree (partialTree T (length (tree T))) Tx).
Proof.
  intros Hidx Hps. pose proof (Forall2_length _ _ _ Hps) as Hlen.
  induction count as [|count IH]; intros i Tx Hi HTx.
  - cbn [loadParents]. rewrite drop_ge by lia. cbn [app].
    replace (length (tree T)) with i by lia. rewrite <- HTx.
    destruct Tx; reflexivity.
  - destruct (lookup_lt_is_Some_2 (tree T) i) as [ni Hni]; [lia|].
    destruct (Forall2_lookup_l _ _ _ _ _ Hps Hni) as (z & Hz & Hpz).
    rewrite (drop_S _ _ _ Hz). cbn [app loadParents].
    unfold parentIndex in Hpz.
    destruct (parent ni) as [q|] eqn:Hp.
    + destruct (tree T !! q) as [nq|] eqn:Hq; [|discriminate].
      cbn in Hpz. inversion Hpz; subst z. clear Hpz.
      rewrite (Hidx q nq Hq).
      replace (0 <=? Z.of_nat q) with true by (symmetry; apply Z.leb_le; lia).
      rewrite Nat2Z.id, HTx, (partialTree_lookup T i q nq Hq).
      assert (Hlq : (q < length (tree T))%nat) by (eapply lookup_lt_Some; eauto).
      destruct (lookup_lt_is_Some_2
                  (<[q := setChildren (children (partialNode T i q nq) ++ [i])
                           (partialNode T i q nq)]> (partialTree T i)) i)
        as [n' Hn'].
      { rewrite length_insert, partialTree_length. lia. }
      rewrite Hn'.
      rewrite (partialTree_step_parent T i q ni nq n' Hni Hp Hq Hn').
      rewrite (IH (S i)); [reflexivity | lia | reflexivity].
    + inversion Hpz; subst z. cbn [Z.leb Z.compare].
      rewrite (IH (S i)); [reflexivity | lia |].
      rewrite HTx. apply (partialTree_step_root T i ni Hni Hp).
Qed.

(** The tree that [load] rebuilds from what [save] wrote for [T]. *)
Definition reloaded (T : PLTree) : PLTree :=
  mkTree (k T) (Z.of_nat (length (tree T)))
    (partialTree T (length (tree T))) (treeRoot T)
    (leavesAfter 0 (tree T) ∅).

Lemma save_load (T T1 : PLTree) (out rest : list Z) :
  (forall j n, tree T !! j = Some n -> index n = Z.of_nat j) ->
  save T = Some (out, T1) ->
  load (out ++ rest) PLTree_new = Some (rest, reloaded T).
Proof.
  intros Hidx. unfold save. cbn [treeRoot tree set_t k t].
  destruct (treeRoot T) as [r|] eqn:Hr; [|discriminate].
  destruct (tree T !! r) as [rn|] eqn:Hrn; [|discriminate].
  destruct (mapM (parentIndex (set_t (Z.of_nat (length (tree T))) T)) (tree T))
    as [ps|] eqn:Hps; [|discriminate].
  intros H. inversion H; subst out T1. clear H.
  apply mapM_Some in Hps.
  assert (Hps' : Forall2 (fun n z => parentIndex T n = Some z) (tree T) ps).
  { eapply Forall2_impl; [exact Hps|]. intros n z Hz. exact Hz. }
  cbn [app load]. rewrite <- !app_assoc.
  replace (Z.of_nat (length (tree T)) <? 0) with false
    by (symmetry; apply Z.ltb_ge; lia).
  rewrite Nat2Z.id, loadNodes_spec.
  cbn [app k t tree treeRoot treeLeaves set_t set_k PLTree_new length].
  rewrite (Hidx r rn Hrn).
  replace (Z.of_nat r <? 0) with false by (symmetry; apply Z.ltb_ge; lia).
  rewrite Nat2Z.id.
  change (List.map blank (tree T)) with (blank <$> tree T).
  rewrite list_lookup_fmap, Hrn. cbn [fmap option_fmap option_map].
  change ps with (drop 0 ps).
  rewrite (loadParents_spec T ps rest (length (tree T)) Hidx Hps' 0%nat).
  - unfold reloaded, set_tree, set_treeRoot.
    cbn [k t tree treeRoot treeLeaves]. rewrite Hr. reflexivity.
  - reflexivity.
  - cbn [tree set_treeRoot]. symmetry. apply partialTree_0.
Qed.

(** The [int] written for the parent of a node: its position, or [-1]. *)
Definition parentCode (n : TreeNode) : Z :=
  match parent n with
  | Some q => Z.of_nat q
  | None => -1
  end.

(** No two nodes carry the same label [>= 0]. *)
Definition distinctLeafLabels (T : PLTree) : Prop :=
  forall i j ni nj,
    tree T !! i = Some ni -> tree T !! j = Some nj ->
    0 <= label ni -> label ni = label nj -> i = j.

(** Every node records its position in [tree] as its [index]. *)
Definition indexed (T : PLTree) : Prop :=
  forall j n, tree T !! j = Some n -> index n = Z.of_nat j.

Lemma parentIndex_codes (T : PLTree) (nodes : list TreeNode) (ps : list Z) :
  indexed T ->
  Forall2 (fun n z => parentIndex T n = Some z) nodes ps ->
  ps = List.map parentCode nodes.
Proof.
  intros Hidx Hps.
  induction Hps as [|n z ns zs Hz _ IH]; [reflexivity|].
  cbn [List.map]. f_equal; try exact IH.
  unfold parentIndex, parentCode in *.
  destruct (parent n) as [q|]; [|congruence].
  destruct (tree T !! q) as [nq|] eqn:Hq; [|discriminate].
  cbn in Hz. rewrite (Hidx q nq Hq) in Hz. congruence.
Qed.

Lemma save_layout (T T1 : PLTree) (out : list Z) :
  indexed T ->
  save T = Some (out, T1) ->
  T1 = set_t (Z.of_nat (length (tree T))) T
  /\ exists r rn,
       treeRoot T = Some r /\ tree T !! r = Some rn
       /\ out = [k T; Z.of_nat (length (tree T))]
                ++ flat_map (fun n => [index n; label n]) (tree T)
                ++ [index rn] ++ List.map parentCode (tree T).
Proof.
  intros Hidx. unfold save. cbn [treeRoot tree set_t k t].
  destruct (treeRoot T) as [r|] eqn:Hr; [|discriminate].
  destruct (tree T !! r) as [rn|] eqn:Hrn; [|discriminate].
  destruct (mapM (parentIndex (set_t (Z.of_nat (length (tree T))) T)) (tree T))
    as [ps|] eqn:Hps; [|discriminate].
  intros H. inversion H; subst out T1. clear H.
  split; [reflexivity|]. exists r, rn. split; [reflexivity|].
  split; [exact Hrn|].
  apply mapM_Some in Hps.
  rewrite (parentIndex_codes T (tree T) ps Hidx); [reflexivity|].
  eapply Forall2_impl; [exact Hps|]. intros n z Hz. exact Hz.
Qed.

(** C7.  For a tree whose nodes record their positions, [PLTree::save]
    writes [k], then [t], then the index and the label of every node, then
    the index of the root, then for every node the index of its parent, or
    [-1] when it has none.  [PLTree::load] on a new tree reads this back
    into a tree with the same [k], [t] and root, whose nodes have the same
    index, label and parent, whose lists of children hold exactly the nodes
    that name the node as their parent, and whose [treeLeaves] maps labels
    to nodes that carry them, and every label [>= 0] to its node when no
    two nodes share such a label. *)
Theorem tree_save_load_roundtrip (T T1 : PLTree) (out rest : list Z) :
  indexed T ->
  save T = Some (out, T1) ->
  (exists r rn,
     treeRoot T = Some r /\ tree T !! r = Some rn
     /\ out = [k T; Z.of_nat (length (tree T))]
              ++ flat_map (fun n => [index n; label n]) (tree T)
              ++ [index rn] ++ List.map parentCode (tree T))
  /\ exists T',
       load (out ++ rest) PLTree_new = Some (rest, T')
       /\ k T' = k T /\ t T' = t T1 /\ treeRoot T' = treeRoot T
       /\ length (tree T') = length (tree T)
       /\ (forall i n, tree T !! i = Some n ->
            exists n', tree T' !! i = Some n'
              /\ index n' = index n /\ label n' = label n
              /\ parent n' = parent n
              /\ children n'
                 = List.filter (fun c => bool_decide (parentOf T c = Some i))
                     (seq 0 (length (tree T)))
              /\ forall c, c ∈ children n' <-> parentOf T' c = Some i)
       /\ (forall l i, treeLeaves T' !! l = Some i ->
            exists n', tree T' !! i = Some n' /\ label n' = l /\ 0 <= l)
       /\ (distinctLeafLabels T ->
           forall i n', tree T' !! i = Some n' -> 0 <= label n' ->
             treeLeaves T' !! label n' = Some i).
Proof.
  intros Hidx Hsave.
  destruct (save_layout T T1 out Hidx Hsave) as (HT1 & Hlayout).
  split; [exact Hlayout|].
  exists (reloaded T). split; [exact (save_load T T1 out rest Hidx Hsave)|].
  assert (Hnode : forall i n, tree T !! i = Some n ->
            tree (reloaded T) !! i
            = Some (partialNode T (length (tree T)) i n)).
  { intros i n Hi. apply (partialTree_lookup T _ i n Hi). }
  assert (Hpar : forall c, parentOf (reloaded T) c = parentOf T c).
  { intros c. unfold parentOf. destruct (tree T !! c) as [nc|] eqn:Hc.
    - rewrite (Hnode c nc Hc). cbn. apply lookup_lt_Some in Hc.
      rewrite decide_True by lia. reflexivity.
    - cbn [reloaded tree]. unfold partialTree.
      rewrite list_lookup_imap, Hc. reflexivity. }
  split; [reflexivity|]. split; [subst T1; reflexivity|].
  split; [reflexivity|]. split; [apply partialTree_length|].
  split; [|split].
  - intros i n Hi. exists (partialNode T (length (tree T)) i n).
    split; [exact (Hnode i n Hi)|].
    cbn [partialNode index label parent children].
    split; [reflexivity|]. split; [reflexivity|]. split.
    { apply lookup_lt_Some in Hi. rewrite decide_True by lia. reflexivity. }
    split; [reflexivity|].
    intros c. rewrite Hpar. unfold childrenUpTo.
    rewrite list_elem_of_In, List.filter_In, bool_decide_eq_true, in_seq.
    split; [intros [_ H]; exact H|]. intros H. split; [|exact H].
    unfold parentOf in H. destruct (tree T !! c) eqn:Hc; [|discriminate].
    apply lookup_lt_Some in Hc. lia.
  - intros l i Hl. cbn [reloaded treeLeaves] in Hl.
    apply leavesAfter_inv in Hl.
    destruct Hl as [Hl | (_ & n & Hn & Hlbl & Hpos)].
    { rewrite lookup_empty in Hl. discriminate. }
    rewrite Nat.sub_0_r in Hn.
    exists (partialNode T (length (tree T)) i n).
    split; [exact (Hnode i n Hn)|]. split; [exact Hlbl|exact Hpos].
  - intros Hdist i n' Hi Hpos.
    destruct (tree T !! i) as [n|] eqn:Hn.
    2:{ cbn [reloaded tree] in Hi. unfold partialTree in Hi.
        rewrite list_lookup_imap, Hn in Hi. discriminate. }
    rewrite (Hnode i n Hn) in Hi. inversion Hi; subst n'.
    cbn [partialNode label] in *. cbn [reloaded treeLeaves].
    rewrite (leavesAfter_last (tree T) 0 ∅ i n Hn Hpos); [reflexivity|].
    intros j' nj Hlt Hj' Heq.
    assert (i = j') by (apply (Hdist i j' n nj Hn Hj' Hpos); congruence). lia.
Qed.

(** ** Top-k prediction *)

Lemma popMax_None (q : list TreeNodeProb) : popMax q = None <-> q = [].
Proof.
  destruct q as [|x q]; cbn; [tauto|].
  split; [|discriminate].
  destruct (popMax q) as [[y r]|]; [|discriminate].
  destruct (Qle_bool (p y) (p x)); discriminate.
Qed.

Lemma popMax_Some (q : list TreeNodeProb) (x : TreeNodeProb)
    (q' : list TreeNodeProb) :
  popMax q = Some (x, q') ->
  Permutation q (x :: q') /\ Forall (fun y => (p y <= p x)%Q) q.
Proof.
  revert x q'. induction q as [|a q IH]; intros x q'; cbn; [discriminate|].
  destruct (popMax q) as [[y r]|] eqn:E.
  - destruct (IH y r eq_refl) as [Hperm Hmax].
    destruct (Qle_bool (p y) (p a)) eqn:Ecmp; intros H; inversion H; subst.
    + apply Qle_bool_iff in Ecmp. split; [reflexivity|].
      constructor; [apply Qle_refl|].
      eapply Forall_impl; [exact Hmax|]. cbn. intros z Hz.
      eapply Qle_trans; eassumption.
    + split.
      * rewrite Hperm. apply perm_swap.
      * constructor; [|exact Hmax].
        destruct (Qlt_le_dec (p x) (p a)) as [Hlt|Hle]; [|exact Hle].
        apply Qlt_le_weak, Qle_bool_iff in Hlt. congruence.
  - apply popMax_None in E. subst q. intros H; inversion H; subst.
    split; [reflexivity|]. constructor; [apply Qle_refl|constructor].
Qed.

(** The list that pops its first greatest element is a priority queue. *)
#[refine] Instance listQueue : PriorityQueue := {|
  pq := list TreeNodeProb;
  pq_empty := [];
  pq_push := cons;
  pq_pop := popMax;
  pq_elements := fun q => q
|}.
Proof.
  - reflexivity.
  - reflexivity.
  - exact popMax_None.
  - exact popMax_Some.
Defined.

Lemma NoDup_bounded_length (l : list nat) (n : nat) :
  NoDup l -> (forall x, x ∈ l -> (x < n)%nat) -> (length l <= n)%nat.
Proof.
  intros Hnd Hlt.
  assert (H : (length l <= length (seq 0 n))%nat).
  { apply submseteq_length. apply NoDup_submseteq; [exact Hnd|].
    intros x Hx. apply elem_of_seq. specialize (Hlt x Hx). lia. }
  rewrite length_seq in H. exact H.
Qed.

Section PredictFacts.

Context {PQ : PriorityQueue}.
Variable T : PLTree.
Variable bases : list (Features -> Q).
Variable features : Features.

(** A walk down the tree from the root, the last node first, with the
    cumulative probability of every node on it: the product of what the
    bases of the nodes from the root to it predict. *)
Inductive walk : list TreeNodeProb -> Prop :=
| walk_root (r : nat) (rn : TreeNode) (pr : Q) :
    treeRoot T = Some r -> tree T !! r = Some rn ->
    basePredict bases features (index rn) = Some pr ->
    walk [mkProb r pr]
| walk_child (np : TreeNodeProb) (path : list TreeNodeProb)
    (nd : TreeNode) (c : nat) (cn : TreeNode) (pc : Q) :
    walk (np :: path) ->
    tree T !! node np = Some nd -> label nd < 0 ->
    c ∈ children nd -> tree T !! c = Some cn ->
    basePredict bases features (index cn) = Some pc ->
    walk (mkProb c (p np * pc)%Q :: np :: path).

(** What the bases predict for [features] lies in [0, 1]. *)
Definition probabilities : Prop :=
  Forall (fun b => (0 <= b features <= 1)%Q) bases.

Lemma basePredict_range (i : Z) (q : Q) :
  probabilities -> basePredict bases features i = Some q -> (0 <= q <= 1)%Q.
Proof.
  intros Hp. unfold basePredict. destruct (i <? 0); [discriminate|].
  destruct (bases !! Z.to_nat i) as [b|] eqn:E; [|discriminate].
  intros H; inversion H; subst q.
  exact (proj1 (Forall_lookup _ _) Hp _ _ E).
Qed.

Lemma Qmult_shrink (a c : Q) :
  (0 <= a)%Q -> (0 <= c <= 1)%Q -> (0 <= a * c <= a)%Q.
Proof. intros Ha [Hc0 Hc1]. split; nra. Qed.

(** Along a walk the cumulative probability stays in [0, 1] and never
    grows from a node to its child. *)
Lemma walk_monotone (path : list TreeNodeProb) :
  probabilities -> walk path ->
  Forall (fun e => (0 <= p e <= 1)%Q) path
  /\ StronglySorted (fun a b => (p a <= p b)%Q) path.
Proof.
  intros Hp Hw. induction Hw as [r rn pr Hr Hrn Hpr
                                | np path nd c cn pc Hw IH Hnd Hlbl Hc Hcn Hpc].
  - pose proof (basePredict_range _ _ Hp Hpr). split.
    + constructor; [exact H|constructor].
    + constructor; [constructor|constructor].
  - destruct IH as [Hrange Hsorted].
    pose proof (basePredict_range _ _ Hp Hpc) as Hpcr.
    inversion Hrange as [|? ? Hnp Hrest]; subst.
    destruct (Qmult_shrink (p np) pc (proj1 Hnp) Hpcr) as [H0 H1].
    split.
    + constructor; [|exact Hrange]. cbn. split; [exact H0|].
      eapply Qle_trans; [exact H1|exact (proj2 Hnp)].
    + constructor; [exact Hsorted|].
      constructor; [exact H1|].
      inversion Hsorted as [|? ? _ Hall]; subst.
      eapply Forall_impl; [exact Hall|]. cbn. intros z Hz.
      eapply Qle_trans; eassumption.
Qed.

(** An entry whose cumulative probability is that of a walk to its node. *)
Definition reached (e : TreeNodeProb) : Prop :=
  exists path, walk (e :: path).

Definition isLeaf (e : TreeNodeProb) : Prop :=
  exists nd, tree T !! node e = Some nd /\ 0 <= label nd.

(** The entries that [pushChildren] pushes for the children [cs] of a node
    whose cumulative probability is [q]. *)
Definition childEntry (q : Q) (c : nat) (e : TreeNodeProb) : Prop :=
  exists cn pc, tree T !! c = Some cn
    /\ basePredict bases features (index cn) = Some pc
    /\ e = mkProb c (q * pc)%Q.

Lemma pushChildren_elements (q : Q) (cs : list nat) (nQueue nQueue' : pq) :
  pushChildren T bases features q cs nQueue = Some nQueue' ->
  exists pushed,
    Forall2 (childEntry q) cs pushed
    /\ Permutation (pq_elements nQueue') (pushed ++ pq_elements nQueue).
Proof.
  revert nQueue. induction cs as [|c cs IH]; intros nQueue; cbn.
  - intros H; inversion H; subst. exists []. split; [constructor|reflexivity].
  - destruct (tree T !! c) as [cn|] eqn:Hcn; [|discriminate].
    destruct (basePredict bases features (index cn)) as [pc|] eqn:Hpc;
      [|discriminate].
    intros H. destruct (IH _ H) as (pushed & Hall & Hperm).
    exists (mkProb c (q * pc)%Q :: pushed). split.
    + constructor; [|exact Hall]. exists cn, pc. repeat split; assumption.
    + rewrite Hperm, pq_push_elements. cbn. symmetry. apply Permutation_middle.
Qed.

(** What holds whenever the loop of [predict] tests its queue. *)
Record loopInv (k_ : Z) (nQueue : pq) (prediction : list TreeNodeProb)
  : Prop := mkLoopInv {
  inv_sorted : StronglySorted (fun a b => (p b <= p a)%Q) prediction;
  inv_best :
    Forall (fun o => Forall (fun e => (p e <= p o)%Q) (pq_elements nQueue))
      prediction;
  inv_queue : Forall reached (pq_elements nQueue);
  inv_emitted : Forall (fun o => reached o /\ isLeaf o) prediction;
  inv_size : 1 <= k_ -> Z.of_nat (length prediction) < k_
}.

(** What holds when the loop has ended. *)
Record loopEnd (k_ : Z) (nQueue : pq) (prediction : list TreeNodeProb)
  : Prop := mkLoopEnd {
  end_sorted : StronglySorted (fun a b => (p b <= p a)%Q) prediction;
  end_best :
    Forall (fun o => Forall (fun e => (p e <= p o)%Q) (pq_elements nQueue))
      prediction;
  end_emitted : Forall (fun o => reached o /\ isLeaf o) prediction;
  end_size : 1 <= k_ -> Z.of_nat (length prediction) <= k_;
  end_exhausted :
    1 <= k_ -> Z.of_nat (length prediction) < k_ -> pq_elements nQueue = []
}.

Lemma StronglySorted_snoc {A} (R : A -> A -> Prop) (l : list A) (x : A) :
  StronglySorted R l -> Forall (fun y => R y x) l ->
  StronglySorted R (l ++ [x]).
Proof.
  induction 1 as [|a l Hl IH Ha]; intros Hx; cbn.
  - constructor; constructor.
  - inversion Hx; subst. constructor; [apply IH; assumption|].
    apply Forall_app. split; [exact Ha|]. constructor; [assumption|constructor].
Qed.

Lemma reached_range (e : TreeNodeProb) :
  probabilities -> reached e -> (0 <= p e <= 1)%Q.
Proof.
  intros Hp [path Hw]. destruct (walk_monotone _ Hp Hw) as [Hr _].
  inversion Hr; subst. assumption.
Qed.

Lemma pushed_reached (np : TreeNodeProb) (nd : TreeNode) (cs : list nat)
    (pushed : list TreeNodeProb) :
  probabilities -> reached np ->
  tree T !! node np = Some nd -> label nd < 0 ->
  (forall c, c ∈ cs -> c ∈ children nd) ->
  Forall2 (childEntry (p np)) cs pushed ->
  Forall (fun e => reached e /\ (p e <= p np)%Q) pushed.
Proof.
  intros Hp Hnp Hnd Hlbl Hin Hall.
  pose proof (reached_range np Hp Hnp) as [Hnp0 _].
  destruct Hnp as [path Hw].
  induction Hall as [|c e cs es (cn & pc & Hcn & Hpc & ->) _ IHall];
    [constructor|].
  constructor.
  - split.
    + exists (np :: path).
      apply (walk_child np path nd c cn pc); try assumption.
      apply Hin. left.
    + cbn. apply Qmult_shrink; [exact Hnp0|].
      exact (basePredict_range _ _ Hp Hpc).
  - apply IHall. intros c' Hc'. apply Hin. right. exact Hc'.
Qed.

Lemma predictLoop_invariant (k_ : Z) (fuel : nat) :
  probabilities ->
  forall (nQueue : pq) (prediction out : list TreeNodeProb) (final : pq),
    loopInv k_ nQueue prediction ->
    predictLoop fuel T bases features k_ nQueue prediction = Some (out, final) ->
    loopEnd k_ final out.
Proof.
  intros Hp. induction fuel as [|fuel IH];
    intros nQueue prediction out final Hinv; cbn [predictLoop]; [discriminate|].
  destruct Hinv as [Hsorted Hbest Hqueue Hemitted Hsize].
  destruct (pq_pop nQueue) as [[np nQueue']|] eqn:Hpop.
  2:{ intros H; inversion H; subst. apply pq_pop_None in Hpop.
      constructor; try assumption.
      - intros Hk. specialize (Hsize Hk). lia.
      - intros _ _. exact Hpop. }
  destruct (pq_pop_Some _ _ _ Hpop) as [Hperm Hmax].
  assert (Hmax' : Forall (fun y => (p y <= p np)%Q) (pq_elements nQueue')).
  { rewrite Hperm in Hmax. inversion Hmax; assumption. }
  assert (Hnp : reached np).
  { rewrite Hperm in Hqueue. inversion Hqueue; assumption. }
  assert (Hqueue' : Forall reached (pq_elements nQueue')).
  { rewrite Hperm in Hqueue. inversion Hqueue; assumption. }
  assert (Hbest_np : Forall (fun o => (p np <= p o)%Q) prediction).
  { eapply Forall_impl; [exact Hbest|]. cbn. intros o Ho.
    rewrite Hperm in Ho. inversion Ho; assumption. }
  assert (Hbest' : Forall (fun o => Forall (fun e => (p e <= p o)%Q)
                                     (pq_elements nQueue')) prediction).
  { eapply Forall_impl; [exact Hbest|]. cbn. intros o Ho.
    rewrite Hperm in Ho. inversion Ho; assumption. }
  destruct (tree T !! node np) as [nd|] eqn:Hnd; [|discriminate].
  destruct (Z.leb_spec 0 (label nd)) as [Hleaf|Hinner].
  - (* a leaf is emitted *)
    assert (Hsorted' : StronglySorted (fun a b => (p b <= p a)%Q)
                         (prediction ++ [np])).
    { apply StronglySorted_snoc; assumption. }
    assert (Hb' : Forall (fun o => Forall (fun e => (p e <= p o)%Q)
                                     (pq_elements nQueue'))
                    (prediction ++ [np])).
    { apply Forall_app. split; [exact Hbest'|].
      constructor; [exact Hmax'|constructor]. }
    assert (He' : Forall (fun o => reached o /\ isLeaf o) (prediction ++ [np])).
    { apply Forall_app. split; [exact Hemitted|].
      constructor; [|constructor]. split; [exact Hnp|]. exists nd. tauto. }
    assert (Hlen : Z.of_nat (length (prediction ++ [np]))
                   = Z.of_nat (length prediction) + 1).
    { rewrite length_app. cbn. lia. }
    unfold sizeAtLeast.
    destruct (Z.leb_spec 0 k_) as [Hk0|Hk0]; cbn [andb].
    2:{ apply IH. constructor; try assumption. lia. }
    destruct (Z.leb_spec k_ (Z.of_nat (length (prediction ++ [np]))))
      as [Hfull|Hmore].
    + intros H; inversion H; subst.
      constructor; try assumption.
      * intros Hk. specialize (Hsize Hk). lia.
      * intros Hk. specialize (Hsize Hk). lia.
    + apply IH. constructor; try assumption. intros _. exact Hmore.
  - (* an inner node is expanded *)
    destruct (pushChildren T bases features (p np) (children nd) nQueue')
      as [nQueue''|] eqn:Hpush; [|discriminate].
    destruct (pushChildren_elements _ _ _ _ Hpush) as (pushed & Hall & Hperm').
    assert (Hpushed : Forall (fun e => reached e /\ (p e <= p np)%Q) pushed).
    { apply (pushed_reached np nd (children nd)); try assumption; auto. }
    apply IH. constructor; try assumption.
    + apply Forall_forall. intros o Ho.
      pose proof (proj1 (Forall_forall _ _) Hbest' o Ho) as Hold.
      pose proof (proj1 (Forall_forall _ _) Hbest_np o Ho) as Hnpo.
      rewrite Hperm'. apply Forall_app. split; [|exact Hold].
      eapply Forall_impl; [exact Hpushed|]. cbn. intros e [_ He].
      eapply Qle_trans; [exact He|exact Hnpo].
    + rewrite Hperm'. apply Forall_app. split; [|exact Hqueue'].
      eapply Forall_impl; [exact Hpushed|]. cbn. tauto.
Qed.

(** *** The loop ends *)

(** The children of a node name it as their parent, no child is listed
    twice, and the root has no parent. *)
Definition treeShaped : Prop :=
  (exists r rn, treeRoot T = Some r /\ tree T !! r = Some rn
                /\ parent rn = None)
  /\ (forall d nd c, tree T !! d = Some nd -> c ∈ children nd ->
        exists nc, tree T !! c = Some nc /\ parent nc = Some d)
  /\ (forall d nd, tree T !! d = Some nd -> NoDup (children nd)).

(** There is a base for the index of every node. *)
Definition basesCover : Prop :=
  forall i nd, tree T !! i = Some nd ->
    0 <= index nd < Z.of_nat (length bases).

(** The nodes waiting in the queue. *)
Definition pending (nQueue : pq) : list nat := node <$> pq_elements nQueue.

(** The nodes popped so far and the nodes waiting: no node comes twice,
    and every one of them is the root or the child of a popped node. *)
Record visitInv (done : list nat) (nQueue : pq) : Prop := mkVisitInv {
  visit_nodup : NoDup (done ++ pending nQueue);
  visit_range : forall c, c ∈ done ++ pending nQueue -> is_Some (tree T !! c);
  visit_parent :
    forall c nc, c ∈ done ++ pending nQueue -> tree T !! c = Some nc ->
      parent nc = None \/ exists d, d ∈ done /\ parent nc = Some d
}.

Lemma pushChildren_total (q : Q) (cs : list nat) (nQueue : pq) :
  basesCover ->
  (forall c, c ∈ cs -> is_Some (tree T !! c)) ->
  exists nQueue', pushChildren T bases features q cs nQueue = Some nQueue'.
Proof.
  intros Hcover. revert nQueue.
  induction cs as [|c cs IH]; intros nQueue Hcs; cbn.
  - eexists; reflexivity.
  - destruct (Hcs c) as [cn Hcn]; [left|]. rewrite Hcn.
    destruct (Hcover c cn Hcn) as [H0 H1]. unfold basePredict.
    replace (index cn <? 0) with false by (symmetry; apply Z.ltb_ge; lia).
    destruct (lookup_lt_is_Some_2 bases (Z.to_nat (index cn))) as [b Hb]; [lia|].
    rewrite Hb. apply IH. intros c' Hc'. apply Hcs. right. exact Hc'.
Qed.

Lemma childEntry_nodes (q : Q) (cs : list nat) (pushed : list TreeNodeProb) :
  Forall2 (childEntry q) cs pushed -> node <$> pushed = cs.
Proof.
  induction 1 as [|c e cs es (cn & pc & _ & _ & ->) _ IH]; [reflexivity|].
  cbn. f_equal. exact IH.
Qed.

Lemma pending_pop (nQueue nQueue' : pq) (np : TreeNodeProb) :
  pq_pop nQueue = Some (np, nQueue') ->
  Permutation (pending nQueue) (node np :: pending nQueue').
Proof.
  intros Hpop. destruct (pq_pop_Some _ _ _ Hpop) as [Hperm _].
  unfold pending. rewrite Hperm. reflexivity.
Qed.

Lemma visit_emit (done : list nat) (nQueue nQueue' : pq) (np : TreeNodeProb) :
  visitInv done nQueue ->
  pq_pop nQueue = Some (np, nQueue') ->
  visitInv (done ++ [node np]) nQueue'.
Proof.
  intros [Hnd Hrange Hpar] Hpop.
  assert (Hperm : Permutation ((done ++ [node np]) ++ pending nQueue')
                    (done ++ pending nQueue)).
  { rewrite (pending_pop _ _ _ Hpop), <- app_assoc. reflexivity. }
  constructor.
  - rewrite Hperm. exact Hnd.
  - intros c Hc. apply Hrange. rewrite <- Hperm. exact Hc.
  - intros c nc Hc Hnc. rewrite Hperm in Hc.
    destruct (Hpar c nc Hc Hnc) as [H | (d & Hd & H)]; [left; exact H|].
    right. exists d. split; [|exact H]. apply elem_of_app. left. exact Hd.
Qed.

Lemma visit_expand (done : list nat) (nQueue nQueue' nQueue'' : pq)
    (np : TreeNodeProb) (nd : TreeNode) :
  treeShaped ->
  visitInv done nQueue ->
  pq_pop nQueue = Some (np, nQueue') ->
  tree T !! node np = Some nd ->
  pushChildren T bases features (p np) (children nd) nQueue' = Some nQueue'' ->
  visitInv (done ++ [node np]) nQueue''.
Proof.
  intros (_ & Hchild & Hnodup) [Hnd Hrange Hpar] Hpop Hnode Hpush.
  destruct (pushChildren_elements _ _ _ _ Hpush) as (pushed & Hall & Hperm').
  assert (Hpend : Permutation (pending nQueue'')
                    (children nd ++ pending nQueue')).
  { unfold pending. rewrite Hperm', fmap_app, (childEntry_nodes _ _ _ Hall).
    reflexivity. }
  assert (Hperm : Permutation ((done ++ [node np]) ++ pending nQueue'')
                    (children nd ++ (done ++ pending nQueue))).
  { rewrite Hpend, (pending_pop _ _ _ Hpop), <- !app_assoc. cbn [app].
    rewrite (Permutation_app_comm (children nd)), !app_assoc.
    rewrite <- !app_assoc. cbn [app].
    rewrite (Permutation_app_comm (children nd)), <- !app_assoc. cbn [app].
    rewrite <- Permutation_middle. reflexivity. }
  assert (Hin : node np ∈ pending nQueue).
  { rewrite (pending_pop _ _ _ Hpop). left. }
  assert (Hfresh : forall c, c ∈ children nd -> c ∉ done ++ pending nQueue).
  { intros c Hc Hold.
    destruct (Hchild _ _ _ Hnode Hc) as (nc & Hnc & Hpc).
    destruct (Hpar c nc Hold Hnc) as [H | (d & Hd & H)]; [congruence|].
    assert (d = node np) by congruence. subst d.
    apply NoDup_app in Hnd. destruct Hnd as (_ & Hdisj & _).
    exact (Hdisj _ Hd Hin). }
  constructor.
  - rewrite Hperm. apply NoDup_app.
    split; [exact (Hnodup _ _ Hnode)|]. split; [exact Hfresh|exact Hnd].
  - intros c Hc. rewrite Hperm in Hc. apply elem_of_app in Hc.
    destruct Hc as [Hc|Hc]; [|apply Hrange; exact Hc].
    destruct (Hchild _ _ _ Hnode Hc) as (nc & Hnc & _). eauto.
  - intros c nc Hc Hnc. rewrite Hperm in Hc. apply elem_of_app in Hc.
    destruct Hc as [Hc|Hc].
    + destruct (Hchild _ _ _ Hnode Hc) as (nc' & Hnc' & Hpc).
      right. exists (node np). split; [|congruence].
      apply elem_of_app. right. left.
    + destruct (Hpar c nc Hc Hnc) as [H | (d & Hd & H)]; [left; exact H|].
      right. exists d. split; [|exact H]. apply elem_of_app. left. exact Hd.
Qed.

Lemma visit_bound (done : list nat) (nQueue : pq) :
  visitInv done nQueue -> (length done <= length (tree T))%nat.
Proof.
  intros [Hnd Hrange _]. apply NoDup_bounded_length.
  - apply NoDup_app in Hnd. tauto.
  - intros x Hx. destruct (Hrange x) as [nx Hnx].
    + apply elem_of_app. left. exact Hx.
    + eapply lookup_lt_Some. exact Hnx.
Qed.

(** With more fuel than the tree has nodes left to pop, the loop ends. *)
Lemma predictLoop_total (k_ : Z) (fuel : nat) :
  treeShaped -> basesCover ->
  forall (done : list nat) (nQueue : pq) (prediction : list TreeNodeProb),
    visitInv done nQueue ->
    (length (tree T) < fuel + length done)%nat ->
    exists res,
      predictLoop fuel T bases features k_ nQueue prediction = Some res.
Proof.
  intros Hshape Hcover. induction fuel as [|fuel IH];
    intros done nQueue prediction Hinv Hfuel.
  - pose proof (visit_bound _ _ Hinv). lia.
  - cbn [predictLoop].
    destruct (pq_pop nQueue) as [[np nQueue']|] eqn:Hpop;
      [|eexists; reflexivity].
    destruct (visit_range _ _ Hinv (node np)) as [nd Hnd].
    { apply elem_of_app. right. rewrite (pending_pop _ _ _ Hpop). left. }
    rewrite Hnd. destruct (0 <=? label nd).
    + destruct (sizeAtLeast (prediction ++ [np]) k_); [eexists; reflexivity|].
      apply (IH (done ++ [node np])).
      * eapply visit_emit; eassumption.
      * rewrite length_app. cbn. lia.
    + destruct (pushChildren_total (p np) (children nd) nQueue' Hcover)
        as [nQueue'' Hpush].
      { intros c Hc. destruct Hshape as (_ & Hchild & _).
        destruct (Hchild _ _ _ Hnd Hc) as (nc & Hnc & _). eauto. }
      rewrite Hpush. apply (IH (done ++ [node np])).
      * eapply visit_expand; eassumption.
      * rewrite length_app. cbn. lia.
Qed.

End PredictFacts.

(** *** The leaves that the loop has not met *)

Section PredictAll.

Context {PQ : PriorityQueue}.
Variable T : PLTree.
Variable bases : list (Features -> Q).
Variable features : Features.

Local Abbreviation walk_ := (walk T bases features).

(** Every walk to a leaf has met the queue, or its leaf is predicted. *)
Definition coverInv (nQueue : pq) (prediction : list TreeNodeProb) : Prop :=
  forall e path,
    walk_ (e :: path) -> isLeaf T e ->
    e ∈ prediction
    \/ exists x, x ∈ e :: path /\ x ∈ pq_elements nQueue.

Lemma walk_inner (w : list TreeNodeProb) :
  walk_ w ->
  Forall (fun x => exists nd, tree T !! node x = Some nd /\ label nd < 0)
    (tail w).
Proof.
  intros Hw. induction Hw as [r rn pr Hr Hrn Hpr
                             | np path nd c cn pc Hw IH Hnd Hlbl Hc Hcn Hpc].
  - constructor.
  - cbn [tail] in *. constructor; [|exact IH]. exists nd. split; assumption.
Qed.

Lemma walk_next (w : list TreeNodeProb) (x : TreeNodeProb) :
  walk_ w -> x ∈ tail w ->
  exists nd c cn pc,
    tree T !! node x = Some nd /\ c ∈ children nd /\ tree T !! c = Some cn
    /\ basePredict bases features (index cn) = Some pc
    /\ mkProb c (p x * pc)%Q ∈ w.
Proof.
  intros Hw. induction Hw as [r rn pr Hr Hrn Hpr
                             | np path nd c cn pc Hw IH Hnd Hlbl Hc Hcn Hpc].
  - cbn. intros Hx. apply elem_of_nil in Hx. contradiction.
  - cbn [tail] in *. intros Hx. apply elem_of_cons in Hx.
    destruct Hx as [-> | Hx].
    + exists nd, c, cn, pc. repeat (split; [assumption|]).
      apply list_elem_of_here.
    + destruct (IH Hx) as (nd' & c' & cn' & pc' & H1 & H2 & H3 & H4 & H5).
      exists nd', c', cn', pc'. repeat (split; [assumption|]).
      apply list_elem_of_further. exact H5.
Qed.

Lemma pushed_child (q : Q) (cs : list nat) (pushed : list TreeNodeProb)
    (c : nat) (cn : TreeNode) (pc : Q) :
  Forall2 (childEntry T bases features q) cs pushed ->
  c ∈ cs -> tree T !! c = Some cn ->
  basePredict bases features (index cn) = Some pc ->
  mkProb c (q * pc)%Q ∈ pushed.
Proof.
  intros Hall Hc Hcn Hpc. apply list_elem_of_lookup in Hc. destruct Hc as [i Hi].
  destruct (Forall2_lookup_l _ _ _ _ _ Hall Hi)
    as (e & He & cn' & pc' & Hcn' & Hpc' & ->).
  apply list_elem_of_lookup. exists i.
  rewrite Hcn in Hcn'. inversion Hcn'; subst cn'.
  rewrite Hpc in Hpc'. inversion Hpc'; subst pc'. exact He.
Qed.

Lemma predictLoop_covers (k_ : Z) (fuel : nat) :
  forall (nQueue : pq) (prediction out : list TreeNodeProb) (final : pq),
    coverInv nQueue prediction ->
    predictLoop fuel T bases features k_ nQueue prediction = Some (out, final) ->
    coverInv final out.
Proof.
  induction fuel as [|fuel IH];
    intros nQueue prediction out final Hinv; cbn [predictLoop]; [discriminate|].
  destruct (pq_pop nQueue) as [[np nQueue']|] eqn:Hpop.
  2:{ intros H; inversion H; subst. exact Hinv. }
  destruct (pq_pop_Some _ _ _ Hpop) as [Hperm _].
  destruct (tree T !! node np) as [nd|] eqn:Hnd; [|discriminate].
  destruct (Z.leb_spec 0 (label nd)) as [Hleaf | Hinner].
  - assert (Hinv' : coverInv nQueue' (prediction ++ [np])).
    { intros e path Hw He.
      destruct (Hinv e path Hw He) as [Hin | (x & Hx & Hq)].
      - left. apply elem_of_app. left. exact Hin.
      - rewrite Hperm in Hq. apply elem_of_cons in Hq.
        destruct Hq as [-> | Hq]; [|right; exists x; split; assumption].
        left. apply elem_of_app. right.
        apply elem_of_cons in Hx. destruct Hx as [-> | Hx];
          [apply list_elem_of_here|].
        exfalso. pose proof (walk_inner _ Hw) as Hin. cbn [tail] in Hin.
        rewrite Forall_forall in Hin.
        destruct (Hin np Hx) as (nd' & Hnd' & Hl). rewrite Hnd in Hnd'.
        inversion Hnd'; subst nd'. lia. }
    destruct (sizeAtLeast (prediction ++ [np]) k_).
    + intros H; inversion H; subst. exact Hinv'.
    + apply IH. exact Hinv'.
  - destruct (pushChildren T bases features (p np) (children nd) nQueue')
      as [nQueue''|] eqn:Hpush; [|discriminate].
    destruct (pushChildren_elements _ _ _ _ _ _ _ Hpush)
      as (pushed & Hall & Hperm').
    apply IH. intros e path Hw He.
    destruct (Hinv e path Hw He) as [Hin | (x & Hx & Hq)]; [left; exact Hin|].
    right. rewrite Hperm in Hq. apply elem_of_cons in Hq.
    destruct Hq as [-> | Hq].
    + apply elem_of_cons in Hx. destruct Hx as [-> | Hx].
      * exfalso. destruct He as (nd' & Hnd' & Hl). rewrite Hnd in Hnd'.
        inversion Hnd'; subst nd'. lia.
      * destruct (walk_next (e :: path) np Hw Hx)
          as (nd' & c & cn & pc & H1 & H2 & H3 & H4 & H5).
        rewrite Hnd in H1. inversion H1; subst nd'.
        exists (mkProb c (p np * pc)%Q). split; [exact H5|].
        rewrite Hperm'. apply elem_of_app. left.
        apply (pushed_child (p np) (children nd) pushed c cn pc);
          assumption.
    + exists x. split; [exact Hx|]. rewrite Hperm'.
      apply elem_of_app. right. exact Hq.
Qed.

Lemma predictLoop_distinct (k_ : Z) (fuel : nat) :
  treeShaped T ->
  forall (done : list nat) (nQueue : pq)
         (prediction out : list TreeNodeProb) (final : pq),
    visitInv T done nQueue ->
    NoDup (node <$> prediction) ->
    (forall x, x ∈ prediction -> node x ∈ done) ->
    predictLoop fuel T bases features k_ nQueue prediction = Some (out, final) ->
    NoDup (node <$> out).
Proof.
  intros Hshape. induction fuel as [|fuel IH];
    intros done nQueue prediction out final Hv Hnd Hsub; cbn [predictLoop];
    [discriminate|].
  destruct (pq_pop nQueue) as [[np nQueue']|] eqn:Hpop.
  2:{ intros H; inversion H; subst. exact Hnd. }
  destruct (tree T !! node np) as [nd|] eqn:Hn; [|discriminate].
  assert (Hfresh : node np ∉ done).
  { pose proof (visit_nodup _ _ _ Hv) as Hno.
    rewrite (pending_pop _ _ _ Hpop) in Hno.
    apply NoDup_app in Hno. destruct Hno as (_ & Hdis & _).
    intros Hin. apply (Hdis _ Hin). apply list_elem_of_here. }
  destruct (Z.leb_spec 0 (label nd)) as [Hleaf | Hinner].
  - assert (Hnd' : NoDup (node <$> prediction ++ [np])).
    { rewrite fmap_app. apply NoDup_app. split; [exact Hnd|]. split.
      - intros x Hx Hx'. cbn in Hx'. apply list_elem_of_singleton in Hx'.
        subst x. apply list_elem_of_fmap in Hx.
        destruct Hx as (y & Hy & Hin). apply Hfresh. rewrite Hy.
        apply Hsub. exact Hin.
      - cbn. apply NoDup_singleton. }
    destruct (sizeAtLeast (prediction ++ [np]) k_).
    + intros H; inversion H; subst. exact Hnd'.
    + apply (IH (done ++ [node np]) nQueue' _ out final
               (visit_emit T done nQueue nQueue' np Hv Hpop) Hnd').
      intros x Hx. apply elem_of_app in Hx. apply elem_of_app.
      destruct Hx as [Hx | Hx]; [left; apply Hsub; exact Hx|].
      right. apply list_elem_of_singleton in Hx. subst x.
      apply list_elem_of_here.
  - destruct (pushChildren T bases features (p np) (children nd) nQueue')
      as [nQueue''|] eqn:Hpush; [|discriminate].
    apply (IH (done ++ [node np]) nQueue'' _ out final
             (visit_expand T bases features done nQueue nQueue' nQueue'' np nd
                Hshape Hv Hpop Hn Hpush) Hnd).
    intros x Hx. apply elem_of_app. left. apply Hsub. exact Hx.
Qed.

End PredictAll.

Section PredictRun.

Context {PQ : PriorityQueue}.
Variable T : PLTree.
Variable bases : list (Features -> Q).
Variable features : Features.

Lemma walk_root_in (w : list TreeNodeProb) (r : nat) (rn : TreeNode) (pr : Q) :
  walk T bases features w ->
  treeRoot T = Some r -> tree T !! r = Some rn ->
  basePredict bases features (index rn) = Some pr ->
  mkProb r pr ∈ w.
Proof.
  intros Hw Hr Hrn Hpr.
  induction Hw as [r' rn' pr' Hr' Hrn' Hpr'
                  | np path nd c cn pc Hw IH Hnd Hlbl Hc Hcn Hpc].
  - rewrite Hr in Hr'. inversion Hr'; subst r'.
    rewrite Hrn in Hrn'. inversion Hrn'; subst rn'.
    rewrite Hpr in Hpr'. inversion Hpr'; subst pr'. apply list_elem_of_here.
  - apply list_elem_of_further. exact IH.
Qed.

(** What a run of [predict] on an empty vector ends with. *)
Lemma predict_facts (k_ : Z) (fuel : nat) (out : list TreeNodeProb) :
  probabilities bases features ->
  predict fuel T [] features bases k_ = Some out ->
  exists final,
    loopEnd T bases features k_ final out /\ coverInv T bases features final out.
Proof.
  intros Hp. unfold predict, predictStart.
  destruct (treeRoot T) as [r|] eqn:Hr; [|discriminate].
  destruct (tree T !! r) as [rn|] eqn:Hrn; [|discriminate].
  destruct (basePredict bases features (index rn)) as [pr|] eqn:Hpr;
    [|discriminate].
  set (nQueue := pq_push (mkProb r pr) pq_empty).
  destruct (predictLoop fuel T bases features k_ nQueue [])
    as [[out' final]|] eqn:Hloop; [|discriminate].
  cbn. intros H; inversion H; subst out'. clear H.
  assert (Hel : Permutation (pq_elements nQueue) [mkProb r pr]).
  { unfold nQueue. rewrite pq_push_elements, pq_empty_elements. reflexivity. }
  exists final. split.
  - apply (predictLoop_invariant T bases features k_ fuel Hp nQueue [] out
             final); [|exact Hloop].
    constructor.
    + constructor.
    + constructor.
    + rewrite Hel. constructor; [|constructor].
      exists []. eapply walk_root; eassumption.
    + constructor.
    + cbn. lia.
  - apply (predictLoop_covers T bases features k_ fuel nQueue [] out final);
      [|exact Hloop].
    intros e path Hw He. right. exists (mkProb r pr). split.
    + apply (walk_root_in _ r rn pr Hw Hr Hrn Hpr).
    + rewrite Hel. apply list_elem_of_here.
Qed.

Lemma predict_run (k_ : Z) (fuel : nat) :
  treeShaped T -> basesCover T bases ->
  (length (tree T) < fuel)%nat ->
  exists out,
    predict fuel T [] features bases k_ = Some out
    /\ NoDup (node <$> out).
Proof.
  intros Hshape Hcover Hfuel. unfold predict, predictStart.
  pose proof Hshape as ((r & rn & Hr & Hrn & Hpar) & Hchild & Hnodup).
  rewrite Hr, Hrn.
  destruct (Hcover r rn Hrn) as [H0 H1]. unfold basePredict.
  replace (index rn <? 0) with false by (symmetry; apply Z.ltb_ge; lia).
  destruct (lookup_lt_is_Some_2 bases (Z.to_nat (index rn))) as [b Hb]; [lia|].
  rewrite Hb.
  set (nQueue := pq_push (mkProb r (b features)) pq_empty).
  assert (Hpend : Permutation (pending nQueue) [r]).
  { unfold pending, nQueue.
    rewrite pq_push_elements, pq_empty_elements. reflexivity. }
  assert (Hv : visitInv T [] nQueue).
  { constructor; cbn [app].
    - rewrite Hpend. apply NoDup_singleton.
    - intros c Hc. rewrite Hpend in Hc.
      apply list_elem_of_singleton in Hc. subst c. eauto.
    - intros c nc Hc Hnc. rewrite Hpend in Hc.
      apply list_elem_of_singleton in Hc. subst c.
      left. congruence. }
  destruct (predictLoop_total T bases features k_ fuel Hshape Hcover
              [] nQueue [] Hv) as [[out final] Hloop].
  { cbn [length]. lia. }
  rewrite Hloop. exists out. split; [reflexivity|].
  apply (predictLoop_distinct T bases features k_ fuel Hshape [] nQueue []
           out final Hv); [constructor | | exact Hloop].
  intros x Hx. apply elem_of_nil in Hx. contradiction.
Qed.

End PredictRun.

(** *** The number of predictions *)

Section PredictCount.

Context {PQ : PriorityQueue}.
Variable T : PLTree.
Variable bases : list (Features -> Q).
Variable features : Features.






End PredictCount.


(** ** The positive and the negative nodes of a row *)

Section AssignFacts.

Variable T : PLTree.

(** [onPath n a]: [a] is on the way from [n] up along the parents. *)
Inductive onPath : nat -> nat -> Prop :=
| onPath_here (n : nat) (nd : TreeNode) :
    tree T !! n = Some nd -> onPath n n
| onPath_up (n : nat) (nd : TreeNode) (q a : nat) :
    tree T !! n = Some nd -> parent nd = Some q -> onPath q a -> onPath n a.

(** The nodes on the way from the leaf of a label of the row to the root,
    and the children of such nodes that are not such nodes. *)
Definition positive (rLabels : list Z) (a : nat) : Prop :=
  exists y n, y ∈ rLabels /\ treeLeaves T !! y = Some n /\ onPath n a.

Definition negative (rLabels : list Z) (c : nat) : Prop :=
  exists d nd, positive rLabels d /\ tree T !! d = Some nd
               /\ c ∈ children nd /\ ~ positive rLabels c.

(** A tree: parents and children name each other, there is one root, and
    a rank grows from every parent to its children. *)
Record wellFormed (rank : nat -> nat) : Prop := mkWellFormed {
  wf_shaped : treeShaped T;
  wf_listed :
    forall c nc d, tree T !! c = Some nc -> parent nc = Some d ->
      exists nd, tree T !! d = Some nd /\ c ∈ children nd;
  wf_one_root :
    forall r c nc, treeRoot T = Some r -> tree T !! c = Some nc ->
      parent nc = None -> c = r;
  wf_rank :
    forall c nc d, tree T !! c = Some nc -> parent nc = Some d ->
      (rank d < rank c)%nat
}.

(** Every label of the row has its leaf in [treeLeaves]. *)
Definition leavesKnown (rLabels : list Z) : Prop :=
  forall y, y ∈ rLabels ->
    exists n nd, treeLeaves T !! y = Some n /\ tree T !! n = Some nd.

Variable rank : nat -> nat.
Hypothesis Hwf : wellFormed rank.

Lemma onPath_end (n a : nat) : onPath n a -> is_Some (tree T !! a).
Proof. induction 1; eauto. Qed.

Lemma onPath_parent (n a d : nat) (na : TreeNode) :
  onPath n a -> tree T !! a = Some na -> parent na = Some d -> onPath n d.
Proof.
  intros Hpath Ha Hd. induction Hpath as [n nd Hn | n nd q a Hn Hq Hpath IH].
  - destruct (wf_listed _ Hwf _ _ _ Ha Hd) as (dd & Hdd & _).
    eapply onPath_up; [exact Ha|exact Hd|]. eapply onPath_here. exact Hdd.
  - eapply onPath_up; [exact Hn|exact Hq|]. apply IH. exact Ha.
Qed.

Lemma walkUp_spec (fuel n : nat) (nd : TreeNode) (P0 : gset nat) :
  tree T !! n = Some nd -> (rank n < fuel)%nat ->
  exists P', walkUp fuel T n P0 = Some P'
    /\ forall a, a ∈ P' <-> a ∈ P0 \/ (onPath n a /\ a <> n).
Proof.
  revert n nd P0. induction fuel as [|fuel IH]; intros n nd P0 Hn Hfuel; [lia|].
  cbn [walkUp]. rewrite Hn. destruct (parent nd) as [q|] eqn:Hq.
  - destruct (wf_listed _ Hwf _ _ _ Hn Hq) as (qd & Hqd & _).
    pose proof (wf_rank _ Hwf _ _ _ Hn Hq) as Hrank.
    destruct (IH q qd ({[q]} ∪ P0) Hqd ltac:(lia)) as (P' & HP' & Hspec).
    exists P'. split; [exact HP'|]. intros a. rewrite Hspec.
    rewrite elem_of_union, elem_of_singleton. split.
    + intros [[-> | H0] | [Hpath Hne]].
      * right. split; [|intros ->; lia].
        eapply onPath_up; [exact Hn|exact Hq|]. eapply onPath_here; exact Hqd.
      * left. exact H0.
      * right. split; [eapply onPath_up; eassumption|].
        intros ->. clear -Hwf Hpath Hrank.
        assert (Hle : forall x y, onPath x y -> (rank y <= rank x)%nat).
        { induction 1 as [|x xd z y Hx Hz _ IHp]; [lia|].
          pose proof (wf_rank _ Hwf _ _ _ Hx Hz). lia. }
        specialize (Hle _ _ Hpath). lia.
    + intros [H0 | [Hpath Hne]]; [left; right; exact H0|].
      inversion Hpath as [? ? _ | ? nd' q' ? Hn' Hq' Hpath']; subst;
        [congruence|].
      assert (q' = q) by congruence. subst q'.
      destruct (decide (a = q)) as [->|Hne']; [left; left; reflexivity|].
      right. split; assumption.
  - exists P0. split; [reflexivity|]. intros a. split; [tauto|].
    intros [H0 | [Hpath Hne]]; [exact H0|].
    inversion Hpath; subst; congruence.
Qed.

Lemma positiveNodes_spec (fuel : nat) (rLabels : list Z) (P0 : gset nat) :
  leavesKnown rLabels ->
  (forall n nd, tree T !! n = Some nd -> (rank n < fuel)%nat) ->
  exists P', positiveNodes fuel T rLabels P0 = Some P'
    /\ forall a, a ∈ P' <-> a ∈ P0 \/ positive rLabels a.
Proof.
  intros Hknown Hfuel. revert P0 Hknown.
  induction rLabels as [|y ys IH]; intros P0 Hknown; cbn [positiveNodes].
  - exists P0. split; [reflexivity|]. intros a. split; [tauto|].
    intros [H | (y & n & Hy & _)]; [exact H|].
    apply elem_of_nil in Hy. contradiction.
  - destruct (Hknown y) as (n & nd & Hleaf & Hn); [left|]. rewrite Hleaf.
    destruct (walkUp_spec fuel n nd ({[n]} ∪ P0) Hn (Hfuel _ _ Hn))
      as (P1 & HP1 & Hspec1).
    rewrite HP1.
    destruct (IH P1) as (P' & HP' & Hspec).
    { intros y' Hy'. apply Hknown. right. exact Hy'. }
    exists P'. split; [exact HP'|]. intros a. rewrite Hspec, Hspec1.
    rewrite elem_of_union, elem_of_singleton. unfold positive. split.
    + intros [[[-> | H0] | [Hpath _]] | (y' & n' & Hy' & Hl' & Hp')].
      * right. exists y, n. split; [left|]. split; [exact Hleaf|].
        eapply onPath_here; exact Hn.
      * left. exact H0.
      * right. exists y, n. split; [left|]. split; assumption.
      * right. exists y', n'. split; [right; exact Hy'|]. split; assumption.
    + intros [H0 | (y' & n' & Hy' & Hl' & Hp')]; [left; left; right; exact H0|].
      apply elem_of_cons in Hy'. destruct Hy' as [-> | Hy'].
      * assert (n' = n) by congruence. subst n'.
        destruct (decide (a = n)) as [->|Hne]; [left; left; left; reflexivity|].
        left. right. split; assumption.
      * right. exists y', n'. split; [exact Hy'|]. split; assumption.
Qed.

(** *** The breadth-first search for the negative nodes *)

(** The nodes popped so far, the queue and the negative nodes found, for
    the positive nodes [P] and the root [r]. *)
Record searchInv (P : gset nat) (r : nat) (done nQueue : list nat)
    (N : gset nat) : Prop := mkSearchInv {
  search_nodup : NoDup (done ++ nQueue);
  search_range : forall c, c ∈ done ++ nQueue -> is_Some (tree T !! c);
  search_parent :
    forall c nc, c ∈ done ++ nQueue -> tree T !! c = Some nc ->
      parent nc = None \/ exists d, d ∈ done /\ parent nc = Some d;
  search_negative :
    forall c, c ∈ N <->
      exists d nd, d ∈ done /\ tree T !! d = Some nd
                   /\ c ∈ children nd /\ c ∉ P;
  search_pushed :
    forall d nd c, d ∈ done -> tree T !! d = Some nd -> c ∈ children nd ->
      c ∈ P -> c ∈ done ++ nQueue;
  search_positive : forall c, c ∈ done ++ nQueue -> c ∈ P;
  search_root : r ∈ done ++ nQueue
}.

Lemma search_step (P : gset nat) (r : nat) (done nQueue : list nat)
    (N : gset nat) (n : nat) (nd : TreeNode) :
  searchInv P r done (n :: nQueue) N ->
  tree T !! n = Some nd ->
  searchInv P r (done ++ [n])
    (nQueue ++ List.filter (fun c => bool_decide (c ∈ P)) (children nd))
    (list_to_set
       (List.filter (fun c => negb (bool_decide (c ∈ P))) (children nd)) ∪ N).
Proof.
  intros [Hnd Hrange Hpar Hneg Hpushed Hpos Hroot] Hn.
  destruct (wf_shaped _ Hwf) as (_ & Hchild & Hnodup).
  set (pos := List.filter (fun c => bool_decide (c ∈ P)) (children nd)).
  assert (Hposin : forall c, c ∈ pos <-> c ∈ children nd /\ c ∈ P).
  { intros c. unfold pos.
    rewrite list_elem_of_In, List.filter_In, bool_decide_eq_true,
      <- list_elem_of_In. reflexivity. }
  assert (Hperm : Permutation ((done ++ [n]) ++ nQueue ++ pos)
                    (pos ++ done ++ n :: nQueue)).
  { rewrite (Permutation_app_comm pos), <- !app_assoc. reflexivity. }
  assert (Hfresh : forall c, c ∈ children nd -> c ∉ done ++ n :: nQueue).
  { intros c Hc Hold.
    destruct (Hchild _ _ _ Hn Hc) as (nc & Hnc & Hpc).
    destruct (Hpar c nc Hold Hnc) as [H | (d & Hd & H)]; [congruence|].
    assert (d = n) by congruence. subst d.
    apply NoDup_app in Hnd. destruct Hnd as (_ & Hdisj & _).
    apply (Hdisj _ Hd). left. }
  constructor.
  - rewrite Hperm. apply NoDup_app. split; [|split; [|exact Hnd]].
    + unfold pos. apply NoDup_ListNoDup, List.NoDup_filter, NoDup_ListNoDup.
      exact (Hnodup _ _ Hn).
    + intros c Hc. apply Hfresh. apply Hposin in Hc. tauto.
  - intros c Hc. rewrite Hperm in Hc. apply elem_of_app in Hc.
    destruct Hc as [Hc|Hc]; [|apply Hrange; exact Hc].
    apply Hposin in Hc. destruct Hc as [Hc _].
    destruct (Hchild _ _ _ Hn Hc) as (nc & Hnc & _). eauto.
  - intros c nc Hc Hnc. rewrite Hperm in Hc. apply elem_of_app in Hc.
    destruct Hc as [Hc|Hc].
    + apply Hposin in Hc. destruct Hc as [Hc _].
      destruct (Hchild _ _ _ Hn Hc) as (nc' & Hnc' & Hpc).
      right. exists n. split; [|congruence]. apply elem_of_app. right. left.
    + destruct (Hpar c nc Hc Hnc) as [H | (d & Hd & H)]; [left; exact H|].
      right. exists d. split; [|exact H]. apply elem_of_app. left. exact Hd.
  - intros c. rewrite elem_of_union, elem_of_list_to_set, Hneg.
    rewrite list_elem_of_In, List.filter_In, negb_true_iff,
      bool_decide_eq_false, <- list_elem_of_In.
    split.
    + intros [[Hc HcP] | (d & dd & Hd & Hdd & Hc & HcP)].
      * exists n, nd. split; [apply elem_of_app; right; left|]. tauto.
      * exists d, dd. split; [apply elem_of_app; left; exact Hd|]. tauto.
    + intros (d & dd & Hd & Hdd & Hc & HcP).
      apply elem_of_app in Hd. destruct Hd as [Hd|Hd].
      * right. exists d, dd. tauto.
      * apply list_elem_of_singleton in Hd. subst d.
        assert (dd = nd) by congruence. subst dd. left. tauto.
  - intros d dd c Hd Hdd Hc HcP. rewrite Hperm.
    apply elem_of_app in Hd. destruct Hd as [Hd|Hd].
    + apply elem_of_app. right. exact (Hpushed d dd c Hd Hdd Hc HcP).
    + apply list_elem_of_singleton in Hd. subst d.
      assert (dd = nd) by congruence. subst dd.
      apply elem_of_app. left. apply Hposin. tauto.
  - intros c Hc. rewrite Hperm in Hc. apply elem_of_app in Hc.
    destruct Hc as [Hc|Hc]; [apply Hposin in Hc; tauto|exact (Hpos c Hc)].
  - rewrite Hperm. apply elem_of_app. right. exact Hroot.
Qed.

Lemma search_bound (P : gset nat) (r : nat) (done nQueue : list nat)
    (N : gset nat) :
  searchInv P r done nQueue N ->
  (length done + length nQueue <= length (tree T))%nat.
Proof.
  intros [Hnd Hrange _ _ _ _ _]. rewrite <- length_app.
  apply NoDup_bounded_length; [exact Hnd|].
  intros x Hx. destruct (Hrange x Hx) as [nx Hnx].
  eapply lookup_lt_Some. exact Hnx.
Qed.

(** With fuel for the nodes not yet popped, the search ends, and then its
    invariant holds with an empty queue. *)
Lemma negativeNodes_spec (P : gset nat) (r : nat) (fuel : nat) :
  forall (done nQueue : list nat) (N : gset nat),
    searchInv P r done nQueue N ->
    (length (tree T) <= fuel + length done)%nat ->
    exists N' done',
      negativeNodes fuel T P nQueue N = Some N'
      /\ searchInv P r done' [] N'.
Proof.
  induction fuel as [|fuel IH]; intros done nQueue N Hinv Hfuel.
  - pose proof (search_bound _ _ _ _ _ Hinv) as Hb.
    destruct nQueue as [|n nQueue]; [|cbn in Hb; lia].
    exists N, done. split; [reflexivity|exact Hinv].
  - destruct nQueue as [|n nQueue].
    + exists N, done. split; [reflexivity|exact Hinv].
    + cbn [negativeNodes].
      destruct (search_range _ _ _ _ _ Hinv n) as [nd Hn].
      { apply elem_of_app. right. left. }
      rewrite Hn. apply (IH (done ++ [n])).
      * apply search_step; assumption.
      * rewrite length_app. cbn. lia.
Qed.

(** What [assignRow] computes: the positive nodes are the nodes on the
    ways from the leaves of the labels to the root, the negative nodes are
    their other children, and a row without labels makes the root
    negative. *)
Lemma assignRow_spec (fuel : nat) (rLabels : list Z) :
  leavesKnown rLabels ->
  (forall n nd, tree T !! n = Some nd -> (rank n < fuel)%nat) ->
  (length (tree T) <= fuel)%nat ->
  exists r nPositive nNegative,
    treeRoot T = Some r
    /\ assignRow fuel T rLabels = Some (nPositive, nNegative)
    /\ (rLabels = [] -> nPositive = ∅ /\ nNegative = {[r]})
    /\ (rLabels <> [] ->
        (forall a, a ∈ nPositive <-> positive rLabels a)
        /\ (forall c, c ∈ nNegative <-> negative rLabels c)).
Proof.
  intros Hknown Hrank Hfuel.
  destruct (wf_shaped _ Hwf) as ((r & rn & Hr & Hrn & Hrp) & Hchild & Hnodup).
  exists r. unfold assignRow. rewrite Hr.
  destruct rLabels as [|y ys].
  { exists ∅, {[r]}. repeat split; try reflexivity; congruence. }
  destruct (positiveNodes_spec fuel (y :: ys) ∅ Hknown Hrank)
    as (P & HP & HPspec).
  rewrite HP.
  assert (HPpos : forall a, a ∈ P <-> positive (y :: ys) a).
  { intros a. rewrite HPspec. split; [|tauto].
    intros [H|H]; [|exact H]. apply not_elem_of_empty in H. contradiction. }
  assert (Hup : forall a na d, a ∈ P -> tree T !! a = Some na ->
                  parent na = Some d -> d ∈ P).
  { intros a na d Ha Hna Hd. apply HPpos in Ha. apply HPpos.
    destruct Ha as (y' & n' & Hy' & Hl' & Hpath).
    exists y', n'. split; [exact Hy'|]. split; [exact Hl'|].
    eapply onPath_parent; eassumption. }
  assert (Hin : forall a, a ∈ P -> is_Some (tree T !! a)).
  { intros a Ha. apply HPpos in Ha. destruct Ha as (y' & n' & _ & _ & Hpath).
    eapply onPath_end. exact Hpath. }
  assert (HrP : r ∈ P).
  { destruct (Hknown y) as (n & nd & Hleaf & Hn); [left|].
    assert (Hn' : n ∈ P).
    { apply HPpos. exists y, n. split; [left|]. split; [exact Hleaf|].
      eapply onPath_here. exact Hn. }
    clear Hleaf. revert n nd Hn Hn'.
    assert (Hgo : forall m n nd, (rank n < m)%nat -> tree T !! n = Some nd ->
                    n ∈ P -> r ∈ P).
    { induction m as [|m IHm]; intros n nd Hm Hn Hn'; [lia|].
      destruct (parent nd) as [d|] eqn:Hd.
      - destruct (wf_listed _ Hwf _ _ _ Hn Hd) as (dd & Hdd & _).
        pose proof (wf_rank _ Hwf _ _ _ Hn Hd).
        apply (IHm d dd); [lia|exact Hdd|]. exact (Hup _ _ _ Hn' Hn Hd).
      - rewrite <- (wf_one_root _ Hwf r n nd Hr Hn Hd). exact Hn'. }
    intros n nd Hn Hn'. exact (Hgo (S (rank n)) n nd ltac:(lia) Hn Hn'). }
  destruct (negativeNodes_spec P r fuel [] [r] ∅) as (N & done & HN & Hinv).
  { constructor; cbn [app].
    - apply NoDup_singleton.
    - intros c Hc. apply list_elem_of_singleton in Hc. subst c. eauto.
    - intros c nc Hc Hnc. apply list_elem_of_singleton in Hc. subst c.
      left. congruence.
    - intros c. split.
      + intros H. apply not_elem_of_empty in H. contradiction.
      + intros (d & _ & Hd & _). apply elem_of_nil in Hd. contradiction.
    - intros d dd c Hd. apply elem_of_nil in Hd. contradiction.
    - intros c Hc. apply list_elem_of_singleton in Hc. subst c. exact HrP.
    - left. }
  { cbn. lia. }
  rewrite HN. exists P, N. split; [reflexivity|]. split; [reflexivity|].
  split; [discriminate|]. intros _. split; [exact HPpos|].
  destruct Hinv as [_ _ _ Hneg Hpushed Hpos Hroot].
  rewrite app_nil_r in *.
  assert (Hdone : forall a, a ∈ done <-> a ∈ P).
  { intros a. split; [apply Hpos|].
    assert (Hgo : forall m a, (rank a < m)%nat -> a ∈ P -> a ∈ done).
    { induction m as [|m IHm]; intros a' Hm Ha'; [lia|].
      destruct (Hin a' Ha') as [na Hna].
      destruct (parent na) as [d|] eqn:Hd.
      - destruct (wf_listed _ Hwf _ _ _ Hna Hd) as (dd & Hdd & Hc).
        pose proof (wf_rank _ Hwf _ _ _ Hna Hd).
        assert (Hdd' : d ∈ done).
        { apply IHm; [lia|]. exact (Hup _ _ _ Ha' Hna Hd). }
        exact (Hpushed d dd a' Hdd' Hdd Hc Ha').
      - rewrite (wf_one_root _ Hwf r a' na Hr Hna Hd). exact Hroot. }
    intros Ha. exact (Hgo (S (rank a)) a ltac:(lia) Ha). }
  intros c. rewrite Hneg. unfold negative. split.
  - intros (d & dd & Hd & Hdd & Hc & HcP). exists d, dd.
    split; [apply HPpos, Hdone; exact Hd|]. split; [exact Hdd|].
    split; [exact Hc|]. intros Hp. apply HcP, HPpos. exact Hp.
  - intros (d & dd & Hd & Hdd & Hc & HcP). exists d, dd.
    split; [apply Hdone, HPpos; exact Hd|]. split; [exact Hdd|].
    split; [exact Hc|]. intros Hp. apply HcP, HPpos. exact Hp.
Qed.

End AssignFacts.

(** ** Example trees *)

Definition keepOrder (l : list Z) : list Z := l.

(** The complete binary tree over two labels. *)
Definition twoLabelTree : PLTree :=
  mkTree 2 3
    [mkNode 0 (-1) None [1%nat; 2%nat];
     mkNode 1 0 (Some 0%nat) [];
     mkNode 2 1 (Some 0%nat) []]
    (Some 0%nat) {[ 0 := 1%nat; 1 := 2%nat ]}.

Lemma twoLabelTree_built :
  buildCompleteTree keepOrder PLTree_new 2 2 false = Some twoLabelTree.
Proof. vm_compute. reflexivity. Qed.

(** C6 as the specification states it fails for an arity below [2]: asked for
    arity [1], [buildCompleteTree] still builds the binary tree, in which
    the parent of node [2] is node [0] and not node [(2 - 1) / 1 = 1]. *)
Lemma arity_one_counterexample :
  exists T nd,
    buildCompleteTree keepOrder PLTree_new 2 1 false = Some T
    /\ tree T !! 2%nat = Some nd
    /\ parent nd = Some 0%nat
    /\ parent nd <> Some (Z.to_nat ((2 - 1) / 1)).
Proof.
  exists twoLabelTree, (mkNode 2 1 (Some 0%nat) []).
  split; [vm_compute; reflexivity|]. split; [reflexivity|].
  split; [reflexivity|]. cbn. discriminate.
Qed.

Lemma twoLabelTree_indexed : indexed twoLabelTree.
Proof.
  intros j n Hj. destruct j as [|[|[|j]]]; cbn in Hj; inversion Hj; reflexivity.
Qed.

Lemma twoLabelTree_shaped : treeShaped twoLabelTree.
Proof.
  split; [|split].
  - exists 0%nat, (mkNode 0 (-1) None [1%nat; 2%nat]). repeat split.
  - intros d nd c Hd Hc.
    destruct d as [|[|[|d]]]; cbn in Hd; inversion Hd; subst nd; cbn in Hc.
    + apply elem_of_cons in Hc as [->|Hc]; [eexists; split; reflexivity|].
      apply elem_of_cons in Hc as [->|Hc]; [eexists; split; reflexivity|].
      apply elem_of_nil in Hc. contradiction.
    + apply elem_of_nil in Hc. contradiction.
    + apply elem_of_nil in Hc. contradiction.
  - intros d nd Hd.
    destruct d as [|[|[|d]]]; cbn in Hd; inversion Hd; subst nd; cbn.
    + apply NoDup_cons. split; [|apply NoDup_singleton].
      intros H. apply list_elem_of_singleton in H. discriminate.
    + apply NoDup_nil_2.
    + apply NoDup_nil_2.
Qed.

(** Bases that predict [1], [1/4] and [3/4] whatever the features. *)
Definition exampleBases : list (Features -> Q) :=
  [fun _ => 1%Q; fun _ => (1 # 4)%Q; fun _ => (3 # 4)%Q].

Lemma exampleBases_probabilities : probabilities exampleBases [].
Proof.
  unfold probabilities, exampleBases.
  repeat constructor; cbn; unfold Qle; cbn; lia.
Qed.


Lemma twoLabelTree_wellFormed : wellFormed twoLabelTree (fun n => n).
Proof.
  constructor.
  - exact twoLabelTree_shaped.
  - intros c nc d Hc Hd.
    destruct c as [|[|[|c]]]; cbn in Hc; inversion Hc; subst nc; cbn in Hd;
      inversion Hd; subst d; eexists; (split; [reflexivity|]); cbn.
    + left.
    + right. left.
  - intros r c nc Hr Hc Hp. cbn in Hr. inversion Hr; subst r.
    destruct c as [|[|[|c]]]; cbn in Hc; inversion Hc; subst nc; cbn in Hp;
      congruence.
  - intros c nc d Hc Hd.
    destruct c as [|[|[|c]]]; cbn in Hc; inversion Hc; subst nc; cbn in Hd;
      inversion Hd; subst d; lia.
Qed.

(** The positive and negative nodes of the row with the label [1], from
    the general statement. *)
Example assignRow_twoLabelTree :
  exists nPositive nNegative,
    assignRow 3 twoLabelTree [1] = Some (nPositive, nNegative)
    /\ (forall a, a ∈ nPositive <-> positive twoLabelTree [1] a)
    /\ (forall c, c ∈ nNegative <-> negative twoLabelTree [1] c).
Proof.
  destruct (assignRow_spec twoLabelTree (fun n => n) twoLabelTree_wellFormed
              3 [1]) as (r & P & N & _ & Hrow & _ & Hspec).
  - intros y Hy. apply list_elem_of_singleton in Hy. subst y.
    exists 2%nat, (mkNode 2 1 (Some 0%nat) []). split; reflexivity.
  - intros n nd Hn. apply lookup_lt_Some in Hn. exact Hn.
  - cbn. lia.
  - exists P, N. split; [exact Hrow|]. apply Hspec. discriminate.
Qed.

(** C5, on the code.  For the complete tree over two labels and a dataset
    of one row with the label [1], the positive nodes are the root and the
    leaf of the label and the other leaf is negative, but the row is not
    handed to them: [binLabels] and [binFeatures] have one entry per row,
    here one, and are indexed by the node index, here up to [2]. *)
Theorem assignPoints_out_of_range :
  assignRow 3 twoLabelTree [1] = Some ({[0%nat; 2%nat]}, {[1%nat]})
  /\ pushExample 2 1%Q [(1, 1%Q)] (mkBins [[]] [[]]) = None
  /\ assignPoints 3 twoLabelTree [[1]] [[(1, 1%Q)]] = None
  /\ exists b,
       assignPoints 3 twoLabelTree [[1]; []; []]
         [[(1, 1%Q)]; [(1, 2%Q)]; [(1, 3%Q)]] = Some b
       /\ binLabels b = [[1%Q; 0%Q; 0%Q]; [0%Q]; [1%Q]].
Proof.
  split; [vm_compute; reflexivity|]. split; [reflexivity|].
  split; [vm_compute; reflexivity|].
  eexists. split; vm_compute; reflexivity.
Qed.

(** C6 as amended, at two labels and arity two. *)
Lemma buildCompleteTree_shape_witness :
  1 <= 2
  /\ (forall l, Permutation (keepOrder l) l)
  /\ exists T,
       buildCompleteTree keepOrder PLTree_new 2 2 false = Some T
       /\ k T = 2 /\ t T = 3 /\ Z.of_nat (length (tree T)) = 3.
Proof.
  split; [lia|]. split; [reflexivity|].
  destruct (buildCompleteTree_shape keepOrder 2 2 false)
    as (T & HT & Hk & Ht & Hlen & _); [lia|reflexivity|].
  exists T. repeat split; assumption.
Defined.

(** C7 at the complete tree over two labels. *)
Lemma tree_save_load_roundtrip_witness :
  indexed twoLabelTree
  /\ save twoLabelTree = Some ([2; 3; 0; -1; 1; 0; 2; 1; 0; -1; 0; 0],
                              twoLabelTree)
  /\ exists T',
       load [2; 3; 0; -1; 1; 0; 2; 1; 0; -1; 0; 0] PLTree_new = Some ([], T')
       /\ k T' = 2 /\ t T' = 3 /\ treeRoot T' = Some 0%nat
       /\ length (tree T') = 3%nat.
Proof.
  assert (Hsave : save twoLabelTree
                  = Some ([2; 3; 0; -1; 1; 0; 2; 1; 0; -1; 0; 0], twoLabelTree)).
  { reflexivity. }
  split; [exact twoLabelTree_indexed|]. split; [exact Hsave|].
  destruct (tree_save_load_roundtrip twoLabelTree twoLabelTree
              [2; 3; 0; -1; 1; 0; 2; 1; 0; -1; 0; 0] []
              twoLabelTree_indexed Hsave)
    as (_ & T' & Hload & Hk & Ht & Hr & Hlen & _).
  exists T'. repeat split; assumption.
Defined.




(** The run of the example: the leaf of label [1] with probability
    [3/4]. *)
Example predict_example :
  predict (PQ := listQueue) 4 twoLabelTree [] [] exampleBases 1
  = Some [mkProb 2 (1 * (3 # 4))%Q].
Proof. reflexivity. Qed.

(** With [k = 0] the test comes after the first prediction has been pushed,
    so one prediction is made. *)
Example predict_zero_example :
  predict (PQ := listQueue) 4 twoLabelTree [] [] exampleBases 0
  = Some [mkProb 2 (1 * (3 # 4))%Q].
Proof. reflexivity. Qed.

(** The sizes of some complete trees. *)
Example completeTreeSize_examples :
  completeTreeSize 1 2 = 1 /\ completeTreeSize 2 2 = 3
  /\ completeTreeSize 7 2 = 13 /\ completeTreeSize 8 2 = 15
  /\ completeTreeSize 9 3 = 13 /\ completeTreeSize 100 4 = 133.
Proof. repeat split; vm_compute; reflexivity. Qed.

(** When [floor (log k / log a)] comes out one too small at a power of the
    arity, the size is the same: the formula gives the same value from
    [A = a ^ (m - 1)] and from [A = a ^ m] at [k = a ^ m]. *)
Example completeTreeSize_243 :
  completeTreeSize 243 3 = 364
  /\ trunc (inject_Z 243
            - (inject_Z 81
               - inject_Z (Qceiling ((inject_Z 243 - inject_Z 81)
                                     / (inject_Z 3 - 1))))
            + (inject_Z 3 * inject_Z 81 - 1) / (inject_Z 3 - 1))%Q = 364.
Proof. split; vm_compute; reflexivity. Qed.

(** * Further properties of the label tree *)

(** ** The children lists of a complete tree *)

(** The children of node [j] after [m] rounds of the loop of
    [buildCompleteTree]: the nodes made so far whose parent is [j], in the
    order in which they were made. *)
Definition expectedChildren (a' : Z) (m j : nat) : list nat :=
  List.filter (fun c => bool_decide (expectedParent a' c = Some j)) (seq 0 m).

Definition builtChildren (a' : Z) (m : nat) (T : PLTree) : Prop :=
  length (tree T) = m
  /\ forall j nd, tree T !! j = Some nd ->
       children nd = expectedChildren a' m j.

Lemma expectedParent_lt (a' : Z) (c q : nat) :
  2 <= a' -> expectedParent a' c = Some q -> (q < c)%nat.
Proof.
  intros Ha. unfold expectedParent.
  destruct (Z.ltb_spec 0 (Z.of_nat c)) as [Hpos | Hz]; [|discriminate].
  intros H. inversion H.
  assert ((Z.of_nat c - 1) / a' <= Z.of_nat c - 1)
    by (apply Z.div_le_upper_bound; nia).
  assert (0 <= (Z.of_nat c - 1) / a') by (apply Z.div_pos; lia).
  lia.
Qed.

Lemma expectedChildren_S (a' : Z) (m j : nat) :
  expectedChildren a' (S m) j
  = expectedChildren a' m j
    ++ (if bool_decide (expectedParent a' m = Some j) then [m] else []).
Proof.
  unfold expectedChildren. rewrite seq_S, List.filter_app.
  cbn [List.filter Nat.add].
  destruct (bool_decide (expectedParent a' m = Some j)); reflexivity.
Qed.

Lemma expectedChildren_none (a' : Z) (m j : nat) :
  2 <= a' -> (m <= j)%nat -> expectedChildren a' m j = [].
Proof.
  intros Ha. induction m as [|m IH]; intros Hj; [reflexivity|].
  rewrite expectedChildren_S, IH by lia.
  rewrite bool_decide_eq_false_2; [reflexivity|].
  intros E. apply expectedParent_lt in E; lia.
Qed.

Lemma addNode_children (a' ti : Z) (labelsOrder : option (list Z))
    (T T' : PLTree) (m : nat) :
  2 <= a' ->
  builtChildren a' m T ->
  addNode a' ti labelsOrder (Some T) m = Some T' ->
  builtChildren a' (S m) T'.
Proof.
  intros Ha [Hlen Hch]. unfold addNode. rewrite Hlen.
  match goal with
  | |- context [match ?lbl with Some l => _ | None => None end] =>
      destruct lbl as [l|]; [|discriminate]
  end.
  set (leaves := if (0 <=? ti) && (ti <=? Z.of_nat m)
                 then match treeLeaves T !! l with
                      | Some _ => treeLeaves T
                      | None => <[l := m]> (treeLeaves T)
                      end
                 else treeLeaves T).
  clearbody leaves.
  destruct (Z.ltb_spec 0 (Z.of_nat m)) as [Hpos | Hzero].
  - set (q := Z.to_nat ((Z.of_nat m - 1) / a')).
    assert (Hep : expectedParent a' m = Some q).
    { unfold expectedParent.
      replace (0 <? Z.of_nat m) with true by (symmetry; apply Z.ltb_lt; lia).
      reflexivity. }
    pose proof (expectedParent_lt a' m q Ha Hep) as Hq.
    destruct (tree T !! q) as [pn|] eqn:Hpn; [|discriminate].
    intros H. inversion H; subst T'. clear H.
    split.
    { cbn [tree]. rewrite length_app, length_insert. cbn [length]. lia. }
    cbn [tree]. intros j nd Hlk. rewrite expectedChildren_S, Hep.
    destruct (decide (j = m)) as [-> | Hne].
    + rewrite lookup_app_r in Hlk by (rewrite length_insert; lia).
      rewrite length_insert, Hlen, Nat.sub_diag in Hlk.
      inversion Hlk; subst nd. cbn [children].
      rewrite bool_decide_eq_false_2 by (intros E; inversion E; lia).
      rewrite expectedChildren_none by (try exact Ha; lia). reflexivity.
    + assert (Hjm : (j < m)%nat).
      { apply lookup_lt_Some in Hlk. rewrite length_app, length_insert in Hlk.
        cbn in Hlk. lia. }
      rewrite lookup_app_l in Hlk by (rewrite length_insert; lia).
      destruct (decide (j = q)) as [-> | Hq'].
      * rewrite list_lookup_insert_eq in Hlk by lia. inversion Hlk; subst nd.
        cbn [children setChildren].
        rewrite bool_decide_eq_true_2 by reflexivity.
        rewrite (Hch q pn Hpn). reflexivity.
      * rewrite list_lookup_insert_ne in Hlk by congruence.
        rewrite bool_decide_eq_false_2 by congruence.
        rewrite app_nil_r. apply (Hch j nd Hlk).
  - assert (Hm0 : m = 0%nat) by lia. subst m.
    intros H. inversion H; subst T'. clear H.
    destruct (tree T) as [|x xs] eqn:Etree; [|discriminate].
    split; [reflexivity|].
    cbn [tree app]. intros j nd Hlk.
    destruct j; [|discriminate]. inversion Hlk; subst nd. reflexivity.
Qed.

Lemma build_children_loop (a' ti : Z) (labelsOrder : option (list Z))
    (T0 : PLTree) (m : nat) :
  2 <= a' -> tree T0 = [] ->
  forall T,
    fold_left (addNode a' ti labelsOrder) (seq 0 m) (Some T0) = Some T ->
    builtChildren a' m T.
Proof.
  intros Ha Htree. induction m as [|m IH]; intros T Hfold.
  - cbn in Hfold. inversion Hfold; subst T. split; [rewrite Htree; reflexivity|].
    intros j nd Hlk. rewrite Htree in Hlk. discriminate.
  - rewrite seq_S, fold_left_app in Hfold. cbn [fold_left Nat.add] in Hfold.
    destruct (fold_left (addNode a' ti labelsOrder) (seq 0 m) (Some T0))
      as [Tm|] eqn:Em; [|discriminate].
    apply (addNode_children a' ti labelsOrder Tm T m Ha (IH Tm eq_refl) Hfold).
Qed.

Lemma elem_of_labelRange (n y : Z) : y ∈ labelRange n <-> 0 <= y < n.
Proof.
  unfold labelRange. rewrite list_elem_of_In, in_map_iff. split.
  - intros (j & <- & Hj). apply in_seq in Hj. lia.
  - intros Hy. exists (Z.to_nat y). split; [lia|]. apply in_seq. lia.
Qed.

(** What the loop of [buildCompleteTree] establishes, for the arity [a']
    used, [ti] internal nodes and the labels [order] of the leaves. *)
Record complete (a' ti : Z) (order : list Z) (T : PLTree) : Prop :=
  mkComplete {
  complete_nodes :
    forall i nd, tree T !! i = Some nd ->
      index nd = Z.of_nat i
      /\ Some (label nd) = expectedLabel ti order i
      /\ parent nd = expectedParent a' i;
  complete_leaves :
    forall l i, treeLeaves T !! l = Some i <->
      (ti <= Z.of_nat i /\ (i < length (tree T))%nat
       /\ order !! Z.to_nat (Z.of_nat i - ti) = Some l);
  complete_children :
    forall j nd, tree T !! j = Some nd ->
      children nd = expectedChildren a' (length (tree T)) j;
  complete_root : treeRoot T = Some 0%nat;
  complete_size : Z.of_nat (length (tree T)) = ti + Z.of_nat (length order);
  complete_order : NoDup order;
  complete_nonneg : Forall (fun y => 0 <= y) order;
  complete_labels : (1 <= length order)%nat;
  complete_internal : 0 <= ti;
  complete_arity : 2 <= a'
}.

Lemma buildCompleteTree_complete
    (shuffle : list Z -> list Z) (labelCount arity : Z)
    (randomizeTree : bool) :
  1 <= labelCount ->
  (forall l, Permutation (shuffle l) l) ->
  let tN := completeTreeSize labelCount arity in
  let a' := if Z.ltb 2 arity then arity else 2 in
  let order := if randomizeTree then shuffle (labelRange labelCount)
               else labelRange labelCount in
  exists T,
    buildCompleteTree shuffle PLTree_new labelCount arity randomizeTree = Some T
    /\ k T = labelCount /\ t T = tN /\ Z.of_nat (length (tree T)) = tN
    /\ Permutation order (labelRange labelCount)
    /\ complete a' (tN - labelCount) order T.
Proof.
  intros Hk Hshuffle tN a' order.
  destruct (completeTreeSize_formula labelCount arity Hk) as [_ Hge].
  fold tN in Hge. set (ti := tN - labelCount).
  assert (Hperm : Permutation order (labelRange labelCount)).
  { unfold order. destruct randomizeTree; [apply Hshuffle|reflexivity]. }
  assert (Hlen : length order = Z.to_nat labelCount).
  { rewrite (Permutation_length Hperm). apply labelRange_length. }
  assert (Hnd : NoDup order).
  { rewrite Hperm. apply labelRange_NoDup. }
  assert (Hti : 0 <= ti) by (unfold ti; lia).
  assert (Ha : 2 <= a').
  { unfold a'. destruct (2 <? arity) eqn:E; [apply Z.ltb_lt in E|]; lia. }
  unfold buildCompleteTree.
  cbn [k t set_t set_k PLTree_new].
  fold tN. fold ti. fold a'.
  replace (tN <? 0) with false by (symmetry; apply Z.ltb_ge; lia).
  set (T1 := set_t tN (set_k labelCount PLTree_new)).
  set (labelsOrder := if randomizeTree
                      then Some (shuffle (labelRange labelCount)) else None).
  destruct (build_loop a' ti labelsOrder order T1 (Z.to_nat tN))
    as (T2 & Hfold & Hk2 & Ht2 & Hr2 & Hlen2 & Hnodes & Hleaves);
    try assumption; try reflexivity.
  { unfold labelsOrder, order. destruct randomizeTree; [left; reflexivity|].
    right. split; [reflexivity|]. rewrite labelRange_length. f_equal. lia. }
  { unfold ti. lia. }
  destruct (build_children_loop a' ti labelsOrder T1 (Z.to_nat tN) Ha eq_refl
              T2 Hfold) as [_ Hchildren].
  rewrite Hfold.
  destruct (lookup_lt_is_Some_2 (tree T2) 0) as [n0 Hn0]; [lia|].
  rewrite Hn0.
  assert (Hp0 : parent n0 = None).
  { destruct (Hnodes 0%nat n0 Hn0) as (_ & _ & Hp). exact Hp. }
  replace (setParent None n0) with n0
    by (rewrite <- Hp0; symmetry; apply setParent_same).
  rewrite list_insert_id by exact Hn0.
  eexists. split; [reflexivity|].
  cbn [k t tree treeRoot treeLeaves set_tree set_treeRoot].
  split; [exact Hk2|]. split; [exact Ht2|]. split; [lia|].
  split; [exact Hperm|].
  constructor; cbn [k t tree treeRoot treeLeaves set_tree set_treeRoot];
    try assumption; try lia.
  - rewrite Hlen2. exact Hleaves.
  - rewrite Hlen2. exact Hchildren.
  - reflexivity.
  - apply Forall_forall. intros y Hy. rewrite Hperm in Hy.
    apply elem_of_labelRange in Hy. lia.
Qed.

Lemma elem_of_expectedChildren (a' : Z) (m j c : nat) :
  c ∈ expectedChildren a' m j
  <-> (c < m)%nat /\ expectedParent a' c = Some j.
Proof.
  unfold expectedChildren. rewrite list_elem_of_In, filter_In, in_seq.
  rewrite bool_decide_eq_true. split; intros [H1 H2]; split; try lia; exact H2.
Qed.

Lemma expectedChildren_NoDup (a' : Z) (m j : nat) :
  NoDup (expectedChildren a' m j).
Proof.
  unfold expectedChildren. apply NoDup_ListNoDup, List.NoDup_filter, seq_NoDup.
Qed.

Section CompleteFacts.

Variable a' ti : Z.
Variable order : list Z.
Variable T : PLTree.
Hypothesis Hc : complete a' ti order T.

Lemma complete_indexed : indexed T.
Proof. intros j n Hn. apply (complete_nodes _ _ _ _ Hc j n Hn). Qed.

Lemma complete_nonempty : (1 <= length (tree T))%nat.
Proof.
  pose proof (complete_size _ _ _ _ Hc). pose proof (complete_labels _ _ _ _ Hc).
  pose proof (complete_internal _ _ _ _ Hc). lia.
Qed.

Lemma complete_shaped : treeShaped T.
Proof.
  split; [|split].
  - destruct (lookup_lt_is_Some_2 (tree T) 0 complete_nonempty) as [rn Hrn].
    exists 0%nat, rn. split; [apply (complete_root _ _ _ _ Hc)|].
    split; [exact Hrn|].
    apply (complete_nodes _ _ _ _ Hc 0%nat rn Hrn).
  - intros d nd c Hd Hin.
    rewrite (complete_children _ _ _ _ Hc d nd Hd) in Hin.
    apply elem_of_expectedChildren in Hin. destruct Hin as [Hlt Hp].
    destruct (lookup_lt_is_Some_2 (tree T) c Hlt) as [nc Hnc].
    exists nc. split; [exact Hnc|].
    destruct (complete_nodes _ _ _ _ Hc c nc Hnc) as (_ & _ & ->). exact Hp.
  - intros d nd Hd. rewrite (complete_children _ _ _ _ Hc d nd Hd).
    apply expectedChildren_NoDup.
Qed.

Lemma complete_wellFormed : wellFormed T (fun n => n).
Proof.
  constructor.
  - exact complete_shaped.
  - intros c nc d Hnc Hp.
    destruct (complete_nodes _ _ _ _ Hc c nc Hnc) as (_ & _ & Hpar).
    rewrite Hpar in Hp.
    pose proof (expectedParent_lt a' c d (complete_arity _ _ _ _ Hc) Hp) as Hlt.
    pose proof (lookup_lt_Some _ _ _ Hnc) as Hclt.
    destruct (lookup_lt_is_Some_2 (tree T) d ltac:(lia)) as [nd Hnd].
    exists nd. split; [exact Hnd|].
    rewrite (complete_children _ _ _ _ Hc d nd Hnd).
    apply elem_of_expectedChildren. split; assumption.
  - intros r c nc Hr Hnc Hp.
    rewrite (complete_root _ _ _ _ Hc) in Hr. inversion Hr; subst r.
    destruct (complete_nodes _ _ _ _ Hc c nc Hnc) as (_ & _ & Hpar).
    rewrite Hpar in Hp. unfold expectedParent in Hp.
    destruct (Z.ltb_spec 0 (Z.of_nat c)); [discriminate | lia].
  - intros c nc d Hnc Hp.
    destruct (complete_nodes _ _ _ _ Hc c nc Hnc) as (_ & _ & Hpar).
    rewrite Hpar in Hp.
    apply (expectedParent_lt a' c d (complete_arity _ _ _ _ Hc) Hp).
Qed.

Lemma complete_leaf (y : Z) :
  y ∈ order ->
  exists n nd, treeLeaves T !! y = Some n /\ tree T !! n = Some nd
    /\ label nd = y /\ ti <= Z.of_nat n.
Proof.
  intros Hin. apply list_elem_of_lookup in Hin. destruct Hin as [j Hj].
  pose proof (lookup_lt_Some _ _ _ Hj) as Hjlt.
  pose proof (complete_size _ _ _ _ Hc) as Hsize.
  pose proof (complete_internal _ _ _ _ Hc) as Hti.
  set (n := (Z.to_nat ti + j)%nat).
  assert (Hn : (n < length (tree T))%nat) by lia.
  destruct (lookup_lt_is_Some_2 (tree T) n Hn) as [nd Hnd].
  exists n, nd. split.
  { apply (complete_leaves _ _ _ _ Hc). split; [lia|]. split; [exact Hn|].
    replace (Z.to_nat (Z.of_nat n - ti)) with j by lia. exact Hj. }
  split; [exact Hnd|].
  destruct (complete_nodes _ _ _ _ Hc n nd Hnd) as (_ & Hl & _).
  unfold expectedLabel in Hl.
  replace (ti <=? Z.of_nat n) with true in Hl
    by (symmetry; apply Z.leb_le; lia).
  replace (Z.to_nat (Z.of_nat n - ti)) with j in Hl by lia.
  split; [congruence | lia].
Qed.

Lemma complete_leavesKnown (rLabels : list Z) :
  Forall (fun y => y ∈ order) rLabels -> leavesKnown T rLabels.
Proof.
  intros Hall y Hy. rewrite Forall_forall in Hall.
  destruct (complete_leaf y (Hall y Hy)) as (n & nd & H1 & H2 & _).
  exists n, nd. split; assumption.
Qed.

End CompleteFacts.

(** ** The nodes that a row is assigned to *)

(** X13.  On a tree whose parent pointers and children lists agree, with
    one root and no cycle, for a row whose labels all have a leaf, the loop
    of [PLTree::train] over a row ends, given fuel for every node.  For a
    row without labels it gives no positive node and the root as the only
    negative node.  Otherwise the positive nodes are exactly the nodes on
    the paths from the leaves of the labels to the root, and the negative
    nodes are exactly the children of positive nodes that are not positive
    themselves. *)
Theorem assignRow_correct
    (T : PLTree) (rank : nat -> nat) (fuel : nat) (rLabels : list Z) :
  wellFormed T rank ->
  leavesKnown T rLabels ->
  (forall n nd, tree T !! n = Some nd -> (rank n < fuel)%nat) ->
  (length (tree T) <= fuel)%nat ->
  exists r nPositive nNegative,
    treeRoot T = Some r
    /\ assignRow fuel T rLabels = Some (nPositive, nNegative)
    /\ (rLabels = [] -> nPositive = ∅ /\ nNegative = {[r]})
    /\ (rLabels <> [] ->
        (forall a, a ∈ nPositive <-> positive T rLabels a)
        /\ (forall c, c ∈ nNegative <-> negative T rLabels c)).
Proof. intros Hwf. apply (assignRow_spec T rank Hwf). Qed.

Lemma assignRow_correct_witness :
  wellFormed twoLabelTree (fun n => n)
  /\ leavesKnown twoLabelTree [1]
  /\ exists nPositive nNegative,
       assignRow 3 twoLabelTree [1] = Some (nPositive, nNegative)
       /\ (forall a, a ∈ nPositive <-> positive twoLabelTree [1] a)
       /\ (forall c, c ∈ nNegative <-> negative twoLabelTree [1] c).
Proof.
  assert (Hk : leavesKnown twoLabelTree [1]).
  { intros y Hy. apply list_elem_of_singleton in Hy. subst y.
    exists 2%nat, (mkNode 2 1 (Some 0%nat) []). split; reflexivity. }
  split; [exact twoLabelTree_wellFormed|]. split; [exact Hk|].
  destruct (assignRow_correct twoLabelTree (fun n => n) 3 [1]
              twoLabelTree_wellFormed Hk)
    as (r & P & N & _ & Hrow & _ & Hspec).
  - intros n nd Hn. apply lookup_lt_Some in Hn. exact Hn.
  - cbn. lia.
  - exists P, N. split; [exact Hrow|]. apply Hspec. discriminate.
Defined.

(** X14.  The tree that [buildCompleteTree] makes for [k >= 1] labels can
    be used by the assignment loop of [train] as it is: for every row whose
    labels are among [0 .. k-1], with fuel for [t] nodes, the loop ends
    with the nodes on the paths from the labels' leaves to node [0] as
    positive nodes and their other children as negative nodes; a row
    without labels makes node [0] negative. *)
Theorem buildCompleteTree_assignRow
    (shuffle : list Z -> list Z) (labelCount arity : Z)
    (randomizeTree : bool) (rLabels : list Z) :
  1 <= labelCount ->
  (forall l, Permutation (shuffle l) l) ->
  Forall (fun y => 0 <= y < labelCount) rLabels ->
  exists T nPositive nNegative,
    buildCompleteTree shuffle PLTree_new labelCount arity randomizeTree = Some T
    /\ assignRow (Z.to_nat (t T)) T rLabels = Some (nPositive, nNegative)
    /\ (rLabels = [] -> nPositive = ∅ /\ nNegative = {[0%nat]})
    /\ (rLabels <> [] ->
        (forall a, a ∈ nPositive <-> positive T rLabels a)
        /\ (forall c, c ∈ nNegative <-> negative T rLabels c)).
Proof.
  intros Hk Hshuffle Hrow.
  destruct (buildCompleteTree_complete shuffle labelCount arity randomizeTree
              Hk Hshuffle) as (T & Hb & HkT & HtT & Hlen & Hperm & Hc).
  destruct (assignRow_spec T (fun n => n) (complete_wellFormed _ _ _ _ Hc)
              (Z.to_nat (t T)) rLabels)
    as (r & P & N & Hr & Ha & Hempty & Hspec).
  - apply (complete_leavesKnown _ _ _ _ Hc).
    eapply Forall_impl; [exact Hrow|]. cbn. intros y Hy.
    rewrite Hperm. apply elem_of_labelRange. exact Hy.
  - intros n nd Hn. apply lookup_lt_Some in Hn. lia.
  - lia.
  - rewrite (complete_root _ _ _ _ Hc) in Hr. inversion Hr; subst r.
    exists T, P, N. repeat split; try assumption; apply Hspec || apply Hempty;
      assumption.
Qed.

Lemma buildCompleteTree_assignRow_witness :
  exists T nPositive nNegative,
    buildCompleteTree keepOrder PLTree_new 2 2 false = Some T
    /\ assignRow (Z.to_nat (t T)) T [1] = Some (nPositive, nNegative)
    /\ (forall a, a ∈ nPositive <-> positive T [1] a)
    /\ (forall c, c ∈ nNegative <-> negative T [1] c).
Proof.
  destruct (buildCompleteTree_assignRow keepOrder 2 2 false [1])
    as (T & P & N & H1 & H2 & _ & H4).
  - lia.
  - intros l. reflexivity.
  - repeat constructor; lia.
  - exists T, P, N. split; [exact H1|]. split; [exact H2|].
    apply H4. discriminate.
Defined.

(** ** The children of a node of a complete tree *)

Lemma filter_seq_interval (lo hi m : nat) :
  List.filter (fun c => bool_decide (lo <= c < hi)%nat) (seq 0 m)
  = seq lo (Nat.min hi m - lo).
Proof.
  induction m as [|m IH].
  - cbn. replace (Nat.min hi 0 - lo)%nat with 0%nat by lia. reflexivity.
  - rewrite seq_S, List.filter_app, IH. cbn [List.filter Nat.add].
    destruct (decide (lo <= m < hi)%nat) as [Hin | Hout].
    + rewrite bool_decide_eq_true_2 by exact Hin.
      replace (Nat.min hi (S m) - lo)%nat with (S (Nat.min hi m - lo)) by lia.
      rewrite seq_S. do 2 f_equal. lia.
    + rewrite bool_decide_eq_false_2 by exact Hout.
      rewrite app_nil_r. f_equal. lia.
Qed.

Lemma expectedParent_interval (a' : Z) (c j : nat) :
  2 <= a' ->
  expectedParent a' c = Some j
  <-> (Z.to_nat a' * j + 1 <= c < Z.to_nat a' * j + 1 + Z.to_nat a')%nat.
Proof.
  intros Ha. unfold expectedParent.
  assert (Hmul : Z.of_nat (Z.to_nat a' * j) = a' * Z.of_nat j)
    by (rewrite Nat2Z.inj_mul, Z2Nat.id by lia; reflexivity).
  destruct (Z.ltb_spec 0 (Z.of_nat c)) as [Hpos | Hz].
  - pose proof (Z.div_mod (Z.of_nat c - 1) a' ltac:(lia)) as Hdm.
    pose proof (Z.mod_pos_bound (Z.of_nat c - 1) a' ltac:(lia)) as Hmb.
    assert (Hq : 0 <= (Z.of_nat c - 1) / a') by (apply Z.div_pos; lia).
    split.
    + intros H. inversion H as [Hj].
      assert (Hj' : (Z.of_nat c - 1) / a' = Z.of_nat j) by lia.
      rewrite Hj' in Hdm. lia.
    + intros Hint. f_equal.
      assert (Hu : (Z.of_nat c - 1) / a' = Z.of_nat j).
      { symmetry.
        apply (Z.div_unique_pos _ _ _ (Z.of_nat c - 1 - a' * Z.of_nat j));
          lia. }
      lia.
  - split; [discriminate | lia].
Qed.

Lemma expectedChildren_seq (a' : Z) (m j : nat) :
  2 <= a' ->
  expectedChildren a' m j
  = seq (Z.to_nat a' * j + 1)
      (Nat.min (Z.to_nat a') (m - (Z.to_nat a' * j + 1))).
Proof.
  intros Ha. unfold expectedChildren.
  rewrite (List.filter_ext _
             (fun c => bool_decide
                         (Z.to_nat a' * j + 1 <= c
                          < Z.to_nat a' * j + 1 + Z.to_nat a')%nat)).
  - rewrite filter_seq_interval. f_equal. lia.
  - intros c. apply bool_decide_ext. apply expectedParent_interval. exact Ha.
Qed.

(** X15.  In the tree that [buildCompleteTree] makes with the arity [a]
    it uses (the given one above two, and two otherwise), the children of
    node [j] are the nodes [a j + 1, ..., a j + a] that exist, in this
    order; so no node has more than [a] children, and the children of a
    node come after it. *)
Theorem buildCompleteTree_children
    (shuffle : list Z -> list Z) (labelCount arity : Z)
    (randomizeTree : bool) :
  1 <= labelCount ->
  (forall l, Permutation (shuffle l) l) ->
  let a := Z.to_nat (if Z.ltb 2 arity then arity else 2) in
  exists T,
    buildCompleteTree shuffle PLTree_new labelCount arity randomizeTree = Some T
    /\ forall j nd,
         tree T !! j = Some nd ->
         children nd
         = seq (a * j + 1) (Nat.min a (length (tree T) - (a * j + 1)))
         /\ (length (children nd) <= a)%nat
         /\ Forall (fun c => (j < c < length (tree T))%nat) (children nd).
Proof.
  intros Hk Hshuffle a.
  destruct (buildCompleteTree_complete shuffle labelCount arity randomizeTree
              Hk Hshuffle) as (T & Hb & _ & _ & _ & _ & Hc).
  exists T. split; [exact Hb|]. intros j nd Hj.
  pose proof (complete_arity _ _ _ _ Hc) as Ha.
  assert (Hch : children nd
                = seq (a * j + 1) (Nat.min a (length (tree T) - (a * j + 1)))).
  { rewrite (complete_children _ _ _ _ Hc j nd Hj).
    apply expectedChildren_seq. exact Ha. }
  split; [exact Hch|]. split.
  - rewrite Hch, length_seq. lia.
  - rewrite Hch. apply Forall_forall. intros c Hin.
    apply elem_of_seq in Hin. fold a in Ha. nia.
Qed.

Lemma buildCompleteTree_children_witness :
  exists T nd,
    buildCompleteTree keepOrder PLTree_new 2 2 false = Some T
    /\ tree T !! 0%nat = Some nd
    /\ children nd = [1%nat; 2%nat].
Proof.
  destruct (buildCompleteTree_children keepOrder 2 2 false)
    as (T & H1 & H2).
  - lia.
  - intros l. reflexivity.
  - rewrite twoLabelTree_built in H1. inversion H1; subst T.
    eexists _, _. split; [exact twoLabelTree_built|].
    split; [reflexivity|].
    destruct (H2 0%nat _ eq_refl) as [H3 _]. exact H3.
Defined.

(** ** Saving and loading a complete tree *)

Lemma reloaded_complete (a' ti : Z) (order : list Z) (T : PLTree) :
  complete a' ti order T ->
  t T = Z.of_nat (length (tree T)) ->
  reloaded T = T.
Proof.
  intros Hc Ht. pose proof (complete_nonneg _ _ _ _ Hc) as Hnn.
  unfold reloaded.
  assert (Htree : partialTree T (length (tree T)) = tree T).
  { apply list_eq. intros i. unfold partialTree. rewrite list_lookup_imap.
    destruct (tree T !! i) as [n|] eqn:Hn; [|reflexivity].
    cbn. f_equal. unfold partialNode.
    rewrite decide_True by (eapply lookup_lt_Some; exact Hn).
    assert (Hch : childrenUpTo T (length (tree T)) i = children n).
    { rewrite (complete_children _ _ _ _ Hc i n Hn).
      unfold childrenUpTo, expectedChildren. apply List.filter_ext_in.
      intros c Hin. apply in_seq in Hin. apply bool_decide_ext.
      destruct (lookup_lt_is_Some_2 (tree T) c ltac:(lia)) as [nc Hnc].
      unfold parentOf. rewrite Hnc. cbn.
      destruct (complete_nodes _ _ _ _ Hc c nc Hnc) as (_ & _ & ->).
      reflexivity. }
    rewrite Hch. destruct n; reflexivity. }
  assert (Hleaves : leavesAfter 0 (tree T) ∅ = treeLeaves T).
  { apply map_eq. intros l.
    destruct (treeLeaves T !! l) as [i|] eqn:El.
    - apply (complete_leaves _ _ _ _ Hc) in El.
      destruct El as (Hi1 & Hi2 & Hi3).
      destruct (lookup_lt_is_Some_2 (tree T) i Hi2) as [n Hn].
      assert (Hlab : forall j nj, tree T !! j = Some nj ->
                ti <= Z.of_nat j ->
                order !! Z.to_nat (Z.of_nat j - ti) = Some (label nj)).
      { intros j nj Hj Hge.
        destruct (complete_nodes _ _ _ _ Hc j nj Hj) as (_ & Hl & _).
        unfold expectedLabel in Hl.
        replace (ti <=? Z.of_nat j) with true in Hl
          by (symmetry; apply Z.leb_le; lia).
        symmetry. exact Hl. }
      assert (Hln : label n = l).
      { pose proof (Hlab i n Hn Hi1) as H. congruence. }
      assert (Hl0 : 0 <= l).
      { rewrite Forall_forall in Hnn. apply Hnn.
        apply list_elem_of_lookup. eauto. }
      rewrite <- Hln.
      rewrite (leavesAfter_last (tree T) 0 ∅ i n Hn); [reflexivity | lia |].
      intros j' n' Hlt Hn' Heq.
      pose proof (Hlab j' n' Hn' ltac:(lia)) as H1.
      pose proof (Hlab i n Hn Hi1) as H2.
      rewrite Heq in H1.
      pose proof (NoDup_lookup _ _ _ _ (complete_order _ _ _ _ Hc) H1 H2).
      lia.
    - destruct (leavesAfter 0 (tree T) ∅ !! l) as [i|] eqn:Ea; [|reflexivity].
      exfalso. apply leavesAfter_inv in Ea.
      destruct Ea as [Ea | (_ & n & Hn & Hln & Hl0)].
      { rewrite lookup_empty in Ea. discriminate. }
      rewrite Nat.sub_0_r in Hn.
      destruct (complete_nodes _ _ _ _ Hc i n Hn) as (_ & Hl & _).
      unfold expectedLabel in Hl.
      destruct (Z.leb_spec ti (Z.of_nat i)) as [Hge | Hlt].
      + assert (Hsome : treeLeaves T !! l = Some i).
        { apply (complete_leaves _ _ _ _ Hc). split; [exact Hge|].
          split; [eapply lookup_lt_Some; exact Hn|]. congruence. }
        congruence.
      + inversion Hl. lia. }
  rewrite Htree, Hleaves, <- Ht. destruct T; reflexivity.
Qed.

Lemma complete_save (a' ti : Z) (order : list Z) (T : PLTree) :
  complete a' ti order T ->
  t T = Z.of_nat (length (tree T)) ->
  exists out, save T = Some (out, T)
    /\ length out = (3 + 3 * length (tree T))%nat.
Proof.
  intros Hc Ht. unfold save.
  assert (HT : set_t (Z.of_nat (length (tree T))) T = T).
  { rewrite <- Ht. destruct T; reflexivity. }
  rewrite HT. rewrite (complete_root _ _ _ _ Hc).
  destruct (lookup_lt_is_Some_2 (tree T) 0 (complete_nonempty _ _ _ _ Hc))
    as [rn Hrn].
  rewrite Hrn.
  destruct (mapM_is_Some_2 (parentIndex T) (tree T)) as [ps Hps].
  { apply Forall_forall. intros n Hin. apply list_elem_of_lookup in Hin.
    destruct Hin as [i Hi]. unfold compose, parentIndex.
    destruct (complete_nodes _ _ _ _ Hc i n Hi) as (_ & _ & Hp).
    destruct (parent n) as [q|] eqn:Eq; [|eauto].
    symmetry in Hp.
    pose proof (expectedParent_lt a' i q (complete_arity _ _ _ _ Hc) Hp).
    pose proof (lookup_lt_Some _ _ _ Hi).
    destruct (lookup_lt_is_Some_2 (tree T) q ltac:(lia)) as [nq Hnq].
    rewrite Hnq. cbn. eauto. }
  rewrite Hps. eexists. split; [reflexivity|].
  apply length_mapM in Hps.
  cbn [length app]. rewrite !length_app. cbn [length].
  rewrite (flat_map_constant_length (c := 2)) by (intros; reflexivity).
  lia.
Qed.

(** X16.  The tree that [buildCompleteTree] makes is saved as [3 + 3 t]
    integers, and [load] on a new object rebuilds exactly this tree from
    them - the fields [k] and [t], the nodes with their labels, parents and
    children lists, the root and the map of the leaves - and leaves the
    rest of the stream. *)
Theorem buildCompleteTree_save_load
    (shuffle : list Z -> list Z) (labelCount arity : Z)
    (randomizeTree : bool) :
  1 <= labelCount ->
  (forall l, Permutation (shuffle l) l) ->
  exists T out,
    buildCompleteTree shuffle PLTree_new labelCount arity randomizeTree = Some T
    /\ save T = Some (out, T)
    /\ Z.of_nat (length out) = 3 + 3 * t T
    /\ forall rest, load (out ++ rest) PLTree_new = Some (rest, T).
Proof.
  intros Hk Hshuffle.
  destruct (buildCompleteTree_complete shuffle labelCount arity randomizeTree
              Hk Hshuffle) as (T & Hb & HkT & HtT & Hlen & Hperm & Hc).
  assert (Ht : t T = Z.of_nat (length (tree T))) by lia.
  destruct (complete_save _ _ _ _ Hc Ht) as (out & Hsave & Hout).
  exists T, out. split; [exact Hb|]. split; [exact Hsave|].
  split; [lia|].
  intros rest.
  rewrite (save_load T T out rest (complete_indexed _ _ _ _ Hc) Hsave).
  f_equal. f_equal. apply (reloaded_complete _ _ _ _ Hc). exact Ht.
Qed.

Lemma buildCompleteTree_save_load_witness :
  exists T out,
    buildCompleteTree keepOrder PLTree_new 2 2 false = Some T
    /\ save T = Some (out, T)
    /\ load out PLTree_new = Some ([], T).
Proof.
  destruct (buildCompleteTree_save_load keepOrder 2 2 false)
    as (T & out & H1 & H2 & _ & H4).
  - lia.
  - intros l. reflexivity.
  - exists T, out. split; [exact H1|]. split; [exact H2|].
    specialize (H4 []). rewrite app_nil_r in H4. exact H4.
Defined.

(** ** The number of nodes of a complete tree *)

(** The quotient rounded up. *)
Definition cdiv (x c : Z) : Z := (x + c - 1) / c.

Lemma cdiv_opp (x c : Z) : 0 < c -> - ((- x) / c) = cdiv x c.
Proof.
  intros Hc. unfold cdiv.
  pose proof (Z.div_mod (- x) c ltac:(lia)) as H1.
  pose proof (Z.mod_pos_bound (- x) c Hc) as B1.
  pose proof (Z.div_mod (x + c - 1) c ltac:(lia)) as H2.
  pose proof (Z.mod_pos_bound (x + c - 1) c Hc) as B2.
  nia.
Qed.

Lemma cdiv_bounds (x c : Z) :
  0 < c -> c * (cdiv x c - 1) < x <= c * cdiv x c.
Proof.
  intros Hc. unfold cdiv.
  pose proof (Z.div_mod (x + c - 1) c ltac:(lia)) as H2.
  pose proof (Z.mod_pos_bound (x + c - 1) c Hc) as B2.
  nia.
Qed.

Lemma pow_pred_divide (a m : Z) :
  2 <= a -> 0 <= m -> exists s, a ^ m - 1 = (a - 1) * s /\ 0 <= s.
Proof.
  intros Ha Hm. revert m Hm. apply natlike_ind.
  - exists 0. rewrite Z.pow_0_r. lia.
  - intros m Hm (s & Hs & Hs0). exists (a * s + 1).
    rewrite Z.pow_succ_r by exact Hm. split; nia.
Qed.

Lemma Qceiling_div (x c : Z) :
  0 < c -> Qceiling (inject_Z x / inject_Z c) = cdiv x c.
Proof.
  intros Hc. unfold Qceiling. rewrite <- (cdiv_opp x c Hc). f_equal.
  rewrite (Zdiv_Qdiv (- x) c). apply Qfloor_comp.
  rewrite inject_Z_opp. field.
  intros E. apply (inject_Z_injective c 0) in E. lia.
Qed.

(** The number of nodes in closed form: the leaves and the least number of
    inner nodes that the arity needs for them. *)
Lemma completeTreeSize_cdiv (labelCount arity : Z) :
  1 <= labelCount ->
  let a := if Z.ltb 2 arity then arity else 2 in
  let ti := completeTreeSize labelCount arity - labelCount in
  completeTreeSize labelCount arity
  = labelCount + cdiv (labelCount - 1) (a - 1)
  /\ (a - 1) * (ti - 1) < labelCount - 1 <= (a - 1) * ti.
Proof.
  intros Hk a ti.
  assert (Hmain : completeTreeSize labelCount arity
                  = labelCount + cdiv (labelCount - 1) (a - 1)).
  { destruct (completeTreeSize_formula labelCount arity Hk) as [-> _].
    unfold formulaSize, a.
    destruct (Z.ltb_spec 2 arity) as [Ha | Ha].
    2:{ replace (arity <=? 2) with true by (symmetry; apply Z.leb_le; lia).
        unfold cdiv. replace (labelCount - 1 + (2 - 1) - 1)
          with ((labelCount - 1) * 1) by lia.
        change (2 - 1) with 1. rewrite Z.div_mul by lia. lia. }
    replace (arity <=? 2) with false by (symmetry; apply Z.leb_gt; lia).
    destruct (floorLog_spec arity labelCount ltac:(lia) Hk) as (Hm & HA & _).
    destruct (pow_pred_divide arity (floorLog arity labelCount) ltac:(lia) Hm)
      as (s & Hs & Hs0).
    set (A := arity ^ floorLog arity labelCount) in *.
    set (c := arity - 1) in *.
    assert (Hc : 0 < c) by (unfold c; lia).
    cbv zeta. rewrite (Qceiling_div (labelCount - A) c Hc).
    assert (HD : (inject_Z (arity * A - 1) / inject_Z c == inject_Z (A + s))%Q).
    { replace (arity * A - 1) with ((A + s) * c) by (unfold c; nia).
      rewrite inject_Z_mult. apply Qdiv_mult_l.
      intros E. apply (inject_Z_injective c 0) in E. lia. }
    rewrite (Qfloor_comp _ (inject_Z (labelCount - (A - cdiv (labelCount - A) c)
                                      + (A + s)))).
    2:{ rewrite HD, <- inject_Z_plus. reflexivity. }
    rewrite Qfloor_Z.
    assert (Hcd : cdiv (labelCount - 1) c = cdiv (labelCount - A) c + s).
    { unfold cdiv.
      replace (labelCount - 1 + c - 1) with (labelCount - A + c - 1 + s * c)
        by nia.
      rewrite Z.div_add by lia. reflexivity. }
    rewrite Hcd. lia. }
  split; [exact Hmain|].
  assert (Ha1 : 0 < a - 1).
  { unfold a. destruct (Z.ltb_spec 2 arity); lia. }
  pose proof (cdiv_bounds (labelCount - 1) (a - 1) Ha1) as Hb.
  unfold ti. rewrite Hmain.
  replace (labelCount + cdiv (labelCount - 1) (a - 1) - labelCount)
    with (cdiv (labelCount - 1) (a - 1)) by lia.
  exact Hb.
Qed.

Lemma complete_childless (a' ti : Z) (order : list Z) (T : PLTree)
    (j : nat) (nd : TreeNode) :
  complete a' ti order T ->
  (a' - 1) * (ti - 1) < Z.of_nat (length order) - 1 <= (a' - 1) * ti ->
  tree T !! j = Some nd ->
  (children nd = [] <-> ti <= Z.of_nat j)
  /\ (ti <= Z.of_nat j <-> 0 <= label nd)
  /\ (Z.of_nat j < ti <-> label nd = -1).
Proof.
  intros Hc Hfill Hj.
  pose proof (complete_arity _ _ _ _ Hc) as Ha.
  pose proof (complete_size _ _ _ _ Hc) as Hsize.
  pose proof (complete_internal _ _ _ _ Hc) as Hti.
  pose proof (lookup_lt_Some _ _ _ Hj) as Hjlt.
  assert (Hlab : (ti <= Z.of_nat j -> 0 <= label nd)
                 /\ (Z.of_nat j < ti -> label nd = -1)).
  { destruct (complete_nodes _ _ _ _ Hc j nd Hj) as (_ & Hl & _).
    unfold expectedLabel in Hl.
    destruct (Z.leb_spec ti (Z.of_nat j)) as [Hge | Hlt].
    - split; [|lia]. intros _.
      pose proof (complete_nonneg _ _ _ _ Hc) as Hnn.
      rewrite Forall_forall in Hnn. apply Hnn.
      apply list_elem_of_lookup. eexists. symmetry. exact Hl.
    - split; [lia|]. intros _. inversion Hl. reflexivity. }
  destruct Hlab as [Hl1 Hl2].
  split; [|split].
  - rewrite (complete_children _ _ _ _ Hc j nd Hj).
    rewrite (expectedChildren_seq a' _ j Ha).
    set (a := Z.to_nat a').
    assert (Haz : Z.of_nat a = a') by (unfold a; lia).
    split.
    + intros Hnil. apply (f_equal length) in Hnil.
      rewrite length_seq in Hnil. cbn [length] in Hnil.
      destruct (Z.le_gt_cases ti (Z.of_nat j)) as [|Hlt]; [assumption|].
      exfalso. assert (Z.of_nat (a * j) <= a' * (ti - 1)) by nia. nia.
    + intros Hge.
      replace (length (tree T) - (a * j + 1))%nat with 0%nat; [|nia].
      rewrite Nat.min_0_r. reflexivity.
  - split; [exact Hl1|]. intros Hn.
    destruct (Z.le_gt_cases ti (Z.of_nat j)) as [|Hlt]; [assumption|].
    rewrite (Hl2 Hlt) in Hn. lia.
  - split; [exact Hl2|]. intros Hn.
    destruct (Z.le_gt_cases ti (Z.of_nat j)) as [Hge|]; [|assumption].
    pose proof (Hl1 Hge). lia.
Qed.

Lemma buildCompleteTree_filled
    (shuffle : list Z -> list Z) (labelCount arity : Z)
    (randomizeTree : bool) :
  1 <= labelCount ->
  (forall l, Permutation (shuffle l) l) ->
  let a' := if Z.ltb 2 arity then arity else 2 in
  let ti := cdiv (labelCount - 1) (a' - 1) in
  let order := if randomizeTree then shuffle (labelRange labelCount)
               else labelRange labelCount in
  exists T,
    buildCompleteTree shuffle PLTree_new labelCount arity randomizeTree = Some T
    /\ k T = labelCount /\ t T = labelCount + ti
    /\ Z.of_nat (length (tree T)) = labelCount + ti
    /\ Z.of_nat (length order) = labelCount
    /\ complete a' ti order T
    /\ (a' - 1) * (ti - 1) < Z.of_nat (length order) - 1 <= (a' - 1) * ti.
Proof.
  intros Hk Hshuffle a' ti order.
  destruct (buildCompleteTree_complete shuffle labelCount arity randomizeTree
              Hk Hshuffle) as (T & Hb & HkT & HtT & Hlen & Hperm & Hc).
  destruct (completeTreeSize_cdiv labelCount arity Hk) as [Hsize Hfill].
  fold a' in Hsize, Hfill. fold ti in Hsize.
  fold a' in Hc. fold order in Hc, Hperm.
  assert (Hti : completeTreeSize labelCount arity - labelCount = ti) by lia.
  rewrite Hti in Hc, Hfill.
  assert (Hol : Z.of_nat (length order) = labelCount).
  { rewrite (Permutation_length Hperm), labelRange_length. lia. }
  exists T. split; [exact Hb|]. split; [exact HkT|].
  split; [lia|]. split; [lia|]. split; [exact Hol|].
  split; [exact Hc|]. rewrite Hol. exact Hfill.
Qed.

(** X17.  [buildCompleteTree] for [k >= 1] labels makes [t = k + ti]
    nodes, where [ti = ceil ((k - 1) / (a - 1))] for the arity [a] used is
    the least number of inner nodes for [k] leaves.  The first [ti] nodes
    carry the label [-1] and each of them has a child; the last [k] nodes
    carry the labels and have no child.  So a node of the tree has a label
    exactly when it has no children. *)
Theorem buildCompleteTree_inner_nodes
    (shuffle : list Z -> list Z) (labelCount arity : Z)
    (randomizeTree : bool) :
  1 <= labelCount ->
  (forall l, Permutation (shuffle l) l) ->
  let a := if Z.ltb 2 arity then arity else 2 in
  let ti := cdiv (labelCount - 1) (a - 1) in
  exists T,
    buildCompleteTree shuffle PLTree_new labelCount arity randomizeTree = Some T
    /\ completeTreeSize labelCount arity = labelCount + ti
    /\ t T = labelCount + ti
    /\ Z.of_nat (length (tree T)) = labelCount + ti
    /\ (a - 1) * (ti - 1) < labelCount - 1 <= (a - 1) * ti
    /\ forall j nd,
         tree T !! j = Some nd ->
         (Z.of_nat j < ti <-> label nd = -1)
         /\ (ti <= Z.of_nat j <-> 0 <= label nd)
         /\ (children nd = [] <-> 0 <= label nd).
Proof.
  intros Hk Hshuffle a ti.
  destruct (buildCompleteTree_filled shuffle labelCount arity randomizeTree
              Hk Hshuffle) as (T & Hb & HkT & HtT & Hlen & Hol & Hc & Hfill).
  fold a in Hc, Hfill. fold ti in HtT, Hlen, Hc, Hfill.
  exists T. split; [exact Hb|].
  split; [apply (completeTreeSize_cdiv labelCount arity Hk)|].
  split; [exact HtT|]. split; [exact Hlen|].
  split; [rewrite Hol in Hfill; exact Hfill|].
  intros j nd Hj.
  destruct (complete_childless a ti _ T j nd Hc Hfill Hj) as (H1 & H2 & H3).
  split; [exact H3|]. split; [exact H2|].
  rewrite H1. exact H2.
Qed.

Lemma buildCompleteTree_inner_nodes_witness :
  exists T,
    buildCompleteTree keepOrder PLTree_new 2 2 false = Some T
    /\ completeTreeSize 2 2 = 2 + cdiv 1 1
    /\ t T = 3.
Proof.
  destruct (buildCompleteTree_inner_nodes keepOrder 2 2 false)
    as (T & H1 & H2 & H3 & _).
  - lia.
  - intros l. reflexivity.
  - exists T. split; [exact H1|]. split; [exact H2 | exact H3].
Defined.

(** ** The leaves that [predict] leaves out *)

(** X18.  The predictions are the most probable leaves: when every base
    predicts a probability in [0, 1], any leaf that a walk from the root
    reaches through unlabelled nodes is among the predictions of
    [PLTree::predict], or its cumulative probability is at most that of
    every prediction. *)
Theorem predict_top_k {PQ : PriorityQueue}
    (T : PLTree) (bases : list (Features -> Q)) (features : Features)
    (k_ : Z) (fuel : nat) (out : list TreeNodeProb) :
  probabilities bases features ->
  predict fuel T [] features bases k_ = Some out ->
  forall e path,
    walk T bases features (e :: path) -> isLeaf T e ->
    e ∈ out \/ Forall (fun o => (p e <= p o)%Q) out.
Proof.
  intros Hp Hrun e path Hw He.
  destruct (predict_facts T bases features k_ fuel out Hp Hrun)
    as (final & Hend & Hcover).
  destruct (Hcover e path Hw He) as [Hin | (x & Hx & Hq)]; [left; exact Hin|].
  right. pose proof (end_best _ _ _ _ _ _ Hend) as Hbest.
  eapply Forall_impl; [exact Hbest|]. cbn. intros o Ho.
  rewrite Forall_forall in Ho. specialize (Ho x Hq).
  destruct (walk_monotone T bases features _ Hp Hw) as [_ Hsorted].
  apply elem_of_cons in Hx. destruct Hx as [-> | Hx]; [exact Ho|].
  inversion Hsorted as [|? ? _ Hall]; subst.
  rewrite Forall_forall in Hall.
  eapply Qle_trans; [apply (Hall x Hx) | exact Ho].
Qed.

Lemma predict_top_k_witness :
  probabilities exampleBases []
  /\ predict (PQ := listQueue) 4 twoLabelTree [] [] exampleBases 1
     = Some [mkProb 2 (1 * (3 # 4))%Q]
  /\ (mkProb 1 (1 * (1 # 4))%Q ∈ [mkProb 2 (1 * (3 # 4))%Q]
      \/ Forall (fun o => (1 * (1 # 4) <= p o)%Q) [mkProb 2 (1 * (3 # 4))%Q]).
Proof.
  split; [exact exampleBases_probabilities|].
  split; [reflexivity|].
  apply (predict_top_k (PQ := listQueue) twoLabelTree exampleBases [] 1 4
           [mkProb 2 (1 * (3 # 4))%Q] exampleBases_probabilities eq_refl
           (mkProb 1 (1 * (1 # 4))%Q) [mkProb 0 1%Q]).
  - apply (walk_child twoLabelTree exampleBases [] (mkProb 0 1%Q) []
             (mkNode 0 (-1) None [1%nat; 2%nat]) 1
             (mkNode 1 0 (Some 0%nat) []) (1 # 4)%Q).
    + apply (walk_root twoLabelTree exampleBases [] 0
               (mkNode 0 (-1) None [1%nat; 2%nat]) 1%Q); reflexivity.
    + reflexivity.
    + cbn. lia.
    + cbn. apply list_elem_of_here.
    + reflexivity.
    + reflexivity.
  - exists (mkNode 1 0 (Some 0%nat) []). split; [reflexivity|]. cbn. lia.
Defined.

Lemma basePredict_total (bases : list (Features -> Q)) (features : Features)
    (i : Z) :
  0 <= i < Z.of_nat (length bases) ->
  exists q, basePredict bases features i = Some q.
Proof.
  intros Hi. unfold basePredict.
  replace (i <? 0) with false by (symmetry; apply Z.ltb_ge; lia).
  destruct (lookup_lt_is_Some_2 bases (Z.to_nat i)) as [b Hb]; [lia|].
  rewrite Hb. eauto.
Qed.

Lemma complete_reached (a' ti : Z) (order : list Z) (T : PLTree)
    (bases : list (Features -> Q)) (features : Features) :
  complete a' ti order T ->
  (a' - 1) * (ti - 1) < Z.of_nat (length order) - 1 <= (a' - 1) * ti ->
  basesCover T bases ->
  forall i nd,
    tree T !! i = Some nd ->
    exists e path, node e = i /\ walk T bases features (e :: path).
Proof.
  intros Hc Hfill Hcover i. induction i as [i IH] using lt_wf_ind.
  intros nd Hi.
  destruct (basePredict_total bases features (index nd) (Hcover i nd Hi))
    as [pc Hpc].
  destruct (complete_nodes _ _ _ _ Hc i nd Hi) as (_ & _ & Hpar).
  destruct (parent nd) as [q|] eqn:Eq.
  - symmetry in Hpar.
    pose proof (expectedParent_lt a' i q (complete_arity _ _ _ _ Hc) Hpar)
      as Hq.
    pose proof (lookup_lt_Some _ _ _ Hi) as Hilt.
    destruct (lookup_lt_is_Some_2 (tree T) q ltac:(lia)) as [nq Hnq].
    destruct (IH q Hq nq Hnq) as (eq_ & path & Hnode & Hw).
    assert (Hin : i ∈ children nq).
    { rewrite (complete_children _ _ _ _ Hc q nq Hnq).
      apply elem_of_expectedChildren. split; assumption. }
    destruct (complete_childless a' ti order T q nq Hc Hfill Hnq)
      as (Hnil & _ & Hinner).
    assert (Hlbl : label nq < 0).
    { destruct (Z.le_gt_cases ti (Z.of_nat q)) as [Hge | Hlt].
      - apply Hnil in Hge. rewrite Hge in Hin. apply elem_of_nil in Hin.
        contradiction.
      - apply Hinner in Hlt. lia. }
    exists (mkProb i (p eq_ * pc)%Q), (eq_ :: path). split; [reflexivity|].
    apply (walk_child T bases features eq_ path nq i nd pc); try assumption.
    rewrite Hnode. exact Hnq.
  - assert (i = 0%nat) as ->.
    { symmetry in Hpar. unfold expectedParent in Hpar.
      destruct (Z.ltb_spec 0 (Z.of_nat i)); [discriminate | lia]. }
    exists (mkProb 0 pc), []. split; [reflexivity|].
    apply (walk_root T bases features 0 nd pc);
      [apply (complete_root _ _ _ _ Hc) | exact Hi | exact Hpc].
Qed.

(** On a complete tree with a base for every node, [predict] returns as
    many predictions as asked for or as there are labels. *)
Lemma complete_predict {PQ : PriorityQueue}
    (a' ti : Z) (order : list Z) (T : PLTree)
    (bases : list (Features -> Q)) (features : Features) (k_ : Z) :
  complete a' ti order T ->
  (a' - 1) * (ti - 1) < Z.of_nat (length order) - 1 <= (a' - 1) * ti ->
  probabilities bases features ->
  (length (tree T) <= length bases)%nat ->
  1 <= k_ ->
  exists out,
    predict (S (length (tree T))) T [] features bases k_ = Some out
    /\ Z.of_nat (length out) = Z.min k_ (Z.of_nat (length order))
    /\ NoDup (node <$> out)
    /\ StronglySorted (fun a b => (p b <= p a)%Q) out
    /\ Forall (fun o => exists nd,
                 tree T !! node o = Some nd
                 /\ label nd ∈ order
                 /\ treeLeaves T !! label nd = Some (node o)) out.
Proof.
  intros Hc Hfill Hp Hbases Hk_.
  pose proof (complete_internal _ _ _ _ Hc) as Hti.
  pose proof (complete_size _ _ _ _ Hc) as Hsize.
  assert (Hcover : basesCover T bases).
  { intros i nd Hi. rewrite (complete_indexed _ _ _ _ Hc i nd Hi).
    apply lookup_lt_Some in Hi. lia. }
  destruct (predict_run T bases features k_ (S (length (tree T)))
              (complete_shaped _ _ _ _ Hc) Hcover ltac:(lia))
    as (out & Hrun & Hnodup).
  destruct (predict_facts T bases features k_ _ out Hp Hrun)
    as (final & Hend & Hcov).
  destruct Hend as [Hsorted _ Hemitted Hsize_ Hexh].
  specialize (Hsize_ Hk_). specialize (Hexh Hk_).
  (* the predictions are labelled nodes *)
  assert (Hleaves : Forall (fun o => exists nd,
                      tree T !! node o = Some nd
                      /\ label nd ∈ order
                      /\ treeLeaves T !! label nd = Some (node o)
                      /\ ti <= Z.of_nat (node o)) out).
  { eapply Forall_impl; [exact Hemitted|]. cbn.
    intros o [_ (nd & Hnd & Hl)]. exists nd. split; [exact Hnd|].
    destruct (complete_childless a' ti order T (node o) nd Hc Hfill Hnd)
      as (_ & Hge & _).
    apply Hge in Hl.
    destruct (complete_nodes _ _ _ _ Hc (node o) nd Hnd) as (_ & Hlab & _).
    unfold expectedLabel in Hlab.
    replace (ti <=? Z.of_nat (node o)) with true in Hlab
      by (symmetry; apply Z.leb_le; lia).
    symmetry in Hlab.
    split; [apply list_elem_of_lookup; eexists; exact Hlab|].
    split; [|exact Hl].
    apply (complete_leaves _ _ _ _ Hc). split; [lia|].
    split; [eapply lookup_lt_Some; exact Hnd | exact Hlab]. }
  (* at most as many as labels *)
  assert (Hle : (length out <= length order)%nat).
  { rewrite <- (length_fmap node out).
    replace (length order)
      with (length (seq (Z.to_nat ti) (length order)))
      by apply length_seq.
    apply submseteq_length, NoDup_submseteq; [exact Hnodup|].
    intros n Hn. apply list_elem_of_fmap in Hn. destruct Hn as (o & -> & Ho).
    rewrite Forall_forall in Hleaves.
    destruct (Hleaves o Ho) as (nd & Hnd & _ & _ & Hge).
    apply lookup_lt_Some in Hnd. apply elem_of_seq. lia. }
  (* all of them when the queue was exhausted *)
  assert (Hall : Z.of_nat (length out) < k_ ->
                 (length order <= length out)%nat).
  { intros Hlt. specialize (Hexh Hlt).
    rewrite <- (length_fmap node out).
    replace (length order)
      with (length (seq (Z.to_nat ti) (length order)))
      by apply length_seq.
    apply submseteq_length, NoDup_submseteq; [apply NoDup_seq|].
    intros n Hn. apply elem_of_seq in Hn.
    destruct (lookup_lt_is_Some_2 (tree T) n ltac:(lia)) as [nd Hnd].
    destruct (complete_reached a' ti order T bases features Hc Hfill Hcover
                n nd Hnd) as (e & path & Hnode & Hw).
    assert (He : isLeaf T e).
    { exists nd. rewrite Hnode. split; [exact Hnd|].
      apply (complete_childless a' ti order T n nd Hc Hfill Hnd). lia. }
    destruct (Hcov e path Hw He) as [Hin | (x & _ & Hx)].
    - apply list_elem_of_fmap. exists e. split; [symmetry; exact Hnode|].
      exact Hin.
    - rewrite Hexh in Hx. apply elem_of_nil in Hx. contradiction. }
  exists out. split; [exact Hrun|].
  split.
  { destruct (Z.lt_ge_cases (Z.of_nat (length out)) k_) as [Hlt | Hge].
    - specialize (Hall Hlt). lia.
    - lia. }
  split; [exact Hnodup|]. split; [exact Hsorted|].
  eapply Forall_impl; [exact Hleaves|]. cbn.
  intros o (nd & H1 & H2 & H3 & _). exists nd. repeat split; tauto.
Qed.

(** X19.  On the tree that [buildCompleteTree] makes for [k] labels, with
    a base for every node that predicts a probability in [0, 1],
    [PLTree::predict] asked for [topK >= 1] predictions ends within [t + 1]
    rounds and returns exactly [min (topK, k)] of them: distinct nodes that
    carry labels among [0 .. k-1] and are the leaves of these labels, in
    non-increasing order of probability. *)
Theorem buildCompleteTree_predict {PQ : PriorityQueue}
    (shuffle : list Z -> list Z) (labelCount arity : Z)
    (randomizeTree : bool) (bases : list (Features -> Q))
    (features : Features) (k_ : Z) :
  1 <= labelCount ->
  (forall l, Permutation (shuffle l) l) ->
  probabilities bases features ->
  completeTreeSize labelCount arity <= Z.of_nat (length bases) ->
  1 <= k_ ->
  exists T out,
    buildCompleteTree shuffle PLTree_new labelCount arity randomizeTree = Some T
    /\ predict (S (Z.to_nat (t T))) T [] features bases k_ = Some out
    /\ Z.of_nat (length out) = Z.min k_ labelCount
    /\ NoDup (node <$> out)
    /\ StronglySorted (fun a b => (p b <= p a)%Q) out
    /\ Forall (fun o => exists nd,
                 tree T !! node o = Some nd
                 /\ 0 <= label nd < labelCount
                 /\ treeLeaves T !! label nd = Some (node o)) out.
Proof.
  intros Hk Hshuffle Hp Hbases Hk_.
  destruct (buildCompleteTree_filled shuffle labelCount arity randomizeTree
              Hk Hshuffle) as (T & Hb & HkT & HtT & Hlen & Hol & Hc & Hfill).
  destruct (completeTreeSize_cdiv labelCount arity Hk) as [Hsize _].
  destruct (complete_predict _ _ _ T bases features k_ Hc Hfill Hp
              ltac:(lia) Hk_)
    as (out & Hrun & Hcount & Hnodup & Hsorted & Hleaves).
  exists T, out. split; [exact Hb|].
  split.
  { replace (Z.to_nat (t T)) with (length (tree T)) by lia. exact Hrun. }
  split; [lia|]. split; [exact Hnodup|]. split; [exact Hsorted|].
  eapply Forall_impl; [exact Hleaves|]. cbn.
  intros o (nd & H1 & H2 & H3). exists nd. split; [exact H1|].
  split; [|exact H3].
  assert (Hperm : Permutation
            (if randomizeTree then shuffle (labelRange labelCount)
             else labelRange labelCount) (labelRange labelCount)).
  { destruct randomizeTree; [apply Hshuffle | reflexivity]. }
  rewrite Hperm in H2. apply elem_of_labelRange in H2. exact H2.
Qed.

Lemma buildCompleteTree_predict_witness :
  exists T out,
    buildCompleteTree keepOrder PLTree_new 2 2 false = Some T
    /\ predict (PQ := listQueue) (S (Z.to_nat (t T))) T [] [] exampleBases 5
       = Some out
    /\ Z.of_nat (length out) = 2.
Proof.
  destruct (buildCompleteTree_predict (PQ := listQueue) keepOrder 2 2 false
              exampleBases [] 5)
    as (T & out & H1 & H2 & H3 & _).
  - lia.
  - intros l. reflexivity.
  - exact exampleBases_probabilities.
  - vm_compute. discriminate.
  - lia.
  - exists T, out. split; [exact H1|]. split; [exact H2 | exact H3].
Defined.

(** ** The examples gathered for the nodes *)

(** What a row adds to the bucket [i]: [x] when node [i] is positive for
    the row, then [y] when it is negative. *)
Definition gathered {A} (nPositive nNegative : gset nat) (x y : A) (i : nat)
  : list A :=
  (if bool_decide (i ∈ nPositive) then [x] else [])
  ++ (if bool_decide (i ∈ nNegative) then [y] else []).

Lemma pushExamples_spec (T : PLTree) (l : Q) (f : Features) (nodes : list nat) :
  indexed T -> NoDup nodes ->
  (forall n, n ∈ nodes -> is_Some (tree T !! n)) ->
  forall b : Bins,
    (length (tree T) <= length (binLabels b))%nat ->
    length (binFeatures b) = length (binLabels b) ->
    exists b',
      pushExamples T nodes l f b = Some b'
      /\ length (binLabels b') = length (binLabels b)
      /\ length (binFeatures b') = length (binFeatures b)
      /\ (forall i, binLabels b' !! i
                    = (fun ls => if bool_decide (i ∈ nodes) then ls ++ [l]
                                 else ls) <$> binLabels b !! i)
      /\ (forall i, binFeatures b' !! i
                    = (fun fs => if bool_decide (i ∈ nodes) then fs ++ [f]
                                 else fs) <$> binFeatures b !! i).
Proof.
  intros Hidx. induction nodes as [|n nodes IH]; intros Hnd Hin b Hlen Hfl.
  - exists b. split; [reflexivity|]. split; [reflexivity|].
    split; [reflexivity|].
    split; intros i; rewrite bool_decide_eq_false_2 by (apply not_elem_of_nil);
      destruct (_ !! i); reflexivity.
  - inversion Hnd as [|? ? Hn Hnd']; subst.
    destruct (Hin n (list_elem_of_here _ _)) as [nd Hnode].
    pose proof (lookup_lt_Some _ _ _ Hnode) as Hnlt.
    cbn [pushExamples]. rewrite Hnode. unfold pushExample.
    rewrite (Hidx n nd Hnode).
    replace (Z.of_nat n <? 0) with false by (symmetry; apply Z.ltb_ge; lia).
    rewrite Nat2Z.id.
    destruct (lookup_lt_is_Some_2 (binLabels b) n ltac:(lia)) as [ls Hls].
    destruct (lookup_lt_is_Some_2 (binFeatures b) n ltac:(lia)) as [fs Hfs].
    rewrite Hls, Hfs.
    set (b1 := mkBins (<[n := ls ++ [l]]> (binLabels b))
                 (<[n := fs ++ [f]]> (binFeatures b))).
    destruct (IH Hnd' (fun m Hm => Hin m (list_elem_of_further _ _ _ Hm)) b1)
      as (b' & Hb' & Hl1 & Hl2 & Hlab & Hfea).
    { unfold b1. cbn [binLabels]. rewrite length_insert. exact Hlen. }
    { unfold b1. cbn [binLabels binFeatures]. rewrite !length_insert.
      exact Hfl. }
    exists b'. split; [exact Hb'|].
    unfold b1 in Hl1, Hl2, Hlab, Hfea. cbn [binLabels binFeatures] in *.
    rewrite length_insert in Hl1. rewrite length_insert in Hl2.
    split; [exact Hl1|]. split; [exact Hl2|].
    split; intros i; [rewrite Hlab | rewrite Hfea];
      (destruct (decide (i = n)) as [-> | Hne];
       [ rewrite list_lookup_insert_eq by lia;
         rewrite ?Hls, ?Hfs; cbn [fmap option_fmap option_map];
         rewrite (bool_decide_eq_false_2 (n ∈ nodes)) by exact Hn;
         rewrite (bool_decide_eq_true_2 (n ∈ n :: nodes))
           by (apply list_elem_of_here);
         reflexivity
       | rewrite list_lookup_insert_ne by congruence;
         assert (Hdec : bool_decide (i ∈ n :: nodes) = bool_decide (i ∈ nodes))
           by (apply bool_decide_ext; rewrite elem_of_cons; tauto);
         rewrite Hdec; reflexivity ]).
Qed.

Section Gathering.

Variable T : PLTree.
Variable rank : nat -> nat.
Variable fuel : nat.
Hypothesis Hwf : wellFormed T rank.
Hypothesis Hidx : indexed T.
Hypothesis Hrank : forall n nd, tree T !! n = Some nd -> (rank n < fuel)%nat.
Hypothesis Hfuel : (length (tree T) <= fuel)%nat.

Lemma assignRow_nodes (rLabels : list Z) :
  leavesKnown T rLabels ->
  exists nPositive nNegative,
    assignRow fuel T rLabels = Some (nPositive, nNegative)
    /\ (forall n, n ∈ nPositive -> is_Some (tree T !! n))
    /\ (forall n, n ∈ nNegative -> is_Some (tree T !! n)).
Proof.
  intros Hk.
  destruct (assignRow_spec T rank Hwf fuel rLabels Hk Hrank Hfuel)
    as (r & P & N & Hr & Ha & Hempty & Hspec).
  exists P, N. split; [exact Ha|].
  destruct rLabels as [|y rLabels].
  - destruct (Hempty eq_refl) as [-> ->]. split.
    + intros n Hn. apply elem_of_empty in Hn. contradiction.
    + intros n Hn. apply elem_of_singleton in Hn. subst n.
      destruct (wf_shaped _ _ Hwf) as ((r' & rn & Hr' & Hrn & _) & _).
      rewrite Hr in Hr'. inversion Hr'; subst r'. eauto.
  - destruct (Hspec ltac:(discriminate)) as [HP HN]. split.
    + intros n Hn. apply HP in Hn. destruct Hn as (y' & m & _ & _ & Hpath).
      apply (onPath_end T m n Hpath).
    + intros n Hn. apply HN in Hn.
      destruct Hn as (d & nd & _ & Hd & Hc & _).
      destruct (wf_shaped _ _ Hwf) as (_ & Hchild & _).
      destruct (Hchild d nd n Hd Hc) as (nc & Hnc & _). eauto.
Qed.

Lemma assignPoint_spec (rLabels : list Z) (f : Features) (b : Bins) :
  leavesKnown T rLabels ->
  (length (tree T) <= length (binLabels b))%nat ->
  length (binFeatures b) = length (binLabels b) ->
  exists nPositive nNegative b',
    assignRow fuel T rLabels = Some (nPositive, nNegative)
    /\ assignPoint fuel T rLabels f b = Some b'
    /\ length (binLabels b') = length (binLabels b)
    /\ length (binFeatures b') = length (binFeatures b)
    /\ (forall i, binLabels b' !! i
                  = (fun ls => ls ++ gathered nPositive nNegative 1%Q 0%Q i)
                      <$> binLabels b !! i)
    /\ (forall i, binFeatures b' !! i
                  = (fun fs => fs ++ gathered nPositive nNegative f f i)
                      <$> binFeatures b !! i).
Proof.
  intros Hk Hlen Hfl.
  destruct (assignRow_nodes rLabels Hk) as (P & N & Ha & HP & HN).
  exists P, N. unfold assignPoint. rewrite Ha.
  destruct (pushExamples_spec T 1%Q f (elements P) Hidx (NoDup_elements P)
              (fun n Hn => HP n (proj1 (elem_of_elements P n) Hn)) b Hlen Hfl)
    as (b1 & Hb1 & Hl1 & Hf1 & Hlab1 & Hfea1).
  rewrite Hb1.
  destruct (pushExamples_spec T 0%Q f (elements N) Hidx (NoDup_elements N)
              (fun n Hn => HN n (proj1 (elem_of_elements N n) Hn)) b1
              ltac:(lia) ltac:(lia))
    as (b2 & Hb2 & Hl2 & Hf2 & Hlab2 & Hfea2).
  exists b2. split; [reflexivity|]. split; [exact Hb2|].
  split; [lia|]. split; [lia|].
  split; intros i; [rewrite Hlab2, Hlab1 | rewrite Hfea2, Hfea1];
    (destruct (_ !! i) as [xs|]; [|reflexivity]);
    cbn [fmap option_fmap option_map]; f_equal; unfold gathered;
    rewrite (bool_decide_ext (i ∈ elements P) (i ∈ P)) by apply elem_of_elements;
    rewrite (bool_decide_ext (i ∈ elements N) (i ∈ N)) by apply elem_of_elements;
    destruct (bool_decide (i ∈ P)), (bool_decide (i ∈ N));
    rewrite <- ?app_assoc, ?app_nil_r; reflexivity.
Qed.

Lemma assignRows_spec (labels : list (list Z)) :
  forall (features : list Features) (b : Bins),
    Forall (leavesKnown T) labels ->
    length labels = length features ->
    (length (tree T) <= length (binLabels b))%nat ->
    length (binFeatures b) = length (binLabels b) ->
    exists sets b',
      Forall2 (fun l PN => assignRow fuel T l = Some PN) labels sets
      /\ assignRows fuel T labels features b = Some b'
      /\ (forall i, binLabels b' !! i
                    = (fun ls => ls ++ flat_map
                                         (fun PN => gathered PN.1 PN.2 1%Q 0%Q i)
                                         sets)
                        <$> binLabels b !! i)
      /\ (forall i, binFeatures b' !! i
                    = (fun fs => fs ++ flat_map
                                         (fun PNf =>
                                            gathered PNf.1.1 PNf.1.2
                                              PNf.2 PNf.2 i)
                                         (zip sets features))
                        <$> binFeatures b !! i).
Proof.
  induction labels as [|l labels IH]; intros features b Hk Hlen Hb Hfl.
  - destruct features; [|discriminate]. exists [], b.
    split; [constructor|]. split; [reflexivity|].
    split; intros i; destruct (_ !! i); cbn; rewrite ?app_nil_r; reflexivity.
  - destruct features as [|f features]; [discriminate|].
    inversion Hk as [|? ? Hl Hk']; subst.
    destruct (assignPoint_spec l f b Hl Hb Hfl)
      as (P & N & b1 & Ha & Hp & Hl1 & Hf1 & Hlab1 & Hfea1).
    destruct (IH features b1 Hk' ltac:(cbn in Hlen; lia) ltac:(lia) ltac:(lia))
      as (sets & b' & Hall & Hrows & Hlab & Hfea).
    exists ((P, N) :: sets), b'. split; [constructor; assumption|].
    cbn [assignRows]. rewrite Hp. split; [exact Hrows|].
    split; intros i; [rewrite Hlab, Hlab1 | rewrite Hfea, Hfea1];
      (destruct (_ !! i) as [xs|]; [|reflexivity]);
      cbn [fmap option_fmap option_map flat_map zip zip_with fst snd];
      rewrite <- app_assoc; reflexivity.
Qed.

End Gathering.

(** X20.  On a tree whose pointers agree, whose nodes sit at the position
    of their index, for a dataset with a leaf for every label and at least
    as many rows as the tree has nodes, the gathering loop of
    [PLTree::train] ends, and the bucket of node [i] holds one entry for
    each row for which the node is positive or negative, in the order of
    the rows: the label [1.0] or [0.0] in [binLabels], the features of the
    row in [binFeatures]. *)
Theorem assignPoints_gathers
    (T : PLTree) (rank : nat -> nat) (fuel : nat)
    (labels : list (list Z)) (features : list Features) :
  wellFormed T rank ->
  indexed T ->
  (forall n nd, tree T !! n = Some nd -> (rank n < fuel)%nat) ->
  (length (tree T) <= fuel)%nat ->
  Forall (leavesKnown T) labels ->
  length labels = length features ->
  (length (tree T) <= length features)%nat ->
  exists sets b,
    Forall2 (fun l PN => assignRow fuel T l = Some PN) labels sets
    /\ assignPoints fuel T labels features = Some b
    /\ forall i, (i < length features)%nat ->
         binLabels b !! i
         = Some (flat_map (fun PN => gathered PN.1 PN.2 1%Q 0%Q i) sets)
         /\ binFeatures b !! i
            = Some (flat_map (fun PNf => gathered PNf.1.1 PNf.1.2 PNf.2 PNf.2 i)
                      (zip sets features)).
Proof.
  intros Hwf Hidx Hrank Hfuel Hk Hlen Hrows. unfold assignPoints.
  destruct (assignRows_spec T rank fuel Hwf Hidx Hrank Hfuel labels features
              (mkBins (repeat [] (length features))
                 (repeat [] (length features))) Hk Hlen)
    as (sets & b & Hall & Hb & Hlab & Hfea).
  { cbn [binLabels]. rewrite repeat_length. exact Hrows. }
  { cbn [binLabels binFeatures]. rewrite !repeat_length. reflexivity. }
  exists sets, b. split; [exact Hall|]. split; [exact Hb|].
  intros i Hi. cbn [binLabels binFeatures] in Hlab, Hfea.
  rewrite Hlab, Hfea.
  assert (Hrep : forall A, repeat (@nil A) (length features) !! i = Some []).
  { intros A. clear - Hi. revert i Hi.
    induction (length features) as [|n IH]; intros i Hi; [lia|].
    destruct i; [reflexivity|]. cbn. apply IH. lia. }
  rewrite !Hrep. split; reflexivity.
Qed.

Lemma assignPoints_gathers_witness :
  exists sets b,
    assignPoints 3 twoLabelTree [[1]; []; []]
      [[(1, 1%Q)]; [(1, 2%Q)]; [(1, 3%Q)]] = Some b
    /\ Forall2 (fun l PN => assignRow 3 twoLabelTree l = Some PN)
         [[1]; []; []] sets
    /\ binLabels b !! 0%nat
       = Some (flat_map (fun PN => gathered PN.1 PN.2 1%Q 0%Q 0) sets).
Proof.
  destruct (assignPoints_gathers twoLabelTree (fun n => n) 3 [[1]; []; []]
              [[(1, 1%Q)]; [(1, 2%Q)]; [(1, 3%Q)]])
    as (sets & b & H1 & H2 & H3).
  - exact twoLabelTree_wellFormed.
  - exact twoLabelTree_indexed.
  - intros n nd Hn. apply lookup_lt_Some in Hn. exact Hn.
  - cbn. lia.
  - repeat constructor.
    + intros y Hy. apply list_elem_of_singleton in Hy. subst y.
      exists 2%nat, (mkNode 2 1 (Some 0%nat) []). split; reflexivity.
    + intros y Hy. apply elem_of_nil in Hy. contradiction.
    + intros y Hy. apply elem_of_nil in Hy. contradiction.
  - reflexivity.
  - cbn. lia.
  - exists sets, b. split; [exact H2|]. split; [exact H1|].
    apply (H3 0%nat). cbn. lia.
Defined.

(** ** Testing *)

(** How often the row's labels hold the label of the [i]-th prediction. *)
Definition hits (T : PLTree) (prediction : list TreeNodeProb) (i : nat)
    (rLabels : list Z) : Z :=
  match predictedLabel T prediction i with
  | Some pl => Z.of_nat (count_occ Z.eq_dec rLabels pl)
  | None => 0
  end.

(** The hits at position [j] of rows given with their predictions. *)
Definition totalHits (T : PLTree) (rows : list (list Z * list TreeNodeProb))
    (j : nat) : Z :=
  foldr (fun row acc => hits T row.2 j row.1 + acc) 0 rows.

(** The counters [p'] are the counters [p] with [d j] added at [j]. *)
Definition added (d : nat -> Z) (p p' : list Z) : Prop :=
  forall j, p' !! j = (fun c => c + d j) <$> p !! j.

Lemma added_length (d : nat -> Z) (p p' : list Z) :
  added d p p' -> length p' = length p.
Proof.
  intros H.
  assert (E : p' = imap (fun j c => c + d j) p).
  { apply list_eq. intros j. rewrite (H j), list_lookup_imap.
    destruct (p !! j); reflexivity. }
  rewrite E. apply length_imap.
Qed.

Lemma added_trans (d1 d2 d : nat -> Z) (p p1 p2 : list Z) :
  added d1 p p1 -> added d2 p1 p2 ->
  (forall j, (j < length p)%nat -> d j = d1 j + d2 j) ->
  added d p p2.
Proof.
  intros H1 H2 Hd j. rewrite (H2 j), (H1 j).
  destruct (p !! j) as [c|] eqn:E; [|reflexivity].
  cbn. rewrite (Hd j (lookup_lt_Some _ _ _ E)). f_equal. lia.
Qed.

Lemma countLabels_added (T : PLTree) (prediction : list TreeNodeProb)
    (i : nat) (rLabels : list Z) :
  forall precision precision',
    countLabels T prediction i rLabels precision = Some precision' ->
    added (fun j => if decide (j = i) then hits T prediction i rLabels else 0)
      precision precision'.
Proof.
  induction rLabels as [|l rl IH]; intros pr pr' H; cbn [countLabels] in H.
  - inversion H; subst pr'. intros j. unfold hits.
    destruct (predictedLabel T prediction i); cbn [count_occ];
      destruct (decide (j = i)); destruct (pr !! j); cbn; f_equal; lia.
  - destruct (predictedLabel T prediction i) as [pl|] eqn:E; [|discriminate].
    assert (Hh : hits T prediction i (l :: rl)
                 = (if Z.eqb pl l then 1 else 0) + hits T prediction i rl).
    { unfold hits. rewrite E. cbn [count_occ].
      destruct (Z.eqb_spec pl l) as [-> | Hne].
      - destruct (Z.eq_dec l l); [lia | congruence].
      - destruct (Z.eq_dec l pl); [congruence | lia]. }
    destruct (Z.eqb_spec pl l) as [-> | Hne].
    + destruct (pr !! i) as [c|] eqn:Ei; [|discriminate].
      apply IH in H. intros j. rewrite (H j).
      destruct (decide (j = i)) as [-> | Hji].
      * rewrite list_lookup_insert_eq by (eapply lookup_lt_Some; exact Ei).
        rewrite Ei, Hh. cbn. f_equal. lia.
      * rewrite list_lookup_insert_ne by congruence. reflexivity.
    + apply IH in H. intros j. rewrite (H j), Hh.
      destruct (decide (j = i)); destruct (pr !! j); cbn; f_equal; lia.
Qed.

Lemma countRow_added (T : PLTree) (prediction : list TreeNodeProb)
    (rLabels : list Z) :
  forall count i precision precision',
    countRow T prediction rLabels count i precision = Some precision' ->
    added (fun j => if decide (i <= j < i + count)%nat
                    then hits T prediction j rLabels else 0)
      precision precision'.
Proof.
  intros count. induction count as [|count IH]; intros i pr pr' H; cbn [countRow] in H.
  - inversion H; subst pr'. intros j.
    destruct (decide (i <= j < i + 0)%nat); [lia|].
    destruct (pr !! j); cbn; f_equal; lia.
  - destruct (countLabels T prediction i rLabels pr) as [pr1|] eqn:E;
      [|discriminate].
    apply countLabels_added in E. apply IH in H.
    eapply added_trans; [exact E | exact H |].
    intros j _. cbv beta.
    destruct (decide (j = i)) as [Hji | Hji];
      destruct (decide (S i <= j < S i + count)%nat);
      destruct (decide (i <= j < i + S count)%nat);
      try rewrite Hji; lia.
Qed.

Lemma countLabels_returns (T : PLTree) (prediction : list TreeNodeProb)
    (i : nat) (rLabels : list Z) :
  is_Some (predictedLabel T prediction i) ->
  forall precision,
    (i < length precision)%nat ->
    exists precision',
      countLabels T prediction i rLabels precision = Some precision'
      /\ length precision' = length precision.
Proof.
  intros [pl Hpl]. induction rLabels as [|l rl IH]; intros pr Hi.
  - exists pr. split; reflexivity.
  - cbn [countLabels]. rewrite Hpl. destruct (Z.eqb pl l).
    + destruct (lookup_lt_is_Some_2 pr i Hi) as [c Hc]. rewrite Hc.
      destruct (IH (<[i := c + 1]> pr)) as (pr' & H1 & H2).
      { rewrite length_insert. exact Hi. }
      exists pr'. split; [exact H1|]. rewrite H2. apply length_insert.
    + apply IH. exact Hi.
Qed.

Lemma countRow_returns (T : PLTree) (prediction : list TreeNodeProb)
    (rLabels : list Z) :
  forall count i precision,
    (forall j, (i <= j < i + count)%nat ->
               is_Some (predictedLabel T prediction j)) ->
    (i + count <= length precision)%nat ->
    exists precision',
      countRow T prediction rLabels count i precision = Some precision'
      /\ length precision' = length precision.
Proof.
  intros count. induction count as [|count IH]; intros i pr Hall Hlen.
  - exists pr. split; reflexivity.
  - cbn [countRow].
    destruct (countLabels_returns T prediction i rLabels
                (Hall i ltac:(lia)) pr ltac:(lia)) as (pr1 & H1 & Hl1).
    rewrite H1.
    destruct (IH (S i) pr1) as (pr' & H2 & Hl2).
    { intros j Hj. apply Hall. lia. }
    { lia. }
    exists pr'. split; [exact H2 | lia].
Qed.

Lemma countRow_past_end (T : PLTree) (prediction : list TreeNodeProb)
    (rLabels : list Z) (m : nat) :
  rLabels <> [] ->
  predictedLabel T prediction m = None ->
  forall count i precision,
    (i <= m < i + count)%nat ->
    countRow T prediction rLabels count i precision = None.
Proof.
  intros Hne Hm count. induction count as [|count IH]; intros i pr Hi; [lia|].
  cbn [countRow].
  destruct (countLabels T prediction i rLabels pr) as [pr1|] eqn:E;
    [|reflexivity].
  destruct (decide (m = i)) as [-> | Hmi].
  - destruct rLabels as [|l rl]; [congruence|].
    cbn [countLabels] in E. rewrite Hm in E. discriminate.
  - apply IH. lia.
Qed.

Lemma precisionAt_spec (rows : Z) (precision : list Z) :
  forall count i correct printed,
    precisionAt rows precision count i correct = Some printed ->
    length printed = count
    /\ forall m, (m < count)%nat ->
         printed !! m
         = Some (correct + foldr Z.add 0 (take (S m) (drop i precision)),
                 rows * (Z.of_nat (i + m) + 1)).
Proof.
  intros count. induction count as [|count IH]; intros i correct printed H;
    cbn [precisionAt] in H.
  - inversion H; subst. split; [reflexivity|]. intros m Hm. lia.
  - destruct (precision !! i) as [c|] eqn:Ei; [|discriminate].
    destruct (precisionAt rows precision count (S i) (correct + c))
      as [rest|] eqn:E; [|discriminate].
    cbn in H. inversion H; subst printed. clear H.
    destruct (IH _ _ _ E) as [Hl Hrest].
    split; [cbn; lia|]. intros m Hm.
    rewrite (drop_S _ _ _ Ei). destruct m as [|m].
    + change (Some (correct + c, rows * (Z.of_nat i + 1))
              = Some (correct + (c + 0), rows * (Z.of_nat (i + 0) + 1))).
      rewrite Nat.add_0_r, Z.add_0_r. reflexivity.
    + change (rest !! m
              = Some (correct
                      + (c + foldr Z.add 0
                               (take (S m) (drop (S i) precision))),
                      rows * (Z.of_nat (i + S m) + 1))).
      rewrite (Hrest m ltac:(lia)), Z.add_assoc.
      replace (S i + m)%nat with (i + S m)%nat by lia. reflexivity.
Qed.

Lemma precisionAt_returns (rows : Z) (precision : list Z) :
  forall count i correct,
    (i + count <= length precision)%nat ->
    is_Some (precisionAt rows precision count i correct).
Proof.
  intros count. induction count as [|count IH]; intros i correct Hlen.
  - cbn. eauto.
  - cbn [precisionAt].
    destruct (lookup_lt_is_Some_2 precision i ltac:(lia)) as [c Hc].
    rewrite Hc. destruct (IH (S i) (correct + c) ltac:(lia)) as [rest Hr].
    rewrite Hr. cbn. eauto.
Qed.

Section TestFacts.

Context {PQ : PriorityQueue}.
Variable T : PLTree.
Variable fuel : nat.
Variable bases : list (Features -> Q).
Variable topK : Z.

Lemma testRows_added (labels : list (list Z)) :
  forall features precision precision',
    length labels = length features ->
    testRows fuel T labels features bases topK precision = Some precision' ->
    exists predictions,
      Forall2 (fun f out => predict fuel T [] f bases topK = Some out)
        features predictions
      /\ added (fun j => if decide (j < Z.to_nat topK)%nat
                         then totalHits T (zip labels predictions) j else 0)
           precision precision'.
Proof.
  induction labels as [|rl labels IH]; intros features pr pr' Hlen H.
  - destruct features; [|discriminate]. cbn in H. inversion H; subst pr'.
    exists []. split; [constructor|]. intros j. cbn.
    destruct (decide (j < Z.to_nat topK)%nat); destruct (pr !! j); cbn;
      f_equal; lia.
  - destruct features as [|f features]; [discriminate|].
    cbn [testRows] in H.
    destruct (predict fuel T [] f bases topK) as [out|] eqn:Eo; [|discriminate].
    destruct (countRow T out rl (Z.to_nat topK) 0 pr) as [pr1|] eqn:Er;
      [|discriminate].
    apply countRow_added in Er.
    destruct (IH features pr1 pr' ltac:(cbn in Hlen; lia) H)
      as (predictions & Hall & Hadd).
    exists (out :: predictions). split; [constructor; assumption|].
    eapply added_trans; [exact Er | exact Hadd |].
    intros j _. cbv beta. cbn [zip zip_with totalHits foldr fst snd].
    fold (totalHits T (zip labels predictions) j).
    destruct (decide (0 <= j < 0 + Z.to_nat topK)%nat);
      destruct (decide (j < Z.to_nat topK)%nat); lia.
Qed.

Lemma testRows_returns (labels : list (list Z)) :
  forall features precision,
    length labels = length features ->
    Forall (fun f => exists out,
              predict fuel T [] f bases topK = Some out
              /\ forall j, (j < Z.to_nat topK)%nat ->
                           is_Some (predictedLabel T out j)) features ->
    (Z.to_nat topK <= length precision)%nat ->
    exists precision',
      testRows fuel T labels features bases topK precision = Some precision'
      /\ length precision' = length precision.
Proof.
  induction labels as [|rl labels IH]; intros features pr Hlen Hall Hpr.
  - exists pr. split; reflexivity.
  - destruct features as [|f features]; [discriminate|].
    inversion Hall as [|? ? (out & Ho & Hout) Hall']; subst.
    cbn [testRows]. rewrite Ho.
    destruct (countRow_returns T out rl (Z.to_nat topK) 0 pr) as (pr1 & H1 & Hl1).
    { intros j Hj. apply Hout. lia. }
    { lia. }
    rewrite H1.
    destruct (IH features pr1 ltac:(cbn in Hlen; lia) Hall' ltac:(lia))
      as (pr' & H2 & Hl2).
    exists pr'. split; [exact H2 | lia].
Qed.

Lemma testRows_past_end (labels : list (list Z)) :
  forall features precision,
    length labels = length features ->
    Exists (fun rl => rl <> []) labels ->
    Forall (fun f => forall out,
              predict fuel T [] f bases topK = Some out ->
              (length out < Z.to_nat topK)%nat) features ->
    testRows fuel T labels features bases topK precision = None.
Proof.
  induction labels as [|rl labels IH]; intros features pr Hlen Hex Hall.
  - inversion Hex.
  - destruct features as [|f features]; [discriminate|].
    inversion Hall as [|? ? Hf Hall']; subst.
    cbn [testRows].
    destruct (predict fuel T [] f bases topK) as [out|] eqn:Eo; [|reflexivity].
    destruct (countRow T out rl (Z.to_nat topK) 0 pr) as [pr1|] eqn:Er;
      [|reflexivity].
    inversion Hex as [? ? Hne | ? ? Hex']; subst.
    + rewrite (countRow_past_end T out rl (length out) Hne) in Er;
        [discriminate | | ].
      * unfold predictedLabel. rewrite lookup_ge_None_2 by lia. reflexivity.
      * specialize (Hf out eq_refl). lia.
    + apply IH; [cbn in Hlen; lia | exact Hex' | exact Hall'].
Qed.

Lemma test_Some (labels : list (list Z)) (features : list Features)
    (precision : list Z) (printed : list (Z * Z)) :
  test fuel T labels features bases topK = Some (precision, printed) ->
  0 <= topK /\ length labels = length features
  /\ exists predictions,
       Forall2 (fun f out => predict fuel T [] f bases topK = Some out)
         features predictions
       /\ precision
          = totalHits T (zip labels predictions) <$> seq 0 (Z.to_nat topK)
       /\ printed
          = (fun m => (foldr Z.add 0 (take (S m) precision),
                       Z.of_nat (length features) * (Z.of_nat m + 1)))
              <$> seq 0 (Z.to_nat topK).
Proof.
  unfold test. destruct (Z.ltb_spec topK 0) as [|H0]; [discriminate|].
  destruct (Nat.eqb_spec (length features) (length labels)) as [Hlen|];
    [|discriminate].
  cbn [negb].
  destruct (testRows fuel T labels features bases topK
              (repeat 0 (Z.to_nat topK))) as [pr|] eqn:Er; [|discriminate].
  destruct (precisionAt (Z.of_nat (length features)) pr (Z.to_nat topK) 0 0)
    as [out|] eqn:Ep; [|discriminate].
  intros H. inversion H; subst pr out. clear H.
  split; [exact H0|]. split; [lia|].
  destruct (testRows_added labels features _ _ ltac:(lia) Er)
    as (predictions & Hall & Hadd).
  exists predictions. split; [exact Hall|].
  pose proof (added_length _ _ _ Hadd) as Hl. rewrite repeat_length in Hl.
  assert (Hprec : precision
            = totalHits T (zip labels predictions) <$> seq 0 (Z.to_nat topK)).
  { apply list_eq. intros j. rewrite (Hadd j), list_lookup_fmap.
    destruct (decide (j < Z.to_nat topK)%nat) as [Hj | Hj].
    - rewrite lookup_seq_lt by exact Hj.
      assert (Hrep : repeat 0 (Z.to_nat topK) !! j = Some 0).
      { clear - Hj. revert j Hj.
        induction (Z.to_nat topK) as [|n IH]; intros j Hj; [lia|].
        destruct j; [reflexivity|]. cbn. apply IH. lia. }
      rewrite Hrep. reflexivity.
    - rewrite lookup_seq_ge by lia.
      rewrite (lookup_ge_None_2 (repeat 0 (Z.to_nat topK)))
        by (rewrite repeat_length; lia).
      reflexivity. }
  split; [exact Hprec|].
  destruct (precisionAt_spec _ _ _ _ _ _ Ep) as [Hpl Hpm].
  apply list_eq. intros m. rewrite list_lookup_fmap.
  destruct (decide (m < Z.to_nat topK)%nat) as [Hm | Hm].
  - rewrite (Hpm m Hm), lookup_seq_lt by exact Hm. cbn.
    rewrite drop_0. reflexivity.
  - rewrite lookup_seq_ge by lia. apply lookup_ge_None_2. lia.
Qed.

End TestFacts.

(** X21.  What [PLTree::test] counts on its sequential path: when it
    returns, [args.topK] is not negative, every row was predicted, the
    counter [precision[i]] is the number of label entries, over all rows,
    that equal the label of the [i]-th prediction of their row, and the
    quotient printed for [P@i+1] is the sum of the counters up to [i] over
    [rows * (i + 1)]. *)
Theorem test_counts {PQ : PriorityQueue} (T : PLTree) (fuel : nat)
    (bases : list (Features -> Q)) (topK : Z) (labels : list (list Z))
    (features : list Features) (precision : list Z)
    (printed : list (Z * Z)) :
  test fuel T labels features bases topK = Some (precision, printed) ->
  0 <= topK /\ length labels = length features
  /\ exists predictions,
       Forall2 (fun f out => predict fuel T [] f bases topK = Some out)
         features predictions
       /\ precision
          = totalHits T (zip labels predictions) <$> seq 0 (Z.to_nat topK)
       /\ printed
          = (fun m => (foldr Z.add 0 (take (S m) precision),
                       Z.of_nat (length features) * (Z.of_nat m + 1)))
              <$> seq 0 (Z.to_nat topK).
Proof. apply test_Some. Qed.

Lemma test_counts_witness :
  exists predictions,
    Forall2 (fun f out =>
               predict (PQ := listQueue) 4 twoLabelTree [] f exampleBases 2
               = Some out) [[]; []] predictions
    /\ [1; 2]
       = totalHits twoLabelTree (zip [[1]; [0; 0]] predictions) <$> seq 0 2.
Proof.
  destruct (test_counts (PQ := listQueue) twoLabelTree 4 exampleBases 2
              [[1]; [0; 0]] [[]; []] [1; 2] [(1, 2); (3, 4)])
    as (_ & _ & predictions & H1 & H2 & _).
  - vm_compute. reflexivity.
  - exists predictions. split; [exact H1 | exact H2].
Defined.

Lemma hits_range (T : PLTree) (prediction : list TreeNodeProb) (i : nat)
    (rLabels : list Z) :
  NoDup rLabels -> 0 <= hits T prediction i rLabels <= 1.
Proof.
  intros Hnd. unfold hits.
  destruct (predictedLabel T prediction i) as [pl|]; [|lia].
  apply NoDup_ListNoDup in Hnd.
  pose proof (proj1 (List.NoDup_count_occ Z.eq_dec rLabels) Hnd pl). lia.
Qed.

Lemma totalHits_range (T : PLTree) (labels : list (list Z)) :
  Forall (@NoDup Z) labels ->
  forall predictions j,
    0 <= totalHits T (zip labels predictions) j
      <= Z.of_nat (length predictions).
Proof.
  induction 1 as [|rl labels Hrl Hall IH]; intros predictions j.
  - cbn. lia.
  - destruct predictions as [|out predictions]; [cbn; lia|].
    cbn [zip zip_with totalHits foldr fst snd length].
    fold (totalHits T (zip labels predictions) j).
    pose proof (hits_range T out j rl Hrl). specialize (IH predictions j).
    lia.
Qed.

Lemma sum_range (bound : Z) (l : list Z) :
  Forall (fun x => 0 <= x <= bound) l ->
  0 <= foldr Z.add 0 l <= bound * Z.of_nat (length l).
Proof.
  induction 1 as [|x l Hx Hl IH]; cbn [foldr length]; [lia|].
  rewrite Nat2Z.inj_succ. lia.
Qed.

(** X22.  Precision never exceeds one on rows without repeated labels:
    when no row of the dataset holds a label twice, every quotient that
    [PLTree::test] prints has a numerator between [0] and its
    denominator. *)
Theorem test_precision_at_most_one {PQ : PriorityQueue} (T : PLTree)
    (fuel : nat) (bases : list (Features -> Q)) (topK : Z)
    (labels : list (list Z)) (features : list Features)
    (precision : list Z) (printed : list (Z * Z)) :
  Forall (@NoDup Z) labels ->
  test fuel T labels features bases topK = Some (precision, printed) ->
  Forall (fun x => 0 <= x <= Z.of_nat (length features)) precision
  /\ Forall (fun cd => 0 <= cd.1 <= cd.2) printed.
Proof.
  intros Hnd Ht.
  destruct (test_Some T fuel bases topK labels features precision printed Ht)
    as (H0 & Hlen & predictions & Hall & Hprec & Hprinted).
  assert (Hrange : Forall (fun x => 0 <= x <= Z.of_nat (length features))
                     precision).
  { rewrite Hprec. apply Forall_fmap, Forall_forall. intros j _. cbn.
    rewrite (Forall2_length _ _ _ Hall).
    apply totalHits_range. exact Hnd. }
  split; [exact Hrange|].
  rewrite Hprinted. apply Forall_fmap, Forall_forall. intros m Hm. cbn.
  apply elem_of_seq in Hm.
  pose proof (sum_range (Z.of_nat (length features)) (take (S m) precision)
                (Forall_take _ _ _ Hrange)) as Hs.
  pose proof (length_take_le precision (S m)) as Hle.
  assert (length precision = Z.to_nat topK) as Hpl
    by (rewrite Hprec, length_fmap, length_seq; reflexivity).
  rewrite length_take in Hs.
  replace (S m `min` length precision)%nat with (S m) in Hs by lia.
  lia.
Qed.

Lemma test_precision_at_most_one_witness :
  Forall (fun cd : Z * Z => 0 <= cd.1 <= cd.2) [(2, 2); (2, 4)].
Proof.
  destruct (test_precision_at_most_one (PQ := listQueue) twoLabelTree 4
              exampleBases 2 [[1]; [1]] [[]; []] [2; 0] [(2, 2); (2, 4)])
    as [_ H].
  - repeat constructor; intros H; apply elem_of_nil in H; contradiction.
  - vm_compute. reflexivity.
  - exact H.
Defined.

Lemma complete_predictions {PQ : PriorityQueue}
    (a' ti : Z) (order : list Z) (T : PLTree)
    (bases : list (Features -> Q)) (topK : Z) (features : list Features) :
  complete a' ti order T ->
  (a' - 1) * (ti - 1) < Z.of_nat (length order) - 1 <= (a' - 1) * ti ->
  Forall (probabilities bases) features ->
  (length (tree T) <= length bases)%nat ->
  1 <= topK ->
  Forall (fun f => exists out,
            predict (S (length (tree T))) T [] f bases topK = Some out
            /\ Z.of_nat (length out) = Z.min topK (Z.of_nat (length order))
            /\ forall j, (j < length out)%nat ->
                         is_Some (predictedLabel T out j)) features.
Proof.
  intros Hc Hfill Hp Hbases Hk_. eapply Forall_impl; [exact Hp|].
  intros f Hf. cbn in Hf.
  destruct (complete_predict a' ti order T bases f topK Hc Hfill Hf Hbases Hk_)
    as (out & Hrun & Hcount & _ & _ & Hleaves).
  exists out. split; [exact Hrun|]. split; [exact Hcount|].
  intros j Hj. destruct (lookup_lt_is_Some_2 out j Hj) as [o Ho].
  unfold predictedLabel. rewrite Ho.
  rewrite Forall_forall in Hleaves.
  destruct (Hleaves o (list_elem_of_lookup_2 _ _ _ Ho)) as (nd & Hnd & _).
  rewrite Hnd. cbn. eauto.
Qed.

(** X23.  On the tree that [buildCompleteTree] makes for [k] labels, with
    a base for every node that predicts a probability in [0, 1] on every
    row, [PLTree::test] with [1 <= args.topK <= k] reads no prediction past
    the end: it returns [args.topK] counters and [args.topK] quotients. *)
Theorem buildCompleteTree_test {PQ : PriorityQueue}
    (shuffle : list Z -> list Z) (labelCount arity : Z)
    (randomizeTree : bool) (bases : list (Features -> Q)) (topK : Z)
    (labels : list (list Z)) (features : list Features) :
  1 <= labelCount ->
  (forall l, Permutation (shuffle l) l) ->
  Forall (probabilities bases) features ->
  completeTreeSize labelCount arity <= Z.of_nat (length bases) ->
  length labels = length features ->
  1 <= topK <= labelCount ->
  exists T precision printed,
    buildCompleteTree shuffle PLTree_new labelCount arity randomizeTree = Some T
    /\ test (S (Z.to_nat (t T))) T labels features bases topK
       = Some (precision, printed)
    /\ Z.of_nat (length precision) = topK
    /\ Z.of_nat (length printed) = topK.
Proof.
  intros Hk Hshuffle Hp Hbases Hlen HtopK.
  destruct (buildCompleteTree_filled shuffle labelCount arity randomizeTree
              Hk Hshuffle) as (T & Hb & HkT & HtT & Hlt & Hol & Hc & Hfill).
  destruct (completeTreeSize_cdiv labelCount arity Hk) as [Hsize _].
  pose proof (complete_predictions _ _ _ T bases topK features Hc Hfill Hp
                ltac:(lia) ltac:(lia)) as Hpred.
  destruct (testRows_returns T (S (length (tree T))) bases topK labels features
              (repeat 0 (Z.to_nat topK)) Hlen)
    as (precision & Hrows & Hpl).
  { eapply Forall_impl; [exact Hpred|]. cbn.
    intros f (out & Hrun & Hcount & Hlab). exists out. split; [exact Hrun|].
    intros j Hj. apply Hlab. lia. }
  { rewrite repeat_length. lia. }
  rewrite repeat_length in Hpl.
  destruct (precisionAt_returns (Z.of_nat (length features)) precision
              (Z.to_nat topK) 0 0 ltac:(lia)) as [printed Hprinted].
  exists T, precision, printed. split; [exact Hb|].
  replace (Z.to_nat (t T)) with (length (tree T)) by lia.
  split.
  { unfold test.
    replace (topK <? 0) with false by (symmetry; apply Z.ltb_ge; lia).
    rewrite Hlen, Nat.eqb_refl. cbn [negb]. rewrite Hrows, Hprinted.
    reflexivity. }
  split; [lia|].
  destruct (precisionAt_spec _ _ _ _ _ _ Hprinted) as [Hl _]. lia.
Qed.

Lemma buildCompleteTree_test_witness :
  exists T precision printed,
    buildCompleteTree keepOrder PLTree_new 2 2 false = Some T
    /\ test (PQ := listQueue) (S (Z.to_nat (t T))) T [[1]; [0; 0]] [[]; []]
         exampleBases 2 = Some (precision, printed)
    /\ Z.of_nat (length precision) = 2.
Proof.
  destruct (buildCompleteTree_test (PQ := listQueue) keepOrder 2 2 false
              exampleBases 2 [[1]; [0; 0]] [[]; []])
    as (T & precision & printed & H1 & H2 & H3 & _).
  - lia.
  - intros l. reflexivity.
  - repeat constructor; cbn; unfold Qle; cbn; lia.
  - vm_compute. discriminate.
  - reflexivity.
  - lia.
  - exists T, precision, printed. split; [exact H1|].
    split; [exact H2 | exact H3].
Defined.

(** X24.  Asked for more predictions than the tree has labels,
    [PLTree::test] reads past the end of [prediction]: on the tree that
    [buildCompleteTree] makes for [k] labels, with [args.topK > k] and a
    dataset in which some row has a label, every row is predicted with
    exactly [k] entries, and the counting loop indexes [prediction[i]] for
    an [i >= k]. *)
Theorem buildCompleteTree_test_past_end {PQ : PriorityQueue}
    (shuffle : list Z -> list Z) (labelCount arity : Z)
    (randomizeTree : bool) (bases : list (Features -> Q)) (topK : Z)
    (labels : list (list Z)) (features : list Features) :
  1 <= labelCount ->
  (forall l, Permutation (shuffle l) l) ->
  Forall (probabilities bases) features ->
  completeTreeSize labelCount arity <= Z.of_nat (length bases) ->
  length labels = length features ->
  labelCount < topK ->
  Exists (fun rLabels => rLabels <> []) labels ->
  exists T,
    buildCompleteTree shuffle PLTree_new labelCount arity randomizeTree = Some T
    /\ Forall (fun f => exists out,
                 predict (S (Z.to_nat (t T))) T [] f bases topK = Some out
                 /\ Z.of_nat (length out) = labelCount) features
    /\ test (S (Z.to_nat (t T))) T labels features bases topK = None.
Proof.
  intros Hk Hshuffle Hp Hbases Hlen HtopK Hex.
  destruct (buildCompleteTree_filled shuffle labelCount arity randomizeTree
              Hk Hshuffle) as (T & Hb & HkT & HtT & Hlt & Hol & Hc & Hfill).
  destruct (completeTreeSize_cdiv labelCount arity Hk) as [Hsize _].
  pose proof (complete_predictions _ _ _ T bases topK features Hc Hfill Hp
                ltac:(lia) ltac:(lia)) as Hpred.
  exists T. split; [exact Hb|].
  replace (Z.to_nat (t T)) with (length (tree T)) by lia. split.
  { eapply Forall_impl; [exact Hpred|]. cbn.
    intros f (out & Hrun & Hcount & _). exists out. split; [exact Hrun | lia]. }
  unfold test.
  replace (topK <? 0) with false by (symmetry; apply Z.ltb_ge; lia).
  rewrite Hlen, Nat.eqb_refl. cbn [negb].
  rewrite (testRows_past_end T (S (length (tree T))) bases topK labels features
             (repeat 0 (Z.to_nat topK)) Hlen Hex); [reflexivity|].
  eapply Forall_impl; [exact Hpred|]. cbn.
  intros f (out & Hrun & Hcount & _) out' Hrun'.
  rewrite Hrun in Hrun'. inversion Hrun'; subst out'. lia.
Qed.

Lemma buildCompleteTree_test_past_end_witness :
  exists T,
    buildCompleteTree keepOrder PLTree_new 2 2 false = Some T
    /\ test (PQ := listQueue) (S (Z.to_nat (t T))) T [[]; [0]] [[]; []]
         exampleBases 3 = None.
Proof.
  destruct (buildCompleteTree_test_past_end (PQ := listQueue) keepOrder 2 2
              false exampleBases 3 [[]; [0]] [[]; []])
    as (T & H1 & _ & H2).
  - lia.
  - intros l. reflexivity.
  - repeat constructor; cbn; unfold Qle; cbn; lia.
  - vm_compute. discriminate.
  - reflexivity.
  - lia.
  - apply Exists_cons_tl, Exists_cons_hd. discriminate.
  - exists T. split; [exact H1 | exact H2].
Defined.

Lemma countUntilSentinel_row (T : PLTree) (prediction : list TreeNodeProb)
    (i : nat) (rLabels rest : list Z) :
  Forall (fun l => -1 < l) rLabels ->
  forall precision,
    countUntilSentinel T prediction i (rLabels ++ -1 :: rest) precision
    = countLabels T prediction i rLabels precision.
Proof.
  induction 1 as [|l rl Hl Hrl IH]; intros pr.
  - reflexivity.
  - cbn [app countUntilSentinel countLabels].
    replace (-1 <? l) with true by (symmetry; apply Z.ltb_lt; exact Hl).
    destruct (predictedLabel T prediction i) as [pl|]; [|reflexivity].
    destruct (Z.eqb pl l); [|apply IH].
    destruct (pr !! i); [apply IH | reflexivity].
Qed.

Lemma countPoint_row (T : PLTree) (prediction : list TreeNodeProb)
    (rLabels rest : list Z) :
  Forall (fun l => -1 < l) rLabels ->
  forall rounds i precision,
    countPoint T prediction (rLabels ++ -1 :: rest) rounds i precision
    = countRow T prediction rLabels rounds i precision.
Proof.
  intros Hl rounds. induction rounds as [|rounds IH]; intros i pr.
  - reflexivity.
  - cbn [countPoint countRow].
    rewrite (countUntilSentinel_row T prediction i rLabels rest Hl).
    destruct (countLabels T prediction i rLabels pr); [apply IH | reflexivity].
Qed.

(** X25.  The worker of the parallel path counts what the sequential path
    counts: on an array that holds the labels of a row, all of them above
    [-1], followed by [-1], [pointTestThread] leaves in [precision] what
    the body of the sequential loop of [PLTree::test] leaves for that row,
    and it fails where that body fails; what follows the [-1] is never
    read. *)
Theorem pointTestThread_sequential {PQ : PriorityQueue} (fuel : nat)
    (T : PLTree) (rLabels rest : list Z) (features : Features)
    (bases : list (Features -> Q)) (topK : Z) (precision : list Z) :
  Forall (fun l => -1 < l) rLabels ->
  pointTestThread fuel T (rLabels ++ -1 :: rest) features bases topK precision
  = testRows fuel T [rLabels] [features] bases topK precision.
Proof.
  intros Hl. unfold pointTestThread. cbn [testRows].
  destruct (predict fuel T [] features bases topK) as [prediction|];
    [|reflexivity].
  rewrite (countPoint_row T prediction rLabels rest Hl).
  destruct (countRow T prediction rLabels (Z.to_nat topK) 0 precision);
    reflexivity.
Qed.

Lemma pointTestThread_sequential_witness :
  pointTestThread (PQ := listQueue) 4 twoLabelTree ([0; 1] ++ -1 :: [7]) []
    exampleBases 2 [0; 0]
  = testRows (PQ := listQueue) 4 twoLabelTree [[0; 1]] [[]] exampleBases 2
      [0; 0].
Proof.
  apply (pointTestThread_sequential (PQ := listQueue) 4 twoLabelTree [0; 1] [7]
           [] exampleBases 2 [0; 0]).
  repeat constructor.
Defined.

(** ** Reading a tree structure *)

(** The line of a structure file for a node: its parent, the node, its
    label. *)
Definition structureLine (n : TreeNode) : list Z :=
  [parentCode n; index n; label n].

(** The structure file of a tree whose root is its first node: [k], [t],
    then the lines of the other nodes in the order of [tree]. *)
Definition structureOf (T : PLTree) : list Z :=
  [k T; t T] ++ flat_map structureLine (drop 1 (tree T)).

(** The trees that a structure file can describe line by line. *)
Record structured (newLabel : Z) (T : PLTree) : Prop := mkStructured {
  s_indexed : indexed T;
  s_root : treeRoot T = Some 0%nat;
  s_first :
    exists n0, tree T !! 0%nat = Some n0 /\ parent n0 = None
               /\ label n0 = newLabel;
  s_parents :
    forall j n, tree T !! j = Some n -> (1 <= j)%nat ->
      exists q, parent n = Some q /\ (q < length (tree T))%nat;
  s_children :
    forall j n, tree T !! j = Some n ->
      children n = childrenUpTo T (length (tree T)) j;
  s_labels :
    forall j n, tree T !! j = Some n -> label n = newLabel \/ 0 <= label n;
  s_newLabel : newLabel < 0;
  s_distinct : distinctLeafLabels T;
  s_leaves :
    forall l i, treeLeaves T !! l = Some i <->
      exists n, tree T !! i = Some n /\ label n = l /\ 0 <= l;
  s_k : k T = Z.of_nat (size (treeLeaves T));
  s_t : t T = Z.of_nat (length (tree T))
}.

Section Structure.

Variable newLabel : Z.
Variable T : PLTree.
Hypothesis Hs : structured newLabel T.

(** The node at position [j] when the lines of the nodes below [m] have
    been read. *)
Definition structNode (m j : nat) (n : TreeNode) : TreeNode :=
  mkNode (index n)
    (if decide (j < m)%nat then label n else newLabel)
    (if decide (j < m)%nat then parent n else None)
    (childrenUpTo T m j).

Definition structTree (m : nat) : list TreeNode :=
  imap (structNode m) (tree T).

(** The leaves known when the lines of the nodes below [m] have been
    read. *)
Definition leavesBelow (m : nat) (leaves : gmap Z nat) : Prop :=
  forall l i, leaves !! l = Some i <->
    (i < m)%nat /\ exists n, tree T !! i = Some n /\ label n = l /\ 0 <= l.

Lemma structTree_length (m : nat) : length (structTree m) = length (tree T).
Proof. apply length_imap. Qed.

Lemma structTree_lookup (m j : nat) (n : TreeNode) :
  tree T !! j = Some n -> structTree m !! j = Some (structNode m j n).
Proof.
  intros H. unfold structTree. rewrite list_lookup_imap, H. reflexivity.
Qed.

Lemma structTree_start :
  ((fun i => mkNode (Z.of_nat i) newLabel None [])
     <$> seq 0 (length (tree T))) = structTree 1.
Proof.
  destruct (s_first _ _ Hs) as (n0 & Hn0 & Hp0 & Hl0).
  apply list_eq. intros j. rewrite list_lookup_fmap.
  destruct (tree T !! j) as [n|] eqn:Hn.
  - rewrite (structTree_lookup 1 j n Hn).
    rewrite lookup_seq_lt by (eapply lookup_lt_Some; exact Hn).
    cbn. f_equal. unfold structNode.
    rewrite (s_indexed _ _ Hs j n Hn).
    assert (Hch : childrenUpTo T 1 j = []).
    { unfold childrenUpTo. cbn [seq List.filter].
      rewrite bool_decide_eq_false_2; [reflexivity|].
      unfold parentOf. rewrite Hn0. cbn. rewrite Hp0. discriminate. }
    rewrite Hch.
    destruct (decide (j < 1)%nat) as [Hj | Hj]; [|reflexivity].
    assert (j = 0%nat) by lia. subst j.
    assert (n = n0) by congruence. subst n. rewrite Hp0, Hl0. reflexivity.
  - apply lookup_ge_None in Hn.
    rewrite lookup_seq_ge by lia. cbn. symmetry.
    apply lookup_ge_None. rewrite structTree_length. exact Hn.
Qed.

Lemma structTree_end : structTree (length (tree T)) = tree T.
Proof.
  apply list_eq. intros j. unfold structTree. rewrite list_lookup_imap.
  destruct (tree T !! j) as [n|] eqn:Hn; [|reflexivity].
  cbn. f_equal. unfold structNode.
  destruct (decide (j < length (tree T))%nat) as [_ | Hge];
    [|exfalso; apply Hge; eapply lookup_lt_Some; exact Hn].
  pose proof (s_children _ _ Hs j n Hn) as Hch.
  destruct n as [ni nl np nc]. cbn [index label parent children] in *.
  rewrite <- Hch. reflexivity.
Qed.

(** One line of the file, for the node [m] with the parent [q]. *)
Lemma structTree_step (m q : nat) (nm nq n' : TreeNode) :
  tree T !! m = Some nm -> parent nm = Some q -> tree T !! q = Some nq ->
  <[q := setChildren (children (structNode m q nq) ++ [m])
           (structNode m q nq)]> (structTree m) !! m = Some n' ->
  <[m := mkNode (index n') (label nm) (Some q) (children n')]>
    (<[q := setChildren (children (structNode m q nq) ++ [m])
             (structNode m q nq)]> (structTree m))
  = structTree (S m).
Proof.
  intros Hm Hp Hq Hn'.
  assert (Hpm : parentOf T m = Some q).
  { unfold parentOf. rewrite Hm. exact Hp. }
  assert (Hlm : (m < length (tree T))%nat) by (eapply lookup_lt_Some; eauto).
  assert (Hlq : (q < length (tree T))%nat) by (eapply lookup_lt_Some; eauto).
  apply list_eq. intros j.
  destruct (tree T !! j) as [nj|] eqn:Ej.
  2:{ apply lookup_ge_None in Ej.
      rewrite !(proj2 (lookup_ge_None _ _));
        rewrite ?length_insert, ?structTree_length; try lia. reflexivity. }
  rewrite (structTree_lookup (S m) j nj Ej).
  destruct (decide (j = m)) as [->|Hjm].
  - rewrite list_lookup_insert_eq
      by (rewrite length_insert, structTree_length; lia).
    f_equal. assert (nj = nm) by congruence. subst nj.
    destruct (decide (m = q)) as [->|Hmq].
    + rewrite list_lookup_insert_eq in Hn' by (rewrite structTree_length; lia).
      inversion Hn'; subst n'. assert (nq = nm) by congruence. subst nq.
      unfold structNode, setChildren. cbn [index label parent children].
      rewrite childrenUpTo_S.
      repeat case_decide; try lia; try congruence;
        try (rewrite ?Hp, ?app_nil_r; reflexivity).
    + rewrite list_lookup_insert_ne in Hn' by congruence.
      rewrite (structTree_lookup m m nm Hm) in Hn'.
      inversion Hn'; subst n'.
      unfold structNode. cbn [index label parent children].
      rewrite childrenUpTo_S.
      repeat case_decide; try lia; try congruence;
        try (rewrite ?Hp, ?app_nil_r; reflexivity).
  - rewrite list_lookup_insert_ne by congruence.
    destruct (decide (j = q)) as [->|Hjq].
    + rewrite list_lookup_insert_eq by (rewrite structTree_length; lia).
      f_equal. assert (nj = nq) by congruence. subst nj.
      unfold structNode, setChildren. cbn [index label parent children].
      rewrite childrenUpTo_S.
      repeat case_decide; try lia; try congruence;
        try (rewrite ?Hp, ?app_nil_r; reflexivity).
    + rewrite list_lookup_insert_ne by congruence.
      rewrite (structTree_lookup m j nj Ej). f_equal.
      unfold structNode. rewrite childrenUpTo_S.
      repeat case_decide; try lia; try congruence;
        try (rewrite ?Hp, ?app_nil_r; reflexivity).
Qed.

End Structure.

Lemma position_of_nat (T : PLTree) (i : nat) :
  (i < length (tree T))%nat -> position T (Z.of_nat i) = Some i.
Proof.
  intros Hi. unfold position.
  replace (Z.of_nat i <? 0) with false by (symmetry; apply Z.ltb_ge; lia).
  rewrite Nat2Z.id.
  destruct (lookup_lt_is_Some_2 (tree T) i Hi) as [n Hn]. rewrite Hn.
  reflexivity.
Qed.

(** One round of the loop of [loadTreeStructure] on a line that names a
    parent. *)
Lemma loadEdges_line (q c : nat) (lbl : Z) (rest : list Z) (count : nat)
    (Tx : PLTree) (pn cn : TreeNode) :
  tree Tx !! q = Some pn ->
  <[q := setChildren (children pn ++ [c]) pn]> (tree Tx) !! c = Some cn ->
  loadEdges (Z.of_nat q :: Z.of_nat c :: lbl :: rest) (S count) Tx
  = if Z.leb 0 lbl
    then loadEdges rest count
           (mkTree (k Tx) (t Tx)
              (<[c := setLabel lbl (setParent (Some q) cn)]>
                 (<[q := setChildren (children pn ++ [c]) pn]> (tree Tx)))
              (treeRoot Tx)
              (match treeLeaves Tx !! lbl with
               | Some _ => treeLeaves Tx
               | None => <[lbl := c]> (treeLeaves Tx)
               end))
    else loadEdges rest count
           (set_tree (<[c := setParent (Some q) cn]>
                        (<[q := setChildren (children pn ++ [c]) pn]>
                           (tree Tx))) Tx).
Proof.
  intros Hq Hc.
  pose proof (lookup_lt_Some _ _ _ Hq) as Hlq.
  pose proof (lookup_lt_Some _ _ _ Hc) as Hlc. rewrite length_insert in Hlc.
  cbn [loadEdges].
  replace (Z.of_nat q =? -1) with false by (symmetry; apply Z.eqb_neq; lia).
  rewrite (position_of_nat Tx q Hlq), (position_of_nat Tx c Hlc), Hq.
  cbv zeta. rewrite Hc. reflexivity.
Qed.

Section StructureLoad.

Variable newLabel : Z.
Variable T : PLTree.
Hypothesis Hs : structured newLabel T.

Lemma leavesBelow_step (m : nat) (nm : TreeNode) (leaves : gmap Z nat) :
  tree T !! m = Some nm -> leavesBelow T m leaves ->
  leavesBelow T (S m)
    (if Z.leb 0 (label nm)
     then match leaves !! label nm with
          | Some _ => leaves
          | None => <[label nm := m]> leaves
          end
     else leaves).
Proof.
  intros Hm Hinv. pose proof (s_distinct _ _ Hs) as Hd.
  destruct (Z.leb_spec 0 (label nm)) as [Hl | Hl].
  - destruct (leaves !! label nm) as [i|] eqn:Ei.
    { exfalso. apply Hinv in Ei. destruct Ei as (Hi & n & Hn & Hln & _).
      pose proof (Hd m i nm n Hm Hn Hl (eq_sym Hln)). lia. }
    intros l i. rewrite lookup_insert_Some. split.
    + intros [[<- <-] | [Hne Hli]].
      * split; [lia|]. exists nm. repeat split; [exact Hm | exact Hl].
      * apply Hinv in Hli. destruct Hli as (Hi & Hrest).
        split; [lia | exact Hrest].
    + intros (Hi & n & Hn & Hln & H0).
      destruct (decide (i = m)) as [-> | Him].
      * left. assert (n = nm) by congruence. subst n. split; [exact Hln|].
        reflexivity.
      * right. split.
        -- intros Heq. apply Him. symmetry.
           apply (Hd m i nm n Hm Hn Hl). congruence.
        -- apply Hinv. split; [lia|]. exists n. repeat split; assumption.
  - intros l i. split.
    + intros Hli. apply Hinv in Hli. destruct Hli as (Hi & Hrest).
      split; [lia | exact Hrest].
    + intros (Hi & n & Hn & Hln & H0). apply Hinv.
      destruct (decide (i = m)) as [-> | Him].
      * assert (n = nm) by congruence. subst n. lia.
      * split; [lia|]. exists n. repeat split; assumption.
Qed.

Lemma loadEdges_structure (rest : list Z) :
  forall rounds m Tx,
    (1 <= m)%nat -> (m + rounds)%nat = length (tree T) ->
    tree Tx = structTree newLabel T m ->
    leavesBelow T m (treeLeaves Tx) ->
    exists Tx',
      loadEdges (flat_map structureLine (drop m (tree T)) ++ rest) rounds Tx
      = Some (rest, Tx')
      /\ k Tx' = k Tx /\ t Tx' = t Tx /\ treeRoot Tx' = treeRoot Tx
      /\ tree Tx' = structTree newLabel T (length (tree T))
      /\ leavesBelow T (length (tree T)) (treeLeaves Tx').
Proof.
  intros rounds. induction rounds as [|rounds IH]; intros m Tx Hm Hlen Htree Hl.
  - assert (m = length (tree T)) by lia. subst m.
    rewrite drop_all. cbn [flat_map app].
    exists Tx. split; [destruct rest; reflexivity|].
    split; [reflexivity|]. split; [reflexivity|]. split; [reflexivity|].
    split; [exact Htree | exact Hl].
  - destruct (lookup_lt_is_Some_2 (tree T) m ltac:(lia)) as [nm Hnm].
    destruct (s_parents _ _ Hs m nm Hnm Hm) as (q & Hp & Hq).
    destruct (lookup_lt_is_Some_2 (tree T) q Hq) as [nq Hnq].
    rewrite (drop_S _ _ _ Hnm). cbn [flat_map structureLine app].
    unfold parentCode. rewrite Hp, (s_indexed _ _ Hs m nm Hnm).
    pose proof (structTree_lookup newLabel T m q nq Hnq) as Hxq.
    rewrite <- Htree in Hxq.
    set (pn := structNode newLabel T m q nq) in *.
    assert (Hcn : exists cn,
              <[q := setChildren (children pn ++ [m]) pn]> (tree Tx) !! m
              = Some cn).
    { apply lookup_lt_is_Some_2.
      rewrite length_insert, Htree, structTree_length. lia. }
    destruct Hcn as [cn Hcn].
    rewrite (loadEdges_line q m (label nm) _ rounds Tx pn cn Hxq Hcn).
    pose proof Hcn as Hcn'. rewrite Htree in Hcn'.
    pose proof (structTree_step newLabel T m q nm nq cn Hnm Hp Hnq Hcn')
      as Hstep.
    assert (Hlab : label cn = newLabel).
    { destruct (decide (m = q)) as [<- | Hmq].
      - rewrite list_lookup_insert_eq in Hcn'
          by (rewrite structTree_length; lia).
        inversion Hcn'. unfold pn, structNode. cbn [label setChildren].
        rewrite decide_False by lia. reflexivity.
      - rewrite list_lookup_insert_ne in Hcn' by congruence.
        rewrite (structTree_lookup newLabel T m m nm Hnm) in Hcn'.
        inversion Hcn'. unfold structNode. cbn [label].
        rewrite decide_False by lia. reflexivity. }
    pose proof (leavesBelow_step m nm (treeLeaves Tx) Hnm Hl) as Hl'.
    destruct (Z.leb_spec 0 (label nm)) as [H0 | H0].
    + destruct (IH (S m)
                  (mkTree (k Tx) (t Tx)
                     (<[m := setLabel (label nm) (setParent (Some q) cn)]>
                        (<[q := setChildren (children pn ++ [m]) pn]>
                           (tree Tx)))
                     (treeRoot Tx)
                     (match treeLeaves Tx !! label nm with
                      | Some _ => treeLeaves Tx
                      | None => <[label nm := m]> (treeLeaves Tx)
                      end)))
        as (Tx' & Hrun & Hk & Ht & Hr & Htr & Hlv).
      * lia.
      * lia.
      * cbn [tree]. rewrite Htree. exact Hstep.
      * exact Hl'.
      * exists Tx'. split; [exact Hrun|]. split; [exact Hk|].
        split; [exact Ht|]. split; [exact Hr|]. split; [exact Htr | exact Hlv].
    + destruct (IH (S m)
                  (set_tree (<[m := setParent (Some q) cn]>
                               (<[q := setChildren (children pn ++ [m]) pn]>
                                  (tree Tx))) Tx))
        as (Tx' & Hrun & Hk & Ht & Hr & Htr & Hlv).
      * lia.
      * lia.
      * cbn [tree set_tree]. rewrite Htree, <- Hstep. f_equal.
        unfold setParent. f_equal.
        destruct (s_labels _ _ Hs m nm Hnm) as [E | E]; [|lia].
        rewrite Hlab, E. reflexivity.
      * exact Hl'.
      * exists Tx'. split; [exact Hrun|]. split; [exact Hk|].
        split; [exact Ht|]. split; [exact Hr|]. split; [exact Htr | exact Hlv].
Qed.

Lemma loadTreeStructure_structured (rest : list Z) :
  loadTreeStructure newLabel (structureOf T ++ rest) PLTree_new
  = Some (rest, T).
Proof.
  destruct (s_first _ _ Hs) as (n0 & Hn0 & _).
  pose proof (lookup_lt_Some _ _ _ Hn0) as Hlen.
  pose proof (s_t _ _ Hs) as Ht. pose proof (s_k _ _ Hs) as Hk.
  unfold loadTreeStructure, structureOf. cbn [app tree PLTree_new treeLeaves].
  replace (Z.to_nat (t T)) with (length (tree T)) by lia.
  rewrite structTree_start by exact Hs.
  destruct (structTree newLabel T 1) as [|x xs] eqn:Ex.
  { pose proof (structTree_length newLabel T 1) as Hl0.
    rewrite Ex in Hl0. cbn in Hl0. lia. }
  rewrite <- Ex.
  destruct (loadEdges_structure rest (Z.to_nat (t T - 1)) 1
              (mkTree (k T) (t T) (structTree newLabel T 1) (Some 0%nat) ∅))
    as (Tx' & Hrun & Hk' & Ht' & Hr' & Htr & Hlv).
  - lia.
  - lia.
  - reflexivity.
  - intros l i. cbn [treeLeaves]. rewrite lookup_empty. split; [discriminate|].
    intros (Hi & n & Hn & Hln & H0). exfalso.
    assert (i = 0%nat) by lia. subst i.
    destruct (s_first _ _ Hs) as (n0' & Hn0' & _ & Hl0).
    assert (n = n0') by congruence. subst n.
    pose proof (s_newLabel _ _ Hs). lia.
  - rewrite Hrun. cbn [k t tree treeRoot treeLeaves] in Hk', Ht', Hr'.
    rewrite structTree_end in Htr by exact Hs.
    assert (Hleaves : treeLeaves Tx' = treeLeaves T).
    { apply map_eq. intros l.
      destruct (treeLeaves Tx' !! l) as [i|] eqn:E1.
      - apply Hlv in E1. destruct E1 as (_ & Hrest).
        symmetry. apply (s_leaves _ _ Hs). exact Hrest.
      - destruct (treeLeaves T !! l) as [i|] eqn:E2; [|reflexivity].
        apply (s_leaves _ _ Hs) in E2.
        assert (treeLeaves Tx' !! l = Some i) as E3.
        { apply Hlv. split; [|exact E2].
          destruct E2 as (n & Hn & _). eapply lookup_lt_Some; exact Hn. }
        congruence. }
    rewrite Htr, Ht', Hk', Hleaves, Ht, Hk, !Z.eqb_refl. cbn [andb].
    pose proof (s_root _ _ Hs) as Hroot.
    do 2 f_equal. destruct T, Tx'. cbn in *. congruence.
Qed.

End StructureLoad.

Lemma complete_structured (a' ti : Z) (order : list Z) (T : PLTree) :
  complete a' ti order T ->
  1 <= ti ->
  t T = Z.of_nat (length (tree T)) ->
  k T = Z.of_nat (length order) ->
  structured (-1) T.
Proof.
  intros Hc Hti Ht Hk.
  pose proof (complete_nonneg _ _ _ _ Hc) as Hnn. rewrite Forall_forall in Hnn.
  pose proof (complete_arity _ _ _ _ Hc) as Ha.
  assert (Hge : forall j n, tree T !! j = Some n -> 0 <= label n ->
            ti <= Z.of_nat j
            /\ order !! Z.to_nat (Z.of_nat j - ti) = Some (label n)).
  { intros j n Hn H0.
    destruct (complete_nodes _ _ _ _ Hc j n Hn) as (_ & Hl & _).
    unfold expectedLabel in Hl.
    destruct (Z.leb_spec ti (Z.of_nat j)) as [Hle | Hlt].
    - split; [exact Hle | symmetry; exact Hl].
    - inversion Hl. lia. }
  assert (Hlt : forall j n, tree T !! j = Some n ->
            label n = -1 \/ (0 <= label n /\ ti <= Z.of_nat j
              /\ order !! Z.to_nat (Z.of_nat j - ti) = Some (label n))).
  { intros j n Hn.
    destruct (complete_nodes _ _ _ _ Hc j n Hn) as (_ & Hl & _).
    unfold expectedLabel in Hl.
    destruct (Z.leb_spec ti (Z.of_nat j)) as [Hle | Hlt].
    - right. split; [|split; [exact Hle | symmetry; exact Hl]].
      apply Hnn. apply list_elem_of_lookup. eexists. symmetry. exact Hl.
    - left. inversion Hl. reflexivity. }
  constructor.
  - exact (complete_indexed _ _ _ _ Hc).
  - exact (complete_root _ _ _ _ Hc).
  - destruct (lookup_lt_is_Some_2 (tree T) 0 (complete_nonempty _ _ _ _ Hc))
      as [n0 Hn0].
    exists n0. split; [exact Hn0|].
    destruct (complete_nodes _ _ _ _ Hc 0%nat n0 Hn0) as (_ & Hl & Hp).
    split; [exact Hp|]. unfold expectedLabel in Hl.
    replace (ti <=? Z.of_nat 0) with false in Hl
      by (symmetry; apply Z.leb_gt; lia).
    inversion Hl. reflexivity.
  - intros j n Hn Hj.
    destruct (complete_nodes _ _ _ _ Hc j n Hn) as (_ & _ & Hp).
    destruct (expectedParent a' j) as [q|] eqn:Eq.
    + exists q. split; [exact Hp|].
      pose proof (expectedParent_lt a' j q Ha Eq).
      pose proof (lookup_lt_Some _ _ _ Hn). lia.
    + unfold expectedParent in Eq.
      replace (0 <? Z.of_nat j) with true in Eq
        by (symmetry; apply Z.ltb_lt; lia).
      discriminate.
  - intros j n Hn. rewrite (complete_children _ _ _ _ Hc j n Hn).
    unfold childrenUpTo, expectedChildren. apply List.filter_ext_in.
    intros c Hin. apply in_seq in Hin. apply bool_decide_ext.
    destruct (lookup_lt_is_Some_2 (tree T) c ltac:(lia)) as [nc Hnc].
    unfold parentOf. rewrite Hnc. cbn.
    destruct (complete_nodes _ _ _ _ Hc c nc Hnc) as (_ & _ & ->).
    reflexivity.
  - intros j n Hn. destruct (Hlt j n Hn) as [E | (H0 & _)]; [left | right];
      assumption.
  - lia.
  - intros i j ni nj Hi Hj H0 Heq.
    destruct (Hge i ni Hi H0) as [Hi1 Hi2].
    destruct (Hge j nj Hj ltac:(lia)) as [Hj1 Hj2].
    rewrite <- Heq in Hj2.
    pose proof (NoDup_lookup _ _ _ _ (complete_order _ _ _ _ Hc) Hi2 Hj2).
    lia.
  - intros l i. rewrite (complete_leaves _ _ _ _ Hc l i). split.
    + intros (Hi1 & Hi2 & Hi3).
      destruct (lookup_lt_is_Some_2 (tree T) i Hi2) as [n Hn].
      exists n. split; [exact Hn|].
      assert (H0 : 0 <= l).
      { apply Hnn. apply list_elem_of_lookup. eexists. exact Hi3. }
      split; [|exact H0].
      destruct (Hlt i n Hn) as [E | (_ & _ & E)].
      * destruct (complete_nodes _ _ _ _ Hc i n Hn) as (_ & Hl & _).
        unfold expectedLabel in Hl.
        replace (ti <=? Z.of_nat i) with true in Hl
          by (symmetry; apply Z.leb_le; lia).
        congruence.
      * congruence.
    + intros (n & Hn & Hl & H0). subst l.
      destruct (Hge i n Hn H0) as [H1 H2].
      split; [exact H1|]. split; [eapply lookup_lt_Some; exact Hn | exact H2].
  - rewrite Hk. f_equal.
    rewrite <- (size_dom (D := gset Z) (treeLeaves T)).
    assert (Hdom : dom (treeLeaves T) = list_to_set (C := gset Z) order).
    { apply set_eq. intros l. rewrite elem_of_dom, elem_of_list_to_set. split.
      - intros [i Hi]. apply (complete_leaves _ _ _ _ Hc) in Hi.
        destruct Hi as (_ & _ & Hi). apply list_elem_of_lookup. eauto.
      - intros Hin.
        destruct (complete_leaf _ _ _ _ Hc l Hin) as (n & _ & Hn & _). eauto. }
    rewrite Hdom. symmetry. apply size_list_to_set.
    exact (complete_order _ _ _ _ Hc).
  - exact Ht.
Qed.

(** X26.  [PLTree::loadTreeStructure] reads back any tree described line
    by line: for a tree whose root is its first node and carries the label
    of a new node, whose nodes record their positions, whose other nodes
    have a parent, whose lists of children hold the nodes that name the
    node as parent by increasing position, whose labels are distinct where
    they are not negative, and whose [k], [t] and [treeLeaves] agree with
    its nodes, the file made of [k], [t] and one line [parent child label]
    for every node but the first loads into this very tree, and what
    follows in the file is left unread. *)
Theorem loadTreeStructure_reads_structure (newLabel : Z) (T : PLTree)
    (rest : list Z) :
  structured newLabel T ->
  loadTreeStructure newLabel (structureOf T ++ rest) PLTree_new
  = Some (rest, T).
Proof. intros Hs. apply loadTreeStructure_structured. exact Hs. Qed.

(** X27.  A complete tree can be given as a structure file: for at least
    two labels, the tree that [buildCompleteTree] makes has as many leaves
    in [treeLeaves] as [k] says, and [loadTreeStructure], given a
    constructor that labels new nodes with [-1], reads the file that
    lists its nodes after the root back into the same tree. *)
Theorem buildCompleteTree_loadTreeStructure
    (shuffle : list Z -> list Z) (labelCount arity : Z)
    (randomizeTree : bool) (rest : list Z) :
  2 <= labelCount ->
  (forall l, Permutation (shuffle l) l) ->
  exists T,
    buildCompleteTree shuffle PLTree_new labelCount arity randomizeTree = Some T
    /\ Z.of_nat (size (treeLeaves T)) = labelCount
    /\ loadTreeStructure (-1) (structureOf T ++ rest) PLTree_new
       = Some (rest, T).
Proof.
  intros Hk Hshuffle.
  destruct (buildCompleteTree_filled shuffle labelCount arity randomizeTree
              ltac:(lia) Hshuffle)
    as (T & Hb & HkT & HtT & Hlt & Hol & Hc & Hfill).
  assert (Hs : structured (-1) T).
  { eapply complete_structured; [exact Hc | | lia | lia].
    pose proof (complete_arity _ _ _ _ Hc) as Ha.
    pose proof (complete_internal _ _ _ _ Hc) as Hti.
    destruct (Z.le_gt_cases 1 (cdiv (labelCount - 1)
                                 ((if 2 <? arity then arity else 2) - 1)))
      as [H1 | H1]; [exact H1|].
    exfalso. nia. }
  exists T. split; [exact Hb|]. split.
  - rewrite <- (s_k _ _ Hs). exact HkT.
  - apply (loadTreeStructure_structured (-1) T Hs).
Qed.

Lemma twoLabelTree_structured : structured (-1) twoLabelTree.
Proof.
  destruct (buildCompleteTree_filled keepOrder 2 2 false ltac:(lia)
              (fun l => Permutation_refl l))
    as (T & Hb & HkT & HtT & Hlt & Hol & Hc & Hfill).
  rewrite twoLabelTree_built in Hb. inversion Hb; subst T.
  eapply complete_structured; [exact Hc | | reflexivity | ].
  - vm_compute. discriminate.
  - rewrite Hol. reflexivity.
Qed.

Lemma loadTreeStructure_reads_structure_witness :
  loadTreeStructure (-1) (structureOf twoLabelTree ++ [7]) PLTree_new
  = Some ([7], twoLabelTree).
Proof.
  apply (loadTreeStructure_reads_structure (-1) twoLabelTree [7]).
  exact twoLabelTree_structured.
Defined.

Lemma buildCompleteTree_loadTreeStructure_witness :
  exists T,
    buildCompleteTree keepOrder PLTree_new 2 2 false = Some T
    /\ loadTreeStructure (-1) (structureOf T ++ []) PLTree_new = Some ([], T).
Proof.
  destruct (buildCompleteTree_loadTreeStructure keepOrder 2 2 false [])
    as (T & H1 & _ & H2).
  - lia.
  - intros l. reflexivity.
  - exists T. split; [exact H1 | exact H2].
Defined.

(** X28.  A structure file that announces no node makes
    [loadTreeStructure] index an empty vector: on a new tree, with
    [t <= 0] in the file, no node is pushed and [treeRoot = tree[0]] reads
    out of range, whatever follows in the file. *)
Theorem loadTreeStructure_no_nodes (newLabel kN tN : Z) (rest : list Z) :
  tN <= 0 ->
  loadTreeStructure newLabel (kN :: tN :: rest) PLTree_new = None.
Proof.
  intros Ht. unfold loadTreeStructure.
  replace (Z.to_nat tN) with 0%nat by lia. reflexivity.
Qed.

Lemma loadTreeStructure_no_nodes_witness :
  loadTreeStructure (-1) [0; 0; 5] PLTree_new = None.
Proof. apply (loadTreeStructure_no_nodes (-1) 0 0 [5]). lia. Defined.

End PLTProofs.
